(** * WebBS: a verification development for the compiler core

    The development follows the layout of the compiler sources:
    - [ByteCode]: the numeric encoders and the opcode table of the byte
      code container (byteCode.js);
    - [OperatorTable]: the operator table (operatorTable.js);
    - [Lexer]: the sticky-regex tokenizer (lexer.js);
    - [ModuleCodeGen]: index-space ordering (moduleCodeGen.js);
    - [Validation]: the semantic validation walk (validation.js);
    - [FunctionCodeGen]: function body emission (functionCodeGen.js).

    JavaScript numbers that hold integers are modelled by [Z]; the 32-bit
    coercions that the bitwise operators perform are written out. *)

From Equations Require Import Equations.
From stdpp Require Import base gmap strings list.
From Stdlib Require Import ZArith Zdiv Lia DecimalString.

#[local] Open Scope Z_scope.

(** [inspect x] keeps the equation between [x] and the pattern it is matched
    against; the recursive definitions use it to remember a loop test. *)
Definition inspect {A : Type} (x : A) : {y : A | x = y} := exist _ x eq_refl.

(** ** JavaScript integer coercions *)

(** [ToInt32]: the coercion applied to both operands of [&], [|] and [>>]. *)
Definition ToInt32 (number : Z) : Z := (number + 2 ^ 31) mod 2 ^ 32 - 2 ^ 31.

(** [ToUint32]: the coercion applied to the left operand of [>>>]. *)
Definition ToUint32 (number : Z) : Z := number mod 2 ^ 32.

Lemma ToInt32_range number : - 2 ^ 31 <= ToInt32 number < 2 ^ 31.
Proof. unfold ToInt32. pose proof (Z.mod_pos_bound (number + 2 ^ 31) (2 ^ 32)). lia. Qed.

Lemma ToInt32_small number : - 2 ^ 31 <= number < 2 ^ 31 -> ToInt32 number = number.
Proof. intros H. unfold ToInt32. rewrite Z.mod_small; lia. Qed.

Lemma ToInt32_idem number : ToInt32 (ToInt32 number) = ToInt32 number.
Proof. apply ToInt32_small, ToInt32_range. Qed.

Lemma ToUint32_small number : 0 <= number < 2 ^ 32 -> ToUint32 number = number.
Proof. intros H. unfold ToUint32. apply Z.mod_small; lia. Qed.

(** ** Syntax (syntax.js): the types of AST nodes and the run types *)

Module Syntax.

(** The ASTypes, in the order in which syntax.js declares them. *)
Inductive ASType : Set :=
| ADD | ADDRESS | ADDRESS_CLOSE | ALLOCATE_PAGES | AND | ARG_LIST | AS | ASSIGN
| BAD_TOKEN | BITWISE_AND | BITWISE_OR | BITWISE_SHIFT | BITWISE_XOR | BLOCK
| BLOCK_CLOSE | BREAK | CALL | COMMA | COMMENT | CONTINUE | DECLARATION
| DEFAULT_MEMORY | DEFAULT_TABLE | DEFINITION | ELSE | END_OF_INPUT
| EQ_COMPARISON | EXPORT | EXPORT_TYPE | F32_LITERAL | F64_LITERAL | FN | FN_PTR
| FN_SIGNATURE | FROM | I32_LITERAL | I64_LITERAL | IF | IMMUTABLE | IMPORT
| INIT_EXPR | LOOP | MEMORY_ACCESS | MISC_INFIX | NEG | OR | ORDER_COMPARISON
| PAGES_ALLOCATED | PARAM_LIST | PAREN | PAREN_CLOSE | PASS | PTR | RETURN | ROOT
| SCALE_OP | SEMICOLON | STRING | STORAGE_TYPE | SUB | SUFFIX_OP | TYPE_LIST
| UNARY_MATH_OP | VALUE_TYPE | VARIABLE | VOID | WS | YIELD.

#[global] Instance ASType_eq_dec : EqDecision ASType.
Proof. solve_decision. Defined.

(** [skip]: white space and comments are ignored by the parser. *)
Definition skip (type : ASType) : bool :=
  match type with COMMENT | WS => true | _ => false end.

(** Run types are the strings "i32", "i64", "f32", "f64" and "void". *)
Inductive RunType : Set := i32 | i64 | f32 | f64 | void.

#[global] Instance RunType_eq_dec : EqDecision RunType.
Proof. solve_decision. Defined.

Definition RunType_text (runType : RunType) : string :=
  match runType with
  | i32 => "i32" | i64 => "i64" | f32 => "f32" | f64 => "f64" | void => "void"
  end.

End Syntax.
Export Syntax.

(** ** The byte code container (byteCode.js) *)

Module ByteCode.

(** *** Signed LEB128, [function LEB (number, buffer = [])] *)

(** The test that ends the recursion of [LEB]. *)
Definition LEB_done (number signBit : Z) : bool :=
  ((number =? 0) && (signBit =? 0)) || ((number =? -1) && negb (signBit =? 0)).

(** The recursions of [LEB] and [uLEB] are measured by the bit length of
    the 32-bit value that is left to encode. *)
Definition bits (number : Z) : nat := Z.to_nat (Z.log2 (Z.abs number)).

Lemma bits_lt a b : 2 <= Z.abs b -> 2 * Z.abs a <= Z.abs b -> (bits a < bits b)%nat.
Proof.
  intros Hb Hab. unfold bits.
  pose proof (Z.log2_nonneg (Z.abs a)). pose proof (Z.log2_nonneg (Z.abs b)).
  apply Z2Nat.inj_lt; try lia.
  destruct (Z.eq_dec (Z.abs a) 0) as [->|Ha].
  - change (Z.log2 0) with 0. apply Z.log2_pos. lia.
  - pose proof (Z.log2_double (Z.abs a) ltac:(lia)).
    pose proof (Z.log2_le_mono (2 * Z.abs a) (Z.abs b) ltac:(lia)). lia.
Qed.

Lemma LEB_decreases number :
  LEB_done (Z.shiftr (ToInt32 number) 7)
           (Z.land (Z.land (ToInt32 number) 127) 64) = false ->
  (bits (ToInt32 (Z.shiftr (ToInt32 number) 7)) < bits (ToInt32 number))%nat.
Proof.
  intros Hd. pose proof (ToInt32_range number) as Hr.
  set (n := ToInt32 number) in *.
  rewrite Z.shiftr_div_pow2 in * by lia.
  change (2 ^ 7) with 128 in *.
  assert (Hm : n = 128 * (n / 128) + n mod 128) by (apply Z.div_mod; lia).
  pose proof (Z.mod_pos_bound n 128 ltac:(lia)) as Hb.
  rewrite ToInt32_small by lia.
  destruct (Z.eq_dec n 0) as [->|Hn0]; [ by vm_compute in Hd |].
  destruct (Z.eq_dec n 1) as [->|Hn1]; [ by vm_compute in Hd |].
  destruct (Z.eq_dec n (-1)) as [->|Hn2]; [ by vm_compute in Hd |].
  apply bits_lt; lia.
Qed.

Equations LEB (number : Z) (buffer : list Z) : list Z
  by wf (bits (ToInt32 number)) lt :=
LEB number buffer
  with inspect (LEB_done (Z.shiftr (ToInt32 number) 7)
                         (Z.land (Z.land (ToInt32 number) 127) 64)) := {
  | exist _ true _ => buffer ++ [Z.land (ToInt32 number) 127];
  | exist _ false Hd =>
      LEB (Z.shiftr (ToInt32 number) 7)
          (buffer ++ [Z.lor (Z.land (ToInt32 number) 127) 128]) }.
Next Obligation. intros. by apply LEB_decreases. Qed.

Lemma LEB_step number buffer :
  LEB number buffer =
  if LEB_done (Z.shiftr (ToInt32 number) 7) (Z.land (Z.land (ToInt32 number) 127) 64)
  then buffer ++ [Z.land (ToInt32 number) 127]
  else LEB (Z.shiftr (ToInt32 number) 7)
           (buffer ++ [Z.lor (Z.land (ToInt32 number) 127) 128]).
Proof.
  funelim (LEB number buffer).
  - by rewrite e.
  - by rewrite Hd.
Qed.

(** *** Unsigned LEB128, [function uLEB (number, buffer = [])] *)

Lemma uLEB_decreases number :
  (Z.shiftr (ToUint32 number) 7 =? 0) = false ->
  (bits (ToUint32 (Z.shiftr (ToUint32 number) 7)) < bits (ToUint32 number))%nat.
Proof.
  intros Hd%Z.eqb_neq. unfold ToUint32 in *.
  pose proof (Z.mod_pos_bound number (2 ^ 32) ltac:(lia)) as Hr.
  set (n := number mod 2 ^ 32) in *.
  rewrite Z.shiftr_div_pow2 in * by lia. change (2 ^ 7) with 128 in *.
  assert (Hm : n = 128 * (n / 128) + n mod 128) by (apply Z.div_mod; lia).
  pose proof (Z.mod_pos_bound n 128 ltac:(lia)) as Hb.
  rewrite Z.mod_small by lia. apply bits_lt; lia.
Qed.

Equations uLEB (number : Z) (buffer : list Z) : list Z
  by wf (bits (ToUint32 number)) lt :=
uLEB number buffer with inspect (Z.shiftr (ToUint32 number) 7 =? 0) := {
  | exist _ true _ => buffer ++ [Z.land (ToInt32 number) 127];
  | exist _ false Hd =>
      uLEB (Z.shiftr (ToUint32 number) 7)
           (buffer ++ [Z.lor (Z.land (ToInt32 number) 127) 128]) }.
Next Obligation. intros. by apply uLEB_decreases. Qed.

Lemma uLEB_step number buffer :
  uLEB number buffer =
  if Z.shiftr (ToUint32 number) 7 =? 0
  then buffer ++ [Z.land (ToInt32 number) 127]
  else uLEB (Z.shiftr (ToUint32 number) 7)
            (buffer ++ [Z.lor (Z.land (ToInt32 number) 127) 128]).
Proof.
  funelim (uLEB number buffer).
  - by rewrite e.
  - by rewrite Hd.
Qed.

(** *** The reader's side

    The emitted module is read by the target VM.  Its two varint readers
    are the standard LEB128 ones: seven payload bits per byte, least
    significant group first, bit 7 set on every byte but the last; the
    signed reader extends the sign from bit 6 of the last byte. *)

Fixpoint uLEB_decode (bytes : list Z) : Z :=
  match bytes with
  | [] => 0
  | byte :: rest =>
      if Z.testbit byte 7
      then Z.land byte 127 + 128 * uLEB_decode rest
      else Z.land byte 127
  end.

Fixpoint LEB_decode (bytes : list Z) : Z :=
  match bytes with
  | [] => 0
  | byte :: rest =>
      if Z.testbit byte 7
      then Z.land byte 127 + 128 * LEB_decode rest
      else if Z.testbit byte 6 then Z.land byte 127 - 128 else Z.land byte 127
  end.

(** Facts about one LEB128 byte, settled by running through the 128 payloads. *)
Lemma payload_check (f : Z -> bool) :
  forallb f (Z.of_nat <$> seq 0 128) = true ->
  forall b, 0 <= b < 128 -> f b = true.
Proof.
  intros Hall b Hb. rewrite forallb_forall in Hall. apply Hall.
  apply list_elem_of_In, list_elem_of_fmap. exists (Z.to_nat b). split; [lia|].
  apply elem_of_seq. lia.
Qed.

Lemma payload_bits b :
  0 <= b < 128 ->
  Z.lor b 128 = b + 128 /\ Z.land b 127 = b /\ Z.land (b + 128) 127 = b /\
  Z.testbit b 7 = false /\ Z.testbit (b + 128) 7 = true /\
  (Z.land b 64 =? 0) = negb (Z.testbit b 6).
Proof.
  intros Hb.
  pose proof (payload_check (fun b =>
    (Z.lor b 128 =? b + 128) && (Z.land b 127 =? b) && (Z.land (b + 128) 127 =? b) &&
    negb (Z.testbit b 7) && Z.testbit (b + 128) 7 &&
    Bool.eqb (Z.land b 64 =? 0) (negb (Z.testbit b 6))) eq_refl b Hb) as H.
  repeat (apply andb_prop in H as [H ?]).
  rewrite ?Z.eqb_eq, ?negb_true_iff, ?Bool.eqb_true_iff in *. repeat split; assumption.
Qed.

Lemma land_127 number : Z.land number 127 = number mod 128.
Proof. change 127 with (Z.ones 7). rewrite Z.land_ones by lia. done. Qed.

Lemma ToInt32_mod_128 number : ToInt32 number mod 128 = number mod 128.
Proof.
  unfold ToInt32.
  replace ((number + 2 ^ 31) mod 2 ^ 32 - 2 ^ 31)
    with ((number + 2 ^ 31) mod 2 ^ 32 + (- 2 ^ 24) * 128) by lia.
  rewrite Z.mod_add by lia.
  rewrite Z.mod_mod_divide by (by exists (2 ^ 25)).
  replace (number + 2 ^ 31) with (number + 2 ^ 24 * 128) by lia.
  apply Z.mod_add. lia.
Qed.

(** Induction along the recursive calls of [LEB]. *)
Lemma LEB_rec (P : Z -> Prop) :
  (forall number,
     (LEB_done (Z.shiftr (ToInt32 number) 7)
               (Z.land (Z.land (ToInt32 number) 127) 64) = false ->
      P (Z.shiftr (ToInt32 number) 7)) ->
     P number) ->
  forall number, P number.
Proof.
  intros Hstep number.
  remember (bits (ToInt32 number)) as m eqn:Hm. revert number Hm.
  induction m as [m IH] using lt_wf_ind. intros number ->.
  apply Hstep. intros Hd. eapply IH; [| reflexivity]. by apply LEB_decreases.
Qed.

Lemma uLEB_rec (P : Z -> Prop) :
  (forall number,
     ((Z.shiftr (ToUint32 number) 7 =? 0) = false -> P (Z.shiftr (ToUint32 number) 7)) ->
     P number) ->
  forall number, P number.
Proof.
  intros Hstep number.
  remember (bits (ToUint32 number)) as m eqn:Hm. revert number Hm.
  induction m as [m IH] using lt_wf_ind. intros number ->.
  apply Hstep. intros Hd. eapply IH; [| reflexivity]. by apply uLEB_decreases.
Qed.

(** [buffer.push] appends: the bytes of a call are added behind the buffer
    it was given. *)
Lemma LEB_app number buffer : LEB number buffer = buffer ++ LEB number [].
Proof.
  revert buffer. pattern number. apply LEB_rec. clear number. intros number IH buffer.
  rewrite (LEB_step number buffer), (LEB_step number []).
  destruct (LEB_done _ _); [done|].
  rewrite IH by done. rewrite (IH eq_refl ([] ++ _)). by rewrite app_assoc.
Qed.

Lemma uLEB_app number buffer : uLEB number buffer = buffer ++ uLEB number [].
Proof.
  revert buffer. pattern number. apply uLEB_rec. clear number. intros number IH buffer.
  rewrite (uLEB_step number buffer), (uLEB_step number []).
  destruct (_ =? 0); [done|].
  rewrite IH by done. rewrite (IH eq_refl ([] ++ _)). by rewrite app_assoc.
Qed.

(** What the signed reader gets back from [LEB]: the 32-bit two's
    complement reading of the number, whatever number was supplied. *)
Lemma LEB_decode_LEB number : LEB_decode (LEB number []) = ToInt32 number.
Proof.
  pattern number. apply LEB_rec. clear number. intros number IH.
  rewrite LEB_step. pose proof (ToInt32_range number) as Hr.
  set (n := ToInt32 number) in *.
  rewrite Z.shiftr_div_pow2 in * by lia. change (2 ^ 7) with 128 in *.
  rewrite land_127 in *.
  assert (Hm : n = 128 * (n / 128) + n mod 128) by (apply Z.div_mod; lia).
  pose proof (Z.mod_pos_bound n 128 ltac:(lia)) as Hb.
  destruct (payload_bits (n mod 128) Hb) as (Hor & Hland & Hland' & Hb7 & Hb7' & Hb6).
  destruct (LEB_done _ _) eqn:Hd.
  - cbn [app LEB_decode]. rewrite Hb7, Hland. unfold LEB_done in Hd.
    rewrite Hb6 in Hd.
    destruct (Z.testbit (n mod 128) 6); cbn in Hd;
      rewrite ?andb_true_r, ?andb_false_r, ?orb_false_r in Hd; cbn in Hd;
      apply Z.eqb_eq in Hd; lia.
  - rewrite LEB_app. cbn [app LEB_decode]. rewrite Hor, Hb7', Hland'.
    rewrite IH by done. rewrite ToInt32_small by lia. lia.
Qed.

(** What the unsigned reader gets back from [uLEB]. *)
Lemma uLEB_decode_uLEB number : uLEB_decode (uLEB number []) = ToUint32 number.
Proof.
  pattern number. apply uLEB_rec. clear number. intros number IH.
  rewrite uLEB_step. rewrite land_127, ToInt32_mod_128.
  assert (Hn : number mod 128 = ToUint32 number mod 128).
  { unfold ToUint32. by rewrite Z.mod_mod_divide by (by exists (2 ^ 25)). }
  rewrite Hn.
  assert (Hr : 0 <= ToUint32 number < 2 ^ 32) by (apply Z.mod_pos_bound; lia).
  set (n := ToUint32 number) in *.
  rewrite Z.shiftr_div_pow2 in * by lia. change (2 ^ 7) with 128 in *.
  assert (Hm : n = 128 * (n / 128) + n mod 128) by (apply Z.div_mod; lia).
  pose proof (Z.mod_pos_bound n 128 ltac:(lia)) as Hb.
  destruct (payload_bits (n mod 128) Hb) as (Hor & Hland & Hland' & Hb7 & Hb7' & Hb6).
  destruct (_ =? 0) eqn:Hd.
  - cbn [app uLEB_decode]. rewrite Hb7, Hland. apply Z.eqb_eq in Hd. lia.
  - rewrite uLEB_app. cbn [app uLEB_decode]. rewrite Hor, Hb7', Hland'.
    rewrite IH by done. rewrite ToUint32_small by lia. lia.
Qed.

(** *** The code table

    [codeTable] starts with the non-instruction codes; the loop at the end
    of byteCode.js then gives every named slot of [opCodes] its position. *)

Definition codeTable_initial : list (string * Z) :=
  [
    ("i32", 127);
    ("i64", 126);
    ("f32", 125);
    ("f64", 124);
    ("anyfunc", 112);
    ("func", 96);
    ("void", 64);
    ("section.type", 1);
    ("section.import", 2);
    ("section.function", 3);
    ("section.table", 4);
    ("section.memory", 5);
    ("section.global", 6);
    ("section.export", 7);
    ("section.start", 8);
    ("section.element", 9);
    ("section.code", 10);
    ("section.data", 11);
    ("external_kind.function", 0);
    ("external_kind.table", 1);
    ("external_kind.memory", 2);
    ("external_kind.global", 3);
    ("global.immutable", 0);
    ("global.mutable", 1)
  ].

Definition opCodes : list (option string) :=
  [
   Some "unreachable"; Some "nop"; Some "block"; Some "loop"; Some "if"; Some "else"; None;
    None; None; None; None; Some "end"; Some "br"; Some "br_if"; Some "br_table";
    Some "return"; Some "call"; Some "call_indirect"; None; None; None; None; None; None; None;
    None; Some "drop"; Some "select"; None; None; None; None; Some "get_local";
    Some "set_local"; Some "tee_local"; Some "get_global"; Some "set_global"; None; None; None;
    Some "i32.load"; Some "i64.load"; Some "f32.load"; Some "f64.load"; Some "i32.load8_s";
    Some "i32.load8_u"; Some "i32.load16_s"; Some "i32.load16_u"; Some "i64.load8_s";
    Some "i64.load8_u"; Some "i64.load16_s"; Some "i64.load16_u"; Some "i64.load32_s";
    Some "i64.load32_u"; Some "i32.store"; Some "i64.store"; Some "f32.store";
    Some "f64.store"; Some "i32.store8"; Some "i32.store16"; Some "i64.store8";
    Some "i64.store16"; Some "i64.store32"; Some "current_memory"; Some "grow_memory";
    Some "i32.const"; Some "i64.const"; Some "f32.const"; Some "f64.const"; Some "i32.eqz";
    Some "i32.eq"; Some "i32.ne"; Some "i32.lt_s"; Some "i32.lt_u"; Some "i32.gt_s";
    Some "i32.gt_u"; Some "i32.le_s"; Some "i32.le_u"; Some "i32.ge_s"; Some "i32.ge_u";
    Some "i64.eqz"; Some "i64.eq"; Some "i64.ne"; Some "i64.lt_s"; Some "i64.lt_u";
    Some "i64.gt_s"; Some "i64.gt_u"; Some "i64.le_s"; Some "i64.le_u"; Some "i64.ge_s";
    Some "i64.ge_u"; Some "f32.eq"; Some "f32.ne"; Some "f32.lt"; Some "f32.gt"; Some "f32.le";
    Some "f32.ge"; Some "f64.eq"; Some "f64.ne"; Some "f64.lt"; Some "f64.gt"; Some "f64.le";
    Some "f64.ge"; Some "i32.clz"; Some "i32.ctz"; Some "i32.popcnt"; Some "i32.add";
    Some "i32.sub"; Some "i32.mul"; Some "i32.div_s"; Some "i32.div_u"; Some "i32.rem_s";
    Some "i32.rem_u"; Some "i32.and"; Some "i32.or"; Some "i32.xor"; Some "i32.shl";
    Some "i32.shr_s"; Some "i32.shr_u"; Some "i32.rotl"; Some "i32.rotr"; Some "i64.clz";
    Some "i64.ctz"; Some "i64.popcnt"; Some "i64.add"; Some "i64.sub"; Some "i64.mul";
    Some "i64.div_s"; Some "i64.div_u"; Some "i64.rem_s"; Some "i64.rem_u"; Some "i64.and";
    Some "i64.or"; Some "i64.xor"; Some "i64.shl"; Some "i64.shr_s"; Some "i64.shr_u";
    Some "i64.rotl"; Some "i64.rotr"; Some "f32.abs"; Some "f32.neg"; Some "f32.ceil";
    Some "f32.floor"; Some "f32.trunc"; Some "f32.nearest"; Some "f32.sqrt"; Some "f32.add";
    Some "f32.sub"; Some "f32.mul"; Some "f32.div"; Some "f32.min"; Some "f32.max";
    Some "f32.copysign"; Some "f64.abs"; Some "f64.neg"; Some "f64.ceil"; Some "f64.floor";
    Some "f64.trunc"; Some "f64.nearest"; Some "f64.sqrt"; Some "f64.add"; Some "f64.sub";
    Some "f64.mul"; Some "f64.div"; Some "f64.min"; Some "f64.max"; Some "f64.copysign";
    Some "i32.wrap/i64"; Some "i32.trunc_s/f32"; Some "i32.trunc_u/f32";
    Some "i32.trunc_s/f64"; Some "i32.trunc_u/f64"; Some "i64.extend_s/i32";
    Some "i64.extend_u/i32"; Some "i64.trunc_s/f32"; Some "i64.trunc_u/f32";
    Some "i64.trunc_s/f64"; Some "i64.trunc_u/f64"; Some "f32.convert_s/i32";
    Some "f32.convert_u/i32"; Some "f32.convert_s/i64"; Some "f32.convert_u/i64";
    Some "f32.demote/f64"; Some "f64.convert_s/i32"; Some "f64.convert_u/i32";
    Some "f64.convert_s/i64"; Some "f64.convert_u/i64"; Some "f64.promote/f32";
    Some "i32.reinterpret/f32"; Some "i64.reinterpret/f64"; Some "f32.reinterpret/i32";
    Some "f64.reinterpret/i64"
  ].

(** [for (let i = 0; i < opCodes.length; i++) ...], from slot [i] on. *)
Fixpoint fill_codeTable (i : Z) (ops : list (option string)) (table : gmap string Z)
  : gmap string Z :=
  match ops with
  | [] => table
  | None :: ops => fill_codeTable (i + 1) ops table
  | Some op :: ops => fill_codeTable (i + 1) ops (<[op := i]> table)
  end.

Definition codeTable : gmap string Z :=
  fill_codeTable 0 opCodes (list_to_map codeTable_initial).

End ByteCode.

(** ** The operator table (operatorTable.js) *)

Module OperatorTable.

Record OpInfo : Set := OpInfo_ { returnType : RunType; operator : string }.

(** Operators are looked up by the text of their token, then by the run
    types of the operands, joined by a comma. *)
Definition operatorTable_entries : list (string * list (string * OpInfo)) :=
  [
    ("==",
      [("i32,i32", OpInfo_ i32 "i32.eq");
       ("i64,i64", OpInfo_ i32 "i64.eq");
       ("f32,f32", OpInfo_ i32 "f32.eq");
       ("f64,f64", OpInfo_ i32 "f64.eq")]);
    ("!=",
      [("i32,i32", OpInfo_ i32 "i32.ne");
       ("i64,i64", OpInfo_ i32 "i64.ne");
       ("f32,f32", OpInfo_ i32 "f32.ne");
       ("f64,f64", OpInfo_ i32 "f64.ne")]);
    ("<",
      [("i32,i32", OpInfo_ i32 "i32.lt_s");
       ("i64,i64", OpInfo_ i32 "i64.lt_s");
       ("f32,f32", OpInfo_ i32 "f32.lt");
       ("f64,f64", OpInfo_ i32 "f64.lt")]);
    ("|<|", (* Unsigned < *)
      [("i32,i32", OpInfo_ i32 "i32.lt_u");
       ("i64,i64", OpInfo_ i64 "i64.lt_u")]);
    (">",
      [("i32,i32", OpInfo_ i32 "i32.gt_s");
       ("i64,i64", OpInfo_ i32 "i64.gt_s");
       ("f32,f32", OpInfo_ i32 "f32.gt");
       ("f64,f64", OpInfo_ i32 "f64.gt")]);
    ("|>|", (* Unsigned > *)
      [("i32,i32", OpInfo_ i32 "i32.gt_u");
       ("i64,i64", OpInfo_ i64 "i64.gt_u")]);
    ("<=",
      [("i32,i32", OpInfo_ i32 "i32.le_s");
       ("i64,i64", OpInfo_ i32 "i64.le_s");
       ("f32,f32", OpInfo_ i32 "f32.le");
       ("f64,f64", OpInfo_ i32 "f64.le")]);
    ("|<=|", (* Unsigned <= *)
      [("i32,i32", OpInfo_ i32 "i32.le_u");
       ("i64,i64", OpInfo_ i64 "i64.le_u")]);
    (">=",
      [("i32,i32", OpInfo_ i32 "i32.ge_s");
       ("i64,i64", OpInfo_ i32 "i64.ge_s");
       ("f32,f32", OpInfo_ i32 "f32.ge");
       ("f64,f64", OpInfo_ i32 "f64.ge")]);
    ("|>=|", (* Unsigned >= *)
      [("i32,i32", OpInfo_ i32 "i32.ge_u");
       ("i64,i64", OpInfo_ i64 "i64.ge_u")]);
    ("+",
      [("i32,i32", OpInfo_ i32 "i32.add");
       ("i64,i64", OpInfo_ i64 "i64.add");
       ("f32,f32", OpInfo_ f32 "f32.add");
       ("f64,f64", OpInfo_ f64 "f64.add")]);
    ("-",
      [("i32,i32", OpInfo_ i32 "i32.sub");
       ("i64,i64", OpInfo_ i64 "i64.sub");
       ("f32,f32", OpInfo_ f32 "f32.sub");
       ("f64,f64", OpInfo_ f64 "f64.sub")]);
    ("*",
      [("i32,i32", OpInfo_ i32 "i32.mul");
       ("i64,i64", OpInfo_ i64 "i64.mul");
       ("f32,f32", OpInfo_ f32 "f32.mul");
       ("f64,f64", OpInfo_ f64 "f64.mul")]);
    ("/",
      [("i32,i32", OpInfo_ i32 "i32.div_s");
       ("i64,i64", OpInfo_ i64 "i64.div_s");
       ("f32,f32", OpInfo_ f32 "f32.div");
       ("f64,f64", OpInfo_ f64 "f64.div")]);
    ("|/|", (* Unsigned Division *)
      [("i32,i32", OpInfo_ i32 "i32.div_u");
       ("i64,i64", OpInfo_ i64 "i64.div_u")]);
    ("&",
      [("i32,i32", OpInfo_ i32 "i32.and");
       ("i64,i64", OpInfo_ i64 "i64.and")]);
    ("|",
      [("i32,i32", OpInfo_ i32 "i32.or");
       ("i64,i64", OpInfo_ i64 "i64.or")]);
    ("xor",
      [("i32,i32", OpInfo_ i32 "i32.xor");
       ("i64,i64", OpInfo_ i64 "i64.xor")]);
    ("with_sign_of",
      [("f32,f32", OpInfo_ f32 "f32.copysign");
       ("f64,f64", OpInfo_ f64 "f64.copysign")]);
    ("%", (* Signed Remainder *)
      [("i32,i32", OpInfo_ i32 "i32.rem_s");
       ("i64,i64", OpInfo_ i64 "i64.rem_s")]);
    ("|%|", (* Unsigned Remainder *)
      [("i32,i32", OpInfo_ i32 "i32.rem_u");
       ("i64,i64", OpInfo_ i64 "i64.rem_u")]);
    ("<<",
      [("i32,i32", OpInfo_ i32 "i32.shl");
       ("i64,i64", OpInfo_ i64 "i64.shl")]);
    (">>",
      [("i32,i32", OpInfo_ i32 "i32.shr_s");
       ("i64,i64", OpInfo_ i64 "i64.shr_s")]);
    (">>>",
      [("i32,i32", OpInfo_ i32 "i32.shr_u");
       ("i64,i64", OpInfo_ i64 "i64.shr_u")]);
    ("rotate_left",
      [("i32,i32", OpInfo_ i32 "i32.rotl");
       ("i64,i64", OpInfo_ i64 "i64.rotl")]);
    ("rotate_right",
      [("i32,i32", OpInfo_ i32 "i32.rotr");
       ("i64,i64", OpInfo_ i64 "i64.rotr")]);
    ("?<", (* Select Minimum *)
      [("f32,f32", OpInfo_ f32 "f32.min");
       ("f64,f64", OpInfo_ f64 "f64.min")]);
    ("?>", (* Select Maximum *)
      [("f32,f32", OpInfo_ f32 "f32.max");
       ("f64,f64", OpInfo_ f64 "f64.max")]);
    ("cast_i32", (* Reinterpret an f32 as an i32 bitwise *)
      [("f32", OpInfo_ i32 "i32.reinterpret/f32")]);
    ("cast_i64", (* Reinterpret an f64 as an i64 bitwise *)
      [("f64", OpInfo_ i64 "i64.reinterpret/f64")]);
    ("cast_f32", (* Reinterpret an i32 as an f32 bitwise *)
      [("i32", OpInfo_ f32 "f32.reinterpret/i32")]);
    ("cast_f64", (* Reinterpret an i64 as an f64 bitwise *)
      [("i64", OpInfo_ f64 "f64.reinterpret/i64")]);
    ("to_i32",
      [("i64", OpInfo_ i32 "i32.wrap/i64");
       ("f32", OpInfo_ i32 "i32.trunc_s/f32");
       ("f64", OpInfo_ i32 "i32.trunc_s/i64")]);
    ("to_i64",
      [("i32", OpInfo_ i64 "i64.extend_s/i64");
       ("f32", OpInfo_ i64 "i64.trunc_s/f32");
       ("f64", OpInfo_ i64 "i64.trunc_s/i64")]);
    ("to_f32",
      [("i32", OpInfo_ f32 "f32.convert_s/i32");
       ("i64", OpInfo_ f32 "f32.convert_s/i64");
       ("f64", OpInfo_ f32 "f32.demote/f64")]);
    ("to_f64",
      [("i32", OpInfo_ f64 "f64.convert_s/i32");
       ("i64", OpInfo_ f64 "f64.convert_s/i64");
       ("f64", OpInfo_ f64 "f64.promote/f32")]);
    ("abs",
      [("f32", OpInfo_ f32 "f32.abs");
       ("f64", OpInfo_ f64 "f64.abs")]);
    ("ceil",
      [("f32", OpInfo_ f32 "f32.ceil");
       ("f64", OpInfo_ f64 "f64.ceil")]);
    ("count_ones",
      [("i32", OpInfo_ i32 "i32.popcnt");
       ("i64", OpInfo_ i64 "i64.popcnt")]);
    ("floor",
      [("f32", OpInfo_ f32 "f32.floor");
       ("f64", OpInfo_ f64 "f64.floor")]);
    ("leading_zeros",
      [("i32", OpInfo_ i32 "f32.clz");
       ("i64", OpInfo_ i64 "f64.clz")]);
    ("round",
      [("f32", OpInfo_ f32 "f32.nearest");
       ("f64", OpInfo_ f64 "f64.nearest")]);
    ("sqrt",
      [("f32", OpInfo_ f32 "f32.sqrt");
       ("f64", OpInfo_ f64 "f64.sqrt")]);
    ("trailing_zeros",
      [("i32", OpInfo_ i32 "i32.ctz");
       ("i64", OpInfo_ i64 "i64.ctz")]);
    ("truncate",
      [("f32", OpInfo_ f32 "f32.trunc");
       ("f64", OpInfo_ f64 "f64.trunc")]);
    ("!",
      [("i32", OpInfo_ i32 "i32.eqz");
       ("i64", OpInfo_ i32 "i64.eqz")]);
    ("allocate_pages",
      [("i32", OpInfo_ i32 "grow_memory")])
  ].

Definition operatorTable : gmap string (gmap string OpInfo) :=
  list_to_map (prod_map id list_to_map <$> operatorTable_entries).

End OperatorTable.

(** ** The lexer (lexer.js) *)

Module Lexer.

(** A JavaScript string is a sequence of UTF-16 code units. *)
Definition codes (s : string) : list N :=
  Ascii.N_of_ascii <$> String.list_ascii_of_string s.

(** *** The regular expressions of the lexer

    The patterns of [lexerData] use literal characters, character classes,
    concatenation, alternation, the greedy [*], [+] and [?], and the two
    lookaheads [(?=...)] and [(?!...)]. *)
Inductive regex : Type :=
| Empty
| Class (p : N -> bool)
| Cat (r1 r2 : regex)
| Or (r1 r2 : regex)
| Star (r : regex)
| Ahead (r : regex)
| NotAhead (r : regex).

Definition Plus (r : regex) : regex := Cat r (Star r).
Definition Opt (r : regex) : regex := Or r Empty.
Definition chr (c : N) : regex := Class (N.eqb c).

Fixpoint lit_codes (cs : list N) : regex :=
  match cs with
  | [] => Empty
  | [c] => chr c
  | c :: cs => Cat (chr c) (lit_codes cs)
  end.
Definition lit (s : string) : regex := lit_codes (codes s).

Fixpoint alts (rs : list regex) : regex :=
  match rs with
  | [] => Class (fun _ => false)
  | [r] => r
  | r :: rs => Or r (alts rs)
  end.

(** The character classes. *)
Definition in_range (lo hi c : N) : bool := ((lo <=? c) && (c <=? hi))%N.

Definition is_line_terminator (c : N) : bool :=
  ((c =? 10) || (c =? 13) || (c =? 8232) || (c =? 8233))%N.

(** [\s]: white space and line terminators. *)
Definition is_space (c : N) : bool :=
  (in_range 9 13 c || (c =? 32) || (c =? 160) || (c =? 5760) || in_range 8192 8202 c
   || (c =? 8232) || (c =? 8233) || (c =? 8239) || (c =? 8287) || (c =? 12288)
   || (c =? 65279))%N.

(** [\d] and [\w]. *)
Definition is_digit (c : N) : bool := in_range 48 57 c.
Definition is_word (c : N) : bool :=
  (in_range 97 122 c || in_range 65 90 c || is_digit c || (c =? 95))%N.

(** [.] matches every code unit but the line terminators. *)
Definition dot : regex := Class (fun c => negb (is_line_terminator c)).
Definition space : regex := Class is_space.
Definition digit : regex := Class is_digit.
Definition word : regex := Class is_word.

(** A keyword is followed by [(?!\w)]. *)
Definition keyword (s : string) : regex := Cat (lit s) (NotAhead word).

(** *** Matching

    [rmatch r s k] runs the backtracking matcher of the host: it matches
    [r] at the front of [s] and hands what is left to the continuation
    [k]; when [k] fails the next choice of [r] is tried.  Alternatives are
    tried from left to right, [*] takes as many iterations as it can before
    it gives one back, and an iteration that consumes nothing is refused.
    An iteration of [*] consumes at least one code unit, so the number of
    code units left bounds the number of iterations. *)
Fixpoint iterate {A : Type} (step : list N -> (list N -> option A) -> option A)
  (k : list N -> option A) (n : nat) (s : list N) {struct n} : option A :=
  match n with
  | O => k s
  | S n =>
      match step s (fun s' => if (length s' <? length s)%nat
                              then iterate step k n s' else None) with
      | Some x => Some x
      | None => k s
      end
  end.

Fixpoint rmatch (r : regex) (A : Type) (s : list N) (k : list N -> option A)
  {struct r} : option A :=
  match r with
  | Empty => k s
  | Class p =>
      match s with
      | c :: s' => if p c then k s' else None
      | [] => None
      end
  | Cat r1 r2 => rmatch r1 A s (fun s' => rmatch r2 A s' k)
  | Or r1 r2 =>
      match rmatch r1 A s k with
      | Some x => Some x
      | None => rmatch r2 A s k
      end
  | Star r1 => iterate (rmatch r1 A) k (length s) s
  | Ahead r1 =>
      match rmatch r1 unit s (fun _ => Some tt) with
      | Some _ => k s
      | None => None
      end
  | NotAhead r1 =>
      match rmatch r1 unit s (fun _ => Some tt) with
      | Some _ => None
      | None => k s
      end
  end.
Arguments rmatch r {A} s k.

(** *** [lexerData] *)

Definition lexerData : list (ASType * regex) :=
  [ (WS, space);

    (EQ_COMPARISON, alts [lit "=="; lit "!="]);
    (ASSIGN, lit "=");

    (COMMENT, Cat (lit "//") (Star (Class (fun c => negb (c =? 10)%N))));

    (BITWISE_SHIFT,
      alts [Cat (lit ">>") (Opt (lit ">")); lit "<<";
            keyword "rotate_right"; keyword "rotate_left"]);
    (ORDER_COMPARISON,
      alts [Cat (lit ">") (Opt (lit "=")); Cat (lit "<") (Opt (lit "="));
            Cat (lit "|>") (Cat (Opt (lit "=")) (lit "|"));
            Cat (lit "|<") (Cat (Opt (lit "=")) (lit "|"))]);
    (SCALE_OP, alts [lit "*"; lit "/"; lit "|/|"; lit "%"; lit "|%|"]);
    (BITWISE_OR, lit "|");

    (STORAGE_TYPE,
      Cat (alts [Cat (lit "i")
                   (Cat (alts [lit "32"; lit "64"])
                      (Cat (lit "_")
                         (Cat (alts [lit "s"; lit "u"]) (alts [lit "8"; lit "16"]))));
                 Cat (lit "i64_") (Cat (alts [lit "s"; lit "u"]) (lit "32"))])
          (NotAhead word));
    (VALUE_TYPE,
      Cat (alts [lit "i32"; lit "i64"; lit "f32"; lit "f64"]) (NotAhead word));

    (F64_LITERAL, Cat (Plus digit) (Cat (lit ".") (Cat (Plus digit) (lit "x64"))));
    (F32_LITERAL, Cat (Plus digit) (Cat (lit ".") (Cat (Plus digit) (Opt (lit "x32")))));
    (I64_LITERAL, Cat (Plus digit) (lit "x64"));
    (I32_LITERAL, Cat (Plus digit) (Opt (lit "x32")));

    (SUFFIX_OP, alts [lit "++"; lit "--"]);
    (ADD, lit "+");
    (SUB, lit "-");

    (ADDRESS, lit "[");
    (ADDRESS_CLOSE, lit "]");
    (ALLOCATE_PAGES, keyword "allocate_pages");
    (AND, keyword "and");
    (AS, keyword "as");
    (BITWISE_AND, lit "&");
    (BITWISE_XOR, keyword "xor");
    (BLOCK, lit "{");
    (BLOCK_CLOSE, lit "}");
    (BREAK, keyword "break");
    (COMMA, lit ",");
    (CONTINUE, keyword "continue");
    (DEFAULT_MEMORY, keyword "default_memory");
    (DEFAULT_TABLE, keyword "default_table");
    (DEFINITION, lit ":");
    (ELSE, keyword "else");
    (EXPORT, keyword "export");
    (FN, keyword "fn");
    (FN_PTR, keyword "fn_ptr");
    (FROM, keyword "from");
    (IF, keyword "if");
    (IMMUTABLE, keyword "immutable");
    (IMPORT, keyword "import");
    (LOOP, keyword "loop");
    (MISC_INFIX, alts [lit "?>"; lit "?<"; keyword "with_sign_of"]);
    (VOID, keyword "void");
    (OR, keyword "or");
    (PAGES_ALLOCATED, keyword "pages_allocated");
    (PAREN, lit "(");
    (PAREN_CLOSE, lit ")");
    (PTR, keyword "ptr");
    (RETURN, keyword "return");
    (SEMICOLON, lit ";");
    (STRING,
      Cat (chr 34)
        (Cat (Star (Or (Class (fun c => negb ((c =? 34) || (c =? 92))%N))
                       (Cat (chr 92) dot)))
           (chr 34)));
    (UNARY_MATH_OP,
      Or (Cat (alts [lit "abs"; lit "ceil"; lit "count_ones"; lit "floor";
                     lit "leading_zeros"; lit "round"; lit "sqrt";
                     lit "trailing_zeros"; lit "truncate";
                     Cat (alts [lit "to"; lit "cast"])
                       (Cat (lit "_") (alts [lit "i32"; lit "i64"; lit "f32"; lit "f64"]))])
              (NotAhead word))
         (lit "!"));
    (YIELD, keyword "yield");

    (CALL, Cat (Plus word) (Ahead (lit "(")));
    (MEMORY_ACCESS, Cat (Plus word) (Ahead (lit "[")));
    (VARIABLE, Plus word);
    (BAD_TOKEN, dot) ].

(** *** [regexp.exec]

    [regexp] is the alternation of the patterns, one group per ASType, and
    it is sticky: it matches at [lastIndex] only.  The group that took part
    in the match is the first alternative that matches; the model returns
    its ASType (the source finds it by stepping through the groups) next
    to what is left of the input, and [None] for the host's [null]. *)
Fixpoint exec_alternatives (data : list (ASType * regex)) (input : list N)
  : option (ASType * list N) :=
  match data with
  | [] => None
  | (type, r) :: data =>
      match rmatch r input Some with
      | Some rest => Some (type, rest)
      | None => exec_alternatives data input
      end
  end.

(** What a match leaves is a suffix of the input. *)
Lemma rmatch_suffix r : forall A s (k : list N -> option A) x,
  rmatch r s k = Some x -> exists s', suffix s' s /\ k s' = Some x.
Proof.
  induction r as [|p|r1 IH1 r2 IH2|r1 IH1 r2 IH2|r1 IH1|r1 IH1|r1 IH1];
    intros A s k x Hm; cbn [rmatch] in Hm.
  - by exists s.
  - destruct s as [|c s']; [done|]. destruct (p c); [|done].
    exists s'. split; [by apply suffix_cons_r|done].
  - apply IH1 in Hm as (s1 & Hs1 & Hm). apply IH2 in Hm as (s2 & Hs2 & Hm).
    exists s2. split; [by etrans|done].
  - destruct (rmatch r1 s k) eqn:H1.
    + injection Hm as ->. by apply IH1 in H1.
    + by apply IH2 in Hm.
  - revert Hm. generalize (length s). intros n. revert s.
    induction n as [|n IHn]; intros s Hm; cbn [iterate] in Hm; [by exists s|].
    match type of Hm with match ?m with _ => _ end = _ => destruct m eqn:H1 end.
    + injection Hm as ->. apply IH1 in H1 as (s1 & Hs1 & H1).
      destruct (length s1 <? length s)%nat; [|done].
      apply IHn in H1 as (s2 & Hs2 & H1). exists s2. split; [by etrans|done].
    + by exists s.
  - destruct (rmatch r1 s _); [|done]. by exists s.
  - destruct (rmatch r1 s _); [done|]. by exists s.
Qed.

(** [nullable r]: [r] can match without consuming anything. *)
Fixpoint nullable (r : regex) : bool :=
  match r with
  | Empty | Star _ | Ahead _ | NotAhead _ => true
  | Class _ => false
  | Cat r1 r2 => nullable r1 && nullable r2
  | Or r1 r2 => nullable r1 || nullable r2
  end.

Lemma rmatch_progress r : forall A s (k : list N -> option A) x,
  nullable r = false ->
  rmatch r s k = Some x ->
  exists s', suffix s' s /\ (length s' < length s)%nat /\ k s' = Some x.
Proof.
  induction r as [|p|r1 IH1 r2 IH2|r1 IH1 r2 IH2|r1 IH1|r1 IH1|r1 IH1];
    intros A s k x Hn Hm; cbn [rmatch nullable] in Hn, Hm; try done.
  - destruct s as [|c s']; [done|]. destruct (p c); [|done].
    exists s'. split_and!; [by apply suffix_cons_r|cbn; lia|done].
  - apply andb_false_iff in Hn as [Hn|Hn].
    + apply IH1 in Hm as (s1 & Hs1 & Hl1 & Hm); [|done].
      apply rmatch_suffix in Hm as (s2 & Hs2 & Hm).
      exists s2. pose proof (suffix_length _ _ Hs2). split_and!; [by etrans|lia|done].
    + apply rmatch_suffix in Hm as (s1 & Hs1 & Hm).
      apply IH2 in Hm as (s2 & Hs2 & Hl2 & Hm); [|done].
      exists s2. pose proof (suffix_length _ _ Hs1). split_and!; [by etrans|lia|done].
  - apply orb_false_iff in Hn as [Hn1 Hn2].
    destruct (rmatch r1 s k) eqn:H1.
    + injection Hm as ->. by apply IH1 in H1.
    + by apply IH2 in Hm.
Qed.

(** No pattern of the lexer matches the empty string. *)
Lemma lexerData_not_nullable : forallb (fun entry => negb (nullable entry.2)) lexerData = true.
Proof. reflexivity. Qed.

Lemma exec_alternatives_suffix data input type rest :
  exec_alternatives data input = Some (type, rest) -> suffix rest input.
Proof.
  induction data as [|[type' r] data IH]; cbn; [done|].
  destruct (rmatch r input Some) as [rest'|] eqn:Hm; [|done].
  intros [= -> ->]. apply rmatch_suffix in Hm as (s' & Hs & [= ->]). done.
Qed.

Lemma exec_alternatives_progress data input type rest :
  forallb (fun entry => negb (nullable entry.2)) data = true ->
  exec_alternatives data input = Some (type, rest) ->
  (length rest < length input)%nat.
Proof.
  induction data as [|[type' r] data IH]; cbn; [done|].
  intros [Hn Hall]%andb_prop.
  destruct (rmatch r input Some) as [rest'|] eqn:Hm; [|by apply IH].
  intros [= -> ->]. apply negb_true_iff in Hn.
  apply rmatch_progress in Hm as (s' & Hs & Hl & [= ->]); done.
Qed.

Lemma exec_alternatives_None data input :
  exec_alternatives data input = None ->
  forall type r, (type, r) ∈ data -> rmatch r input Some = None.
Proof.
  induction data as [|[type' r'] data IH]; cbn; intros Hex type r Hin.
  - by apply elem_of_nil in Hin.
  - destruct (rmatch r' input Some) eqn:Hm; [done|].
    apply elem_of_cons in Hin as [[= -> ->]|Hin]; [done|by eapply IH].
Qed.

Lemma line_terminator_is_space c : is_line_terminator c = true -> is_space c = true.
Proof.
  unfold is_line_terminator. rewrite !orb_true_iff, !N.eqb_eq.
  intros [[[->| ->]| ->]| ->]; reflexivity.
Qed.

(** Wherever input is left, some pattern matches: white space takes the line
    terminators and the catch-all [BAD_TOKEN] takes everything else. *)
Lemma exec_alternatives_total c input :
  exists type rest, exec_alternatives lexerData (c :: input) = Some (type, rest).
Proof.
  destruct (exec_alternatives lexerData (c :: input)) as [[type rest]|] eqn:Hex; [by eauto|].
  pose proof (exec_alternatives_None _ _ Hex WS space) as Hws.
  pose proof (exec_alternatives_None _ _ Hex BAD_TOKEN dot) as Hbad.
  exfalso. cbn in Hws, Hbad.
  destruct (is_space c) eqn:Hs.
  - discriminate Hws. by left.
  - destruct (is_line_terminator c) eqn:Hl.
    + apply line_terminator_is_space in Hl. congruence.
    + discriminate Hbad. apply list_elem_of_In. unfold lexerData.
      repeat first [ by left | right ].
Qed.

Record Token : Type :=
  { ASType_of : ASType; text : list N; length_of : nat; pos : nat }.

(** The matched text is the part of the input in front of what is left. *)
Definition matched (input rest : list N) : list N :=
  take (length input - length rest) input.

Lemma matched_app input rest : suffix rest input -> matched input rest ++ rest = input.
Proof.
  intros [front ->]. unfold matched. rewrite length_app.
  replace (length front + length rest - length rest)%nat with (length front) by lia.
  by rewrite take_app_length.
Qed.

(** [regexp.exec(text)] at [lastIndex]: the ASType of the group and
    [result[0]]; [result.index] is [lastIndex] and the new [lastIndex] is
    the end of the match. *)
Definition exec (text : list N) (lastIndex : nat) : option (ASType * list N) :=
  match exec_alternatives lexerData (drop lastIndex text) with
  | Some (type, rest) => Some (type, matched (drop lastIndex text) rest)
  | None => None
  end.

Lemma exec_spec text lastIndex type result0 :
  exec text lastIndex = Some (type, result0) ->
  (0 < length result0)%nat /\
  drop lastIndex text = result0 ++ drop (lastIndex + length result0) text.
Proof.
  unfold exec. destruct (exec_alternatives _ _) as [[type' rest]|] eqn:Hex; [|done].
  intros [= -> <-].
  pose proof (exec_alternatives_suffix _ _ _ _ Hex) as Hs.
  pose proof (exec_alternatives_progress _ _ _ _ lexerData_not_nullable Hex) as Hl.
  pose proof (matched_app _ _ Hs) as Hm.
  assert (Hlen : (length (matched (drop lastIndex text) rest) =
                  length (drop lastIndex text) - length rest)%nat).
  { unfold matched. rewrite length_take. lia. }
  split; [lia|].
  rewrite <- drop_drop.
  set (input := drop lastIndex text) in *. set (m := matched input rest) in *.
  clearbody m input. subst input. by rewrite drop_app_length.
Qed.

Lemma exec_total text lastIndex :
  (lastIndex < length text)%nat -> exists result, exec text lastIndex = Some result.
Proof.
  intros Hlt. unfold exec.
  destruct (drop lastIndex text) as [|c input] eqn:Hd.
  - apply (f_equal length) in Hd. rewrite length_drop in Hd. cbn in Hd. lia.
  - destruct (exec_alternatives_total c input) as (type & rest & ->). eauto.
Qed.

(** *** [lexify]

    The loop of [lexify]: one token for each match, as long as [lastIndex]
    is inside the text.  [None] stands for the [TypeError] that reading
    [result.length] of a [null] result throws. *)
Equations lexify_loop (text : list N) (lastIndex : nat) (tokens : list Token)
  : option (list Token) by wf (length text - lastIndex)%nat lt :=
lexify_loop text lastIndex tokens with inspect (lastIndex <? length text)%nat := {
  | exist _ false _ => Some tokens;
  | exist _ true Hlt with inspect (exec text lastIndex) := {
    | exist _ None _ => None;
    | exist _ (Some (type, result0)) Hex =>
        lexify_loop text (lastIndex + length result0)
          (tokens ++ [{| ASType_of := type; text := result0;
                         length_of := length result0; pos := lastIndex |}]) } }.
Next Obligation.
  intros. apply Nat.ltb_lt in Hlt. apply exec_spec in Hex as [Hpos _]. lia.
Qed.

(** The sentinel that marks the end of input. *)
Definition sentinel (textLength : nat) : Token :=
  {| ASType_of := END_OF_INPUT; text := [10%N]; length_of := 1; pos := textLength |}.

Definition lexify (text : list N) : option (list Token) :=
  match lexify_loop text 0 [] with
  | Some tokens => Some (tokens ++ [sentinel (length text)])
  | None => None
  end.

(** The loop never meets a [null] result, and the texts of the tokens it
    adds make up the text from [lastIndex] on. *)
Lemma lexify_loop_spec text lastIndex tokens :
  (lastIndex <= length text)%nat ->
  exists more,
    lexify_loop text lastIndex tokens = Some (tokens ++ more) /\
    concat (Lexer.text <$> more) = drop lastIndex text /\
    (lastIndex = length text -> more = []).
Proof.
  funelim (lexify_loop text lastIndex tokens); intros Hle;
    repeat match goal with H : sigmaI _ _ _ = _ |- _ => clear H end.
  - exists []. apply Nat.ltb_ge in e. rewrite app_nil_r.
    split_and!; [done| by rewrite drop_ge |done].
  - apply Nat.ltb_lt in Hlt. destruct (exec_spec _ _ _ _ Hex) as [Hpos Hdrop].
    assert (Hle' : (lastIndex + length result0 <= length text0)%nat).
    { apply (f_equal length) in Hdrop. rewrite length_app, !length_drop in Hdrop. lia. }
    destruct (H Hle') as (more & Hloop & Hcat & _).
    eexists (_ :: more). rewrite <- app_assoc in Hloop. split_and!; [exact Hloop| |lia].
    cbn. by rewrite Hcat, Hdrop.
  - apply Nat.ltb_lt in Hlt. destruct (exec_total _ lastIndex Hlt) as [? ?]. congruence.
Qed.

End Lexer.

(** ** Definitions and the AST (parser.js) *)

(** The record that [define] makes for a named entity.  A variable has no
    [paramTypes], [returnType] or [signatureIndex] and only a pointer has
    the storage fields; where the object of the source lacks a field the
    record holds the empty list, [void], [0], [false], [None] or the empty
    string.  [initializer], [body], [scope] and [token] are left out. *)
Module Def.
Record t : Type := mk {
  ASType : Syntax.ASType;
  exportName : option string;
  isGlobal : bool;
  importSource : option (string * string);
  index : Z;
  kind : string;
  mutable : bool;
  name : string;
  runType : RunType;
  paramTypes : list RunType;
  returnType : RunType;
  signatureIndex : Z;
  extendedType : bool;
  storageSigned : option string;
  storageBits : option string;
  storageSize : Z;
  storageType : string }.
End Def.

Module Parser.

(** [Number.parseInt] on the texts that the lexer produces: the value of
    the leading decimal digits, [None] for [NaN] when there is none. *)
Fixpoint parseInt_digits (acc : Z) (cs : list N) : Z :=
  match cs with
  | c :: cs => if Lexer.is_digit c then parseInt_digits (10 * acc + (Z.of_N c - 48)) cs else acc
  | [] => acc
  end.

Definition parseInt (s : string) : option Z :=
  match Lexer.codes s with
  | c :: cs => if Lexer.is_digit c then Some (parseInt_digits 0 (c :: cs)) else None
  | [] => None
  end.

Definition RunType_of_text (s : string) : option RunType :=
  if String.eqb s "i32" then Some i32
  else if String.eqb s "i64" then Some i64
  else if String.eqb s "f32" then Some f32
  else if String.eqb s "f64" then Some f64
  else if String.eqb s "void" then Some void
  else None.

(** [storageTypeSplitter = /(.(..))_?(.)?(..?)?/] on the text of a storage
    type: the first three characters, the last two of them, and behind an
    optional underscore one character and up to two more.  [None] is the
    [null] of a text with fewer than three characters. *)
Definition storageTypeSplitter (storageType : string)
  : option (string * string * option string * option string) :=
  if (String.length storageType <? 3)%nat then None
  else
    let rest := String.substring 3 (String.length storageType - 3) storageType in
    let rest := if String.prefix "_" rest
                then String.substring 1 (String.length rest - 1) rest else rest in
    let signed := String.substring 0 1 rest in
    let bits := String.substring 1 2 rest in
    Some (String.substring 0 3 storageType, String.substring 1 2 storageType,
          (if String.eqb signed EmptyString then None else Some signed),
          (if String.eqb bits EmptyString then None else Some bits)).

(** The pointer branch of [define]: the fields that the storage type adds
    to the definition.  [None] where the source would stop with a host
    error (no match, or a text that is no number). *)
Definition define_PTR (definition : Def.t) (storageType : string) : option Def.t :=
  match storageTypeSplitter storageType with
  | None => None
  | Some (returnType, bits, storageSigned, storageBits) =>
      let extendedType := bool_decide (storageBits <> None) in
      match RunType_of_text returnType,
            parseInt (if extendedType then default EmptyString storageBits else bits) with
      | Some returnType, Some size =>
          Some {| Def.ASType := Def.ASType definition;
                  Def.exportName := Def.exportName definition;
                  Def.isGlobal := Def.isGlobal definition;
                  Def.importSource := Def.importSource definition;
                  Def.index := Def.index definition;
                  Def.kind := Def.kind definition;
                  Def.mutable := Def.mutable definition;
                  Def.name := Def.name definition;
                  Def.runType := i32;
                  Def.paramTypes := Def.paramTypes definition;
                  Def.returnType := returnType;
                  Def.signatureIndex := Def.signatureIndex definition;
                  Def.extendedType := extendedType;
                  Def.storageSigned := storageSigned;
                  Def.storageBits := storageBits;
                  Def.storageSize := size / 8;
                  Def.storageType := storageType |}
      | _, _ => None
      end
  end.

(** The texts that the lexer passes as [STORAGE_TYPE] or [VALUE_TYPE]. *)
Definition storageTypes : list string :=
  [ "i32_s8"; "i32_u8"; "i32_s16"; "i32_u16";
    "i64_s8"; "i64_u8"; "i64_s16"; "i64_u16"; "i64_s32"; "i64_u32";
    "i32"; "i64"; "f32"; "f64" ].

End Parser.

(** *** The abstract syntax tree

    A node of the source is an object with an ASType, a token, the list of
    its children and the fields that validation fills in.  The model has
    one constructor for each kind of node that can stand in a function body,
    with the children that the operand counts and the child type
    constraints of syntax.js give it, and a parameter [A] for the fields
    that validation fills in: [Node unit] is a tree as the parser and the
    resolver leave it, [Node Ann] a validated one.  Three nodes that only
    hold children are folded into their parent: the [ARG_LIST] of a call,
    the [ADDRESS] of a memory access and the [IF] under an [ELSE].  A
    reference carries the definition that name resolution found for it. *)
Module AST.

#[local] Unset Elimination Schemes.
Inductive Node (A : Type) : Type :=
| Binary (a : A) (type : ASType) (text : string) (left right : Node A)
| UnaryMathOp (a : A) (text : string) (child : Node A)
| AllocatePages (a : A) (child : Node A)
| And (a : A) (left right : Node A)
| Or (a : A) (left right : Node A)
| Assign (a : A) (left right : Node A)
| Block (a : A) (children : list (Node A))
| Paren (a : A) (children : list (Node A))
| Break (a : A)
| Yield (a : A) (child : Node A)
| Call (a : A) (fn : Def.t) (args : list (Node A))
| Continue (a : A)
| Definition_ (a : A) (definition : Def.t) (spec : ASType)
| Else (a : A) (condition ifBody elseBody : Node A)
| Literal (a : A) (type : ASType) (text : string)
| If (a : A) (condition body : Node A)
| Loop (a : A) (body : Node A)
| MemoryAccess (a : A) (pointer : Def.t) (address : Node A) (offsetProvided : option (Node A))
| Neg (a : A) (child : Node A)
| PagesAllocated (a : A)
| Return (a : A) (child : option (Node A))
| SuffixOp (a : A) (text : string) (child : Node A)
| Variable_ (a : A) (definition : Def.t).

#[local] Set Elimination Schemes.

Arguments Binary {A}. Arguments UnaryMathOp {A}. Arguments AllocatePages {A}.
Arguments And {A}. Arguments Or {A}. Arguments Assign {A}. Arguments Block {A}.
Arguments Paren {A}. Arguments Break {A}. Arguments Yield {A}. Arguments Call {A}.
Arguments Continue {A}. Arguments Definition_ {A}. Arguments Else {A}.
Arguments Literal {A}. Arguments If {A}. Arguments Loop {A}.
Arguments MemoryAccess {A}. Arguments Neg {A}. Arguments PagesAllocated {A}.
Arguments Return {A}. Arguments SuffixOp {A}. Arguments Variable_ {A}.

(** [node.ASType] *)
Definition ASType_of {A} (node : Node A) : ASType :=
  match node with
  | Binary _ type _ _ _ => type
  | UnaryMathOp _ _ _ => UNARY_MATH_OP
  | AllocatePages _ _ => ALLOCATE_PAGES
  | And _ _ _ => AND
  | Or _ _ _ => OR
  | Assign _ _ _ => ASSIGN
  | Block _ _ => BLOCK
  | Paren _ _ => PAREN
  | Break _ => BREAK
  | Yield _ _ => YIELD
  | Call _ _ _ => CALL
  | Continue _ => CONTINUE
  | Definition_ _ _ _ => DEFINITION
  | Else _ _ _ _ => ELSE
  | Literal _ type _ => type
  | If _ _ _ => IF
  | Loop _ _ => LOOP
  | MemoryAccess _ _ _ _ => MEMORY_ACCESS
  | Neg _ _ => NEG
  | PagesAllocated _ => PAGES_ALLOCATED
  | Return _ _ => RETURN
  | SuffixOp _ _ _ => SUFFIX_OP
  | Variable_ _ _ => VARIABLE
  end.

(** The fields of a node that validation fills in. *)
Definition ann {A} (node : Node A) : A :=
  match node with
  | Binary a _ _ _ _ | UnaryMathOp a _ _ | AllocatePages a _ | And a _ _ | Or a _ _
  | Assign a _ _ | Block a _ | Paren a _ | Break a | Yield a _ | Call a _ _
  | Continue a | Definition_ a _ _ | Else a _ _ _ | Literal a _ _ | If a _ _
  | Loop a _ | MemoryAccess a _ _ _ | Neg a _ | PagesAllocated a | Return a _
  | SuffixOp a _ _ | Variable_ a _ => a
  end.

Definition update {A} (f : A -> A) (node : Node A) : Node A :=
  match node with
  | Binary a type text lhs rhs => Binary (f a) type text lhs rhs
  | UnaryMathOp a text child => UnaryMathOp (f a) text child
  | AllocatePages a child => AllocatePages (f a) child
  | And a lhs rhs => And (f a) lhs rhs
  | Or a lhs rhs => Or (f a) lhs rhs
  | Assign a lhs rhs => Assign (f a) lhs rhs
  | Block a children => Block (f a) children
  | Paren a children => Paren (f a) children
  | Break a => Break (f a)
  | Yield a child => Yield (f a) child
  | Call a fn args => Call (f a) fn args
  | Continue a => Continue (f a)
  | Definition_ a definition spec => Definition_ (f a) definition spec
  | Else a condition ifBody elseBody => Else (f a) condition ifBody elseBody
  | Literal a type text => Literal (f a) type text
  | If a condition body => If (f a) condition body
  | Loop a body => Loop (f a) body
  | MemoryAccess a pointer address offsetProvided =>
      MemoryAccess (f a) pointer address offsetProvided
  | Neg a child => Neg (f a) child
  | PagesAllocated a => PagesAllocated (f a)
  | Return a child => Return (f a) child
  | SuffixOp a text child => SuffixOp (f a) text child
  | Variable_ a definition => Variable_ (f a) definition
  end.

(** The same tree with other fields at every node. *)
Fixpoint map {A B} (f : A -> B) (node : Node A) : Node B :=
  match node with
  | Binary a type text lhs rhs => Binary (f a) type text (map f lhs) (map f rhs)
  | UnaryMathOp a text child => UnaryMathOp (f a) text (map f child)
  | AllocatePages a child => AllocatePages (f a) (map f child)
  | And a lhs rhs => And (f a) (map f lhs) (map f rhs)
  | Or a lhs rhs => Or (f a) (map f lhs) (map f rhs)
  | Assign a lhs rhs => Assign (f a) (map f lhs) (map f rhs)
  | Block a children => Block (f a) (List.map (map f) children)
  | Paren a children => Paren (f a) (List.map (map f) children)
  | Break a => Break (f a)
  | Yield a child => Yield (f a) (map f child)
  | Call a fn args => Call (f a) fn (List.map (map f) args)
  | Continue a => Continue (f a)
  | Definition_ a definition spec => Definition_ (f a) definition spec
  | Else a condition ifBody elseBody =>
      Else (f a) (map f condition) (map f ifBody) (map f elseBody)
  | Literal a type text => Literal (f a) type text
  | If a condition body => If (f a) (map f condition) (map f body)
  | Loop a body => Loop (f a) (map f body)
  | MemoryAccess a pointer address offsetProvided =>
      MemoryAccess (f a) pointer (map f address) (option_map (map f) offsetProvided)
  | Neg a child => Neg (f a) (map f child)
  | PagesAllocated a => PagesAllocated (f a)
  | Return a child => Return (f a) (option_map (map f) child)
  | SuffixOp a text child => SuffixOp (f a) text (map f child)
  | Variable_ a definition => Variable_ (f a) definition
  end.

(** [node.meta] as name resolution leaves it: the definition of a
    reference or of a definition node, [null] elsewhere. *)
Definition resolved {A} (node : Node A) : option Def.t :=
  match node with
  | Call _ definition _ | Definition_ _ definition _ | MemoryAccess _ definition _ _
  | Variable_ _ definition => Some definition
  | _ => None
  end.

(** A numeric value of the host: an integer, a decimal literal with its
    sign (its value as a float is left to the host), or [NaN]. *)
Inductive Number : Type :=
| NaN
| Int (z : Z)
| Float (negative : bool) (text : string).

(** A break, yield or return that a loop has recorded, with the run type
    that validation gave it. *)
Record Point : Type := Point_ { point : Node unit; point_runType : RunType }.

(** [node.meta] as validation sets it. *)
Inductive Meta : Type :=
| NoMeta
| OpMeta (opInfo : OperatorTable.OpInfo)
| LiteralMeta (value : Number) (runType : RunType)
| TempMeta (tempVariable : Def.t)
| JumpMeta
| LoopMeta (yieldPoints returnPoints : list Point) (depth : Z).

Record Ann : Type :=
  { runType : RunType; alwaysEscapes : bool; dropValue : bool; meta : Meta }.

(** The fields of a node that [createASTNode] has made. *)
Definition created : Ann :=
  {| runType := void; alwaysEscapes := false; dropValue := false; meta := NoMeta |}.

Definition set_dropValue (a : Ann) : Ann :=
  {| runType := runType a; alwaysEscapes := alwaysEscapes a; dropValue := true;
     meta := meta a |}.

(** *** Exceptions

    [CompileError] is the class of compileError.js; [TypeError] and
    [ReferenceError] are the host's.  [Unmodelled] is no exception of the
    host: a walk ends with it where the source would go on with a value
    that the model has no account of (a field of the wrong kind of [meta],
    a number that is no integer).  Trees that come out of validation do
    not get there. *)

Inductive Datum : Type :=
| DNode (node : Node unit)
| DNodes (nodes : list (Node unit))
| DRunType (runType : RunType)
| DNumber (z : Z)
| DDefinition (definition : Def.t).

Inductive Exception : Type :=
| CompileError (type : string) (data : list (string * Datum))
| TypeError
| ReferenceError (name : string)
| Unmodelled.

End AST.

(** ** Exceptions and state: the monad of the two tree walks

    [validate] and [generate] change objects in place and stop at the first
    exception.  A computation takes the state [S] it works on and completes
    normally, with a result and the new state, or throws. *)
Module Monad.
Import AST.

Inductive Completion (S A : Type) : Type :=
| Normal (a : A) (s : S)
| Throw (e : Exception).
Arguments Normal {S A}. Arguments Throw {S A}.

Definition M (S A : Type) : Type := S -> Completion S A.

Definition ret {S A} (a : A) : M S A := fun s => Normal a s.
Definition bind {S A B} (m : M S A) (k : A -> M S B) : M S B :=
  fun s => match m s with Normal a s' => k a s' | Throw e => Throw e end.
Definition throw {S A} (e : Exception) : M S A := fun _ => Throw e.

Module Notations.
Notation "'let*' p ':=' m 'in' k" := (bind m (fun p => k))
  (at level 10, p pattern, m at level 100, k at level 200).
End Notations.

End Monad.

(** ** Semantic validation (validation.js) *)

Module Validation.
Import Parser AST Monad Monad.Notations OperatorTable.

(** The scope of the enclosing function, as far as validation uses it:
    [names] and the list [variables] of its locals. *)
Record FnScope : Type := { names : gmap string Def.t; variables : list Def.t }.

(** What a node sees by walking up: the ASType of its parent, whether
    [findAncestorOfType(node, LOOP)] finds a loop, the definition of the
    enclosing function, and the lengths of [scope.defaultMemory] and
    [scope.defaultTable]. *)
Record Context : Type :=
  { parent : ASType; inLoop : bool; fn : Def.t; defaultMemory : nat; defaultTable : nat }.

Definition within (type : ASType) (ctx : Context) : Context :=
  {| parent := type;
     inLoop := inLoop ctx || bool_decide (type = LOOP);
     fn := fn ctx;
     defaultMemory := defaultMemory ctx;
     defaultTable := defaultTable ctx |}.

(** What a call of [validate] leaves behind: the node with its fields
    set, and the break/yield and return points that are still on their way
    up.  A break or yield belongs to the nearest loop above it; a return
    is recorded at every loop between it and the function. *)
Record Out : Type :=
  { out : Node Ann; yields : list Point; returns : list Point }.

Definition runType_of (o : Out) : RunType := runType (ann (out o)).
Definition escapes (o : Out) : bool := alwaysEscapes (ann (out o)).

Definition annotation (runType : RunType) (alwaysEscapes : bool) (meta : Meta) : Ann :=
  {| runType := runType; alwaysEscapes := alwaysEscapes; dropValue := false; meta := meta |}.

(** [anonymousLocalVariable (node, runType)] *)
Definition anonymousLocalVariable (runType : RunType) : M FnScope Def.t :=
  fun fnScope =>
    let name := "tmp-" +:+ RunType_text runType in
    match names fnScope !! name with
    | Some definition => Normal definition fnScope
    | None =>
        let definition :=
          {| Def.ASType := VARIABLE; Def.exportName := None; Def.isGlobal := false;
             Def.importSource := None; Def.index := 0; Def.kind := "global";
             Def.mutable := true; Def.name := name; Def.runType := runType;
             Def.paramTypes := []; Def.returnType := void; Def.signatureIndex := 0;
             Def.extendedType := false; Def.storageSigned := None;
             Def.storageBits := None; Def.storageSize := 0; Def.storageType := EmptyString |} in
        Normal definition
          {| names := <[name := definition]> (names fnScope);
             variables := variables fnScope ++ [definition] |}
    end.

(** String operations of the literal cases. *)
Definition remove_first (pattern s : string) : string :=
  match String.index 0 pattern s with
  | Some n =>
      String.substring 0 n s +:+
      String.substring (n + String.length pattern)
                       (String.length s - n - String.length pattern) s
  | None => s
  end.

Definition drop_last_3 (s : string) : string :=
  String.substring 0 (String.length s - 3) s.

Definition unreachable_code (node unreachable : Node unit) : Exception :=
  CompileError "Unreachable Code" [("node", DNode node); ("unreachable", DNode unreachable)].

(** The loops over lists of children, for a given way to validate a child. *)
Section Children.
Variable validate : Node unit -> bool -> M FnScope Out.

  (** [BLOCK] and [PAREN] with at least one child: the validated children,
      then [lastChild.alwaysEscapes] and [lastChildType]. *)
Fixpoint validate_children (children : list (Node unit)) (valueRequired : bool)
    : M FnScope (list (Node Ann) * bool * RunType * list Point * list Point) :=
    match children with
    | [] => ret ([], false, void, [], [])
    | [lastChild] =>
        let* last := validate lastChild valueRequired in
        let lastChildType := runType_of last in
        let lastChild' :=
          if valueRequired then out last
          else if decide (lastChildType <> void) then update set_dropValue (out last)
          else out last in
        ret ([lastChild'], escapes last, lastChildType, yields last, returns last)
    | child :: ((next :: _) as rest) =>
        let* c := validate child false in
        if escapes c then
          throw (CompileError "Unreachable Code"
                   [("child", DNode child); ("unreachable", DNode next)])
        else
          let child' := if decide (runType_of c <> void)
                        then update set_dropValue (out c) else out c in
          let* (rest', lastEscapes, lastChildType, ys, rs) :=
            validate_children rest valueRequired in
          ret (child' :: rest', lastEscapes, lastChildType, yields c ++ ys, returns c ++ rs)
    end.

  (** The loop over the arguments of a [CALL], from argument [i] on. *)
Fixpoint validate_args (node : Node unit) (paramTypes : list RunType) (i : nat)
    (args : list (Node unit)) : M FnScope (list (Node Ann) * list Point * list Point) :=
    match args with
    | [] => ret ([], [], [])
    | arg :: args =>
        let* a := validate arg true in
        if escapes a then throw (unreachable_code arg node)
        else
          match paramTypes !! i with
          | Some paramType =>
              if decide (runType_of a <> paramType) then
                throw (CompileError "Function Signature Mismatch"
                         [("node", DNode node); ("arg", DNode arg);
                          ("expectedType", DRunType paramType)])
              else
                let* (args', ys, rs) := validate_args node paramTypes (S i) args in
                ret (out a :: args', yields a ++ ys, returns a ++ rs)
          | None =>
              throw (CompileError "Function Signature Mismatch"
                       [("node", DNode node); ("arg", DNode arg)])
          end
    end.
End Children.

(** The run types of two operands as a key of the operator table. *)
Definition operands_key (leftType rightType : RunType) : string :=
  RunType_text leftType +:+ "," +:+ RunType_text rightType.

(** The comparisons of the integer literal cases; [None] is [NaN]. *)
Definition greater (value : option Z) (limit : Z) : bool :=
  match value with Some z => limit <? z | None => false end.

Definition isSafeInteger (value : option Z) : bool :=
  match value with
  | Some z => (- (2 ^ 53 - 1) <=? z) && (z <=? 2 ^ 53 - 1)
  | None => false
  end.

Definition number (value : option Z) : Number :=
  match value with Some z => Int z | None => NaN end.

(** The [FN_PTR] and [PTR] cases, reached from a definition through its
    specification.  The other specifications have no case of their own,
    and a function literal cannot stand inside a function body ([define]
    refuses it). *)
Definition validate_spec (ctx : Context) (node : Node unit) (spec : ASType)
  : M FnScope unit :=
  match spec with
  | FN_PTR =>
      if decide (defaultTable ctx <> 1%nat)
      then throw (CompileError "No Table Defined For Function Pointer" [("node", DNode node)])
      else ret tt
  | PTR =>
      if decide (defaultMemory ctx <> 1%nat)
      then throw (CompileError "No Memory Defined For Pointer" [("node", DNode node)])
      else ret tt
  | _ => ret tt
  end.

(** [validate (node, valueRequired)].  A node comes to validation once, so
    its fields are the ones [createASTNode] gave it. *)
Fixpoint validate (ctx : Context) (node : Node unit) (valueRequired : bool) {struct node}
  : M FnScope Out :=
  match node with

  | Binary _ type text lhs rhs =>
      let* l := validate (within type ctx) lhs true in
      let* r := validate (within type ctx) rhs true in
      match operatorTable !! text with
      | None => throw TypeError
      | Some row =>
          let opInfo := row !! operands_key (runType_of l) (runType_of r) in
          if escapes l then throw (unreachable_code lhs node)
          else if escapes r then throw (unreachable_code rhs node)
          else
            match opInfo with
            | None => throw (CompileError "Undefined Operator" [("node", DNode node)])
            | Some opInfo =>
                ret {| out := Binary (annotation (returnType opInfo) false (OpMeta opInfo))
                                type text (out l) (out r);
                       yields := yields l ++ yields r;
                       returns := returns l ++ returns r |}
            end
      end

  | UnaryMathOp _ text child =>
      let* c := validate (within UNARY_MATH_OP ctx) child true in
      match operatorTable !! text with
      | None => throw TypeError
      | Some row =>
          let opInfo := row !! RunType_text (runType_of c) in
          if escapes c then throw (unreachable_code child node)
          else
            match opInfo with
            | None => throw (CompileError "Undefined Operator" [("node", DNode node)])
            | Some opInfo =>
                ret {| out := UnaryMathOp (annotation (returnType opInfo) false (OpMeta opInfo))
                                text (out c);
                       yields := yields c; returns := returns c |}
            end
      end

  | AllocatePages _ child =>
      let* c := validate (within ALLOCATE_PAGES ctx) child true in
      match operatorTable !! "allocate_pages" with
      | None => throw TypeError
      | Some row =>
          let opInfo := row !! RunType_text (runType_of c) in
          if escapes c then throw (unreachable_code child node)
          else
            match opInfo with
            | None => throw (CompileError "Undefined Operator" [("node", DNode node)])
            | Some opInfo =>
                ret {| out := AllocatePages (annotation (returnType opInfo) false (OpMeta opInfo))
                                (out c);
                       yields := yields c; returns := returns c |}
            end
      end

  | And _ lhs rhs =>
      let* l := validate (within AND ctx) lhs true in
      let runType := runType_of l in
      if escapes l then throw (unreachable_code lhs node)
      else
        let* r := validate (within AND ctx) rhs true in
        if decide (runType_of r <> runType) then
          throw (CompileError "Inconsistent Type For Boolean"
                   [("node", DNode node); ("leftType", DRunType runType);
                    ("rightType", DRunType (runType_of r))])
        else if decide (runType = void) then
          throw (CompileError "Non-Numeric Type For Boolean"
                   [("node", DNode node); ("runType", DRunType runType)])
        else
          ret {| out := And (annotation runType false NoMeta) (out l) (out r);
                 yields := yields l ++ yields r;
                 returns := returns l ++ returns r |}

  | Or _ lhs rhs =>
      let* l := validate (within OR ctx) lhs true in
      let runType := runType_of l in
      if escapes l then throw (unreachable_code lhs node)
      else
        let* r := validate (within OR ctx) rhs true in
        if decide (runType_of r <> runType) then
          (* [{node, leftType, rightType}]: no [leftType] is in scope here *)
          throw (ReferenceError "leftType")
        else if decide (runType = void) then
          throw (CompileError "Non-Numeric Type For Boolean"
                   [("node", DNode node); ("runType", DRunType runType)])
        else
          let* tempVariable := anonymousLocalVariable runType in
          ret {| out := Or (annotation runType false (TempMeta tempVariable)) (out l) (out r);
                 yields := yields l ++ yields r;
                 returns := returns l ++ returns r |}

  | Assign _ lhs rhs =>
      match resolved lhs with
      | None => throw TypeError
      | Some leftMeta =>
          let* (l, leftType, meta) :=
            if decide (ASType_of lhs = MEMORY_ACCESS) then
              let* l := validate (within ASSIGN ctx) lhs valueRequired in
              let leftType := Def.returnType leftMeta in
              if valueRequired then
                let* tempVariable := anonymousLocalVariable leftType in
                ret (l, leftType, TempMeta tempVariable)
              else ret (l, leftType, NoMeta)
            else if bool_decide (ASType_of lhs <> DEFINITION) && negb (Def.mutable leftMeta) then
              throw (CompileError "Assignment To Immutable" [("node", DNode node)])
            else
              ret ({| out := AST.map (fun _ => created) lhs; yields := []; returns := [] |},
                   Def.runType leftMeta, NoMeta) in
          let* r := validate (within ASSIGN ctx) rhs true in
          if escapes r then throw (unreachable_code rhs node)
          else if decide (runType_of r <> leftType) then
            throw (CompileError "Assignment Type Mismatch"
                     [("left", DNode lhs); ("right", DNode rhs); ("runType", DRunType leftType)])
          else
            ret {| out := Assign (annotation leftType false meta) (out l) (out r);
                   yields := yields l ++ yields r;
                   returns := returns l ++ returns r |}
      end

  | Block _ children =>
      match children with
      | [] => ret {| out := Block created []; yields := []; returns := [] |}
      | _ =>
          let* (children', lastEscapes, lastChildType, ys, rs) :=
            validate_children (validate (within BLOCK ctx)) children valueRequired in
          ret {| out := Block (annotation (if valueRequired then lastChildType else void)
                                 lastEscapes NoMeta) children';
                 yields := ys; returns := rs |}
      end

  | Paren _ children =>
      match children with
      | [] => ret {| out := Paren created []; yields := []; returns := [] |}
      | _ =>
          let* (children', lastEscapes, lastChildType, ys, rs) :=
            validate_children (validate (within PAREN ctx)) children valueRequired in
          ret {| out := Paren (annotation (if valueRequired then lastChildType else void)
                                 lastEscapes NoMeta) children';
                 yields := ys; returns := rs |}
      end

  | Break _ =>
      if inLoop ctx then
        ret {| out := Break (annotation void true JumpMeta);
               yields := [Point_ node void]; returns := [] |}
      else throw (CompileError "Misplaced Break/Yield/Continue" [("node", DNode node)])

  | Yield _ child =>
      if inLoop ctx then
        let* c := validate (within YIELD ctx) child true in
        if escapes c then throw (unreachable_code child node)
        else
          ret {| out := Yield (annotation (runType_of c) true JumpMeta) (out c);
                 yields := Point_ node (runType_of c) :: yields c;
                 returns := returns c |}
      else throw (CompileError "Misplaced Break/Yield/Continue" [("node", DNode node)])

  | Call _ fn args =>
      if decide (length args <> length (Def.paramTypes fn)) then
        throw (CompileError "Wrong Number of Arguments"
                 [("node", DNode node); ("args", DNodes args)])
      else
        let* (args', ys, rs) :=
          validate_args (validate (within ARG_LIST ctx)) node (Def.paramTypes fn) 0 args in
        ret {| out := Call (annotation (Def.returnType fn) false NoMeta) fn args';
               yields := ys; returns := rs |}

  | Continue _ =>
      if inLoop ctx then
        ret {| out := Continue (annotation void true JumpMeta); yields := []; returns := [] |}
      else throw (CompileError "Misplaced Break/Yield/Continue" [("node", DNode node)])

  | Definition_ _ definition spec =>
      let* _ := validate_spec ctx node spec in
      ret {| out := Definition_ (annotation (Def.runType definition) false NoMeta)
                      definition spec;
             yields := []; returns := [] |}

  | Else _ condition ifBody elseBody =>
      let* c := validate (within IF ctx) condition true in
      if escapes c then throw (unreachable_code condition node)
      else if decide (runType_of c = void) then
        throw (CompileError "Bad Condition" [("node", DNode condition)])
      else
        let* i := validate (within IF ctx) ifBody valueRequired in
        let* e := validate (within ELSE ctx) elseBody valueRequired in
        let runType := runType_of i in
        let elseType := runType_of e in
        let finish runType alwaysEscapes :=
          ret {| out := Else (annotation runType alwaysEscapes NoMeta) (out c) (out i) (out e);
                 yields := yields c ++ yields i ++ yields e;
                 returns := returns c ++ returns i ++ returns e |} in
        if escapes i then
          if escapes e then finish runType true else finish elseType false
        else if decide (runType <> elseType) then
          throw (CompileError "Inconsistent Type"
                   [("ifNode", DNode (If tt condition ifBody)); ("elseNode", DNode node);
                    ("ifType", DRunType runType); ("elseType", DRunType elseType)])
        else finish runType false

  | Literal _ type text =>
      let finish runType value :=
        ret {| out := Literal (annotation runType false (LiteralMeta value runType)) type text;
               yields := []; returns := [] |} in
      match type with
      | F32_LITERAL => finish f32 (Float false (remove_first "x32" text))
      | F64_LITERAL => finish f64 (Float false (drop_last_3 text))
      | I32_LITERAL =>
          let value := parseInt (remove_first "x32" text) in
          let negative := bool_decide (parent ctx = NEG) in
          if greater value (if negative then 2147483648 else 4294967295) then
            throw (CompileError "Integer Literal Out of Range"
                     [("node", DNode node); ("bits", DNumber 32)])
          else finish i32 (number value)
      | I64_LITERAL =>
          let value := parseInt (drop_last_3 text) in
          let negative := bool_decide (parent ctx = NEG) in
          if negb (isSafeInteger (if negative then Z.opp <$> value else value)) then
            throw (CompileError "Integer Literal Out of Range"
                     [("node", DNode node); ("bits", DNumber 64)])
          else finish i64 (number value)
      | _ => ret {| out := Literal created type text; yields := []; returns := [] |}
      end

  | If _ condition body =>
      let* c := validate (within IF ctx) condition true in
      if escapes c then throw (unreachable_code condition node)
      else if decide (runType_of c = void) then
        throw (CompileError "Bad Condition" [("node", DNode condition)])
      else
        let* b := validate (within IF ctx) body false in
        ret {| out := If created (out c) (out b);
               yields := yields c ++ yields b;
               returns := returns c ++ returns b |}

  | Loop _ body =>
      let* b := validate (within LOOP ctx) body false in
      let yieldPoints := yields b in
      let returnPoints := returns b in
      let finish runType alwaysEscapes :=
        ret {| out := Loop (annotation runType alwaysEscapes
                              (LoopMeta yieldPoints returnPoints 0)) (out b);
               yields := []; returns := returnPoints |} in
      match yieldPoints with
      | [] =>
          match returnPoints with
          | [] => throw (CompileError "Infinite Loop" [("node", DNode node)])
          | first :: _ => finish (point_runType first) true
          end
      | first :: others =>
          let runType := point_runType first in
          match List.find (fun p => bool_decide (point_runType p <> runType)) others with
          | Some second =>
              throw (CompileError "Inconsistent Type For Loop"
                       [("first", DNode (point first)); ("second", DNode (point second))])
          | None => finish runType false
          end
      end

  | MemoryAccess _ pointer address offsetProvided =>
      let* a := validate (within ADDRESS ctx) address true in
      if escapes a then throw (unreachable_code address node)
      else if decide (runType_of a <> i32) then
        throw (CompileError "32-bit Address Required" [("node", DNode address)])
      else
        let* (offsetProvided', ys, rs) :=
          match offsetProvided with
          | Some offset =>
              let* o := validate (within ADDRESS ctx) offset true in
              ret (Some (out o), yields o, returns o)
          | None => ret (None, [], [])
          end in
        ret {| out := MemoryAccess (annotation (Def.returnType pointer) false NoMeta)
                        pointer (out a) offsetProvided';
               yields := yields a ++ ys; returns := returns a ++ rs |}

  | Neg _ child =>
      let* c := validate (within NEG ctx) child true in
      ret {| out := Neg (annotation (runType_of c) false NoMeta) (out c);
             yields := yields c; returns := returns c |}

  | PagesAllocated _ =>
      ret {| out := PagesAllocated (annotation i32 false NoMeta); yields := []; returns := [] |}

  | Return _ child =>
      let* (child', runType, ys, rs) :=
        match child with
        | Some child =>
            let* c := validate (within RETURN ctx) child true in
            if escapes c then throw (unreachable_code child node)
            else ret (Some (out c), runType_of c, yields c, returns c)
        | None => ret (None, void, [], [])
        end in
      if decide (Def.returnType (fn ctx) <> runType) then
        throw (CompileError "Explicit Return Type Mismatch"
                 [("node", DNode node); ("definition", DDefinition (fn ctx));
                  ("runType", DRunType runType)])
      else
        ret {| out := Return (annotation runType true NoMeta) child';
               yields := ys; returns := rs ++ [Point_ node runType] |}

  | SuffixOp _ text child =>
      let* c := validate (within SUFFIX_OP ctx) child true in
      ret {| out := SuffixOp (annotation (runType_of c) false NoMeta) text (out c);
             yields := yields c; returns := returns c |}

  | Variable_ _ definition =>
      ret {| out := Variable_ (annotation (Def.runType definition) false NoMeta) definition;
             yields := []; returns := [] |}
  end.

(** The [FN] case: the body of a function against its declared return type. *)
Definition validate_FN (defaultMemory defaultTable : nat) (fn : Def.t) (body : Node unit)
  : M FnScope (Node Ann) :=
  let ctx := {| parent := FN; inLoop := false; fn := fn;
                defaultMemory := defaultMemory; defaultTable := defaultTable |} in
  let* b := validate ctx body (bool_decide (Def.returnType fn <> void)) in
  if bool_decide (runType_of b <> Def.returnType fn) && negb (escapes b) then
    throw (CompileError "Implicit Return Type Mismatch" [])
  else ret (out b).

End Validation.

(** ** The byte code container, continued: parts and the methods that
    write them *)

Module Container.
Import AST Monad Monad.Notations ByteCode.

(** The bytes of a part.  The bytes of a float are taken from a
    [DataView] of the host; the model keeps the number. *)
Inductive Payload : Type :=
| Bytes (bytes : list Z)
| F32 (value : Number)
| F64 (value : Number).

Definition Payload_length (payload : Payload) : Z :=
  match payload with
  | Bytes bytes => Z.of_nat (length bytes)
  | F32 _ => 4
  | F64 _ => 8
  end.

Inductive Value : Type :=
| Code (code : string)
| Num (value : Number)
| Str (s : string).

(** A part is [{byte, field, path, singular: true, value}] or
    [{bytes, field, path, singular: false, value}].  The byte of a code
    that the code table does not have is [undefined]. *)
Inductive Part : Type :=
| Single (byte : option Z) (field path : string) (value : Value)
| Several (bytes : Payload) (field path : string) (value : Value).

(** The fields of a [ByteCodeContainer] that function bodies use. *)
Record t : Type := { path : string; parts : list Part; totalSize : Z }.

Definition push (part : Part) (size : Z) : M t unit :=
  fun this =>
    Normal tt {| path := path this; parts := parts this ++ [part];
                 totalSize := totalSize this + size |}.

Definition path_of (field : string) : M t string :=
  fun this => Normal (path this +:+ "|" +:+ field) this.

(** [byte (code, field)] *)
Definition byte (code field : string) : M t unit :=
  let* p := path_of field in
  push (Single (codeTable !! code) field p (Code code)) 1.

(** [bytes (bytes, field, value)] *)
Definition bytes (payload : Payload) (field : string) (value : Value) : M t unit :=
  let* p := path_of field in
  push (Several payload field p value) (Payload_length payload).

(** [op (code)] *)
Definition op (code : string) : M t unit := byte code "op".

Definition out_of_range : Exception :=
  CompileError "Integer Out of Range in Code Generation" [].

(** [varuint (value, field, bound = 32)] *)
Definition varuint_bound (value : Number) (field : string) (bound : Z) : M t unit :=
  match value with
  | Int z =>
      if (z <? 0) || (2 ^ bound - 1 <? z) then throw out_of_range
      else bytes (Bytes (uLEB z [])) field (Num value)
  | NaN => throw out_of_range
  | Float _ _ => throw Unmodelled
  end.

Definition varuint (value : Z) (field : string) : M t unit :=
  varuint_bound (Int value) field 32.

(** [literal (runType, value, field)] *)
Definition literal (runType : RunType) (value : Number) (field : string) : M t unit :=
  match runType with
  | i32 | i64 =>
      match value with
      | Int z => bytes (Bytes (LEB z [])) field (Num value)
      | NaN => bytes (Bytes (LEB 0 [])) field (Num value)
      | Float _ _ => throw Unmodelled
      end
  | f32 => bytes (F32 value) field (Num value)
  | f64 => bytes (F64 value) field (Num value)
  | void => ret tt
  end.

(** [getVariable (index, isGlobal)] *)
Definition getVariable (index : Z) (isGlobal : bool) : M t unit :=
  if isGlobal then let* _ := op "get_global" in varuint index "global_index"
  else let* _ := op "get_local" in varuint index "local_index".

(** [setVariable (index, isGlobal, tee)] *)
Definition setVariable (index : Z) (isGlobal tee : bool) : M t unit :=
  if isGlobal then
    if tee then
      let* _ := op "set_global" in
      let* _ := varuint index "global_index" in
      let* _ := op "get_global" in
      varuint index "global_index"
    else
      let* _ := op "set_global" in varuint index "global_index"
  else if tee then
    let* _ := op "tee_local" in varuint index "local_index"
  else
    let* _ := op "set_local" in varuint index "local_index".

End Container.

(** ** Function body code generation (functionCodeGen.js) *)

Module FunctionCodeGen.
Import AST Monad Monad.Notations ByteCode Container.

(** *** The alignment of a memory access

    [for (var alignment = Math.log2(storageSize);
          offset % (2**alignment) !== 0; alignment--);] *)

(** [offset % (2**alignment)] for an integer offset: a negative exponent
    gives a fraction of one, which divides every integer. *)
Definition remainder (offset alignment : Z) : Z :=
  if alignment <? 0 then 0 else Z.rem offset (2 ^ alignment).

Lemma remainder_decreases offset alignment :
  (remainder offset alignment =? 0) = false ->
  (Z.to_nat (alignment - 1) < Z.to_nat alignment)%nat.
Proof.
  unfold remainder. intros H%Z.eqb_neq.
  destruct (alignment <? 0) eqn:Hneg; [done|]. apply Z.ltb_ge in Hneg.
  destruct (Z.eq_dec alignment 0) as [->|Hz]; [|lia].
  change (2 ^ 0) with 1 in H. by rewrite Z.rem_1_r in H.
Qed.

Equations alignment_loop (offset alignment : Z) : Z by wf (Z.to_nat alignment) lt :=
alignment_loop offset alignment with inspect (remainder offset alignment =? 0) := {
  | exist _ true _ => alignment;
  | exist _ false Hne => alignment_loop offset (alignment - 1) }.
Next Obligation. intros. by eapply remainder_decreases. Qed.

(** [Math.log2] of a power of two; other arguments have logarithms that
    are no integers. *)
Definition log2 (x : Z) : option Z :=
  if (0 <? x) && (2 ^ Z.log2 x =? x) then Some (Z.log2 x) else None.

(** The alignment of an access of [storageSize] bytes at [offset]. *)
Definition alignment_of (storageSize : Z) (offset : Number) : M Container.t Z :=
  match log2 storageSize, offset with
  | Some start, Int offset => ret (alignment_loop offset start)
  | _, _ => throw Unmodelled
  end.

(** [offsetProvided === undefined ? 0 : offsetProvided.meta.value] *)
Definition offset_of (offsetProvided : option (Node Ann)) : M Container.t Number :=
  match offsetProvided with
  | None => ret (Int 0)
  | Some node =>
      match meta (ann node) with
      | LiteralMeta value _ => ret value
      | NoMeta => throw TypeError
      | _ => throw Unmodelled
      end
  end.

Definition negate (value : Number) : Number :=
  match value with
  | NaN => NaN
  | Int z => Int (- z)
  | Float negative text => Float (negb negative) text
  end.

(** [generateEach (list, depth)], for a given way to generate a node. *)
Section Each.
Variable generate : Node Ann -> M Container.t unit.

Fixpoint generateEach (list : list (Node Ann)) : M Container.t unit :=
    match list with
    | [] => ret tt
    | node :: list => let* _ := generate node in generateEach list
    end.
End Each.

(** What is in front of the [if] of a condition: the comparison with zero
    that makes an [i32] of a condition of another run type. *)
Definition coerce_condition (runType : RunType) : M Container.t unit :=
  if decide (runType <> i32) then
    let* _ := op (RunType_text runType +:+ ".const") in
    let* _ := literal runType (Int 0) "value" in
    op (RunType_text runType +:+ ".ne")
  else ret tt.

(** [generate (bytecode, node, depth)].  [parentType] is
    [node.parent.ASType] and [target] the [meta.depth] of the loop that is
    the jump target of the breaks, yields and continues of the node: the
    nearest loop above them, whose [depth] is set when its code is
    generated. *)
Fixpoint generate (parentType : ASType) (target : option Z) (node : Node Ann) (depth : Z)
  {struct node} : M Container.t unit :=
  let runType := runType (ann node) in
  let drop dropValue : M Container.t unit := if dropValue : bool then op "drop" else ret tt in
  match node with

  | Binary a type _ lhs rhs =>
      let* _ := generate type target lhs depth in
      let* _ := generate type target rhs depth in
      match meta a with
      | OpMeta opInfo =>
          let* _ := op (OperatorTable.operator opInfo) in drop (dropValue a)
      | NoMeta => throw TypeError
      | _ => throw Unmodelled
      end

  | UnaryMathOp a _ child =>
      let* _ := generate UNARY_MATH_OP target child depth in
      match meta a with
      | OpMeta opInfo =>
          let* _ := op (OperatorTable.operator opInfo) in drop (dropValue a)
      | NoMeta => throw TypeError
      | _ => throw Unmodelled
      end

  | AllocatePages a child =>
      let* _ := generate ALLOCATE_PAGES target child depth in
      let* _ := op "grow_memory" in
      let* _ := varuint 0 "reserved" in
      drop (dropValue a)

  | And a lhs rhs =>
      let* _ := generate AND target lhs depth in
      let* _ :=
        if decide (runType = i32 \/ runType = i64) then op (RunType_text runType +:+ ".eqz")
        else
          let* _ := op (RunType_text runType +:+ ".const") in
          let* _ := literal runType (Int 0) "value" in
          op (RunType_text runType +:+ ".eq") in
      let* _ := op "if" in
      let* _ := byte (RunType_text runType) "block_type" in
      let* _ := op (RunType_text runType +:+ ".const") in
      let* _ := literal runType (Int 0) "value" in
      let* _ := op "else" in
      let* _ := generate AND target rhs (depth + 1) in
      let* _ := op "end" in
      drop (dropValue a)

  | Assign a lhs rhs =>
      match lhs with
      | MemoryAccess _ pointer address offsetProvided =>
          let* offset := offset_of offsetProvided in
          let* alignment := alignment_of (Def.storageSize pointer) offset in
          let* _ := generate ADDRESS target address depth in
          let* _ := getVariable (Def.index pointer) (Def.isGlobal pointer) in
          let* _ := op "i32.add" in
          let* _ := op "i32.const" in
          let* _ := varuint (Def.storageSize pointer) "value" in
          let* _ := op "i32.mul" in
          let* _ := generate ASSIGN target rhs depth in
          let storageOp :=
            RunType_text (Def.returnType pointer) +:+ ".store" +:+
            (if Def.extendedType pointer then default EmptyString (Def.storageBits pointer) else EmptyString) in
          if dropValue a then
            let* _ := op storageOp in
            let* _ := varuint alignment "flags" in
            varuint_bound offset "offset" 32
          else
            match meta a with
            | TempMeta tempVariable =>
                let* _ := op "tee_local" in
                let* _ := varuint (Def.index tempVariable) "local_index" in
                let* _ := op storageOp in
                let* _ := varuint alignment "flags" in
                let* _ := varuint_bound offset "offset" 32 in
                let* _ := op "get_local" in
                varuint (Def.index tempVariable) "local_index"
            | NoMeta => throw TypeError
            | _ => throw Unmodelled
            end
      | _ =>
          match resolved lhs with
          | Some definition =>
              let* _ := generate ASSIGN target rhs depth in
              setVariable (Def.index definition) (Def.isGlobal definition) (negb (dropValue a))
          | None => throw TypeError
          end
      end

  | Block a children | Paren a children =>
      let* _ :=
        match children with
        | [child] => generate (ASType_of node) target child depth
        | _ =>
            if decide (parentType = ELSE \/ parentType = IF \/ parentType = FN \/
                       parentType = LOOP) then
              generateEach (fun child => generate (ASType_of node) target child depth) children
            else
              let* _ := op "block" in
              let* _ := byte (RunType_text runType) "block_type" in
              let* _ := generateEach
                          (fun child => generate (ASType_of node) target child (depth + 1))
                          children in
              op "end"
        end in
      drop (dropValue a)

  | Break _ =>
      match target with
      | Some target =>
          let* _ := op "br" in varuint (depth - target) "relative_depth"
      | None => throw TypeError
      end

  | Yield _ child =>
      let* _ := generate YIELD target child depth in
      match target with
      | Some target =>
          let* _ := op "br" in varuint (depth - target) "relative_depth"
      | None => throw TypeError
      end

  | Call a fn args =>
      let* _ := generateEach (fun arg => generate ARG_LIST target arg depth) args in
      let* _ :=
        if decide (Def.ASType fn = FN_PTR) then
          let* _ := getVariable (Def.index fn) (Def.isGlobal fn) in
          let* _ := op "call_indirect" in
          let* _ := varuint (Def.signatureIndex fn) "type_index" in
          varuint 0 "reserved"
        else
          let* _ := op "call" in varuint (Def.index fn) "function_index" in
      drop (dropValue a)

  | Continue a =>
      match target with
      | Some target =>
          let* _ := op "br" in
          let* _ := varuint (depth - target - 1) "relative_depth" in
          drop (dropValue a)
      | None => throw TypeError
      end

  | Definition_ a definition _ | Variable_ a definition =>
      if dropValue a then ret tt
      else getVariable (Def.index definition) (Def.isGlobal definition)

  | Else a condition passBody failBody =>
      let* _ := generate IF target condition depth in
      let* _ := coerce_condition (AST.runType (ann condition)) in
      let* _ := op "if" in
      let* _ := byte (RunType_text runType) "block_type" in
      let* _ := generate IF target passBody (depth + 1) in
      let* _ := op "else" in
      let* _ := generate ELSE target failBody (depth + 1) in
      let* _ := op "end" in
      drop (dropValue a)

  | Literal a type _ =>
      let* _ :=
        match type with
        | F32_LITERAL | F64_LITERAL | I32_LITERAL | I64_LITERAL =>
            match meta a with
            | LiteralMeta value runType =>
                let* _ := op (RunType_text runType +:+ ".const") in
                literal runType value "value"
            | NoMeta => throw TypeError
            | _ => throw Unmodelled
            end
        | _ => ret tt
        end in
      drop (dropValue a)

  | If a condition body =>
      let* _ := generate IF target condition depth in
      let* _ := coerce_condition (AST.runType (ann condition)) in
      let* _ := op "if" in
      let* _ := byte "void" "block_type" in
      let* _ := generate IF target body (depth + 1) in
      let* _ := op "end" in
      drop (dropValue a)

  | Loop a body =>
      let* _ := op "block" in
      let* _ := byte (RunType_text runType) "block_type" in
      let* _ := op "loop" in
      let* _ := byte (RunType_text runType) "block_type" in
      let* _ := generate LOOP (Some (depth + 1)) body (depth + 2) in
      let* _ := op "br" in
      let* _ := varuint 0 "relative_depth" in
      let* _ := op "end" in
      let* _ := op "end" in
      drop (dropValue a)

  | MemoryAccess a pointer address offsetProvided =>
      let* offset := offset_of offsetProvided in
      let* alignment := alignment_of (Def.storageSize pointer) offset in
      let loadOp :=
        RunType_text (Def.runType pointer) +:+ ".load" +:+
        (if Def.extendedType pointer
         then default EmptyString (Def.storageBits pointer) +:+ "_" +:+
              default EmptyString (Def.storageSigned pointer)
         else EmptyString) in
      let* _ := generate ADDRESS target address depth in
      let* _ := getVariable (Def.index pointer) (Def.isGlobal pointer) in
      let* _ := op "i32.add" in
      let* _ := op "i32.const" in
      let* _ := varuint (Def.storageSize pointer) "value" in
      let* _ := op "i32.mul" in
      let* _ := op loadOp in
      let* _ := varuint alignment "flags" in
      let* _ := varuint_bound offset "offset" 32 in
      drop (dropValue a)

  | Neg a child =>
      match meta (ann child) with
      | LiteralMeta value _ =>
          let* _ := op (RunType_text runType +:+ ".const") in
          let* _ := literal runType (negate value) "value" in
          drop (dropValue a)
      | NoMeta => throw TypeError
      | _ => throw Unmodelled
      end

  | Or a lhs rhs =>
      match meta a with
      | TempMeta tempVariable =>
          let* _ := generate OR target lhs depth in
          let* _ := op "tee_local" in
          let* _ := varuint (Def.index tempVariable) "local_index" in
          let* _ := op "if" in
          let* _ := byte (RunType_text runType) "block_type" in
          let* _ := op "get_local" in
          let* _ := varuint (Def.index tempVariable) "local_index" in
          let* _ := op "else" in
          let* _ := generate OR target rhs (depth + 1) in
          let* _ := op "end" in
          drop (dropValue a)
      | _ =>
          let* _ := generate OR target lhs depth in
          let* _ := op "tee_local" in
          match meta a with NoMeta => throw TypeError | _ => throw Unmodelled end
      end

  | PagesAllocated a =>
      let* _ := op "current_memory" in
      let* _ := varuint 0 "reserved" in
      drop (dropValue a)

  | Return _ child =>
      let* _ :=
        match child with
        | Some child => generate RETURN target child depth
        | None => ret tt
        end in
      op "return"

  | SuffixOp a text child =>
      match resolved child with
      | Some definition =>
          let index := Def.index definition in
          let isGlobal := Def.isGlobal definition in
          let childType := AST.runType (ann child) in
          let* _ := if dropValue a then ret tt else getVariable index isGlobal in
          let* _ := getVariable index isGlobal in
          let* _ := op (RunType_text childType +:+ ".const") in
          let* _ := literal childType (Int 1) "value" in
          let* _ := op (RunType_text childType +:+ "." +:+
                        (if String.eqb text "++" then "add" else "sub")) in
          setVariable index isGlobal false
      | None => throw TypeError
      end
  end.

End FunctionCodeGen.

(** ** Module code generation (moduleCodeGen.js): the index spaces

    The lists of the global scope hold definition objects, and
    [orderGlobals] writes the [index] field of the objects it finds there.
    The objects live in a heap and the lists hold references into it, so an
    object that stood in two lists would be written twice. *)

Module ModuleCodeGen.

Definition ref : Type := positive.

(** The part of the global scope that [orderGlobals] takes apart. *)
Record Scope : Type := {
  imports_function : list ref;
  imports_global : list ref;
  variables : list ref;
  functions : list ref }.

Definition set_index (i : Z) (definition : Def.t) : Def.t :=
  {| Def.ASType := Def.ASType definition;
     Def.exportName := Def.exportName definition;
     Def.isGlobal := Def.isGlobal definition;
     Def.importSource := Def.importSource definition;
     Def.index := i;
     Def.kind := Def.kind definition;
     Def.mutable := Def.mutable definition;
     Def.name := Def.name definition;
     Def.runType := Def.runType definition;
     Def.paramTypes := Def.paramTypes definition;
     Def.returnType := Def.returnType definition;
     Def.signatureIndex := Def.signatureIndex definition;
     Def.extendedType := Def.extendedType definition;
     Def.storageSigned := Def.storageSigned definition;
     Def.storageBits := Def.storageBits definition;
     Def.storageSize := Def.storageSize definition;
     Def.storageType := Def.storageType definition |}.

(** [for (let i = ...; i < objects.length; i++) objects[i].index = i + offset],
    with [objects] the part of the list from position [i] on. *)
Fixpoint assign_indices (offset i : Z) (objects : list ref) (heap : gmap ref Def.t)
  : gmap ref Def.t :=
  match objects with
  | [] => heap
  | r :: objects =>
      assign_indices offset (i + 1) objects (alter (set_index (i + offset)) r heap)
  end.

(** [orderGlobals ({imports: {function: fnImports, global: varImports},
    variables, functions})] *)
Definition orderGlobals (scope : Scope) (heap : gmap ref Def.t) : gmap ref Def.t :=
  let fnImports := imports_function scope in
  let varImports := imports_global scope in
  let heap := assign_indices 0 0 fnImports heap in
  let heap := assign_indices (Z.of_nat (length fnImports)) 0 (functions scope) heap in
  let heap := assign_indices 0 0 varImports heap in
  assign_indices (Z.of_nat (length varImports)) 0 (variables scope) heap.

(** The [index] fields of the objects of a list. *)
Definition indices (heap : gmap ref Def.t) (objects : list ref) : list (option Z) :=
  (fun r => Def.index <$> heap !! r) <$> objects.

Lemma assign_indices_other offset i objects heap r :
  r ∉ objects -> assign_indices offset i objects heap !! r = heap !! r.
Proof.
  revert i heap. induction objects as [|r' objects IH]; intros i heap Hr; cbn; [done|].
  apply not_elem_of_cons in Hr as [Hne Hr].
  rewrite IH by done. by rewrite lookup_alter_ne.
Qed.

Lemma assign_indices_dom offset i objects heap r :
  is_Some (assign_indices offset i objects heap !! r) <-> is_Some (heap !! r).
Proof.
  revert i heap. induction objects as [|r' objects IH]; intros i heap; cbn; [done|].
  rewrite IH. destruct (decide (r' = r)) as [->|Hne].
  - rewrite lookup_alter_eq. by rewrite fmap_is_Some.
  - by rewrite lookup_alter_ne.
Qed.

Lemma indices_other offset i objects heap others :
  (forall r, r ∈ others -> r ∉ objects) ->
  indices (assign_indices offset i objects heap) others = indices heap others.
Proof.
  intros Hdisj. unfold indices. apply list_fmap_ext. intros k r Hk.
  rewrite assign_indices_other; [done|]. apply Hdisj. by eapply list_elem_of_lookup_2.
Qed.

(** A list without repetition gets consecutive indices. *)
Lemma indices_assign offset i objects heap :
  NoDup objects ->
  (forall r, r ∈ objects -> is_Some (heap !! r)) ->
  indices (assign_indices offset i objects heap) objects =
  (fun k => Some (i + offset + Z.of_nat k)) <$> seq 0 (length objects).
Proof.
  revert i heap. induction objects as [|r objects IH]; intros i heap Hnd Hdom; [done|].
  apply NoDup_cons in Hnd as [Hr Hnd]. cbn [assign_indices].
  unfold indices. cbn [fmap list_fmap length seq]. f_equal.
  - rewrite assign_indices_other by done. rewrite lookup_alter_eq.
    destruct (Hdom r) as [d ->]; [by left|]. cbn. f_equal. lia.
  - fold (indices (assign_indices offset (i + 1) objects
                     (alter (set_index (i + offset)) r heap)) objects).
    rewrite IH; [| done |].
    + rewrite <- (fmap_S_seq 0), <- list_fmap_compose. apply list_fmap_ext.
      intros ? k _. cbn. f_equal. lia.
    + intros r' Hr'. rewrite lookup_alter_ne by set_solver. apply Hdom. by right.
Qed.

End ModuleCodeGen.

(** ** Reasoning about the tree walks *)

Module Walks.
Import AST Monad Monad.Notations Validation.

(** Induction over a tree, with the hypothesis for every child of a list. *)
Section Induction.
Context {A : Type} (P : Node A -> Prop).
Hypothesis HBinary : forall a type text lhs rhs, P lhs -> P rhs -> P (Binary a type text lhs rhs).
Hypothesis HUnaryMathOp : forall a text child, P child -> P (UnaryMathOp a text child).
Hypothesis HAllocatePages : forall a child, P child -> P (AllocatePages a child).
Hypothesis HAnd : forall a lhs rhs, P lhs -> P rhs -> P (And a lhs rhs).
Hypothesis HOr : forall a lhs rhs, P lhs -> P rhs -> P (Or a lhs rhs).
Hypothesis HAssign : forall a lhs rhs, P lhs -> P rhs -> P (Assign a lhs rhs).
Hypothesis HBlock : forall a children, Forall P children -> P (Block a children).
Hypothesis HParen : forall a children, Forall P children -> P (Paren a children).
Hypothesis HBreak : forall a, P (Break a).
Hypothesis HYield : forall a child, P child -> P (Yield a child).
Hypothesis HCall : forall a fn args, Forall P args -> P (Call a fn args).
Hypothesis HContinue : forall a, P (Continue a).
Hypothesis HDefinition : forall a definition spec, P (Definition_ a definition spec).
Hypothesis HElse : forall a condition ifBody elseBody,
    P condition -> P ifBody -> P elseBody -> P (Else a condition ifBody elseBody).
Hypothesis HLiteral : forall a type text, P (Literal a type text).
Hypothesis HIf : forall a condition body, P condition -> P body -> P (If a condition body).
Hypothesis HLoop : forall a body, P body -> P (Loop a body).
Hypothesis HMemoryAccess : forall a pointer address offsetProvided,
    P address -> (forall offset, offsetProvided = Some offset -> P offset) ->
    P (MemoryAccess a pointer address offsetProvided).
Hypothesis HNeg : forall a child, P child -> P (Neg a child).
Hypothesis HPagesAllocated : forall a, P (PagesAllocated a).
Hypothesis HReturn : forall a child,
    (forall node, child = Some node -> P node) -> P (Return a child).
Hypothesis HSuffixOp : forall a text child, P child -> P (SuffixOp a text child).
Hypothesis HVariable : forall a definition, P (Variable_ a definition).

Fixpoint Node_induction (node : Node A) : P node :=
    let each := fix each (nodes : list (Node A)) : Forall P nodes :=
      match nodes with
      | [] => Forall_nil_2 P
      | node :: nodes => Forall_cons_2 P node nodes (Node_induction node) (each nodes)
      end in
    match node with
    | Binary a type text lhs rhs => HBinary a type text lhs rhs (Node_induction lhs) (Node_induction rhs)
    | UnaryMathOp a text child => HUnaryMathOp a text child (Node_induction child)
    | AllocatePages a child => HAllocatePages a child (Node_induction child)
    | And a lhs rhs => HAnd a lhs rhs (Node_induction lhs) (Node_induction rhs)
    | Or a lhs rhs => HOr a lhs rhs (Node_induction lhs) (Node_induction rhs)
    | Assign a lhs rhs => HAssign a lhs rhs (Node_induction lhs) (Node_induction rhs)
    | Block a children => HBlock a children (each children)
    | Paren a children => HParen a children (each children)
    | Break a => HBreak a
    | Yield a child => HYield a child (Node_induction child)
    | Call a fn args => HCall a fn args (each args)
    | Continue a => HContinue a
    | Definition_ a definition spec => HDefinition a definition spec
    | Else a condition ifBody elseBody =>
        HElse a condition ifBody elseBody (Node_induction condition)
          (Node_induction ifBody) (Node_induction elseBody)
    | Literal a type text => HLiteral a type text
    | If a condition body => HIf a condition body (Node_induction condition) (Node_induction body)
    | Loop a body => HLoop a body (Node_induction body)
    | MemoryAccess a pointer address offsetProvided =>
        HMemoryAccess a pointer address offsetProvided (Node_induction address)
          (match offsetProvided with
           | Some offset => fun node H =>
               eq_ind offset P (Node_induction offset) node (Some_inj _ _ H)
           | None => fun node H =>
               False_ind _ (eq_ind None (fun o => if o is None then True else False) I _ H)
           end)
    | Neg a child => HNeg a child (Node_induction child)
    | PagesAllocated a => HPagesAllocated a
    | Return a child =>
        HReturn a child
          (match child with
           | Some child' => fun node H =>
               eq_ind child' P (Node_induction child') node (Some_inj _ _ H)
           | None => fun node H =>
               False_ind _ (eq_ind None (fun o => if o is None then True else False) I _ H)
           end)
    | SuffixOp a text child => HSuffixOp a text child (Node_induction child)
    | Variable_ a definition => HVariable a definition
    end.
End Induction.

(** *** Completions of composed computations *)

(** The state that a computation leaves when it completes normally. *)
Definition final {S A} (c : Completion S A) : option S :=
  match c with Normal _ s => Some s | Throw _ => None end.

Lemma bind_Normal {S A B} (m : M S A) (k : A -> M S B) s b s' :
  bind m k s = Normal b s' ->
  exists a s1, m s = Normal a s1 /\ k a s1 = Normal b s'.
Proof. unfold bind. destruct (m s) as [a s1|e]; [eauto|done]. Qed.

Lemma bind_Throw {S A B} (m : M S A) (k : A -> M S B) s e :
  m s = Throw e -> bind m k s = Throw e.
Proof. unfold bind. by intros ->. Qed.

Lemma bind_eq {S A B} (m : M S A) (k : A -> M S B) s a s1 :
  m s = Normal a s1 -> bind m k s = k a s1.
Proof. unfold bind. by intros ->. Qed.

(** Take apart a hypothesis that says that a computation completes
    normally. *)
Ltac normal H :=
  cbn beta iota in H;
  lazymatch type of H with
  | bind _ _ _ = Normal _ _ =>
      let a := fresh "o" in let s := fresh "s" in
      let H1 := fresh "Hv" in
      apply bind_Normal in H as (a & s & H1 & H); normal H1; normal H
  | ret _ _ = Normal _ _ => unfold ret in H; injection H as <- <-
  | throw _ _ = Normal _ _ => discriminate H
  | Throw _ = Normal _ _ => discriminate H
  | Normal _ _ = Normal _ _ => injection H as <- <-
  | (if ?c then _ else _) _ = Normal _ _ => destruct c eqn:?; normal H
  | (match ?x with _ => _ end) _ = Normal _ _ => destruct x eqn:?; normal H
  | (let (_, _) := ?x in _) _ = Normal _ _ => destruct x eqn:?; normal H
  | _ => idtac
  end.

(** *** The break, yield and return points of a tree

    The break and yield nodes of a tree that are not inside a loop of the
    tree, and its return nodes, in the order in which validation comes to
    them.  The target of an assignment is a definition, a variable or a
    memory access, and only the last has expressions below it. *)
Fixpoint yieldPoints_of (node : Node unit) : list (Node unit) :=
  match node with
  | Binary _ _ _ lhs rhs | And _ lhs rhs | Or _ lhs rhs =>
      yieldPoints_of lhs ++ yieldPoints_of rhs
  | UnaryMathOp _ _ child | AllocatePages _ child | Neg _ child | SuffixOp _ _ child =>
      yieldPoints_of child
  | Assign _ lhs rhs =>
      (match lhs with MemoryAccess _ _ _ _ => yieldPoints_of lhs | _ => [] end)
      ++ yieldPoints_of rhs
  | Block _ children | Paren _ children | Call _ _ children =>
      flat_map yieldPoints_of children
  | Break _ => [node]
  | Yield _ child => node :: yieldPoints_of child
  | Else _ condition ifBody elseBody =>
      yieldPoints_of condition ++ yieldPoints_of ifBody ++ yieldPoints_of elseBody
  | If _ condition body => yieldPoints_of condition ++ yieldPoints_of body
  | Loop _ _ => []
  | MemoryAccess _ _ address offsetProvided =>
      yieldPoints_of address ++
      match offsetProvided with Some offset => yieldPoints_of offset | None => [] end
  | Return _ child =>
      match child with Some child => yieldPoints_of child | None => [] end
  | Continue _ | Definition_ _ _ _ | Literal _ _ _ | PagesAllocated _ | Variable_ _ _ => []
  end.

Fixpoint returnPoints_of (node : Node unit) : list (Node unit) :=
  match node with
  | Binary _ _ _ lhs rhs | And _ lhs rhs | Or _ lhs rhs =>
      returnPoints_of lhs ++ returnPoints_of rhs
  | UnaryMathOp _ _ child | AllocatePages _ child | Neg _ child | SuffixOp _ _ child
  | Yield _ child | Loop _ child =>
      returnPoints_of child
  | Assign _ lhs rhs =>
      (match lhs with MemoryAccess _ _ _ _ => returnPoints_of lhs | _ => [] end)
      ++ returnPoints_of rhs
  | Block _ children | Paren _ children | Call _ _ children =>
      flat_map returnPoints_of children
  | Else _ condition ifBody elseBody =>
      returnPoints_of condition ++ returnPoints_of ifBody ++ returnPoints_of elseBody
  | If _ condition body => returnPoints_of condition ++ returnPoints_of body
  | MemoryAccess _ _ address offsetProvided =>
      returnPoints_of address ++
      match offsetProvided with Some offset => returnPoints_of offset | None => [] end
  | Return _ child =>
      match child with Some child => returnPoints_of child | None => [] end ++ [node]
  | Break _ | Continue _ | Definition_ _ _ _ | Literal _ _ _ | PagesAllocated _
  | Variable_ _ _ => []
  end.

(** What a normal completion of [validate] says about the points it hands
    up: they are the points of the tree, and a return point has the
    declared return type of the function. *)
Definition points_ok (returnType : RunType) (node : Node unit) (o : Out) : Prop :=
  point <$> yields o = yieldPoints_of node /\
  point <$> returns o = returnPoints_of node /\
  Forall (fun p => point_runType p = returnType) (returns o).

Lemma points_ok_intro returnType node o ys rs :
  yields o = ys -> returns o = rs ->
  point <$> ys = yieldPoints_of node ->
  point <$> rs = returnPoints_of node ->
  Forall (fun p => point_runType p = returnType) rs ->
  points_ok returnType node o.
Proof. intros <- <-. by repeat split. Qed.

(** Close a goal about the points of a node from the facts about its
    children. *)
Ltac points :=
  unfold points_ok in *; cbn [yields returns out yieldPoints_of returnPoints_of] in *;
  repeat match goal with H : _ /\ _ |- _ => destruct H end;
  rewrite ?fmap_app, ?fmap_cons, ?Forall_app, ?app_nil_r; cbn [point point_runType];
  repeat split; try congruence; auto.

Section Points.
Variable returnType : RunType.
Variable validate_child : Node unit -> bool -> M FnScope Out.

Lemma validate_children_points children :
    Forall (fun child => forall vr s o s',
              validate_child child vr s = Normal o s' -> points_ok returnType child o)
           children ->
    forall vr s children' lastEscapes lastChildType ys rs s',
      validate_children validate_child children vr s =
        Normal (children', lastEscapes, lastChildType, ys, rs) s' ->
      point <$> ys = flat_map yieldPoints_of children /\
      point <$> rs = flat_map returnPoints_of children /\
      Forall (fun p => point_runType p = returnType) rs.
Proof.
    induction 1 as [|child children Hchild _ IH]; intros vr s cs e t ys rs s' Hv;
      cbn [validate_children] in Hv.
    - normal Hv. simplify_eq. done.
    - destruct children as [|next rest].
      + normal Hv; simplify_eq; apply Hchild in Hv0; cbn [flat_map]; points.
      + normal Hv. simplify_eq. apply Hchild in Hv0.
        destruct (IH _ _ _ _ _ _ _ _ Hv1) as (Hy & Hr & Hf).
        cbn [flat_map] in *. points.
Qed.

Lemma validate_args_points node paramTypes args :
    Forall (fun child => forall vr s o s',
              validate_child child vr s = Normal o s' -> points_ok returnType child o)
           args ->
    forall i s args' ys rs s',
      validate_args validate_child node paramTypes i args s = Normal (args', ys, rs) s' ->
      point <$> ys = flat_map yieldPoints_of args /\
      point <$> rs = flat_map returnPoints_of args /\
      Forall (fun p => point_runType p = returnType) rs.
Proof.
    induction 1 as [|arg args Harg _ IH]; intros i s args' ys rs s' Hv;
      cbn [validate_args] in Hv.
    - normal Hv. simplify_eq. done.
    - normal Hv. simplify_eq. apply Harg in Hv0.
      destruct (IH _ _ _ _ _ _ Hv1) as (Hy & Hr & Hf).
      cbn [flat_map] in *. points.
Qed.
End Points.

Ltac use_hypotheses :=
  repeat match goal with
    | IH : forall ctx vr s o s', validate ctx ?n vr s = Normal o s' -> _,
      H : validate _ ?n _ _ = Normal _ _ |- _ => apply IH in H; cbn [fn within] in H
    end.

Lemma validate_points node : forall ctx valueRequired s o s',
  validate ctx node valueRequired s = Normal o s' ->
  points_ok (Def.returnType (fn ctx)) node o.
Proof.
  induction node using Node_induction; intros ctx vr s o s' Hv; cbn [validate] in Hv.
  all: try (normal Hv; use_hypotheses; simplify_eq; points; fail).
  - (* Assign *)
    destruct node1; cbn [resolved ASType_of] in Hv; normal Hv; try discriminate;
      use_hypotheses; simplify_eq; points.
  - (* Block *)
    assert (Hall : Forall (fun child => forall vr s o s',
                     validate (within BLOCK ctx) child vr s = Normal o s' ->
                     points_ok (Def.returnType (fn ctx)) child o) children)
      by (eapply Forall_impl; [exact H|]; intros ? IH ? ? ? ? ?; by apply IH in H0).
    destruct children as [|child children]; normal Hv; [points|].
    eapply validate_children_points in Hv0 as (? & ? & ?); [|exact Hall]. points.
  - (* Paren *)
    assert (Hall : Forall (fun child => forall vr s o s',
                     validate (within PAREN ctx) child vr s = Normal o s' ->
                     points_ok (Def.returnType (fn ctx)) child o) children)
      by (eapply Forall_impl; [exact H|]; intros ? IH ? ? ? ? ?; by apply IH in H0).
    destruct children as [|child children]; normal Hv; [points|].
    eapply validate_children_points in Hv0 as (? & ? & ?); [|exact Hall]. points.
  - (* Call *)
    assert (Hall : Forall (fun child => forall vr s o s',
                     validate (within ARG_LIST ctx) child vr s = Normal o s' ->
                     points_ok (Def.returnType (fn ctx)) child o) args)
      by (eapply Forall_impl; [exact H|]; intros ? IH ? ? ? ? ?; by apply IH in H0).
    normal Hv.
    eapply validate_args_points in Hv0 as (? & ? & ?); [|exact Hall]. points.
  - (* Loop *)
    apply bind_Normal in Hv as (b & s1 & Hb & Hv). apply IHnode in Hb as (Hy & Hr & Hf).
    cbn [fn within] in Hf. cbn beta iota in Hv.
    destruct (yields b) eqn:Ey; [destruct (returns b) eqn:Er | destruct (find _ _)];
      normal Hv; unfold points_ok; cbn [yields returns out yieldPoints_of returnPoints_of];
      rewrite ?Er; done.
  - (* MemoryAccess *)
    destruct offsetProvided as [offset|]; [pose proof (H offset eq_refl) as IHoffset|];
      clear H; normal Hv; use_hypotheses; simplify_eq; points.
  - (* Return *)
    destruct child as [child|]; [pose proof (H child eq_refl) as IHchild|];
      clear H; normal Hv; use_hypotheses; simplify_eq; points;
      rewrite ?fmap_nil; try congruence;
      apply Forall_singleton; cbn [point_runType]; symmetry; by apply dec_stable.
Qed.

End Walks.

(** ** The alignment of a memory access *)

Module Alignment.
Import AST Monad Monad.Notations Parser Container FunctionCodeGen.

Lemma alignment_loop_step offset alignment :
  alignment_loop offset alignment =
  if remainder offset alignment =? 0 then alignment
  else alignment_loop offset (alignment - 1).
Proof.
  funelim (alignment_loop offset alignment).
  - by rewrite e.
  - by rewrite Hne.
Qed.

(** The loop stops at the first exponent, counting down from where it
    starts, whose power of two divides the offset. *)
Lemma alignment_loop_spec offset start :
  0 <= start ->
  0 <= alignment_loop offset start <= start /\
  Z.rem offset (2 ^ alignment_loop offset start) = 0 /\
  forall b, alignment_loop offset start < b <= start -> Z.rem offset (2 ^ b) <> 0.
Proof.
  intros Hstart. pattern start. apply natlike_ind; [| |done]; clear start Hstart.
  - rewrite alignment_loop_step. unfold remainder. cbn. rewrite Z.rem_1_r. cbn.
    split_and!; [lia|lia|by rewrite Z.rem_1_r|lia].
  - intros start Hstart (Hrange & Hrem & Hmax).
    rewrite alignment_loop_step. unfold remainder.
    destruct (Z.succ start <? 0) eqn:Hneg; [apply Z.ltb_lt in Hneg; lia|].
    destruct (Z.rem offset (2 ^ Z.succ start) =? 0) eqn:Hz.
    + apply Z.eqb_eq in Hz. split_and!; [lia|lia|done|lia].
    + apply Z.eqb_neq in Hz. replace (Z.succ start - 1) with start by lia.
      split_and!; [lia|lia|done|].
      intros b Hb. destruct (Z.eq_dec b (Z.succ start)) as [->|Hne]; [done|].
      apply Hmax. lia.
Qed.

(** [alignment] is the binary logarithm of the largest power of two that
    is at most [storageSize] and divides [offset]. *)
Definition is_alignment (storageSize offset alignment : Z) : Prop :=
  0 <= alignment /\
  2 ^ alignment <= storageSize /\
  (2 ^ alignment | offset) /\
  forall b, 0 <= b -> 2 ^ b <= storageSize -> (2 ^ b | offset) -> b <= alignment.

Lemma alignment_loop_is_alignment offset start :
  0 <= start -> is_alignment (2 ^ start) offset (alignment_loop offset start).
Proof.
  intros Hstart. destruct (alignment_loop_spec offset start Hstart) as (Hr & Hrem & Hmax).
  assert (Hpos : forall b, 0 <= b -> 2 ^ b <> 0) by (intros; apply Z.pow_nonzero; lia).
  split_and!.
  - lia.
  - apply Z.pow_le_mono_r; lia.
  - apply Z.rem_divide; [apply Hpos; lia|done].
  - intros b Hb Hle Hdiv.
    apply Z.pow_le_mono_r_iff in Hle; [|lia|lia].
    destruct (Z.le_gt_cases b (alignment_loop offset start)) as [|Hgt]; [done|].
    exfalso. apply (Hmax b); [lia|]. apply Z.rem_divide; [by apply Hpos|done].
Qed.

Lemma is_alignment_unique storageSize offset alignment alignment' :
  is_alignment storageSize offset alignment ->
  is_alignment storageSize offset alignment' ->
  alignment = alignment'.
Proof.
  intros (H0 & Hle & Hdiv & Hmax) (H0' & Hle' & Hdiv' & Hmax').
  apply Z.le_antisymm; [by apply Hmax'|by apply Hmax].
Qed.

(** The storage size of a pointer that [define] has made is 1, 2, 4 or 8. *)
Lemma define_PTR_storageSize definition storageType pointer :
  storageType ∈ storageTypes ->
  define_PTR definition storageType = Some pointer ->
  exists start, 0 <= start <= 3 /\ Def.storageSize pointer = 2 ^ start /\
                log2 (Def.storageSize pointer) = Some start.
Proof.
  intros Hin Hdef. unfold storageTypes in Hin.
  repeat (apply elem_of_cons in Hin as [->|Hin]); [..|by apply elem_of_nil in Hin];
    vm_compute in Hdef; injection Hdef as <-; cbn [Def.storageSize];
    first [ by exists 0 | by exists 1 | by exists 2 | by exists 3 ].
Qed.

(** [offsetProvided === undefined ? 0 : offsetProvided.meta.value], when
    it is an integer. *)
Definition offset_value (offsetProvided : option (Node Ann)) : option Z :=
  match offsetProvided with
  | None => Some 0
  | Some node =>
      match meta (ann node) with
      | LiteralMeta (Int offset) _ => Some offset
      | _ => None
      end
  end.

Lemma offset_of_value offsetProvided offset bytecode :
  offset_value offsetProvided = Some offset ->
  offset_of offsetProvided bytecode = Normal (Int offset) bytecode.
Proof.
  destruct offsetProvided as [node|]; cbn.
  - destruct (meta (ann node)) as [| |[]| | |]; try done. by intros [= ->].
  - by intros [= <-].
Qed.

(** An alignment of a pointer of [define] takes one byte in the [flags]
    field. *)
Lemma varuint_flags alignment bytecode :
  0 <= alignment <= 3 ->
  varuint alignment "flags" bytecode =
  Normal tt {| path := path bytecode;
               parts := parts bytecode ++
                 [Several (Bytes [alignment]) "flags" (path bytecode +:+ "|flags")
                    (Num (Int alignment))];
               totalSize := totalSize bytecode + 1 |}.
Proof.
  intros H.
  assert (Hcases : alignment = 0 \/ alignment = 1 \/ alignment = 2 \/ alignment = 3) by lia.
  destruct Hcases as [->|[->|[->| ->]]]; reflexivity.
Qed.

End Alignment.

(** ** What a run of container calls appends *)

Module Emission.
Import AST Monad Monad.Notations ByteCode Container FunctionCodeGen Walks Alignment.

(** The container after [push] of one part, and of a list of parts. *)
Definition pushed_part (this : Container.t) (part : Part) : Container.t :=
  {| path := path this;
     parts := parts this ++ [part];
     totalSize := totalSize this +
       match part with
       | Single _ _ _ _ => 1
       | Several payload _ _ _ => Payload_length payload
       end |}.

Definition pushed (this : Container.t) (new : list Part) : Container.t :=
  fold_left pushed_part new this.

(** The parts of [op (code)], [byte (code, field)] and
    [varuint (value, field)] in a container of the path [path]. *)
Definition byte_part (path code field : string) : Part :=
  Single (codeTable !! code) field (path +:+ "|" +:+ field) (Code code).

Definition op_part (path code : string) : Part := byte_part path code "op".

Definition varuint_part (path : string) (value : Z) (field : string) : Part :=
  Several (Bytes (uLEB value [])) field (path +:+ "|" +:+ field) (Num (Int value)).

(** [m] completes in every container, and appends [new]. *)
Definition writes (m : M Container.t unit) (new : string -> list Part) : Prop :=
  forall this, m this = Normal tt (pushed this (new (path this))).

Lemma path_pushed this new : path (pushed this new) = path this.
Proof.
  revert this. induction new as [|part new IH]; intros this; [done|].
  change (pushed this (part :: new)) with (pushed (pushed_part this part) new).
  by rewrite IH.
Qed.

Lemma parts_pushed this new : parts (pushed this new) = parts this ++ new.
Proof.
  revert this. induction new as [|part new IH]; intros this.
  - cbn. by rewrite app_nil_r.
  - change (pushed this (part :: new)) with (pushed (pushed_part this part) new).
    rewrite IH. cbn [pushed_part parts]. by rewrite <- app_assoc.
Qed.

Lemma pushed_app this new1 new2 : pushed (pushed this new1) new2 = pushed this (new1 ++ new2).
Proof. unfold pushed. by rewrite fold_left_app. Qed.

Lemma writes_ret : writes (ret tt) (fun _ => []).
Proof. done. Qed.

Lemma writes_bind (m k : M Container.t unit) new1 new2 :
  writes m new1 -> writes k new2 ->
  writes (let* _ := m in k) (fun path => new1 path ++ new2 path).
Proof.
  intros Hm Hk this. unfold bind. rewrite Hm, Hk, path_pushed. by rewrite pushed_app.
Qed.

(** What follows a run that appends [new] goes on in the container with
    [new] appended. *)
Lemma writes_then (m k : M Container.t unit) new this :
  writes m new -> (let* _ := m in k) this = k (pushed this (new (path this))).
Proof. intros Hm. unfold bind. by rewrite Hm. Qed.

Lemma writes_ext (m : M Container.t unit) new new' :
  writes m new -> (forall path, new path = new' path) -> writes m new'.
Proof. intros Hm Hnew this. by rewrite Hm, Hnew. Qed.

Lemma writes_byte code field : writes (byte code field) (fun path => [byte_part path code field]).
Proof. done. Qed.

Lemma writes_op code : writes (op code) (fun path => [op_part path code]).
Proof. done. Qed.

Lemma writes_varuint value field :
  0 <= value < 2 ^ 32 ->
  writes (varuint value field) (fun path => [varuint_part path value field]).
Proof.
  intros Hvalue this. unfold varuint, varuint_bound.
  destruct (value <? 0) eqn:Hneg; [apply Z.ltb_lt in Hneg; lia|].
  destruct (2 ^ 32 - 1 <? value) eqn:Hbig; [apply Z.ltb_lt in Hbig; lia|].
  reflexivity.
Qed.

Lemma writes_getVariable index isGlobal :
  0 <= index < 2 ^ 32 ->
  writes (getVariable index isGlobal)
    (fun path =>
       [op_part path (if isGlobal then "get_global" else "get_local");
        varuint_part path index (if isGlobal then "global_index" else "local_index")]).
Proof.
  intros Hindex. unfold getVariable.
  destruct isGlobal; exact (writes_bind _ _ _ _ (writes_op _) (writes_varuint _ _ Hindex)).
Qed.

(** An alignment of 0 to 3 takes one byte in the field [flags]. *)
Definition flags_part (path : string) (alignment : Z) : Part :=
  Several (Bytes [alignment]) "flags" (path +:+ "|flags") (Num (Int alignment)).

Lemma writes_flags alignment :
  0 <= alignment <= 3 ->
  writes (varuint alignment "flags") (fun path => [flags_part path alignment]).
Proof. intros H this. by rewrite varuint_flags. Qed.

(** [if (node.dropValue) bytecode.op("drop")] *)
Definition drop_parts (path : string) (dropValue : bool) : list Part :=
  if dropValue then [op_part path "drop"] else [].

Lemma writes_drop (dropValue : bool) :
  writes (if dropValue then op "drop" else ret tt) (fun path => drop_parts path dropValue).
Proof. destruct dropValue; [apply writes_op|apply writes_ret]. Qed.

(** Chain the lemmas along a sequence of calls. *)
Ltac writes_chain :=
  repeat first
    [ apply writes_op | apply writes_byte | apply writes_ret | apply writes_drop
    | apply writes_flags; lia | apply writes_varuint; lia | apply writes_getVariable; lia
    | eapply writes_bind ].

End Emission.

(** * The claims *)

(** Small inputs for the theorems to be tried on. *)
Module Samples.
Import AST Validation.

(** [main: fn () void { ... }] *)
Definition main : Def.t :=
  {| Def.ASType := FN; Def.exportName := None; Def.isGlobal := false;
     Def.importSource := None; Def.index := 0; Def.kind := "function";
     Def.mutable := false; Def.name := "main"; Def.runType := void;
     Def.paramTypes := []; Def.returnType := void; Def.signatureIndex := 0;
     Def.extendedType := false; Def.storageSigned := None;
     Def.storageBits := None; Def.storageSize := 0; Def.storageType := EmptyString |}.

(** The body block of [main], in a module with a default memory. *)
Definition in_main : Context :=
  {| parent := BLOCK; inLoop := false; fn := main; defaultMemory := 1; defaultTable := 0 |}.

Definition fnScope : FnScope := {| names := ∅; variables := [] |}.

(** [count: fn () i32 { ... }] and its body block. *)
Definition count : Def.t :=
  {| Def.ASType := FN; Def.exportName := None; Def.isGlobal := false;
     Def.importSource := None; Def.index := 1; Def.kind := "function";
     Def.mutable := false; Def.name := "count"; Def.runType := i32;
     Def.paramTypes := []; Def.returnType := i32; Def.signatureIndex := 0;
     Def.extendedType := false; Def.storageSigned := None;
     Def.storageBits := None; Def.storageSize := 0; Def.storageType := EmptyString |}.

Definition in_count : Context :=
  {| parent := BLOCK; inLoop := false; fn := count; defaultMemory := 1; defaultTable := 0 |}.

Definition bytecode : Container.t :=
  {| Container.path := "module"; Container.parts := []; Container.totalSize := 0 |}.

(** A global scope with one imported and two defined functions, one
    imported global and one variable, each a definition object of its own. *)
Definition scope : ModuleCodeGen.Scope :=
  {| ModuleCodeGen.imports_function := [1%positive];
     ModuleCodeGen.imports_global := [4%positive];
     ModuleCodeGen.variables := [5%positive];
     ModuleCodeGen.functions := [2%positive; 3%positive] |}.

Definition heap : gmap ModuleCodeGen.ref Def.t :=
  list_to_map ((fun r => (r, main)) <$> [1; 2; 3; 4; 5]%positive).

(** [p: ptr i32], and the offset literal of [p[a; 6]]. *)
Definition pointer : Def.t :=
  {| Def.ASType := PTR; Def.exportName := None; Def.isGlobal := false;
     Def.importSource := None; Def.index := 0; Def.kind := "variable";
     Def.mutable := true; Def.name := "p"; Def.runType := i32;
     Def.paramTypes := []; Def.returnType := i32; Def.signatureIndex := 0;
     Def.extendedType := false; Def.storageSigned := None;
     Def.storageBits := None; Def.storageSize := 4; Def.storageType := "i32" |}.

Definition six : Node Ann :=
  Literal (annotation i32 false (LiteralMeta (Int 6) i32)) I32_LITERAL "6".

(** [a: i32], the second local, as the address of [p[a; 6]], and the [5]
    of [p[a; 6] = 5]. *)
Definition a : Def.t :=
  {| Def.ASType := VARIABLE; Def.exportName := None; Def.isGlobal := false;
     Def.importSource := None; Def.index := 1; Def.kind := "variable";
     Def.mutable := true; Def.name := "a"; Def.runType := i32;
     Def.paramTypes := []; Def.returnType := void; Def.signatureIndex := 0;
     Def.extendedType := false; Def.storageSigned := None;
     Def.storageBits := None; Def.storageSize := 0; Def.storageType := EmptyString |}.

Definition address : Node Ann := Variable_ (annotation i32 false NoMeta) a.

Definition five : Node Ann :=
  Literal (annotation i32 false (LiteralMeta (Int 5) i32)) I32_LITERAL "5".

(** The temporary variable of an assignment whose value is used, as the
    third local. *)
Definition temporary : Def.t :=
  {| Def.ASType := VARIABLE; Def.exportName := None; Def.isGlobal := false;
     Def.importSource := None; Def.index := 2; Def.kind := "global";
     Def.mutable := true; Def.name := "tmp-i32"; Def.runType := i32;
     Def.paramTypes := []; Def.returnType := void; Def.signatureIndex := 0;
     Def.extendedType := false; Def.storageSigned := None;
     Def.storageBits := None; Def.storageSize := 0; Def.storageType := EmptyString |}.

(** [1x64], validated. *)
Definition one : Out :=
  {| out := Literal (annotation i64 false (LiteralMeta (Int 1) i64)) I64_LITERAL "1x64";
     yields := []; returns := [] |}.

(** The conditions [(1)] and [(1x64)] and the body [{ 5 }] of an [if]. *)
Definition condition : Node unit := Paren tt [Literal tt I32_LITERAL "1"].
Definition long_condition : Node unit := Paren tt [Literal tt I64_LITERAL "1x64"].
Definition value_body : Node unit := Block tt [Literal tt I32_LITERAL "5"].

(** The bodies of four loops: [{ return 1 }], [{ break }],
    [{ if (1) { yield 1 } yield 1 }] and [{ if (1) { yield 1 } yield 1x64 }]. *)
Definition returning : Node unit := Block tt [Return tt (Some (Literal tt I32_LITERAL "1"))].
Definition breaking : Node unit := Block tt [Break tt].
Definition yielding : Node unit :=
  Block tt [If tt condition (Block tt [Yield tt (Literal tt I32_LITERAL "1")]);
            Yield tt (Literal tt I32_LITERAL "1")].
Definition disagreeing : Node unit :=
  Block tt [If tt condition (Block tt [Yield tt (Literal tt I32_LITERAL "1")]);
            Yield tt (Literal tt I64_LITERAL "1x64")].

End Samples.

Section IndexSpaces.
Import ModuleCodeGen.

Lemma indices_app heap l1 l2 : indices heap (l1 ++ l2) = indices heap l1 ++ indices heap l2.
Proof. unfold indices. apply fmap_app. Qed.

Lemma consecutive_app (m n : nat) :
  ((fun k => Some (Z.of_nat k)) <$> seq 0 (m + n) : list (option Z)) =
  ((fun k => Some (0 + 0 + Z.of_nat k)) <$> seq 0 m) ++
  ((fun k => Some (0 + Z.of_nat m + Z.of_nat k)) <$> seq 0 n).
Proof.
  rewrite seq_app, fmap_app. f_equal.
  replace (seq (0 + m) n) with (Nat.add m <$> seq 0 n)
    by (rewrite fmap_add_seq; f_equal; lia).
  rewrite <- list_fmap_compose.
  apply list_fmap_ext. intros ? k _. cbn. f_equal. lia.
Qed.

(** C3.  After [orderGlobals] the imported functions have the indices
    [0..M) and the defined functions [M..M+N), each list in its own order,
    and likewise the imported globals [0..M') and the defined variables
    [M'..M'+N'): read along imports-then-definitions, the indices of each
    space are [0, 1, 2, ...] without gap or repetition.  The definition
    objects are distinct and each stands in one list, as [define] leaves
    them. *)
Theorem orderGlobals_index_spaces (scope : Scope) (heap : gmap ref Def.t) :
  NoDup (imports_function scope ++ functions scope ++
         imports_global scope ++ variables scope) ->
  (forall r, r ∈ imports_function scope ++ functions scope ++
                 imports_global scope ++ variables scope -> is_Some (heap !! r)) ->
  indices (orderGlobals scope heap) (imports_function scope ++ functions scope) =
    (fun k => Some (Z.of_nat k)) <$>
      seq 0 (length (imports_function scope) + length (functions scope)) /\
  indices (orderGlobals scope heap) (imports_global scope ++ variables scope) =
    (fun k => Some (Z.of_nat k)) <$>
      seq 0 (length (imports_global scope) + length (variables scope)).
Proof.
  destruct scope as [fnImports varImports variables functions]. cbn -[indices].
  intros Hnd Hdom. unfold orderGlobals. cbn -[indices].
  apply NoDup_app in Hnd as (Hnd1 & Hd1 & Hnd).
  apply NoDup_app in Hnd as (Hnd2 & Hd2 & Hnd).
  apply NoDup_app in Hnd as (Hnd3 & Hd3 & Hnd4).
  assert (Hsome : forall heap' offset i objects r,
            is_Some (heap' !! r) -> is_Some (assign_indices offset i objects heap' !! r)).
  { intros. by apply assign_indices_dom. }
  split; rewrite indices_app, consecutive_app; f_equal.
  - do 3 (rewrite indices_other by set_solver).
    apply indices_assign; [done|]. intros r Hr. apply Hdom. set_solver.
  - do 2 (rewrite indices_other by set_solver).
    apply indices_assign; [done|]. intros r Hr. apply Hsome, Hdom. set_solver.
  - rewrite indices_other by set_solver.
    apply indices_assign; [done|]. intros r Hr. do 2 apply Hsome. apply Hdom. set_solver.
  - apply indices_assign; [done|]. intros r Hr. do 3 apply Hsome. apply Hdom. set_solver.
Qed.

(** The theorem on [Samples.scope]: the functions get 0, 1, 2 and the
    globals 0, 1. *)
Lemma orderGlobals_index_spaces_witness :
  NoDup (imports_function Samples.scope ++ functions Samples.scope ++
         imports_global Samples.scope ++ variables Samples.scope) /\
  (forall r, r ∈ imports_function Samples.scope ++ functions Samples.scope ++
                 imports_global Samples.scope ++ variables Samples.scope ->
             is_Some (Samples.heap !! r)) /\
  indices (orderGlobals Samples.scope Samples.heap)
    (imports_function Samples.scope ++ functions Samples.scope) =
    [Some 0; Some 1; Some 2] /\
  indices (orderGlobals Samples.scope Samples.heap)
    (imports_global Samples.scope ++ variables Samples.scope) =
    [Some 0; Some 1].
Proof.
  assert (Hnd : NoDup (imports_function Samples.scope ++ functions Samples.scope ++
                       imports_global Samples.scope ++ variables Samples.scope))
    by (apply (bool_decide_unpack _); vm_compute; exact I).
  assert (Hdom : forall r, r ∈ imports_function Samples.scope ++ functions Samples.scope ++
                               imports_global Samples.scope ++ variables Samples.scope ->
                           is_Some (Samples.heap !! r))
    by (apply Forall_forall; apply (bool_decide_unpack _); vm_compute; exact I).
  split; [exact Hnd|]. split; [exact Hdom|].
  exact (orderGlobals_index_spaces Samples.scope Samples.heap Hnd Hdom).
Defined.

End IndexSpaces.

Section Tokens.
Import Lexer.

(** C6.  The lexer accepts every input, and the texts of its tokens, the
    sentinel at the end left out, make up the input: white space, comments
    and unknown characters are tokens like the others. *)
Theorem lexify_round_trip (input : list N) :
  exists tokens,
    lexify input = Some tokens /\
    concat (text <$> removelast tokens) = input.
Proof.
  destruct (lexify_loop_spec input 0 [] ltac:(lia)) as (more & Hloop & Hcat & _).
  exists (more ++ [sentinel (length input)]). unfold lexify. rewrite Hloop. cbn [app].
  split; [done|]. by rewrite removelast_last.
Qed.

(** C10.  For every input the lexer returns a list that ends with the
    sentinel: an [END_OF_INPUT] token with the text of one line feed (the
    code unit 10), length 1 and the length of the input as its position.  For the empty
    input the sentinel is the whole list. *)
Theorem lexify_sentinel (input : list N) :
  exists tokens,
    lexify input =
      Some (tokens ++ [{| ASType_of := END_OF_INPUT; text := [10%N];
                          length_of := 1; pos := length input |}]) /\
    (if decide (input = []) then tokens = [] else True).
Proof.
  destruct (lexify_loop_spec input 0 [] ltac:(lia)) as (more & Hloop & _ & Hnil).
  exists more. unfold lexify. rewrite Hloop. cbn [app]. split; [done|].
  destruct (decide (input = [])) as [->|]; [by apply Hnil|done].
Qed.

End Tokens.

Section Varints.
Import AST Monad Validation ByteCode Container FunctionCodeGen Walks Samples.

(** What holds of the two encoders: the unsigned reader gets back every
    number that [varuint] lets through with its default bound, and the
    signed reader gets back every number of the signed 32-bit range. *)
Lemma uLEB_round_trip number :
  0 <= number < 2 ^ 32 -> uLEB_decode (uLEB number []) = number.
Proof. intros H. rewrite uLEB_decode_uLEB. by apply ToUint32_small. Qed.

Lemma LEB_round_trip number :
  - 2 ^ 31 <= number < 2 ^ 31 -> LEB_decode (LEB number []) = number.
Proof. intros H. rewrite LEB_decode_LEB. by apply ToInt32_small. Qed.

(** C1 (fails on the code).  The i64 literal [4294967296x64] is accepted by
    validation with the value 2^32, which is a safe integer, and
    [literal] then writes the single byte 0 for it: the bitwise operators
    of [LEB] work on the low 32 bits of the number.  The reader gets 0. *)
Theorem LEB_i64_literal_truncated :
  let node := Literal tt I64_LITERAL "4294967296x64" in
  let validated :=
    Literal (annotation i64 false (LiteralMeta (Int 4294967296) i64))
      I64_LITERAL "4294967296x64" in
  validate in_main node true fnScope =
    Normal {| out := validated; yields := []; returns := [] |} fnScope /\
  parts <$> final (generate BLOCK None validated 0 bytecode) =
    Some [Single (Some 66) "op" "module|op" (Code "i64.const");
          Several (Bytes [0]) "value" "module|value" (Num (Int 4294967296))] /\
  LEB 4294967296 [] = [0] /\
  LEB_decode (LEB 4294967296 []) = 0.
Proof. split_and!; vm_compute; reflexivity. Qed.

End Varints.

Section Tables.
Import AST Monad Validation ByteCode OperatorTable Container Samples.

(** The entry of the operator table for an operator and a key. *)
Definition entry (text key : string) : option OpInfo :=
  (operatorTable !! text) ≫= (fun row => row !! key).

(** C8.  [to_i64] of an [i32] operand selects ["i64.extend_s/i64"].  The
    code table has no such code: the list of opcodes has
    ["i64.extend_s/i32"] in slot 172, and the emitter writes a part with an
    undefined byte for the operator of the table. *)
Theorem to_i64_operator_not_in_codeTable :
  entry "to_i64" "i32" = Some {| returnType := i64; operator := "i64.extend_s/i64" |} /\
  codeTable !! "i64.extend_s/i64" = None /\
  (Some "i64.extend_s/i64" ∉ opCodes) /\
  opCodes !! 172%nat = Some (Some "i64.extend_s/i32") /\
  codeTable !! "i64.extend_s/i32" = Some 172 /\
  op "i64.extend_s/i64" bytecode =
    Normal tt {| path := "module";
                 parts := [Single None "op" "module|op" (Code "i64.extend_s/i64")];
                 totalSize := 1 |}.
Proof.
  split_and!; try (vm_compute; reflexivity).
  apply (bool_decide_unpack _). vm_compute. reflexivity.
Qed.

(** The unsigned order comparisons, the signed ones (which are also the
    comparisons of floating-point operands), and the two equality
    comparisons. *)
Definition unsigned_comparisons : list string := ["|<|"; "|>|"; "|<=|"; "|>=|"].
Definition signed_comparisons : list string := ["<"; ">"; "<="; ">="].
Definition equality_comparisons : list string := ["=="; "!="].
Definition comparisons : list string :=
  unsigned_comparisons ++ signed_comparisons ++ equality_comparisons.

(** The result type of a comparison of two operands of the run type
    [operands]: [i64] for an unsigned comparison of two [i64], and [i32]
    for every other one. *)
Definition comparison_type (text : string) (operands : RunType) : RunType :=
  if bool_decide (text ∈ unsigned_comparisons) && bool_decide (operands = i64)
  then i64 else i32.

(** The table has no entry for operands without a value, nor for an
    unsigned comparison of floating-point operands. *)
Definition undefined_comparison (text : string) (operands : RunType) : bool :=
  bool_decide (operands = void) ||
  (bool_decide (text ∈ unsigned_comparisons) && bool_decide (operands ∈ [f32; f64])).

Definition comparison_entry_ok (text : string) (operands : RunType) : bool :=
  match entry text (operands_key operands operands) with
  | Some opInfo =>
      negb (undefined_comparison text operands) &&
      bool_decide (returnType opInfo = comparison_type text operands)
  | None => undefined_comparison text operands
  end.

Lemma comparison_result_types :
  forallb (fun text => forallb (comparison_entry_ok text) [i32; i64; f32; f64; void])
    comparisons = true.
Proof. vm_compute. reflexivity. Qed.

(** The case of [validate] for the operators of the table, when the
    operands are valid and do not escape. *)
Lemma validate_Binary ctx type text lhs rhs valueRequired s l s1 r s2 :
  validate (within type ctx) lhs true s = Normal l s1 ->
  validate (within type ctx) rhs true s1 = Normal r s2 ->
  escapes l = false -> escapes r = false ->
  is_Some (operatorTable !! text) ->
  validate ctx (Binary tt type text lhs rhs) valueRequired s =
  match entry text (operands_key (runType_of l) (runType_of r)) with
  | Some opInfo =>
      Normal {| out := Binary (annotation (returnType opInfo) false (OpMeta opInfo))
                         type text (out l) (out r);
                yields := yields l ++ yields r;
                returns := returns l ++ returns r |} s2
  | None =>
      Throw (CompileError "Undefined Operator" [("node", DNode (Binary tt type text lhs rhs))])
  end.
Proof.
  intros Hl Hr Hle Hre [row Hrow].
  cbn [validate]. rewrite (Walks.bind_eq _ _ _ _ _ Hl). rewrite (Walks.bind_eq _ _ _ _ _ Hr).
  unfold entry. rewrite Hrow, Hle, Hre. cbn [mbind option_bind].
  by destruct (row !! _).
Qed.

(** C9.  A comparison whose operands are valid, do not escape and have the
    same run type takes its run type from the table.  For one of the four
    unsigned operators and two [i64] operands this is [i64]; for the same
    operators and two [i32] operands, and for every signed, floating-point
    and equality comparison, it is [i32].  (The table has no unsigned
    comparison of floating-point operands and no comparison of operands
    without a value: those are refused as an undefined operator.) *)
Theorem unsigned_comparison_i64 (ctx : Context) (type : ASType) (text : string)
  (lhs rhs : Node unit) (valueRequired : bool) (s : FnScope) (l r : Out) (s1 s2 : FnScope) :
  text ∈ comparisons ->
  validate (within type ctx) lhs true s = Normal l s1 ->
  validate (within type ctx) rhs true s1 = Normal r s2 ->
  escapes l = false -> escapes r = false ->
  runType_of r = runType_of l ->
  (if undefined_comparison text (runType_of l)
   then
     validate ctx (Binary tt type text lhs rhs) valueRequired s =
     Throw (CompileError "Undefined Operator" [("node", DNode (Binary tt type text lhs rhs))])
   else
     exists opInfo,
       entry text (operands_key (runType_of l) (runType_of l)) = Some opInfo /\
       returnType opInfo = comparison_type text (runType_of l) /\
       validate ctx (Binary tt type text lhs rhs) valueRequired s =
         Normal {| out := Binary (annotation (comparison_type text (runType_of l)) false
                                    (OpMeta opInfo))
                            type text (out l) (out r);
                   yields := yields l ++ yields r;
                   returns := returns l ++ returns r |} s2) /\
  Forall (fun text => comparison_type text i64 = i64 /\ comparison_type text i32 = i32)
    unsigned_comparisons /\
  Forall (fun text => Forall (fun operands => comparison_type text operands = i32)
                        [i32; i64; f32; f64])
    (signed_comparisons ++ equality_comparisons).
Proof.
  intros Htext Hl Hr Hle Hre Hrt.
  split; [|split; repeat constructor].
  pose proof comparison_result_types as Hall.
  rewrite forallb_forall in Hall. apply list_elem_of_In, Hall in Htext as Hrow.
  rewrite forallb_forall in Hrow.
  assert (Hok : comparison_entry_ok text (runType_of l) = true).
  { apply Hrow. destruct (runType_of l); cbn; tauto. }
  assert (Htable : is_Some (operatorTable !! text)).
  { specialize (Hrow i32 ltac:(by left)).
    unfold comparison_entry_ok, entry in Hrow.
    destruct (operatorTable !! text); [by eexists|]. cbn in Hrow.
    unfold undefined_comparison in Hrow.
    apply orb_true_iff in Hrow as [H|[_ H]%andb_true_iff]; vm_compute in H; done. }
  rewrite (validate_Binary _ _ _ _ _ _ _ _ _ _ _ Hl Hr Hle Hre Htable), Hrt.
  unfold comparison_entry_ok in Hok.
  destruct (entry text _) as [opInfo|].
  - apply andb_true_iff in Hok as [Hdef%negb_true_iff Heq%bool_decide_eq_true].
    rewrite Hdef. exists opInfo. by rewrite Heq.
  - by rewrite Hok.
Qed.

(** The theorem on [1x64 |<| 1x64] in the body of [main]: its run type is
    [i64]. *)
Lemma unsigned_comparison_i64_witness :
  "|<|" ∈ comparisons /\
  validate (within ORDER_COMPARISON in_main) (Literal tt I64_LITERAL "1x64") true fnScope =
    Normal Samples.one fnScope /\
  escapes Samples.one = false /\
  runType_of Samples.one = runType_of Samples.one /\
  exists opInfo,
    entry "|<|" "i64,i64" = Some opInfo /\
    returnType opInfo = i64 /\
    validate in_main
      (Binary tt ORDER_COMPARISON "|<|" (Literal tt I64_LITERAL "1x64")
         (Literal tt I64_LITERAL "1x64")) true fnScope =
      Normal {| out := Binary (annotation i64 false (OpMeta opInfo))
                         ORDER_COMPARISON "|<|" (out Samples.one) (out Samples.one);
                yields := []; returns := [] |} fnScope.
Proof.
  assert (Htext : "|<|" ∈ comparisons)
    by (apply (bool_decide_unpack _); vm_compute; exact I).
  assert (Hvalid : validate (within ORDER_COMPARISON in_main)
                     (Literal tt I64_LITERAL "1x64") true fnScope =
                   Normal Samples.one fnScope)
    by (vm_compute; reflexivity).
  split; [exact Htext|]. split; [exact Hvalid|].
  split; [reflexivity|]. split; [reflexivity|].
  exact (proj1 (unsigned_comparison_i64 in_main ORDER_COMPARISON "|<|"
                  (Literal tt I64_LITERAL "1x64") (Literal tt I64_LITERAL "1x64") true
                  fnScope Samples.one Samples.one fnScope fnScope
                  Htext Hvalid Hvalid eq_refl eq_refl eq_refl)).
Defined.

(** C5 (fails on the code).  [1 or 2x64]: the operands have the run types
    [i32] and [i64].  The error object that the [OR] case builds names
    [leftType] and [rightType], which are not in scope there, so the host
    throws a [ReferenceError] and no compile error is made.  The [AND]
    case, on the same operands, makes the compile error. *)
Theorem validate_OR_inconsistent :
  let lhs := Literal tt I32_LITERAL "1" in
  let rhs := Literal tt I64_LITERAL "2x64" in
  validate in_main (Or tt lhs rhs) false fnScope = Throw (ReferenceError "leftType") /\
  validate in_main (And tt lhs rhs) false fnScope =
    Throw (CompileError "Inconsistent Type For Boolean"
             [("node", DNode (And tt lhs rhs));
              ("leftType", DRunType i32); ("rightType", DRunType i64)]).
Proof. split; vm_compute; reflexivity. Qed.

End Tables.

Section Loops.
Import AST Monad Validation Walks.

(** C4.  A loop takes the outcome of its body.  When the body is valid the
    break/yield points and the return points that validation has recorded
    for the loop are the break and yield nodes of the body outside inner
    loops and the return nodes of the body.  With neither, the loop is
    refused with "Infinite Loop".  With returns only, the loop always
    escapes and its run type is the declared return type of the function.
    Otherwise its run type is that of the first break/yield point, unless
    another point has a different run type: then the loop is refused with
    "Inconsistent Type For Loop". *)
Theorem validate_LOOP (ctx : Context) (a : unit) (body : Node unit)
  (valueRequired : bool) (fnScope : FnScope) :
  match validate (within LOOP ctx) body false fnScope with
  | Throw e => validate ctx (Loop a body) valueRequired fnScope = Throw e
  | Normal b fnScope' =>
      point <$> yields b = yieldPoints_of body /\
      point <$> returns b = returnPoints_of body /\
      match yields b, returns b with
      | [], [] =>
          validate ctx (Loop a body) valueRequired fnScope =
          Throw (CompileError "Infinite Loop" [("node", DNode (Loop a body))])
      | [], _ :: _ =>
          validate ctx (Loop a body) valueRequired fnScope =
          Normal {| out := Loop (annotation (Def.returnType (fn ctx)) true
                                   (LoopMeta [] (returns b) 0)) (out b);
                    yields := []; returns := returns b |} fnScope'
      | first :: others, _ =>
          if forallb (fun p => bool_decide (point_runType p = point_runType first)) others
          then
            validate ctx (Loop a body) valueRequired fnScope =
            Normal {| out := Loop (annotation (point_runType first) false
                                     (LoopMeta (yields b) (returns b) 0)) (out b);
                      yields := []; returns := returns b |} fnScope'
          else
            exists second,
              second ∈ others /\ point_runType second <> point_runType first /\
              validate ctx (Loop a body) valueRequired fnScope =
              Throw (CompileError "Inconsistent Type For Loop"
                       [("first", DNode (point first)); ("second", DNode (point second))])
      end
  end.
Proof.
  destruct (validate (within LOOP ctx) body false fnScope) as [b fnScope'|e] eqn:Hb.
  - destruct (validate_points _ _ _ _ _ _ Hb) as (Hy & Hr & Hf). cbn [fn within] in Hf.
    split; [done|]. split; [done|].
    cbn [validate]. rewrite (bind_eq _ _ _ _ _ Hb). cbn beta iota.
    destruct (yields b) as [|first others] eqn:Ey.
    + destruct (returns b) as [|r rs] eqn:Er; [done|].
      apply Forall_cons in Hf as [-> _]. by rewrite <- Er.
    + rewrite <- Ey.
      destruct (find _ others) as [second|] eqn:Hfind.
      * apply find_some in Hfind as [Hin Hne%bool_decide_eq_true].
        destruct (forallb _ others) eqn:Hall.
        -- rewrite forallb_forall in Hall. apply Hall in Hin.
           by apply bool_decide_eq_true in Hin.
        -- exists second. split_and!; [by apply list_elem_of_In|done|done].
      * destruct (forallb _ others) eqn:Hall; [done|].
        apply not_true_iff_false in Hall. exfalso. apply Hall.
        apply forallb_forall. intros p Hp.
        apply (find_none _ _ Hfind) in Hp. apply bool_decide_eq_true.
        apply bool_decide_eq_false in Hp. by apply dec_stable.
  - cbn [validate]. by rewrite (bind_Throw _ _ _ _ Hb).
Qed.

(** The theorem on five loops.  In the body of [main], [loop {}] is an
    "Infinite Loop", [loop { break }] has the run type [void] and
    [loop { if (1) { yield 1 } yield 1 }] the run type [i32] of its first
    yield, and neither always escapes;
    [loop { if (1) { yield 1 } yield 1x64 }] has an "Inconsistent Type For
    Loop".  In the body of [count: fn () i32], [loop { return 1 }] always
    escapes and has the run type [i32]. *)
Lemma validate_LOOP_witness :
  validate Samples.in_main (Loop tt (Block tt [])) false Samples.fnScope =
  Throw (CompileError "Infinite Loop" [("node", DNode (Loop tt (Block tt [])))]) /\
  match validate Samples.in_count (Loop tt Samples.returning) false Samples.fnScope with
  | Normal o _ => escapes o = true /\ runType_of o = i32
  | Throw _ => False
  end /\
  match validate Samples.in_main (Loop tt Samples.breaking) false Samples.fnScope with
  | Normal o _ => escapes o = false /\ runType_of o = void
  | Throw _ => False
  end /\
  match validate Samples.in_main (Loop tt Samples.yielding) true Samples.fnScope with
  | Normal o _ => escapes o = false /\ runType_of o = i32
  | Throw _ => False
  end /\
  validate Samples.in_main (Loop tt Samples.disagreeing) true Samples.fnScope =
  Throw (CompileError "Inconsistent Type For Loop"
           [("first", DNode (Yield tt (Literal tt I32_LITERAL "1")));
            ("second", DNode (Yield tt (Literal tt I64_LITERAL "1x64")))]).
Proof.
  split_and!.
  - pose proof (validate_LOOP Samples.in_main tt (Block tt []) false Samples.fnScope) as H.
    destruct (validate _ (Block tt []) false _) as [b s|e] eqn:Hb;
      vm_compute in Hb; [injection Hb as <- <-|discriminate Hb].
    destruct H as (_ & _ & H). exact H.
  - pose proof (validate_LOOP Samples.in_count tt Samples.returning false Samples.fnScope)
      as H.
    destruct (validate _ Samples.returning false _) as [b s|e] eqn:Hb;
      vm_compute in Hb; [injection Hb as <- <-|discriminate Hb].
    destruct H as (_ & _ & H). cbn [yields returns] in H. rewrite H. by split.
  - pose proof (validate_LOOP Samples.in_main tt Samples.breaking false Samples.fnScope)
      as H.
    destruct (validate _ Samples.breaking false _) as [b s|e] eqn:Hb;
      vm_compute in Hb; [injection Hb as <- <-|discriminate Hb].
    destruct H as (_ & _ & H). cbn [yields returns forallb] in H. rewrite H. by split.
  - pose proof (validate_LOOP Samples.in_main tt Samples.yielding true Samples.fnScope)
      as H.
    destruct (validate _ Samples.yielding false _) as [b s|e] eqn:Hb;
      vm_compute in Hb; [injection Hb as <- <-|discriminate Hb].
    destruct H as (_ & _ & H). cbn [yields returns] in H.
    match type of H with if ?agree then _ else _ =>
      destruct agree eqn:Hagree; [|vm_compute in Hagree; discriminate Hagree] end.
    rewrite H. by split.
  - pose proof (validate_LOOP Samples.in_main tt Samples.disagreeing true Samples.fnScope)
      as H.
    destruct (validate _ Samples.disagreeing false _) as [b s|e] eqn:Hb;
      vm_compute in Hb; [injection Hb as <- <-|discriminate Hb].
    destruct H as (_ & _ & H). cbn [yields returns] in H.
    match type of H with if ?agree then _ else _ =>
      destruct agree eqn:Hagree; [vm_compute in Hagree; discriminate Hagree|] end.
    destruct H as (second & Hsecond & _ & H).
    apply list_elem_of_singleton in Hsecond. subst second. exact H.
Defined.

End Loops.

Section MemoryAccesses.
Import AST Monad Monad.Notations Parser Container FunctionCodeGen Walks Alignment Emission.

(** The operators of a load and of a store through a pointer. *)
Definition loadOp (pointer : Def.t) : string :=
  RunType_text (Def.runType pointer) +:+ ".load" +:+
  (if Def.extendedType pointer
   then default EmptyString (Def.storageBits pointer) +:+ "_" +:+ default EmptyString (Def.storageSigned pointer)
   else EmptyString).

Definition storageOp (pointer : Def.t) : string :=
  RunType_text (Def.returnType pointer) +:+ ".store" +:+
  (if Def.extendedType pointer then default EmptyString (Def.storageBits pointer) else EmptyString).

(** What stands between the code of the address and the access: the
    pointer is added to the address and the sum is multiplied by the
    storage size. *)
Definition scaling_parts (path : string) (pointer : Def.t) : list Part :=
  [op_part path (if Def.isGlobal pointer then "get_global" else "get_local");
   varuint_part path (Def.index pointer)
     (if Def.isGlobal pointer then "global_index" else "local_index");
   op_part path "i32.add";
   op_part path "i32.const";
   varuint_part path (Def.storageSize pointer) "value";
   op_part path "i32.mul"].

(** The access: the operator, the alignment in the one byte of the field
    [flags], and the offset. *)
Definition access_parts (path operator : string) (alignment offset : Z) : list Part :=
  [op_part path operator;
   flags_part path alignment;
   varuint_part path offset "offset"].

(** The store that keeps the stored value: the value goes to the temporary
    variable of the assignment in front of the access and comes back
    behind it. *)
Definition kept_parts (path operator : string) (alignment offset : Z) (tempVariable : Def.t)
  : list Part :=
  [op_part path "tee_local"; varuint_part path (Def.index tempVariable) "local_index"] ++
  access_parts path operator alignment offset ++
  [op_part path "get_local"; varuint_part path (Def.index tempVariable) "local_index"].

Lemma writes_access operator alignment offset :
  0 <= alignment <= 3 -> 0 <= offset < 2 ^ 32 ->
  writes (let* _ := op operator in
          let* _ := varuint alignment "flags" in
          varuint_bound (Int offset) "offset" 32)
    (fun path => access_parts path operator alignment offset).
Proof.
  intros Halignment Hoffset.
  apply (writes_bind _ _ _ _ (writes_op _)).
  apply (writes_bind _ _ _ _ (writes_flags _ Halignment)).
  by apply writes_varuint.
Qed.

(** C2.  For a pointer that [define] has made from one of the storage
    types and an access with the integer byte offset [offset] (0 when no
    offset is given), there is one alignment: the binary logarithm of the
    largest power of two that is at most the storage size and divides the
    offset.  It takes one byte in the field [flags].  Where the code of
    the address has been written, and the index of the pointer and the
    offset are unsigned 32-bit numbers, a load writes the scaled address,
    the load operator, that alignment and the offset, and a [drop] if the
    value is not used.  A store writes the scaled address, the code of the
    stored value, and then the store operator, that alignment and the
    offset; if the value is used, between [tee_local] and [get_local] of
    the temporary variable. *)
Theorem memory_access_alignment (definition pointer : Def.t) (storageType : string)
  (offsetProvided : option (Node Ann)) (offset : Z) :
  storageType ∈ storageTypes ->
  define_PTR definition storageType = Some pointer ->
  offset_value offsetProvided = Some offset ->
  exists alignment,
    is_alignment (Def.storageSize pointer) offset alignment /\
    (offsetProvided = None -> 2 ^ alignment = Def.storageSize pointer) /\
    (forall bytecode,
       varuint alignment "flags" bytecode =
       Normal tt {| path := path bytecode;
                    parts := parts bytecode ++
                      [Several (Bytes [alignment]) "flags" (path bytecode +:+ "|flags")
                         (Num (Int alignment))];
                    totalSize := totalSize bytecode + 1 |}) /\
    (forall parentType target a address depth bytecode bytecode1,
       generate ADDRESS target address depth bytecode = Normal tt bytecode1 ->
       0 <= Def.index pointer < 2 ^ 32 ->
       0 <= offset < 2 ^ 32 ->
       generate parentType target (MemoryAccess a pointer address offsetProvided) depth bytecode =
       Normal tt
         (pushed bytecode1
            (scaling_parts (path bytecode1) pointer ++
             access_parts (path bytecode1) (loadOp pointer) alignment offset ++
             drop_parts (path bytecode1) (dropValue a)))) /\
    (forall parentType target a a' address rhs depth bytecode bytecode1 bytecode2,
       generate ADDRESS target address depth bytecode = Normal tt bytecode1 ->
       generate ASSIGN target rhs depth
         (pushed bytecode1 (scaling_parts (path bytecode1) pointer)) = Normal tt bytecode2 ->
       0 <= Def.index pointer < 2 ^ 32 ->
       0 <= offset < 2 ^ 32 ->
       (dropValue a = true ->
        generate parentType target
          (Assign a (MemoryAccess a' pointer address offsetProvided) rhs) depth bytecode =
        Normal tt
          (pushed bytecode2
             (access_parts (path bytecode2) (storageOp pointer) alignment offset))) /\
       (forall tempVariable,
          dropValue a = false ->
          meta a = TempMeta tempVariable ->
          0 <= Def.index tempVariable < 2 ^ 32 ->
          generate parentType target
            (Assign a (MemoryAccess a' pointer address offsetProvided) rhs) depth bytecode =
          Normal tt
            (pushed bytecode2
               (kept_parts (path bytecode2) (storageOp pointer) alignment offset
                  tempVariable)))).
Proof.
  intros Hin Hdef Hoffset.
  destruct (define_PTR_storageSize _ _ _ Hin Hdef) as (start & Hstart & Hsize & Hlog).
  exists (alignment_loop offset start).
  pose proof (alignment_loop_is_alignment offset start ltac:(lia)) as Hal.
  pose proof (alignment_loop_spec offset start ltac:(lia)) as (Hrange & _ & _).
  rewrite <- Hsize in Hal.
  assert (Hof : forall bytecode,
            alignment_of (Def.storageSize pointer) (Int offset) bytecode =
            Normal (alignment_loop offset start) bytecode).
  { intros bytecode. unfold alignment_of. by rewrite Hlog. }
  assert (Hstorage : 0 <= Def.storageSize pointer < 2 ^ 32).
  { rewrite Hsize.
    assert (Hcases : start = 0 \/ start = 1 \/ start = 2 \/ start = 3) by lia.
    destruct Hcases as [->|[->|[->| ->]]]; cbn; lia. }
  assert (Hscaling : Def.index pointer < 2 ^ 32 -> 0 <= Def.index pointer ->
            writes (let* _ := getVariable (Def.index pointer) (Def.isGlobal pointer) in
                    let* _ := op "i32.add" in
                    let* _ := op "i32.const" in
                    let* _ := varuint (Def.storageSize pointer) "value" in
                    op "i32.mul")
                   (fun path => scaling_parts path pointer)).
  { intros Hindex Hindex'.
    eapply writes_ext; [writes_chain|]. intros path. reflexivity. }
  split_and!.
  - done.
  - intros ->. injection Hoffset as <-. rewrite Hsize. f_equal.
    destruct Hal as (_ & _ & _ & Hmax).
    assert (start <= alignment_loop 0 start); [|lia].
    apply Hmax; [lia|lia|apply Z.divide_0_r].
  - intros bytecode. apply varuint_flags. lia.
  - intros parentType target a address depth bytecode bytecode1 Haddress Hindex Hbound.
    cbn [generate].
    rewrite (bind_eq _ _ _ _ _ (offset_of_value _ _ _ Hoffset)).
    rewrite (bind_eq _ _ _ _ _ (Hof _)).
    rewrite (bind_eq _ _ _ _ _ Haddress).
    refine (writes_ext _ _
              (fun path => scaling_parts path pointer ++
                           access_parts path (loadOp pointer) (alignment_loop offset start) offset ++
                           drop_parts path (dropValue a)) _ _ bytecode1).
    + writes_chain.
    + intros path. reflexivity.
  - intros parentType target a a' address rhs depth bytecode bytecode1 bytecode2
      Haddress Hrhs Hindex Hbound.
    assert (Hpushed : forall k : M Container.t unit,
              (let* _ := getVariable (Def.index pointer) (Def.isGlobal pointer) in
               let* _ := op "i32.add" in
               let* _ := op "i32.const" in
               let* _ := varuint (Def.storageSize pointer) "value" in
               let* _ := op "i32.mul" in k) bytecode1 =
              k (pushed bytecode1 (scaling_parts (path bytecode1) pointer))).
    { intros k. pose proof (Hscaling ltac:(lia) ltac:(lia) bytecode1) as Hs.
      unfold bind in *.
      repeat match type of Hs with
        | match ?m with Normal _ _ => _ | Throw _ => _ end = Normal _ _ =>
            destruct m as [[] ?|]; [|discriminate Hs]
        end.
      by rewrite Hs. }
    split.
    + intros Hdrop. cbn [generate].
      rewrite (bind_eq _ _ _ _ _ (offset_of_value _ _ _ Hoffset)).
      rewrite (bind_eq _ _ _ _ _ (Hof _)).
      rewrite (bind_eq _ _ _ _ _ Haddress).
      rewrite Hpushed, (bind_eq _ _ _ _ _ Hrhs), Hdrop.
      apply writes_access; lia.
    + intros tempVariable Hkeep Hmeta Htemp. cbn [generate].
      rewrite (bind_eq _ _ _ _ _ (offset_of_value _ _ _ Hoffset)).
      rewrite (bind_eq _ _ _ _ _ (Hof _)).
      rewrite (bind_eq _ _ _ _ _ Haddress).
      rewrite Hpushed, (bind_eq _ _ _ _ _ Hrhs), Hkeep, Hmeta.
      refine (writes_ext _ _
                (fun path => kept_parts path (storageOp pointer)
                               (alignment_loop offset start) offset tempVariable) _ _ _).
      * writes_chain.
      * intros path. reflexivity.
Qed.

(** The theorem on [p[a; 6]] and on [p[a; 6] = 5], with its value dropped
    and with its value kept, for [p: ptr i32] and the locals [p] and [a]:
    the storage size is 4, the offset 6, and the alignment 1, which stands
    behind [i32.load] (40) and behind [i32.store] (54). *)
Lemma memory_access_alignment_witness :
  "i32" ∈ storageTypes /\
  define_PTR Samples.pointer "i32" = Some Samples.pointer /\
  offset_value (Some Samples.six) = Some 6 /\
  exists alignment,
    is_alignment 4 6 alignment /\ alignment = 1 /\
    generate BLOCK None
      (MemoryAccess (Validation.annotation i32 false NoMeta) Samples.pointer Samples.address
         (Some Samples.six)) 0 Samples.bytecode =
    Normal tt
      {| path := "module";
         parts :=
           [Single (Some 32) "op" "module|op" (Code "get_local");
            Several (Bytes [1]) "local_index" "module|local_index" (Num (Int 1));
            Single (Some 32) "op" "module|op" (Code "get_local");
            Several (Bytes [0]) "local_index" "module|local_index" (Num (Int 0));
            Single (Some 106) "op" "module|op" (Code "i32.add");
            Single (Some 65) "op" "module|op" (Code "i32.const");
            Several (Bytes [4]) "value" "module|value" (Num (Int 4));
            Single (Some 108) "op" "module|op" (Code "i32.mul");
            Single (Some 40) "op" "module|op" (Code "i32.load");
            Several (Bytes [1]) "flags" "module|flags" (Num (Int 1));
            Several (Bytes [6]) "offset" "module|offset" (Num (Int 6))];
         totalSize := 11 |} /\
    generate BLOCK None
      (Assign (set_dropValue (Validation.annotation i32 false NoMeta))
         (MemoryAccess (Validation.annotation i32 false NoMeta) Samples.pointer Samples.address
            (Some Samples.six))
         Samples.five) 0 Samples.bytecode =
    Normal tt
      {| path := "module";
         parts :=
           [Single (Some 32) "op" "module|op" (Code "get_local");
            Several (Bytes [1]) "local_index" "module|local_index" (Num (Int 1));
            Single (Some 32) "op" "module|op" (Code "get_local");
            Several (Bytes [0]) "local_index" "module|local_index" (Num (Int 0));
            Single (Some 106) "op" "module|op" (Code "i32.add");
            Single (Some 65) "op" "module|op" (Code "i32.const");
            Several (Bytes [4]) "value" "module|value" (Num (Int 4));
            Single (Some 108) "op" "module|op" (Code "i32.mul");
            Single (Some 65) "op" "module|op" (Code "i32.const");
            Several (Bytes [5]) "value" "module|value" (Num (Int 5));
            Single (Some 54) "op" "module|op" (Code "i32.store");
            Several (Bytes [1]) "flags" "module|flags" (Num (Int 1));
            Several (Bytes [6]) "offset" "module|offset" (Num (Int 6))];
         totalSize := 13 |} /\
    generate BLOCK None
      (Assign (Validation.annotation i32 false (TempMeta Samples.temporary))
         (MemoryAccess (Validation.annotation i32 false NoMeta) Samples.pointer Samples.address
            (Some Samples.six))
         Samples.five) 0 Samples.bytecode =
    Normal tt
      {| path := "module";
         parts :=
           [Single (Some 32) "op" "module|op" (Code "get_local");
            Several (Bytes [1]) "local_index" "module|local_index" (Num (Int 1));
            Single (Some 32) "op" "module|op" (Code "get_local");
            Several (Bytes [0]) "local_index" "module|local_index" (Num (Int 0));
            Single (Some 106) "op" "module|op" (Code "i32.add");
            Single (Some 65) "op" "module|op" (Code "i32.const");
            Several (Bytes [4]) "value" "module|value" (Num (Int 4));
            Single (Some 108) "op" "module|op" (Code "i32.mul");
            Single (Some 65) "op" "module|op" (Code "i32.const");
            Several (Bytes [5]) "value" "module|value" (Num (Int 5));
            Single (Some 34) "op" "module|op" (Code "tee_local");
            Several (Bytes [2]) "local_index" "module|local_index" (Num (Int 2));
            Single (Some 54) "op" "module|op" (Code "i32.store");
            Several (Bytes [1]) "flags" "module|flags" (Num (Int 1));
            Several (Bytes [6]) "offset" "module|offset" (Num (Int 6));
            Single (Some 32) "op" "module|op" (Code "get_local");
            Several (Bytes [2]) "local_index" "module|local_index" (Num (Int 2))];
         totalSize := 17 |}.
Proof.
  assert (Hin : "i32" ∈ storageTypes)
    by (apply (bool_decide_unpack _); vm_compute; exact I).
  assert (Hdef : define_PTR Samples.pointer "i32" = Some Samples.pointer)
    by (vm_compute; reflexivity).
  assert (Hoffset : offset_value (Some Samples.six) = Some 6) by reflexivity.
  split; [exact Hin|]. split; [exact Hdef|]. split; [exact Hoffset|].
  destruct (memory_access_alignment Samples.pointer Samples.pointer "i32"
              (Some Samples.six) 6 Hin Hdef Hoffset)
    as (alignment & Hal & _ & _ & Hload & Hstore).
  exists alignment. split; [exact Hal|].
  assert (Haddress : generate ADDRESS None Samples.address 0 Samples.bytecode =
                     Normal tt (pushed Samples.bytecode
                                  [op_part "module" "get_local";
                                   varuint_part "module" 1 "local_index"]))
    by (vm_compute; reflexivity).
  assert (Hrhs : generate ASSIGN None Samples.five 0
                   (pushed (pushed Samples.bytecode
                              [op_part "module" "get_local";
                               varuint_part "module" 1 "local_index"])
                      (scaling_parts "module" Samples.pointer)) =
                 Normal tt (pushed (pushed (pushed Samples.bytecode
                                              [op_part "module" "get_local";
                                               varuint_part "module" 1 "local_index"])
                                      (scaling_parts "module" Samples.pointer))
                              [op_part "module" "i32.const";
                               Several (Bytes [5]) "value" "module|value" (Num (Int 5))]))
    by (vm_compute; reflexivity).
  assert (Hindex : 0 <= Def.index Samples.pointer < 2 ^ 32) by (simpl; lia).
  assert (Hbound : 0 <= 6 < 2 ^ 32) by lia.
  assert (Hone : alignment = 1).
  { apply (is_alignment_unique 4 6); [exact Hal|].
    unfold is_alignment. split; [lia|]. split; [simpl; lia|]. split; [by exists 3|].
    intros b Hb Hle [k Hk].
    assert (Hcases : b <= 1 \/ b = 2 \/ 3 <= b) by lia.
    destruct Hcases as [H|[->|H]]; [exact H|simpl in Hk; lia|].
    apply (Z.pow_le_mono_r 2) in H; [simpl in H; lia|lia]. }
  split; [exact Hone|]. split; [|split].
  - rewrite (Hload BLOCK None (Validation.annotation i32 false NoMeta) Samples.address 0
               Samples.bytecode _ Haddress Hindex Hbound).
    rewrite Hone. vm_compute. reflexivity.
  - destruct (Hstore BLOCK None (set_dropValue (Validation.annotation i32 false NoMeta))
                (Validation.annotation i32 false NoMeta) Samples.address Samples.five 0
                Samples.bytecode _ _ Haddress Hrhs Hindex Hbound) as [Hdropped _].
    rewrite (Hdropped eq_refl). rewrite Hone. vm_compute. reflexivity.
  - destruct (Hstore BLOCK None (Validation.annotation i32 false (TempMeta Samples.temporary))
                (Validation.annotation i32 false NoMeta) Samples.address Samples.five 0
                Samples.bytecode _ _ Haddress Hrhs Hindex Hbound) as [_ Hkept].
    assert (Htemporary : 0 <= Def.index Samples.temporary < 2 ^ 32) by (simpl; lia).
    rewrite (Hkept Samples.temporary eq_refl eq_refl Htemporary).
    rewrite Hone. vm_compute. reflexivity.
Defined.

End MemoryAccesses.

Section Conditionals.
Import AST Monad Monad.Notations Validation ByteCode Container FunctionCodeGen Walks Samples
  Emission.

Lemma ann_update {A} (f : A -> A) (node : Node A) : ann (update f node) = f (ann node).
Proof. by destruct node. Qed.

(** Every child that leaves a value has been told to drop it. *)
Definition dropped (children : list (Node Ann)) : Prop :=
  Forall (fun child => runType (ann child) <> void -> dropValue (ann child) = true) children.

Lemma validate_children_dropped validate_child children :
  forall s children' lastEscapes lastChildType ys rs s',
    validate_children validate_child children false s =
      Normal (children', lastEscapes, lastChildType, ys, rs) s' ->
    dropped children'.
Proof.
  induction children as [|child children IH]; intros s cs e t ys rs s' Hv;
    cbn [validate_children] in Hv.
  - normal Hv. simplify_eq. constructor.
  - assert (Hdrop : forall o : Out,
              (fun child => runType (ann child) <> void -> dropValue (ann child) = true)
                (if decide (runType_of o <> void)
                 then update set_dropValue (out o) else out o)).
    { intros o. destruct (decide _) as [|Hvoid]; [by rewrite ann_update|].
      intros Hne. by destruct Hvoid. }
    destruct children as [|next rest].
    + normal Hv. simplify_eq. constructor; [apply Hdrop|constructor].
    + normal Hv. simplify_eq. constructor; [apply Hdrop|by eapply IH].
Qed.

(** The bodies that the child type constraint of [IF] lets through. *)
Definition is_body {A} (body : Node A) : bool :=
  match body with Block _ _ | Break _ | Continue _ => true | _ => false end.

(** A body that is validated with no value required has the run type
    [void], and a block has its value-leaving children marked. *)
Lemma validate_body ctx body s b s' :
  is_body body = true ->
  validate ctx body false s = Normal b s' ->
  runType_of b = void /\
  match out b with Block _ children' => dropped children' | _ => True end.
Proof.
  intros Hbody Hv. destruct body; try done; cbn [validate] in Hv.
  - destruct children as [|child children]; normal Hv; [by split; [|constructor]|].
    split; [done|]. cbn [out]. by eapply validate_children_dropped.
  - by normal Hv.
  - by normal Hv.
Qed.

(** The parts of the comparison with zero, for the three run types that
    need one. *)
Definition comparison_parts (path : string) (runType : RunType) (zero : Payload) : list Part :=
  [Single (codeTable !! (RunType_text runType +:+ ".const")) "op" (path +:+ "|op")
     (Code (RunType_text runType +:+ ".const"));
   Several zero "value" (path +:+ "|value") (Num (Int 0));
   Single (codeTable !! (RunType_text runType +:+ ".ne")) "op" (path +:+ "|op")
     (Code (RunType_text runType +:+ ".ne"))].

(** What the emitter writes between the code of a condition and the
    [if]: nothing for [i32], and the comparison with zero for the others
    ([literal] writes nothing for the zero of [void]). *)
Definition coercion_parts (path : string) (runType : RunType) : list Part :=
  match runType with
  | i32 => []
  | i64 => comparison_parts path i64 (Bytes [0])
  | f32 => comparison_parts path f32 (F32 (Int 0))
  | f64 => comparison_parts path f64 (F64 (Int 0))
  | void => [op_part path (RunType_text void +:+ ".const");
             op_part path (RunType_text void +:+ ".ne")]
  end.

Lemma writes_coerce_condition runType :
  writes (coerce_condition runType) (fun path => coercion_parts path runType).
Proof.
  assert (Hi64 : writes (literal i64 (Int 0) "value")
                   (fun path => [Several (Bytes [0]) "value" (path +:+ "|value") (Num (Int 0))])).
  { intros this. unfold literal.
    replace (LEB 0 []) with [0] by (vm_compute; reflexivity). reflexivity. }
  assert (Hf32 : writes (literal f32 (Int 0) "value")
                   (fun path => [Several (F32 (Int 0)) "value" (path +:+ "|value") (Num (Int 0))]))
    by (intros this; reflexivity).
  assert (Hf64 : writes (literal f64 (Int 0) "value")
                   (fun path => [Several (F64 (Int 0)) "value" (path +:+ "|value") (Num (Int 0))]))
    by (intros this; reflexivity).
  unfold coerce_condition.
  destruct runType; destruct (decide _) as [Hne|Heq];
    try (by destruct Hne); try (exfalso; apply Heq; discriminate).
  - apply writes_ret.
  - exact (writes_bind _ _ _ _ (writes_op _) (writes_bind _ _ _ _ Hi64 (writes_op _))).
  - exact (writes_bind _ _ _ _ (writes_op _) (writes_bind _ _ _ _ Hf32 (writes_op _))).
  - exact (writes_bind _ _ _ _ (writes_op _) (writes_bind _ _ _ _ Hf64 (writes_op _))).
  - exact (writes_bind _ _ _ _ (writes_op _) (writes_bind _ _ _ _ writes_ret (writes_op _))).
Qed.

(** The nodes whose code ends with [if (node.dropValue) bytecode.op("drop")]:
    all but [break], [yield] and [return], behind which a [drop] would be
    unreachable, and the references, definitions, assignments and
    [++]/[--], which leave no value in the first place when it is not
    wanted. *)
Definition drops_behind {A} (node : Node A) : bool :=
  match node with
  | Break _ | Yield _ _ | Return _ _ | Definition_ _ _ _ | Variable_ _ _
  | Assign _ _ _ | SuffixOp _ _ _ => false
  | _ => true
  end.

(** The code that [m] writes, if it completes, ends with a [drop]. *)
Definition ends_in_drop {A} (m : M Container.t A) : Prop :=
  forall this a this',
    m this = Normal a this' ->
    exists before, parts this' = before ++ [op_part (path this') "drop"].

Lemma ends_in_drop_op : ends_in_drop (op "drop").
Proof.
  intros this [] this' H. rewrite (writes_op "drop" this) in H. injection H as <-.
  exists (parts this). reflexivity.
Qed.

Lemma ends_in_drop_throw {A} e : ends_in_drop (throw e : M Container.t A).
Proof. by intros this a this'. Qed.

Lemma ends_in_drop_bind {A B} (m : M Container.t A) (k : A -> M Container.t B) :
  (forall a, ends_in_drop (k a)) -> ends_in_drop (let* a := m in k a).
Proof.
  intros Hk this b this' H. apply bind_Normal in H as (a & this1 & _ & H). by eapply Hk.
Qed.

Lemma generate_drops parentType target (node : Node Ann) depth :
  drops_behind node = true -> dropValue (ann node) = true ->
  ends_in_drop (generate parentType target node depth).
Proof.
  intros Hnode Hdrop.
  destruct node; try discriminate Hnode; cbn [ann] in Hdrop; cbn [generate]; rewrite ?Hdrop;
    repeat first
      [ apply ends_in_drop_op | apply ends_in_drop_throw
      | apply ends_in_drop_bind; intros ?
      | match goal with |- ends_in_drop (match ?x with _ => _ end) => destruct x end ].
Qed.

(** C7, as amended.  An [if] without [else] takes the outcome of its
    condition.  A valid condition that always escapes is unreachable code
    and a valid one of run type [void] is a "Bad Condition".  Otherwise
    the body is validated with no value required and the [if] takes its
    outcome: when the body is valid so is the [if], its run type is
    [void], and a body that is a block, a break or a continue has the run
    type [void], with every child of the block that leaves a value marked
    to drop it.  Where the code of the condition has been written, and
    behind it and what follows the code of the body, the emitter has
    written: the condition, then, exactly when the run type of the
    condition is not [i32], a constant zero of that type and the
    comparison [ne], then the [if] with the block type [void], the body
    and [end].  The code of a marked node ends with a [drop], unless the
    node is a [break], a [yield], a [return], a reference, a definition,
    an assignment or a [++] or [--]. *)
Theorem validate_IF_without_else (ctx : Context) (a : unit) (condition body : Node unit)
  (valueRequired : bool) (s : FnScope) :
  match validate (within IF ctx) condition true s with
  | Throw e => validate ctx (If a condition body) valueRequired s = Throw e
  | Normal c s1 =>
      if escapes c then
        validate ctx (If a condition body) valueRequired s =
        Throw (unreachable_code condition (If a condition body))
      else if decide (runType_of c = void) then
        validate ctx (If a condition body) valueRequired s =
        Throw (CompileError "Bad Condition" [("node", DNode condition)])
      else
        match validate (within IF ctx) body false s1 with
        | Throw e => validate ctx (If a condition body) valueRequired s = Throw e
        | Normal b s2 =>
            validate ctx (If a condition body) valueRequired s =
              Normal {| out := If created (out c) (out b);
                        yields := yields c ++ yields b;
                        returns := returns c ++ returns b |} s2 /\
            runType created = void /\
            (if is_body body
             then runType_of b = void /\
                  match out b with Block _ children' => dropped children' | _ => True end
             else True) /\
            forall parentType target depth bytecode bytecode1 bytecode2,
              generate IF target (out c) depth bytecode = Normal tt bytecode1 ->
              generate IF target (out b) (depth + 1)
                (pushed bytecode1
                   (coercion_parts (path bytecode1) (runType_of c) ++
                    [op_part (path bytecode1) "if";
                     byte_part (path bytecode1) "void" "block_type"])) =
                Normal tt bytecode2 ->
              generate parentType target (If created (out c) (out b)) depth bytecode =
              Normal tt (pushed bytecode2 [op_part (path bytecode2) "end"])
        end
  end /\
  (forall parentType target (node : Node Ann) depth bytecode bytecode',
     drops_behind node = true ->
     dropValue (ann node) = true ->
     generate parentType target node depth bytecode = Normal tt bytecode' ->
     exists before, parts bytecode' = before ++ [op_part (path bytecode') "drop"]) /\
  (forall bytecode, coerce_condition i32 bytecode = Normal tt bytecode) /\
  (forall bytecode,
     coerce_condition i64 bytecode =
       Normal tt {| path := path bytecode;
                    parts := parts bytecode ++ comparison_parts (path bytecode) i64 (Bytes [0]);
                    totalSize := totalSize bytecode + 1 + 1 + 1 |} /\
     coerce_condition f32 bytecode =
       Normal tt {| path := path bytecode;
                    parts := parts bytecode ++ comparison_parts (path bytecode) f32 (F32 (Int 0));
                    totalSize := totalSize bytecode + 1 + 4 + 1 |} /\
     coerce_condition f64 bytecode =
       Normal tt {| path := path bytecode;
                    parts := parts bytecode ++ comparison_parts (path bytecode) f64 (F64 (Int 0));
                    totalSize := totalSize bytecode + 1 + 8 + 1 |}) /\
  codeTable !! "i64.ne" = Some 82 /\ codeTable !! "f32.ne" = Some 92 /\
  codeTable !! "f64.ne" = Some 98.
Proof.
  split; [|split; [|split; [|split; [|split_and!; vm_compute; reflexivity]]]].
  - cbn [validate].
    destruct (validate (within IF ctx) condition true s) as [c s1|e] eqn:Hc.
    + rewrite (bind_eq _ _ _ _ _ Hc). cbn beta iota.
      destruct (escapes c); [done|]. destruct (decide (runType_of c = void)); [done|].
      destruct (validate (within IF ctx) body false s1) as [b s2|e] eqn:Hb.
      * rewrite (bind_eq _ _ _ _ _ Hb). split_and!; [done|done| |].
        -- destruct (is_body body) eqn:Hbody; [|done]. by eapply validate_body.
        -- intros parentType target depth bytecode bytecode1 bytecode2 Hcondition Hbody.
           cbn [generate]. rewrite (bind_eq _ _ _ _ _ Hcondition).
           rewrite (writes_then _ _ _ _ (writes_coerce_condition _)).
           rewrite (writes_then _ _ _ _ (writes_op _)).
           rewrite (writes_then _ _ _ _ (writes_byte _ _)).
           rewrite !path_pushed, !pushed_app.
           unfold runType_of in Hbody. cbn [app] in Hbody |- *.
           rewrite (bind_eq _ _ _ _ _ Hbody).
           cbn [created dropValue].
           exact (writes_bind _ _ _ _ (writes_op _) writes_ret bytecode2).
      * by rewrite (bind_Throw _ _ _ _ Hb).
    + by rewrite (bind_Throw _ _ _ _ Hc).
  - intros parentType target node depth bytecode bytecode' Hnode Hdrop Hgenerate.
    by eapply generate_drops.
  - done.
  - intros [path parts totalSize].
    unfold coerce_condition, comparison_parts, bind, op, byte, bytes, path_of, push, literal,
      bytes, path_of, push, bind, ret.
    cbn -[codeTable].
    split_and!; (destruct (decide _) as [_|Hn]; [|by destruct Hn]);
      cbn [Container.path Container.parts Container.totalSize]; f_equal; f_equal;
      first [ rewrite <- !app_assoc; f_equal; vm_compute; reflexivity
            | vm_compute; reflexivity ].
Qed.

(** The theorem on [if (1x64) { 5 }] and on [if (1) { 5 }] in the body of
    [main], and on [if () {}].  The first is valid and its code is the
    condition, the comparison with zero ([i64.const] 0, [i64.ne]), the
    [if] of block type [void], the body with a [drop] behind the [5], and
    [end]; the second has no comparison; the third is a "Bad Condition". *)
Lemma validate_IF_without_else_witness :
  match validate in_main (If tt long_condition value_body) false fnScope with
  | Normal o _ =>
      runType_of o = void /\
      generate BLOCK None (out o) 0 bytecode =
      Normal tt
        {| path := "module";
           parts :=
             [Single (Some 66) "op" "module|op" (Code "i64.const");
              Several (Bytes [1]) "value" "module|value" (Num (Int 1));
              Single (Some 66) "op" "module|op" (Code "i64.const");
              Several (Bytes [0]) "value" "module|value" (Num (Int 0));
              Single (Some 82) "op" "module|op" (Code "i64.ne");
              Single (Some 4) "op" "module|op" (Code "if");
              Single (Some 64) "block_type" "module|block_type" (Code "void");
              Single (Some 65) "op" "module|op" (Code "i32.const");
              Several (Bytes [5]) "value" "module|value" (Num (Int 5));
              Single (Some 26) "op" "module|op" (Code "drop");
              Single (Some 11) "op" "module|op" (Code "end")];
           totalSize := 11 |}
  | Throw _ => False
  end /\
  match validate in_main (If tt condition value_body) false fnScope with
  | Normal o _ =>
      runType_of o = void /\
      generate BLOCK None (out o) 0 bytecode =
      Normal tt
        {| path := "module";
           parts :=
             [Single (Some 65) "op" "module|op" (Code "i32.const");
              Several (Bytes [1]) "value" "module|value" (Num (Int 1));
              Single (Some 4) "op" "module|op" (Code "if");
              Single (Some 64) "block_type" "module|block_type" (Code "void");
              Single (Some 65) "op" "module|op" (Code "i32.const");
              Several (Bytes [5]) "value" "module|value" (Num (Int 5));
              Single (Some 26) "op" "module|op" (Code "drop");
              Single (Some 11) "op" "module|op" (Code "end")];
           totalSize := 8 |}
  | Throw _ => False
  end /\
  validate in_main (If tt (Paren tt []) (Block tt [])) false fnScope =
  Throw (CompileError "Bad Condition" [("node", DNode (Paren tt []))]).
Proof.
  split; [|split].
  - destruct (validate_IF_without_else in_main tt long_condition value_body false fnScope)
      as [H _].
    destruct (validate (within IF in_main) long_condition true fnScope) as [c s1|e] eqn:Hc;
      vm_compute in Hc; [injection Hc as <- <-|discriminate Hc].
    match type of H with if ?escaping then _ else _ =>
      destruct escaping eqn:He; [vm_compute in He; discriminate He|] end.
    destruct (decide _) as [Hvoid|_]; [vm_compute in Hvoid; discriminate Hvoid|].
    match type of H with match ?valid with Normal _ _ => _ | Throw _ => _ end =>
      destruct valid as [b s2|e] eqn:Hb;
      vm_compute in Hb; [injection Hb as <- <-|discriminate Hb] end.
    destruct H as (Hif & Hvoid & _ & Hemit). rewrite Hif. split; [exact Hvoid|].
    match type of (Hemit BLOCK None 0 bytecode) with
    | forall bytecode1 bytecode2, ?written = _ -> _ =>
        destruct written as [[] bytecode1|e] eqn:Hcondition;
        [|vm_compute in Hcondition; discriminate Hcondition]
    end.
    pose proof Hcondition as Hfirst. vm_compute in Hfirst. injection Hfirst as <-.
    match type of (Hemit BLOCK None 0 bytecode _ bytecode eq_refl) with
    | ?written = _ -> _ =>
        destruct written as [[] bytecode2|e] eqn:Hbody;
        [|vm_compute in Hbody; discriminate Hbody]
    end.
    pose proof Hbody as Hsecond. vm_compute in Hsecond. injection Hsecond as <-.
    refine (eq_trans (Hemit BLOCK None 0 bytecode _ _ eq_refl Hbody) _).
    vm_compute. reflexivity.
  - destruct (validate_IF_without_else in_main tt condition value_body false fnScope)
      as [H _].
    destruct (validate (within IF in_main) condition true fnScope) as [c s1|e] eqn:Hc;
      vm_compute in Hc; [injection Hc as <- <-|discriminate Hc].
    match type of H with if ?escaping then _ else _ =>
      destruct escaping eqn:He; [vm_compute in He; discriminate He|] end.
    destruct (decide _) as [Hvoid|_]; [vm_compute in Hvoid; discriminate Hvoid|].
    match type of H with match ?valid with Normal _ _ => _ | Throw _ => _ end =>
      destruct valid as [b s2|e] eqn:Hb;
      vm_compute in Hb; [injection Hb as <- <-|discriminate Hb] end.
    destruct H as (Hif & Hvoid & _ & Hemit). rewrite Hif. split; [exact Hvoid|].
    match type of (Hemit BLOCK None 0 bytecode) with
    | forall bytecode1 bytecode2, ?written = _ -> _ =>
        destruct written as [[] bytecode1|e] eqn:Hcondition;
        [|vm_compute in Hcondition; discriminate Hcondition]
    end.
    pose proof Hcondition as Hfirst. vm_compute in Hfirst. injection Hfirst as <-.
    match type of (Hemit BLOCK None 0 bytecode _ bytecode eq_refl) with
    | ?written = _ -> _ =>
        destruct written as [[] bytecode2|e] eqn:Hbody;
        [|vm_compute in Hbody; discriminate Hbody]
    end.
    pose proof Hbody as Hsecond. vm_compute in Hsecond. injection Hsecond as <-.
    refine (eq_trans (Hemit BLOCK None 0 bytecode _ _ eq_refl Hbody) _).
    vm_compute. reflexivity.
  - destruct (validate_IF_without_else in_main tt (Paren tt []) (Block tt []) false fnScope)
      as [H _].
    destruct (validate (within IF in_main) (Paren tt []) true fnScope) as [c s1|e] eqn:Hc;
      vm_compute in Hc; [injection Hc as <- <-|discriminate Hc].
    match type of H with if ?escaping then _ else _ =>
      destruct escaping eqn:He; [vm_compute in He; discriminate He|] end.
    destruct (decide _) as [_|Hvalue]; [exact H|].
    exfalso. apply Hvalue. reflexivity.
Defined.

(** C7, as it stands, fails twice.  On [if (1) { 5 }]: the body leaves an
    [i32] when a value is asked of it, and the [if] is valid.  On
    [if ({ return }) {}] in the body of [main]: the condition is valid
    and its run type is [void], and the [if] is refused as unreachable
    code, not as a bad condition. *)
Lemma if_without_else_counterexamples :
  let escaping := Paren tt [Block tt [Return tt None]] in
  (match validate (within IF in_main) value_body true fnScope with
   | Normal b _ => runType_of b = i32
   | Throw _ => False
   end /\
   match validate in_main (If tt condition value_body) false fnScope with
   | Normal o _ =>
       runType_of o = void /\
       exists a child, out o = If a child
         (Block created [Literal {| runType := i32; alwaysEscapes := false; dropValue := true;
                                    meta := LiteralMeta (Int 5) i32 |} I32_LITERAL "5"])
   | Throw _ => False
   end) /\
  (match validate (within IF in_main) escaping true fnScope with
   | Normal c _ => runType_of c = void
   | Throw _ => False
   end /\
   validate in_main (If tt escaping (Block tt [])) false fnScope =
   Throw (CompileError "Unreachable Code"
            [("node", DNode escaping);
             ("unreachable", DNode (If tt escaping (Block tt [])))])).
Proof.
  split; split; vm_compute; try reflexivity. split; [reflexivity|]. by do 2 eexists.
Qed.

End Conditionals.

(** * Further properties of the compiler core

    What follows adds to the properties above and to the models:
    - the encoders, the container, the lexer, [orderGlobals] and the two
      tree walks again, with properties of every run;
    - [Signatures] and [Resolution]: [functionSignatureIndex] and
      [resolve] (parser.js);
    - [Sections]: the sub-sections of the byte code container, with
      [reserveSize] and [finishSection] (byteCode.js), and the type
      section (moduleCodeGen.js);
    - [Grammar]: the properties of the ASTypes, their rules and
      [getASType] (syntax.js);
    - [Parse]: the loop of [parse] with [createASTNode], [place],
      [define] and [shouldReparent] (parser.js). *)

(** ** The two varint encoders (byteCode.js) *)

Section Encoders.
Import ByteCode.

(** A LEB128 varint: bytes with bit 7 set, then one byte without it. *)
Fixpoint is_varint (bytes : list Z) : bool :=
  match bytes with
  | [] => false
  | byte :: rest =>
      match rest with
      | [] => (0 <=? byte) && (byte <? 128)
      | _ => (128 <=? byte) && (byte <? 256) && is_varint rest
      end
  end.

Lemma is_varint_cons byte rest :
  128 <= byte < 256 -> is_varint rest = true -> is_varint (byte :: rest) = true.
Proof.
  intros Hb Hrest. destruct rest as [|next rest]; [done|].
  cbn [is_varint] in *. rewrite Hrest.
  apply andb_true_intro. split; [|done].
  apply andb_true_intro. split; [apply Z.leb_le|apply Z.ltb_lt]; lia.
Qed.

Lemma uLEB_length (k : nat) : forall number,
  ToUint32 number < 2 ^ (7 * Z.of_nat (S k)) -> (length (uLEB number []) <= S k)%nat.
Proof.
  induction k as [|k IH]; intros number Hlt; rewrite uLEB_step;
    assert (Hr : 0 <= ToUint32 number < 2 ^ 32) by (apply Z.mod_pos_bound; lia);
    rewrite Z.shiftr_div_pow2 in * by lia; change (2 ^ 7) with 128 in *.
  - change (2 ^ (7 * Z.of_nat 1)) with 128 in Hlt.
    rewrite Z.div_small by lia. cbn. lia.
  - destruct (_ =? 0); [cbn; lia|].
    rewrite uLEB_app. cbn [app length]. apply le_n_S, IH.
    rewrite ToUint32_small.
    + apply Z.div_lt_upper_bound; [lia|].
      replace (7 * Z.of_nat (S (S k))) with (7 + 7 * Z.of_nat (S k)) in Hlt by lia.
      rewrite Z.pow_add_r in Hlt by lia. exact Hlt.
    + split; [apply Z.div_pos; lia|].
      apply Z.div_lt_upper_bound; lia.
Qed.

(** X1.  [uLEB] adds to the buffer a well-formed varint of one to five bytes. *)
Theorem uLEB_is_varint (number : Z) (buffer : list Z) :
  exists bytes,
    uLEB number buffer = buffer ++ bytes /\
    is_varint bytes = true /\ (1 <= length bytes <= 5)%nat.
Proof.
  exists (uLEB number []). split; [apply uLEB_app|].
  assert (Hv : is_varint (uLEB number []) = true).
  { pattern number. apply uLEB_rec. clear number. intros number IH.
    rewrite uLEB_step. rewrite land_127, ToInt32_mod_128.
    pose proof (Z.mod_pos_bound number 128 ltac:(lia)) as Hb.
    destruct (payload_bits (number mod 128) Hb) as (Hor & _).
    destruct (_ =? 0); cbn [app].
    - cbn. apply andb_true_intro. split; [apply Z.leb_le|apply Z.ltb_lt]; lia.
    - rewrite uLEB_app. cbn [app]. apply is_varint_cons; [lia|by apply IH]. }
  split; [done|]. split.
  - destruct (uLEB number []); [done|cbn; lia].
  - apply (uLEB_length 4).
    pose proof (Z.mod_pos_bound number (2 ^ 32) ltac:(lia)). unfold ToUint32.
    change (2 ^ (7 * Z.of_nat 5)) with (2 ^ 32 * 8). lia.
Qed.

(** X2.  The unsigned reader gets back the number that [uLEB] was given exactly
    when the number is an unsigned 32-bit integer: a larger or a negative
    number is encoded as its low 32 bits. *)
Theorem uLEB_decodes_iff (number : Z) :
  uLEB_decode (uLEB number []) = number <-> 0 <= number < 2 ^ 32.
Proof.
  rewrite uLEB_decode_uLEB. split.
  - intros <-. apply Z.mod_pos_bound. lia.
  - apply ToUint32_small.
Qed.

Lemma payload_bit6 b : 0 <= b < 128 -> Z.testbit b 6 = (64 <=? b).
Proof.
  intros Hb.
  pose proof (payload_check (fun b => Bool.eqb (Z.testbit b 6) (64 <=? b)) eq_refl b Hb) as H.
  by apply Bool.eqb_prop in H.
Qed.

Lemma LEB_length (k : nat) : forall number,
  - 2 ^ (7 * Z.of_nat (S k) - 1) <= ToInt32 number < 2 ^ (7 * Z.of_nat (S k) - 1) ->
  (length (LEB number []) <= S k)%nat.
Proof.
  induction k as [|k IH]; intros number Hr; rewrite LEB_step;
    set (n := ToInt32 number) in *;
    rewrite Z.shiftr_div_pow2 in * by lia; change (2 ^ 7) with 128 in *;
    rewrite land_127;
    assert (Hm : n = 128 * (n / 128) + n mod 128) by (apply Z.div_mod; lia);
    pose proof (Z.mod_pos_bound n 128 ltac:(lia)) as Hb;
    destruct (payload_bits (n mod 128) Hb) as (_ & Hland & _ & _ & _ & Hb6).
  - change (2 ^ (7 * Z.of_nat 1 - 1)) with 64 in Hr.
    assert (Hdone : LEB_done (n / 128) (Z.land (n mod 128) 64) = true); [|by rewrite Hdone].
    unfold LEB_done. rewrite Hb6.
    rewrite (payload_bit6 _ Hb).
    destruct (64 <=? n mod 128) eqn:H6.
    + apply Z.leb_le in H6. replace (n / 128) with (-1) by lia. done.
    + apply Z.leb_gt in H6. replace (n / 128) with 0 by lia. done.
  - destruct (LEB_done _ _); [cbn; lia|].
    rewrite LEB_app. cbn [app length]. apply le_n_S, IH.
    replace (7 * Z.of_nat (S (S k)) - 1) with (7 + (7 * Z.of_nat (S k) - 1)) in Hr by lia.
    rewrite Z.pow_add_r in Hr by lia. change (2 ^ 7) with 128 in Hr.
    assert (Hpos : 0 < 2 ^ (7 * Z.of_nat (S k) - 1)) by (apply Z.pow_pos_nonneg; lia).
    assert (Hq : - 2 ^ (7 * Z.of_nat (S k) - 1) <= n / 128 < 2 ^ (7 * Z.of_nat (S k) - 1)).
    { split.
      - apply Z.div_le_lower_bound; lia.
      - apply Z.div_lt_upper_bound; lia. }
    pose proof (ToInt32_range number) as Hn. fold n in Hn.
    rewrite ToInt32_small; [done|].
    split.
    + apply Z.div_le_lower_bound; lia.
    + apply Z.div_lt_upper_bound; lia.
Qed.

(** X3.  [LEB] adds to the buffer a well-formed varint of one to five bytes. *)
Theorem LEB_is_varint (number : Z) (buffer : list Z) :
  exists bytes,
    LEB number buffer = buffer ++ bytes /\
    is_varint bytes = true /\ (1 <= length bytes <= 5)%nat.
Proof.
  exists (LEB number []). split; [apply LEB_app|].
  assert (Hv : is_varint (LEB number []) = true).
  { pattern number. apply LEB_rec. clear number. intros number IH.
    rewrite LEB_step. rewrite land_127, ToInt32_mod_128 in IH |- *.
    pose proof (Z.mod_pos_bound number 128 ltac:(lia)) as Hb.
    destruct (payload_bits (number mod 128) Hb) as (Hor & _).
    destruct (LEB_done _ _); cbn [app].
    - cbn. apply andb_true_intro. split; [apply Z.leb_le|apply Z.ltb_lt]; lia.
    - rewrite LEB_app. cbn [app]. apply is_varint_cons; [lia|by apply IH]. }
  split; [done|]. split.
  - destruct (LEB number []); [done|cbn; lia].
  - apply (LEB_length 4).
    pose proof (ToInt32_range number).
    change (2 ^ (7 * Z.of_nat 5 - 1)) with (2 ^ 31 * 8). lia.
Qed.

(** X4.  The signed reader gets back the number that [LEB] was given exactly
    when the number is a signed 32-bit integer. *)
Theorem LEB_decodes_iff (number : Z) :
  LEB_decode (LEB number []) = number <-> - 2 ^ 31 <= number < 2 ^ 31.
Proof.
  rewrite LEB_decode_LEB. split.
  - intros <-. apply ToInt32_range.
  - apply ToInt32_small.
Qed.

End Encoders.

(** ** The byte code container and the code of function bodies
    (byteCode.js, functionCodeGen.js) *)

Section Appending.
Import AST Monad Monad.Notations ByteCode Container FunctionCodeGen Walks.

(** The number of bytes that [toByteArray] writes for a part, and for a
    list of parts. *)
Definition part_size (part : Part) : Z :=
  match part with
  | Single _ _ _ _ => 1
  | Several payload _ _ _ => Payload_length payload
  end.

Fixpoint parts_size (parts : list Part) : Z :=
  match parts with
  | [] => 0
  | part :: parts => part_size part + parts_size parts
  end.

Lemma parts_size_app parts1 parts2 :
  parts_size (parts1 ++ parts2) = parts_size parts1 + parts_size parts2.
Proof.
  induction parts1 as [|part parts1 IH]; cbn [app parts_size]; [done|]. rewrite IH. lia.
Qed.

(** [this'] is [this] with [more] behind its parts and the size of [more]
    added to its [totalSize]. *)
Definition extended (this : Container.t) (more : list Part) (this' : Container.t) : Prop :=
  path this' = path this /\
  parts this' = parts this ++ more /\
  totalSize this' = totalSize this + parts_size more.

(** A computation appends when, completing normally, it leaves the
    container extended. *)
Definition appends {A} (m : M Container.t A) : Prop :=
  forall this a this', m this = Normal a this' -> exists more, extended this more this'.

Lemma extended_refl this : extended this [] this.
Proof. unfold extended. by rewrite app_nil_r, Z.add_0_r. Qed.

Lemma extended_trans this more1 this1 more2 this2 :
  extended this more1 this1 -> extended this1 more2 this2 ->
  extended this (more1 ++ more2) this2.
Proof.
  intros (Hp1 & Hs1 & Ht1) (Hp2 & Hs2 & Ht2). unfold extended.
  rewrite Hp2, Hp1, Hs2, Hs1, Ht2, Ht1, parts_size_app, app_assoc. split_and!; [done|done|lia].
Qed.

Lemma appends_ret {A} (a : A) : appends (ret a).
Proof. intros this b this' [= <- <-]. exists []. apply extended_refl. Qed.

Lemma appends_throw {A} e : appends (throw e : M Container.t A).
Proof. by intros this b this'. Qed.

Lemma appends_bind {A B} (m : M Container.t A) (k : A -> M Container.t B) :
  appends m -> (forall a, appends (k a)) -> appends (bind m k).
Proof.
  intros Hm Hk this b this' H. apply bind_Normal in H as (a & this1 & H1 & H2).
  apply Hm in H1 as [more1 H1]. apply Hk in H2 as [more2 H2].
  exists (more1 ++ more2). by eapply extended_trans.
Qed.

Lemma appends_push part : appends (push part (part_size part)).
Proof.
  intros this a this' [= <- <-]. exists [part]. unfold extended. cbn. split_and!; [done|done|lia].
Qed.

Lemma appends_path_of field : appends (path_of field).
Proof. intros this a this' [= <- <-]. exists []. apply extended_refl. Qed.

Lemma appends_byte code field : appends (byte code field).
Proof.
  apply appends_bind; [apply appends_path_of|].
  intros p. apply (appends_push (Single _ _ _ _)).
Qed.

Lemma appends_bytes payload field value : appends (bytes payload field value).
Proof.
  apply appends_bind; [apply appends_path_of|].
  intros p. apply (appends_push (Several _ _ _ _)).
Qed.

Lemma appends_op code : appends (op code).
Proof. unfold op. apply appends_byte. Qed.

Lemma appends_varuint_bound value field bound : appends (varuint_bound value field bound).
Proof.
  unfold varuint_bound. destruct value; try apply appends_throw.
  destruct (_ || _); [apply appends_throw|apply appends_bytes].
Qed.

Lemma appends_varuint value field : appends (varuint value field).
Proof. unfold varuint. apply appends_varuint_bound. Qed.

Lemma appends_literal runType value field : appends (literal runType value field).
Proof.
  unfold literal. destruct runType, value;
    lazymatch goal with
    | |- appends (bytes _ _ _) => apply appends_bytes
    | |- appends (throw _) => apply appends_throw
    | |- appends (ret _) => apply appends_ret
    end.
Qed.

(** One step of the proof that a computation appends, chosen by the
    shape of the computation. *)
Ltac appends_step :=
  lazymatch goal with
  | |- appends (bind _ _) => apply appends_bind; [|intros]
  | |- appends (ret _) => apply appends_ret
  | |- appends (throw _) => apply appends_throw
  | |- appends (op _) => apply appends_op
  | |- appends (byte _ _) => apply appends_byte
  | |- appends (bytes _ _ _) => apply appends_bytes
  | |- appends (varuint _ _) => apply appends_varuint
  | |- appends (varuint_bound _ _ _) => apply appends_varuint_bound
  | |- appends (literal _ _ _) => apply appends_literal
  | |- appends (generate _ _ ?n _) =>
      match goal with
      | IH : forall parentType target depth, appends (generate _ _ n _) |- _ => apply IH
      end
  | |- appends (if ?c then _ else _) => destruct c
  | |- appends (match ?x with _ => _ end) => destruct x
  | |- _ => assumption
  end.

Lemma appends_getVariable index isGlobal : appends (getVariable index isGlobal).
Proof. unfold getVariable. repeat appends_step. Qed.

Lemma appends_setVariable index isGlobal tee : appends (setVariable index isGlobal tee).
Proof. unfold setVariable. repeat appends_step. Qed.

Lemma appends_alignment_of storageSize offset : appends (alignment_of storageSize offset).
Proof. unfold alignment_of. repeat appends_step. Qed.

Lemma appends_offset_of offsetProvided : appends (offset_of offsetProvided).
Proof. unfold offset_of. repeat appends_step. Qed.

Lemma appends_coerce_condition runType : appends (coerce_condition runType).
Proof. unfold coerce_condition. repeat appends_step. Qed.

Lemma appends_generateEach (each : Node Ann -> M Container.t unit) children :
  Forall (fun child => appends (each child)) children ->
  appends (generateEach each children).
Proof.
  induction 1 as [|child children Hchild _ IH]; cbn [generateEach].
  - apply appends_ret.
  - apply appends_bind; [done|by intros].
Qed.

(** The code of a node appends, and so does the code of the address of
    a memory access, which an assignment to the access generates by
    itself. *)
Definition appends_node (node : Node Ann) : Prop :=
  (forall parentType target depth, appends (generate parentType target node depth)) /\
  match node with
  | MemoryAccess _ _ address _ =>
      forall parentType target depth, appends (generate parentType target address depth)
  | _ => True
  end.

Lemma appends_children (each : Node Ann -> M Container.t unit) children :
  Forall appends_node children ->
  (forall child, appends_node child -> appends (each child)) ->
  appends (generateEach each children).
Proof.
  intros Hall Heach. apply appends_generateEach.
  eapply Forall_impl; [exact Hall|]. exact Heach.
Qed.

(** A step for the code of a node. *)
Ltac generate_step :=
  lazymatch goal with
  | |- appends (getVariable _ _) => apply appends_getVariable
  | |- appends (setVariable _ _ _) => apply appends_setVariable
  | |- appends (alignment_of _ _) => apply appends_alignment_of
  | |- appends (offset_of _) => apply appends_offset_of
  | |- appends (coerce_condition _) => apply appends_coerce_condition
  | |- appends (generateEach _ _) =>
      apply appends_children; [assumption|by intros ? [? _]]
  | |- _ => appends_step
  end.

Lemma generate_appends_each node : appends_node node.
Proof.
  induction node using Node_induction;
    (split; [intros parentType target depth; cbn [generate]|try exact I]);
    repeat match goal with IH : appends_node _ |- _ => destruct IH as [? ?] end.
  all: try (repeat generate_step; fail).
  - (* Block *)
    apply appends_bind; [|intros; repeat generate_step].
    destruct children as [|child [|next rest]];
      try (destruct (Forall_inv H) as [Hchild _]); repeat generate_step.
  - (* Paren *)
    apply appends_bind; [|intros; repeat generate_step].
    destruct children as [|child [|next rest]];
      try (destruct (Forall_inv H) as [Hchild _]); repeat generate_step.
  - (* Return *)
    destruct child as [child|]; [destruct (H child eq_refl) as [IHchild _]|];
      repeat generate_step.
Qed.

(** X5.  The code generator only ever adds to the container: the code of a
    node leaves the path and the parts that are there as they are, puts
    its own parts behind them, and adds to [totalSize] the number of
    bytes that [toByteArray] will write for them. *)
Theorem generate_appends (parentType : ASType) (target : option Z) (node : Node Ann)
  (depth : Z) (this : Container.t) :
  match generate parentType target node depth this with
  | Normal _ this' =>
      path this' = path this /\
      exists more,
        parts this' = parts this ++ more /\
        totalSize this' = totalSize this + parts_size more
  | Throw _ => True
  end.
Proof.
  destruct (generate parentType target node depth this) as [[] this'|e] eqn:Hg; [|done].
  apply (proj1 (generate_appends_each node)) in Hg as (more & Hp & Hs & Ht). eauto.
Qed.

(** X6.  [varuint] lets through the integers from 0 to [2^bound - 1] and no
    others, and with a bound of at most 32 bits the bytes it writes are
    read back as the value: the check of the range keeps [uLEB] away from
    the numbers that it would cut to 32 bits. *)
Theorem varuint_bound_decodes (value bound : Z) (field : string) (this : Container.t) :
  0 <= bound <= 32 ->
  match varuint_bound (Int value) field bound this with
  | Normal _ this' =>
      0 <= value <= 2 ^ bound - 1 /\
      exists encoded,
        this' = {| path := path this;
                   parts := parts this ++
                     [Several (Bytes encoded) field (path this +:+ "|" +:+ field)
                        (Num (Int value))];
                   totalSize := totalSize this + Z.of_nat (length encoded) |} /\
        uLEB_decode encoded = value
  | Throw e =>
      e = out_of_range /\ (value < 0 \/ 2 ^ bound - 1 < value)
  end.
Proof.
  intros Hbound. unfold varuint_bound.
  destruct (value <? 0) eqn:Hneg; cbn [orb].
  - apply Z.ltb_lt in Hneg. cbn. split; [done|lia].
  - apply Z.ltb_ge in Hneg. destruct (2 ^ bound - 1 <? value) eqn:Hbig.
    + apply Z.ltb_lt in Hbig. cbn. split; [done|lia].
    + apply Z.ltb_ge in Hbig. cbn. split; [lia|].
      exists (uLEB value []). split; [done|].
      rewrite uLEB_decode_uLEB. apply ToUint32_small.
      assert (2 ^ bound <= 2 ^ 32) by (apply Z.pow_le_mono_r; lia). lia.
Qed.

Lemma varuint_bound_decodes_witness :
  0 <= 32 <= 32 /\
  match varuint_bound (Int 300) "count" 32 Samples.bytecode with
  | Normal _ this' =>
      0 <= 300 <= 2 ^ 32 - 1 /\
      exists encoded,
        this' = {| path := path Samples.bytecode;
                   parts := parts Samples.bytecode ++
                     [Several (Bytes encoded) "count" (path Samples.bytecode +:+ "|" +:+ "count")
                        (Num (Int 300))];
                   totalSize := totalSize Samples.bytecode + Z.of_nat (length encoded) |} /\
        uLEB_decode encoded = 300
  | Throw e =>
      e = out_of_range /\ (300 < 0 \/ 2 ^ 32 - 1 < 300)
  end.
Proof.
  split; [lia|]. apply (varuint_bound_decodes 300 32 "count" Samples.bytecode). lia.
Defined.

End Appending.

(** ** The lexer (lexer.js) *)

Section TokenStream.
Import Lexer.

(** [text.slice(pos, pos + length)] *)
Definition slice (input : list N) (t : Token) : list N :=
  take (length_of t) (drop (pos t) input).

(** Each token starts where the one before it ends. *)
Fixpoint contiguous (lastIndex : nat) (tokens : list Token) : bool :=
  match tokens with
  | [] => true
  | t :: tokens => (pos t =? lastIndex)%nat && contiguous (lastIndex + length_of t) tokens
  end.

(** The token is the match, at its position, of the first pattern of
    [lexerData] that matches there. *)
Definition first_match (input : list N) (t : Token) : Prop :=
  exists before r after,
    lexerData = before ++ (ASType_of t, r) :: after /\
    rmatch r (drop (pos t) input) Some = Some (drop (pos t + length_of t) input) /\
    Forall (fun entry => rmatch entry.2 (drop (pos t) input) Some = None) before.

Definition token_ok (input : list N) (t : Token) : Prop :=
  slice input t = text t /\
  length_of t = length (text t) /\
  (1 <= length_of t)%nat /\
  ASType_of t ∈ lexerData.*1 /\
  first_match input t.

Lemma exec_alternatives_first data input type rest :
  exec_alternatives data input = Some (type, rest) ->
  exists before r after,
    data = before ++ (type, r) :: after /\
    rmatch r input Some = Some rest /\
    Forall (fun entry => rmatch entry.2 input Some = None) before.
Proof.
  induction data as [|[type' r] data IH]; cbn [exec_alternatives]; [done|].
  destruct (rmatch r input Some) as [rest'|] eqn:Hm.
  - intros [= -> ->]. exists [], r, data. by split_and!.
  - intros (before & r' & after & -> & Hr & Hnone)%IH.
    exists ((type', r) :: before), r', after. split_and!; [done|done|by constructor].
Qed.

Lemma exec_alternatives_type data input type rest :
  exec_alternatives data input = Some (type, rest) -> type ∈ data.*1.
Proof.
  induction data as [|[type' r] data IH]; cbn; [done|].
  destruct (rmatch r input Some); [intros [= -> _]; by left|].
  intros H. right. by apply IH.
Qed.

Lemma lexify_loop_tokens text lastIndex tokens :
  (lastIndex <= length text)%nat ->
  exists more,
    lexify_loop text lastIndex tokens = Some (tokens ++ more) /\
    Forall (token_ok text) more /\
    contiguous lastIndex (more ++ [sentinel (length text)]) = true.
Proof.
  funelim (lexify_loop text lastIndex tokens); intros Hle;
    repeat match goal with H : sigmaI _ _ _ = _ |- _ => clear H end.
  - exists []. apply Nat.ltb_ge in e. rewrite app_nil_r.
    split_and!; [done|done|]. cbn. rewrite andb_true_r. apply Nat.eqb_eq. lia.
  - apply Nat.ltb_lt in Hlt. destruct (exec_spec _ _ _ _ Hex) as [Hpos Hdrop].
    assert (Hle' : (lastIndex + length result0 <= length text0)%nat).
    { apply (f_equal length) in Hdrop. rewrite length_app, !length_drop in Hdrop. lia. }
    destruct (H Hle') as (more & Hloop & Hall & Hcont).
    eexists (_ :: more). rewrite <- app_assoc in Hloop. split_and!; [exact Hloop| |].
    + constructor; [|done]. unfold token_ok, slice. cbn [pos length_of Lexer.text ASType_of].
      unfold exec in Hex. destruct (exec_alternatives _ _) as [[type' rest]|] eqn:Halt; [|done].
      injection Hex as -> Hm.
      split_and!; [|done|lia| |].
      * rewrite Hdrop. by rewrite take_app_length.
      * exact (exec_alternatives_type lexerData _ _ _ Halt).
      * unfold first_match. cbn [pos length_of Lexer.text ASType_of].
        assert (Hrest : rest = drop (lastIndex + length result0) text0).
        { pose proof (matched_app _ _ (exec_alternatives_suffix _ _ _ _ Halt)) as Happ.
          rewrite Hm, Hdrop in Happ. by apply app_inv_head in Happ. }
        rewrite <- Hrest. by apply exec_alternatives_first.
    + cbn [app contiguous pos length_of]. rewrite Nat.eqb_refl. exact Hcont.
  - apply Nat.ltb_lt in Hlt. destruct (exec_total _ lastIndex Hlt) as [? ?]. congruence.
Qed.

(** X7.  The tokens of an input tile it: every token in front of the sentinel
    has the slice of the input at its position as its text, it is at least
    one code unit long, its ASType is one of [lexerData] (so none but the
    sentinel is an [END_OF_INPUT]), and each token, the sentinel too,
    starts where the one before it ends. *)
Theorem lexify_tiles (input : list N) :
  exists tokens,
    lexify input = Some (tokens ++ [sentinel (length input)]) /\
    Forall (fun t => slice input t = text t /\
                     length_of t = length (text t) /\
                     (1 <= length_of t)%nat /\
                     ASType_of t ∈ lexerData.*1 /\
                     ASType_of t <> END_OF_INPUT) tokens /\
    contiguous 0 (tokens ++ [sentinel (length input)]) = true /\
    (length tokens <= length input)%nat.
Proof.
  destruct (lexify_loop_tokens input 0 [] ltac:(lia)) as (tokens & Hloop & Hall & Hcont).
  destruct (lexify_loop_spec input 0 [] ltac:(lia)) as (tokens' & Hloop' & Hcat & _).
  rewrite Hloop in Hloop'. injection Hloop' as <-.
  exists tokens. unfold lexify. rewrite Hloop. cbn [app].
  split_and!; [done| |done|].
  - eapply Forall_impl; [exact Hall|]. intros t (Hs & Hl & H1 & Ht & _).
    split_and!; [done|done|done|done|].
    intros Heq. rewrite Heq in Ht. revert Ht. apply (bool_decide_eq_false_1 _). reflexivity.
  - rewrite drop_0 in Hcat. rewrite <- Hcat. clear -Hall.
    induction Hall as [|t tokens (_ & Hl & H1 & _) _ IH]; cbn; [lia|].
    rewrite length_app. lia.
Qed.

(** X8.  The patterns are tried in the order of [lexerData]: every token in
    front of the sentinel is the match of the first pattern that matches
    at its position, and its ASType is the one of that pattern. *)
Theorem lexify_first_match (input : list N) :
  exists tokens,
    lexify input = Some (tokens ++ [sentinel (length input)]) /\
    Forall (first_match input) tokens.
Proof.
  destruct (lexify_loop_tokens input 0 [] ltac:(lia)) as (tokens & Hloop & Hall & _).
  exists tokens. unfold lexify. rewrite Hloop. cbn [app]. split; [done|].
  eapply Forall_impl; [exact Hall|]. by intros t (_ & _ & _ & _ & Hfirst).
Qed.

End TokenStream.

(** ** The index spaces (moduleCodeGen.js) *)

Section Indexing.
Import ModuleCodeGen.

(** What a loop of [orderGlobals] does to one object: it leaves it alone
    or writes one index into it. *)
Definition written (k : option Z) (definition : Def.t) : Def.t :=
  match k with Some k => set_index k definition | None => definition end.

(** The index that the loops of [assign_indices] leave in an object: the
    one of its last position in the list. *)
Fixpoint last_index (offset i : Z) (objects : list ref) (r : ref) (k : option Z) : option Z :=
  match objects with
  | [] => k
  | r' :: objects =>
      last_index offset (i + 1) objects r (if decide (r' = r) then Some (i + offset) else k)
  end.

Lemma written_written k k' definition :
  written k (written k' definition) = written (if k is Some _ then k else k') definition.
Proof. by destruct k, k'. Qed.

Lemma assign_indices_lookup offset i objects r (original : gmap ref Def.t) :
  forall heap k,
    heap !! r = written k <$> original !! r ->
    assign_indices offset i objects heap !! r =
    written (last_index offset i objects r k) <$> original !! r.
Proof.
  revert i. induction objects as [|r' objects IH]; intros i heap k Hheap;
    cbn [assign_indices last_index]; [done|].
  apply IH. destruct (decide (r' = r)) as [->|Hne].
  - rewrite lookup_alter_eq, Hheap, <- option_fmap_compose.
    apply option_fmap_ext. intros definition. cbn. by destruct k.
  - by rewrite lookup_alter_ne.
Qed.

Lemma last_index_None offset i objects r :
  r ∉ objects -> last_index offset i objects r None = None.
Proof.
  revert i. induction objects as [|r' objects IH]; intros i Hr; cbn [last_index]; [done|].
  apply not_elem_of_cons in Hr as [Hne Hr]. rewrite decide_False by done. by apply IH.
Qed.

(** The index that [orderGlobals] leaves in an object. *)
Definition ordered_index (scope : Scope) (r : ref) : option Z :=
  let fnImports := imports_function scope in
  let varImports := imports_global scope in
  last_index (Z.of_nat (length varImports)) 0 (variables scope) r
    (last_index 0 0 varImports r
       (last_index (Z.of_nat (length fnImports)) 0 (functions scope) r
          (last_index 0 0 fnImports r None))).

Lemma orderGlobals_lookup scope heap r :
  orderGlobals scope heap !! r = written (ordered_index scope r) <$> heap !! r.
Proof.
  unfold orderGlobals, ordered_index. cbn zeta.
  do 4 apply assign_indices_lookup. cbn. by rewrite option_fmap_id.
Qed.

(** X9.  [orderGlobals] writes nothing but [index] fields: every object keeps
    its other fields, no object comes or goes, and an object that is in
    none of the four lists is left as it is. *)
Theorem orderGlobals_frame (scope : Scope) (heap : gmap ref Def.t) (r : ref) :
  set_index 0 <$> orderGlobals scope heap !! r = set_index 0 <$> heap !! r /\
  (r ∉ imports_function scope ++ functions scope ++ imports_global scope ++ variables scope ->
   orderGlobals scope heap !! r = heap !! r).
Proof.
  rewrite orderGlobals_lookup. split.
  - rewrite <- option_fmap_compose. apply option_fmap_ext. intros definition. cbn.
    by destruct (ordered_index scope r).
  - intros Hr. rewrite !not_elem_of_app in Hr. destruct Hr as (H1 & H2 & H3 & H4).
    unfold ordered_index. cbn zeta. rewrite !last_index_None by done.
    cbn. by rewrite option_fmap_id.
Qed.

(** X10.  Ordering twice is ordering once: the indices depend on the places of
    the objects in the lists and not on the indices that are there. *)
Theorem orderGlobals_idempotent (scope : Scope) (heap : gmap ref Def.t) :
  orderGlobals scope (orderGlobals scope heap) = orderGlobals scope heap.
Proof.
  apply map_eq. intros r. rewrite !orderGlobals_lookup.
  rewrite <- option_fmap_compose. apply option_fmap_ext. intros definition. cbn.
  rewrite written_written. by destruct (ordered_index scope r).
Qed.

End Indexing.

(** ** Function signatures (parser.js) *)

(** [scope.functionSignatureIndexMap] and [scope.functionSignatures]: the
    signatures that the module knows, and the index of each under the key
    that its texts make when they are joined with commas. *)
Module Signatures.

Record t : Type :=
  { functionSignatureIndexMap : gmap string nat;
    functionSignatures : list (list string) }.

(** The tables of a new global scope. *)
Definition empty : t := {| functionSignatureIndexMap := ∅; functionSignatures := [] |}.

(** [signature.join(",")] *)
Fixpoint join (signature : list string) : string :=
  match signature with
  | [] => EmptyString
  | [text] => text
  | text :: signature => text +:+ "," +:+ join signature
  end.

(** [functionSignatureIndex (scope, paramTypes, returnType)]: the index,
    and the tables as the call leaves them. *)
Definition functionSignatureIndex (scope : t) (paramTypes : list string) (returnType : string)
  : nat * t :=
  let signature := returnType :: paramTypes in
  let signatureKey := join signature in
  match functionSignatureIndexMap scope !! signatureKey with
  | Some index => (index, scope)
  | None =>
      let index := length (functionSignatures scope) in
      (index,
       {| functionSignatureIndexMap := <[signatureKey := index]> (functionSignatureIndexMap scope);
          functionSignatures := functionSignatures scope ++ [signature] |})
  end.

End Signatures.

Section Memo.
Import Signatures.

(** The character of [","]. *)
Definition comma : Ascii.ascii :=
  Ascii.Ascii false false true true false true false false.

(** A text without a comma, as the texts of types are. *)
Fixpoint comma_free (text : string) : bool :=
  match text with
  | EmptyString => true
  | String c text => negb (Ascii.eqb c comma) && comma_free text
  end.

(** A signature as [functionSignatureIndex] makes them: a return type and
    parameter types, none with a comma. *)
Definition is_signature (signature : list string) : Prop :=
  signature <> [] /\ Forall (fun text => comma_free text = true) signature.

Lemma append_comma_inj text1 text2 rest1 rest2 :
  comma_free text1 = true -> comma_free text2 = true ->
  text1 +:+ String comma rest1 = text2 +:+ String comma rest2 ->
  text1 = text2 /\ rest1 = rest2.
Proof.
  revert text2. induction text1 as [|c text1 IH]; intros [|c' text2] H1 H2 Heq; cbn in *.
  - by injection Heq as ->.
  - injection Heq as <- _. by rewrite Ascii.eqb_refl in H2.
  - injection Heq as -> _. by rewrite Ascii.eqb_refl in H1.
  - injection Heq as -> Heq.
    apply andb_prop in H1 as [_ H1]. apply andb_prop in H2 as [_ H2].
    destruct (IH _ H1 H2 Heq) as [-> ->]. done.
Qed.

Lemma append_comma_neq text1 text2 rest :
  comma_free text1 = true -> comma_free text2 = true ->
  text1 +:+ String comma rest <> text2.
Proof.
  revert text2. induction text1 as [|c text1 IH]; intros [|c' text2] H1 H2 Heq; cbn in *;
    try discriminate.
  - injection Heq as <- _. by rewrite Ascii.eqb_refl in H2.
  - injection Heq as -> Heq.
    apply andb_prop in H1 as [_ H1]. apply andb_prop in H2 as [_ H2]. by eapply IH.
Qed.

(** Signatures with the same key are the same. *)
Lemma join_inj signature1 signature2 :
  is_signature signature1 -> is_signature signature2 ->
  join signature1 = join signature2 -> signature1 = signature2.
Proof.
  intros [Hne1 Hall1] [Hne2 Hall2]. revert signature2 Hne2 Hall2.
  induction Hall1 as [|text1 rest1 Htext1 Hall1 IH]; [done|].
  intros signature2 Hne2 Hall2. destruct Hall2 as [|text2 rest2 Htext2 Hall2]; [done|].
  destruct rest1 as [|next1 rest1], rest2 as [|next2 rest2]; cbn [join].
  - by intros ->.
  - intros Heq. symmetry in Heq. by apply append_comma_neq in Heq.
  - intros Heq. by apply append_comma_neq in Heq.
  - intros Heq. apply append_comma_inj in Heq as [-> Heq]; [|done|done].
    f_equal. apply IH; done.
Qed.

(** The tables agree: the map sends the key of every known signature to
    its place in the list and has no other keys, and the list holds
    signatures. *)
Definition memo (scope : t) : Prop :=
  Forall is_signature (functionSignatures scope) /\
  forall key index,
    functionSignatureIndexMap scope !! key = Some index <->
    exists signature,
      functionSignatures scope !! index = Some signature /\ join signature = key.

Lemma memo_empty : memo empty.
Proof.
  split; [constructor|]. intros key index. cbn. rewrite lookup_empty. split; [done|].
  by intros (signature & Hl & _).
Qed.

(** X11.  [functionSignatureIndex] finds or makes the entry of a signature: the
    index it returns is the place of the signature in the list, the
    signatures that were there stay where they are, and no signature
    is in the list twice. *)
Theorem functionSignatureIndex_memo (scope : t) (paramTypes : list string)
  (returnType : string) :
  memo scope ->
  Forall (fun text => comma_free text = true) (returnType :: paramTypes) ->
  let (index, scope') := functionSignatureIndex scope paramTypes returnType in
  memo scope' /\
  functionSignatures scope' !! index = Some (returnType :: paramTypes) /\
  functionSignatures scope `prefix_of` functionSignatures scope' /\
  NoDup (functionSignatures scope') /\
  (returnType :: paramTypes ∈ functionSignatures scope -> scope' = scope).
Proof.
  intros [Hsigs Hmemo] Htexts. unfold functionSignatureIndex.
  set (signature := returnType :: paramTypes) in *.
  assert (Hsig : is_signature signature) by done.
  assert (Hnodup : forall scope0, memo scope0 -> NoDup (functionSignatures scope0)).
  { intros scope0 [Hs Hm]. apply NoDup_alt. intros i j signature0 Hi Hj.
    assert (Hk : functionSignatureIndexMap scope0 !! join signature0 = Some i)
      by (apply Hm; eauto).
    assert (Hk' : functionSignatureIndexMap scope0 !! join signature0 = Some j)
      by (apply Hm; eauto).
    congruence. }
  destruct (functionSignatureIndexMap scope !! join signature) as [index|] eqn:Hkey.
  - apply Hmemo in Hkey as (signature' & Hl & Hjoin).
    assert (signature' = signature) as ->.
    { apply join_inj; [|done|done]. rewrite Forall_forall in Hsigs.
      apply Hsigs. by eapply list_elem_of_lookup_2. }
    split_and!; [done|done|done|by apply Hnodup|done].
  - assert (Hnew : forall index, functionSignatures scope !! index <> Some signature).
    { intros index Hl.
      assert (functionSignatureIndexMap scope !! join signature = Some index)
        by (apply Hmemo; eauto).
      congruence. }
    assert (Hmemo' : memo {| functionSignatureIndexMap :=
                               <[join signature := length (functionSignatures scope)]>
                                 (functionSignatureIndexMap scope);
                             functionSignatures := functionSignatures scope ++ [signature] |}).
    { split; cbn.
      - apply Forall_app. split; [done|by constructor].
      - intros key index. destruct (decide (join signature = key)) as [<-|Hne].
        + rewrite lookup_insert_eq. split.
          * intros [= <-]. exists signature. by rewrite list_lookup_middle.
          * intros (signature' & Hl & Hjoin).
            apply lookup_app_Some in Hl as [Hl|[Hlen Hl]].
            -- assert (functionSignatureIndexMap scope !! join signature = Some index)
                 by (apply Hmemo; eauto).
               congruence.
            -- apply list_lookup_singleton_Some in Hl as [Hz _]. f_equal. lia.
        + rewrite lookup_insert_ne by done. rewrite Hmemo. split.
          * intros (signature' & Hl & Hjoin). exists signature'.
            split; [by apply lookup_app_l_Some|done].
          * intros (signature' & Hl & Hjoin). exists signature'. split; [|done].
            apply lookup_app_Some in Hl as [Hl|[Hlen Hl]]; [done|].
            apply list_lookup_singleton_Some in Hl as [_ <-]. done. }
    split_and!; [done| | |by apply Hnodup in Hmemo'|].
    + cbn. by rewrite list_lookup_middle.
    + cbn. by apply prefix_app_r.
    + intros Hin. apply list_elem_of_lookup in Hin as [index Hl]. by apply Hnew in Hl.
Qed.

Lemma functionSignatureIndex_memo_witness :
  memo empty /\
  Forall (fun text => comma_free text = true) ["void"; "i32"; "f64"] /\
  let (index, scope') := functionSignatureIndex empty ["i32"; "f64"] "void" in
  memo scope' /\
  functionSignatures scope' !! index = Some ["void"; "i32"; "f64"] /\
  functionSignatures empty `prefix_of` functionSignatures scope' /\
  NoDup (functionSignatures scope') /\
  (["void"; "i32"; "f64"] ∈ functionSignatures empty -> scope' = empty).
Proof.
  assert (Htexts : Forall (fun text => comma_free text = true) ["void"; "i32"; "f64"])
    by (repeat constructor).
  split; [exact memo_empty|]. split; [exact Htexts|].
  exact (functionSignatureIndex_memo empty ["i32"; "f64"] "void" memo_empty Htexts).
Defined.

End Memo.

(** ** Name resolution (parser.js) *)

(** [resolve] works on the tree of scopes that parsing has left: each
    scope has the definitions and the references that were placed in it
    and its sub-scopes.  The [names] of the global scope is an object
    without a prototype; the [names] of every other scope is made by
    [{...scope.names}], an ordinary object, in which the properties of
    [Object.prototype] of the host are found as well. *)
Module Resolution.

(** What [resolve] reads of a reference node: its ASType, the ASType of
    its parent and the text of its token. *)
Record Reference : Type :=
  { ASType_of : ASType; parent : ASType; text : string }.

(** What a lookup in [names] finds: a definition, or the property of
    [Object.prototype] with that name. *)
Inductive Referent : Type :=
| Defined (definition : Def.t)
| Inherited (key : string).

Inductive Datum : Type :=
| DReferent (referent : Referent)
| DDefinition (definition : Def.t)
| DReference (reference : Reference).

Inductive Exception : Type :=
| CompileError (type : string) (data : list (string * Datum)).

#[local] Unset Elimination Schemes.
Inductive Scope : Type :=
| Scope_ (definitions : list Def.t) (references : list Reference) (children : list Scope).

(** A scope after [resolve]: its [names], the [meta] of each of its
    references, and its sub-scopes. *)
Inductive Resolved : Type :=
| Resolved_ (names : gmap string Def.t) (metas : list (Reference * Referent))
    (children : list Resolved).
#[local] Set Elimination Schemes.

Definition definitions (scope : Scope) : list Def.t :=
  match scope with Scope_ definitions _ _ => definitions end.
Definition children (scope : Scope) : list Scope :=
  match scope with Scope_ _ _ children => children end.

Section Resolve.
(** The names of the properties of [Object.prototype]. *)
Variable prototype : string -> bool.

(** [scope.names[key]]; [None] is [undefined]. *)
Definition lookup (isGlobal : bool) (names : gmap string Def.t) (key : string)
  : option Referent :=
  match names !! key with
  | Some definition => Some (Defined definition)
  | None => if negb isGlobal && prototype key then Some (Inherited key) else None
  end.

(** [reference.meta.ASType] *)
Definition refType (referent : Referent) : option ASType :=
  match referent with
  | Defined definition => Some (Def.ASType definition)
  | Inherited _ => None
  end.

(** [enforceReferenceSemantics (reference)] *)
Definition enforceReferenceSemantics (reference : Reference) (meta : Referent)
  : option Exception :=
  let refType := refType meta in
  let bad type := Some (CompileError type [("node", DReference reference)]) in
  if bool_decide (parent reference = EXPORT) || bool_decide (parent reference = AS) then None
  else if bool_decide (ASType_of reference = VARIABLE) &&
          (bool_decide (refType = Some FN) || bool_decide (refType = Some FN_SIGNATURE))
  then bad "Bad Reference: Not a Variable"
  else if bool_decide (ASType_of reference = CALL) &&
          bool_decide (refType <> Some FN) && bool_decide (refType <> Some FN_SIGNATURE) &&
          bool_decide (refType <> Some FN_PTR)
  then bad "Bad Reference: Not a Function"
  else if bool_decide (ASType_of reference = MEMORY_ACCESS) &&
          bool_decide (refType <> Some PTR)
  then bad "Bad Reference: Not a Pointer"
  else None.

(** The loop over [scope.definitions]. *)
Fixpoint resolve_definitions (isGlobal : bool) (names : gmap string Def.t)
  (definitions : list Def.t) : Exception + gmap string Def.t :=
  match definitions with
  | [] => inr names
  | definition :: definitions =>
      match lookup isGlobal names (Def.name definition) with
      | None =>
          resolve_definitions isGlobal (<[Def.name definition := definition]> names)
            definitions
      | Some first =>
          inl (CompileError "Duplicate Definition"
                 [("first", DReferent first); ("second", DDefinition definition)])
      end
  end.

(** The loop over [scope.references]. *)
Fixpoint resolve_references (isGlobal : bool) (names : gmap string Def.t)
  (references : list Reference) : Exception + list (Reference * Referent) :=
  match references with
  | [] => inr []
  | reference :: references =>
      match lookup isGlobal names (text reference) with
      | None => inl (CompileError "Unresolvable Reference" [("node", DReference reference)])
      | Some meta =>
          match enforceReferenceSemantics reference meta with
          | Some e => inl e
          | None =>
              match resolve_references isGlobal names references with
              | inl e => inl e
              | inr metas => inr ((reference, meta) :: metas)
              end
          end
      end
  end.

(** The loop over [scope.children], for a given way to resolve a child
    whose [names] is the copy of the names of the scope. *)
Fixpoint resolve_children (resolve_child : Scope -> Exception + Resolved)
  (children : list Scope) : Exception + list Resolved :=
  match children with
  | [] => inr []
  | child :: children =>
      match resolve_child child with
      | inl e => inl e
      | inr child' =>
          match resolve_children resolve_child children with
          | inl e => inl e
          | inr children' => inr (child' :: children')
          end
      end
  end.

(** [resolve (scope)], with [scope.names] as it is when the call is made. *)
Fixpoint resolve (isGlobal : bool) (names : gmap string Def.t) (scope : Scope)
  : Exception + Resolved :=
  match scope with
  | Scope_ definitions references children =>
      match resolve_definitions isGlobal names definitions with
      | inl e => inl e
      | inr names =>
          match resolve_references isGlobal names references with
          | inl e => inl e
          | inr metas =>
              match resolve_children (resolve false names) children with
              | inl e => inl e
              | inr children' => inr (Resolved_ names metas children')
              end
          end
      end
  end.

End Resolve.

(** The names that are defined in a scope and the scopes around it, for
    every scope of a tree, the outermost first. *)
Fixpoint chains (outer : list string) (scope : Scope) : list (list string) :=
  match scope with
  | Scope_ definitions _ children =>
      let here := outer ++ (Def.name <$> definitions) in
      here :: flat_map (chains here) children
  end.

(** The [meta] of every reference of a resolved tree. *)
Fixpoint resolutions (resolved : Resolved) : list (Reference * Referent) :=
  match resolved with
  | Resolved_ _ metas children => metas ++ flat_map resolutions children
  end.

End Resolution.

Section Resolving.
Import Resolution.
Variable prototype : string -> bool.

Section Induction.
Variable P : Scope -> Prop.
Hypothesis HScope : forall definitions references children,
  Forall P children -> P (Scope_ definitions references children).

Fixpoint Scope_induction (scope : Scope) : P scope :=
  match scope with
  | Scope_ definitions references children =>
      HScope definitions references children
        ((fix each (children : list Scope) : Forall P children :=
            match children with
            | [] => Forall_nil_2 P
            | child :: children =>
                Forall_cons_2 P child children (Scope_induction child) (each children)
            end) children)
  end.
End Induction.

(** The keys of [names] are the names in [outer], and each definition is
    under its own name. *)
Definition names_of (names : gmap string Def.t) (outer : list string) : Prop :=
  (forall key, is_Some (names !! key) <-> key ∈ outer) /\
  (forall key definition, names !! key = Some definition -> Def.name definition = key).

Lemma resolve_definitions_names isGlobal definitions : forall names outer names',
  names_of names outer -> NoDup outer ->
  resolve_definitions prototype isGlobal names definitions = inr names' ->
  names_of names' (outer ++ (Def.name <$> definitions)) /\
  NoDup (outer ++ (Def.name <$> definitions)) /\
  (isGlobal = false ->
   Forall (fun definition => prototype (Def.name definition) = false) definitions).
Proof.
  induction definitions as [|definition definitions IH]; intros names outer names' Hn Hnd Hr;
    cbn [resolve_definitions] in Hr.
  - injection Hr as <-. cbn. rewrite app_nil_r. by split_and!.
  - unfold lookup in Hr.
    destruct (names !! Def.name definition) as [first|] eqn:Hl; [done|].
    destruct (negb isGlobal && prototype (Def.name definition)) eqn:Hp; [done|].
    destruct Hn as [Hkeys Hnamed].
    assert (Hfresh : Def.name definition ∉ outer).
    { intros Hin. apply Hkeys in Hin as [? ?]. congruence. }
    apply IH with (outer := outer ++ [Def.name definition]) in Hr.
    + rewrite <- app_assoc in Hr. cbn [app fmap list_fmap] in *.
      destruct Hr as (Hr1 & Hr2 & Hr3). split_and!; [done|done|].
      intros ->. constructor; [by destruct (prototype _)|by apply Hr3].
    + split.
      * intros key. rewrite elem_of_app, list_elem_of_singleton, <- Hkeys.
        destruct (decide (Def.name definition = key)) as [<-|Hne].
        -- rewrite lookup_insert_eq. split; [by right|by eexists].
        -- rewrite lookup_insert_ne by done. split; [by left|]. by intros [?|?].
      * intros key definition'. destruct (decide (Def.name definition = key)) as [<-|Hne].
        -- rewrite lookup_insert_eq. by intros [= <-].
        -- rewrite lookup_insert_ne by done. apply Hnamed.
    + apply NoDup_app. split_and!; [done| |apply NoDup_singleton].
      intros key Hin ->%list_elem_of_singleton. done.
Qed.

Lemma resolve_references_named isGlobal names references : forall metas,
  (forall key definition, names !! key = Some definition -> Def.name definition = key) ->
  resolve_references prototype isGlobal names references = inr metas ->
  Forall (fun resolution =>
            match resolution.2 with
            | Defined definition => Def.name definition = text resolution.1
            | Inherited key => key = text resolution.1 /\ prototype key = true
            end) metas.
Proof.
  intros metas Hnamed. revert metas.
  induction references as [|reference references IH]; intros metas Hr;
    cbn [resolve_references] in Hr.
  - injection Hr as <-. constructor.
  - destruct (lookup _ _ _ _) as [meta|] eqn:Hl; [|done].
    destruct (enforceReferenceSemantics _ _); [done|].
    destruct (resolve_references _ _ _ _) as [|metas'] eqn:Hrest; [done|].
    injection Hr as <-. constructor; [|by apply IH].
    unfold lookup in Hl. cbn. destruct (names !! text reference) eqn:Hn.
    + injection Hl as <-. by apply Hnamed.
    + destruct (negb isGlobal && prototype (text reference)) eqn:Hp; [|done].
      injection Hl as <-. by apply andb_prop in Hp as [_ Hp].
Qed.

Definition resolution_ok (resolution : Reference * Referent) : Prop :=
  match resolution.2 with
  | Defined definition => Def.name definition = text resolution.1
  | Inherited key => key = text resolution.1 /\ prototype key = true
  end.

Lemma resolve_ok scope : forall isGlobal names outer resolved,
  names_of names outer -> NoDup outer ->
  resolve prototype isGlobal names scope = inr resolved ->
  Forall (fun names => NoDup names) (chains outer scope) /\
  Forall resolution_ok (resolutions resolved).
Proof.
  induction scope as [definitions references children IH] using Scope_induction.
  intros isGlobal names outer resolved Hn Hnd Hr. cbn [resolve] in Hr.
  destruct (resolve_definitions _ _ _ _) as [|names'] eqn:Hdefs; [done|].
  destruct (resolve_definitions_names _ _ _ _ _ Hn Hnd Hdefs) as (Hn' & Hnd' & _).
  destruct (resolve_references _ _ _ _) as [|metas] eqn:Hrefs; [done|].
  pose proof (resolve_references_named _ _ _ _ (proj2 Hn') Hrefs) as Hmetas.
  set (here := outer ++ (Def.name <$> definitions)) in *.
  destruct (resolve_children _ _) as [|children'] eqn:Hchildren; [done|].
  injection Hr as <-. cbn [chains resolutions]. fold here.
  assert (Hall : Forall (fun names => NoDup names) (flat_map (chains here) children) /\
                 Forall resolution_ok (flat_map resolutions children')).
  { clear Hrefs Hmetas Hdefs. revert children' Hchildren.
    induction IH as [|child children Hchild _ IHchildren]; intros children' Hchildren;
      cbn [resolve_children] in Hchildren.
    - injection Hchildren as <-. by split.
    - destruct (resolve prototype false names' child) as [|child'] eqn:Hc; [done|].
      destruct (resolve_children _ children) as [|rest'] eqn:Hrest; [done|].
      injection Hchildren as <-.
      destruct (Hchild _ _ _ _ Hn' Hnd' Hc) as [H1 H2].
      destruct (IHchildren _ eq_refl) as [H3 H4].
      cbn [flat_map]. rewrite !Forall_app. done. }
  destruct Hall as [Hchains Hres]. split.
  - by constructor.
  - apply Forall_app. done.
Qed.

(** X12.  [resolve] lets no definition shadow another: when it accepts a tree of
    scopes, the names that are defined in a scope and in the scopes around
    it are all different.  And every reference gets as its [meta] a
    definition with the name of its token, or else the property of
    [Object.prototype] with that name. *)
Theorem resolve_distinct_names (scope : Scope) (resolved : Resolved) :
  resolve prototype true ∅ scope = inr resolved ->
  Forall (fun names => NoDup names) (chains [] scope) /\
  Forall (fun resolution =>
            match resolution.2 with
            | Defined definition => Def.name definition = text resolution.1
            | Inherited key => key = text resolution.1 /\ prototype key = true
            end) (resolutions resolved).
Proof.
  intros Hr. apply (resolve_ok scope true ∅ [] resolved); [|constructor|done].
  split.
  - intros key. rewrite lookup_empty. split; [by intros [? ?]|by intros ?%elem_of_nil].
  - intros key definition. by rewrite lookup_empty.
Qed.

(** X13.  In a scope that is not the global one, a definition with the name of
    a property of [Object.prototype] is never accepted: the lookup in the
    [names] of the scope finds the inherited property. *)
Theorem resolve_inherited_name (names : gmap string Def.t) (scope : Scope)
  (definition : Def.t) :
  definition ∈ definitions scope ->
  prototype (Def.name definition) = true ->
  exists type data, resolve prototype false names scope = inl (CompileError type data).
Proof.
  destruct scope as [definitions references children]. cbn [Resolution.definitions].
  intros Hin Hp. cbn [resolve].
  destruct (resolve_definitions prototype false names definitions) as [[type data]|names'] eqn:Hd;
    [by eauto|].
  exfalso. clear references children.
  revert names Hd. induction Hin as [definition definitions|definition other definitions Hin IH];
    intros names Hd; cbn [resolve_definitions] in Hd; unfold lookup in Hd.
  - destruct (names !! Def.name definition); [discriminate Hd|].
    rewrite Hp in Hd. discriminate Hd.
  - destruct (names !! Def.name other); [discriminate Hd|].
    destruct (prototype (Def.name other)); [discriminate Hd|].
    cbn [negb andb] in Hd. by eapply IH.
Qed.

End Resolving.

(** A sample: the global scope defines [main], and the scope of its body
    a pointer [p]; the body refers to both. *)
Module ResolutionSamples.
Import Resolution.

(** The names of the properties of [Object.prototype] in ECMAScript. *)
Definition Object_prototype (key : string) : bool :=
  bool_decide (key ∈ ["constructor"; "hasOwnProperty"; "isPrototypeOf";
                      "propertyIsEnumerable"; "toLocaleString"; "toString"; "valueOf";
                      "__defineGetter__"; "__defineSetter__"; "__lookupGetter__";
                      "__lookupSetter__"; "__proto__"]).

Definition body : Scope :=
  Scope_ [Samples.pointer]
    [ {| ASType_of := MEMORY_ACCESS; parent := BLOCK; text := "p" |};
      {| ASType_of := CALL; parent := BLOCK; text := "main" |} ] [].

Definition global : Scope := Scope_ [Samples.main] [] [body].

Definition resolved : Resolved :=
  Eval vm_compute in
    match resolve Object_prototype true ∅ global with
    | inr resolved => resolved
    | inl _ => Resolved_ ∅ [] []
    end.

(** [constructor: i32] *)
Definition constructor : Def.t :=
  {| Def.ASType := VALUE_TYPE; Def.exportName := None; Def.isGlobal := false;
     Def.importSource := None; Def.index := 0; Def.kind := "global";
     Def.mutable := true; Def.name := "constructor"; Def.runType := i32;
     Def.paramTypes := []; Def.returnType := void; Def.signatureIndex := 0;
     Def.extendedType := false; Def.storageSigned := None;
     Def.storageBits := None; Def.storageSize := 0; Def.storageType := EmptyString |}.

End ResolutionSamples.

Lemma resolve_distinct_names_witness :
  Resolution.resolve ResolutionSamples.Object_prototype true ∅ ResolutionSamples.global =
    inr ResolutionSamples.resolved /\
  Forall (fun names => NoDup names) (Resolution.chains [] ResolutionSamples.global) /\
  Forall (fun resolution =>
            match resolution.2 with
            | Resolution.Defined definition =>
                Def.name definition = Resolution.text resolution.1
            | Resolution.Inherited key =>
                key = Resolution.text resolution.1 /\
                ResolutionSamples.Object_prototype key = true
            end) (Resolution.resolutions ResolutionSamples.resolved).
Proof.
  assert (Hr : Resolution.resolve ResolutionSamples.Object_prototype true ∅
                 ResolutionSamples.global = inr ResolutionSamples.resolved)
    by (vm_compute; reflexivity).
  split; [exact Hr|].
  exact (resolve_distinct_names ResolutionSamples.Object_prototype
           ResolutionSamples.global ResolutionSamples.resolved Hr).
Defined.

Lemma resolve_inherited_name_witness :
  ResolutionSamples.constructor ∈
    Resolution.definitions (Resolution.Scope_ [ResolutionSamples.constructor] [] []) /\
  ResolutionSamples.Object_prototype (Def.name ResolutionSamples.constructor) = true /\
  exists type data,
    Resolution.resolve ResolutionSamples.Object_prototype false ∅
      (Resolution.Scope_ [ResolutionSamples.constructor] [] []) =
    inl (Resolution.CompileError type data).
Proof.
  assert (Hin : ResolutionSamples.constructor ∈
                Resolution.definitions (Resolution.Scope_ [ResolutionSamples.constructor] [] []))
    by (apply list_elem_of_singleton; reflexivity).
  assert (Hp : ResolutionSamples.Object_prototype (Def.name ResolutionSamples.constructor) = true)
    by (vm_compute; reflexivity).
  split; [exact Hin|]. split; [exact Hp|].
  exact (resolve_inherited_name ResolutionSamples.Object_prototype ∅
           (Resolution.Scope_ [ResolutionSamples.constructor] [] [])
           ResolutionSamples.constructor Hin Hp).
Defined.

(** ** Semantic validation (validation.js) *)

Section Validated.
Import AST Monad Monad.Notations Parser Validation OperatorTable Walks.

(** *** Validation keeps the tree *)

(** The tree without the fields that validation fills in. *)
#[local] Notation "'erase'" := (AST.map (fun _ : Ann => tt)) (only parsing).

Lemma erase_update f node : erase (update f node) = erase node.
Proof. by destruct node. Qed.

Lemma erase_created (node : Node unit) : erase (AST.map (fun _ => created) node) = node.
Proof.
  induction node using Node_induction; cbn [AST.map];
    repeat match goal with a : unit |- _ => destruct a end;
    rewrite ?IHnode, ?IHnode1, ?IHnode2, ?IHnode3; try reflexivity.
  - f_equal. induction H as [|child children Hchild _ IH]; cbn; [done|]. by rewrite Hchild, IH.
  - f_equal. induction H as [|child children Hchild _ IH]; cbn; [done|]. by rewrite Hchild, IH.
  - f_equal. induction H as [|child children Hchild _ IH]; cbn; [done|]. by rewrite Hchild, IH.
  - f_equal. destruct offsetProvided as [offset|]; cbn; [|done]. by rewrite (H offset eq_refl).
  - f_equal. destruct child as [child|]; cbn; [|done]. by rewrite (H child eq_refl).
Qed.

Section Shape.
Variable validate_child : Node unit -> bool -> M FnScope Out.

Lemma validate_children_shape children :
  Forall (fun child => forall vr s o s',
            validate_child child vr s = Normal o s' -> erase (out o) = child) children ->
  forall vr s children' lastEscapes lastChildType ys rs s',
    validate_children validate_child children vr s =
      Normal (children', lastEscapes, lastChildType, ys, rs) s' ->
    List.map erase children' = children.
Proof.
  induction 1 as [|child children Hchild _ IH]; intros vr s cs e t ys rs s' Hv;
    cbn [validate_children] in Hv.
  - normal Hv. by simplify_eq.
  - destruct children as [|next rest].
    + normal Hv; simplify_eq; apply Hchild in Hv0; cbn [List.map].
      destruct vr; [|destruct (decide _)]; rewrite ?erase_update; congruence.
    + normal Hv; simplify_eq; apply Hchild in Hv0; apply IH in Hv1; cbn [List.map].
      destruct (decide _); rewrite ?erase_update; congruence.
Qed.

Lemma validate_args_shape node paramTypes args :
  Forall (fun child => forall vr s o s',
            validate_child child vr s = Normal o s' -> erase (out o) = child) args ->
  forall i s args' ys rs s',
    validate_args validate_child node paramTypes i args s = Normal (args', ys, rs) s' ->
    List.map erase args' = args.
Proof.
  induction 1 as [|arg args Harg _ IH]; intros i s args' ys rs s' Hv;
    cbn [validate_args] in Hv.
  - normal Hv. by simplify_eq.
  - normal Hv. simplify_eq. apply Harg in Hv0. apply IH in Hv1.
    cbn [List.map]. congruence.
Qed.
End Shape.

(** Close a goal about the erased outcome from the facts about the
    children. *)
Ltac shape :=
  cbn [out AST.map option_map];
  repeat match goal with a : unit |- _ => destruct a end;
  rewrite ?erase_created, ?erase_update;
  repeat match goal with H : AST.map _ _ = _ |- _ => rewrite H; clear H end;
  try reflexivity.

Lemma validate_erase node : forall ctx valueRequired s o s',
  validate ctx node valueRequired s = Normal o s' -> erase (out o) = node.
Proof.
  induction node using Node_induction; intros ctx vr s o s' Hv; cbn [validate] in Hv.
  all: try (normal Hv; use_hypotheses; simplify_eq; shape; fail).
  - (* Block *)
    assert (Hall : Forall (fun child => forall vr s o s',
                     validate (within BLOCK ctx) child vr s = Normal o s' ->
                     erase (out o) = child) children)
      by (eapply Forall_impl; [exact H|]; intros ? IH ? ? ? ? ?; by apply IH in H0).
    destruct children as [|child children]; normal Hv; [shape|].
    eapply validate_children_shape in Hv0; [|exact Hall]. shape. by rewrite Hv0.
  - (* Paren *)
    assert (Hall : Forall (fun child => forall vr s o s',
                     validate (within PAREN ctx) child vr s = Normal o s' ->
                     erase (out o) = child) children)
      by (eapply Forall_impl; [exact H|]; intros ? IH ? ? ? ? ?; by apply IH in H0).
    destruct children as [|child children]; normal Hv; [shape|].
    eapply validate_children_shape in Hv0; [|exact Hall]. shape. by rewrite Hv0.
  - (* Call *)
    assert (Hall : Forall (fun child => forall vr s o s',
                     validate (within ARG_LIST ctx) child vr s = Normal o s' ->
                     erase (out o) = child) args)
      by (eapply Forall_impl; [exact H|]; intros ? IH ? ? ? ? ?; by apply IH in H0).
    normal Hv. eapply validate_args_shape in Hv0; [|exact Hall]. shape. by rewrite Hv0.
  - (* MemoryAccess *)
    destruct offsetProvided as [offset|]; [pose proof (H offset eq_refl) as IHoffset|];
      clear H; normal Hv; use_hypotheses; simplify_eq; shape.
  - (* Return *)
    destruct child as [child|]; [pose proof (H child eq_refl) as IHchild|];
      clear H; normal Hv; use_hypotheses; simplify_eq; shape.
Qed.

(** X14.  Validation fills in fields and changes nothing else: without them,
    the tree that comes out is the tree that went in. *)
Theorem validate_keeps_tree (ctx : Context) (node : Node unit) (valueRequired : bool)
  (fnScope : FnScope) :
  match validate ctx node valueRequired fnScope with
  | Normal o _ => AST.map (fun _ => tt) (out o) = node
  | Throw _ => True
  end.
Proof.
  destruct (validate ctx node valueRequired fnScope) as [o fnScope'|e] eqn:Hv; [|done].
  by eapply validate_erase.
Qed.

(** *** Validation and the scope of the function *)

(** A temporary of [anonymousLocalVariable]: a local with the name
    [tmp-] and its run type. *)
Definition is_temporary (definition : Def.t) : Prop :=
  Def.name definition = "tmp-" +:+ RunType_text (Def.runType definition) /\
  Def.isGlobal definition = false.

(** [fnScope'] is [fnScope] with temporaries behind its variables and
    under their names. *)
Definition grows (fnScope fnScope' : FnScope) : Prop :=
  names fnScope ⊆ names fnScope' /\
  exists temporaries,
    variables fnScope' = variables fnScope ++ temporaries /\
    Forall is_temporary temporaries.

Lemma grows_refl fnScope : grows fnScope fnScope.
Proof. split; [done|]. exists []. by rewrite app_nil_r. Qed.

Lemma grows_trans fnScope1 fnScope2 fnScope3 :
  grows fnScope1 fnScope2 -> grows fnScope2 fnScope3 -> grows fnScope1 fnScope3.
Proof.
  intros [Hn1 (t1 & Hv1 & Ht1)] [Hn2 (t2 & Hv2 & Ht2)]. split; [by etrans|].
  exists (t1 ++ t2). rewrite Hv2, Hv1, app_assoc. split; [done|by apply Forall_app].
Qed.

Lemma anonymousLocalVariable_grows runType fnScope definition fnScope' :
  anonymousLocalVariable runType fnScope = Normal definition fnScope' ->
  grows fnScope fnScope'.
Proof.
  unfold anonymousLocalVariable.
  destruct (names fnScope !! _) eqn:Hl; intros [= <- <-]; [apply grows_refl|].
  split; cbn.
  - by apply insert_subseteq.
  - eexists [_]. split; [done|]. by repeat constructor.
Qed.

Lemma validate_spec_grows ctx node spec fnScope u fnScope' :
  validate_spec ctx node spec fnScope = Normal u fnScope' -> grows fnScope fnScope'.
Proof.
  unfold validate_spec. intros H.
  destruct spec; try (injection H as _ <-; apply grows_refl);
    destruct (decide _); try discriminate H; injection H as _ <-; apply grows_refl.
Qed.

(** Close a goal [grows s s'] along the chain of the states in between. *)
Ltac grow :=
  repeat match goal with
    | H : anonymousLocalVariable _ _ = Normal _ _ |- _ =>
        apply anonymousLocalVariable_grows in H
    | H : validate_spec _ _ _ _ = Normal _ _ |- _ =>
        apply validate_spec_grows in H
    end;
  repeat first [ eassumption | apply grows_refl | eapply grows_trans; [eassumption|] ].

Section Growth.
Variable validate_child : Node unit -> bool -> M FnScope Out.

Lemma validate_children_grows children :
  Forall (fun child => forall vr s o s',
            validate_child child vr s = Normal o s' -> grows s s') children ->
  forall vr s result s',
    validate_children validate_child children vr s = Normal result s' -> grows s s'.
Proof.
  induction 1 as [|child children Hchild _ IH]; intros vr s result s' Hv;
    cbn [validate_children] in Hv.
  - normal Hv. apply grows_refl.
  - destruct children as [|next rest].
    + normal Hv. apply Hchild in Hv0. grow.
    + normal Hv. apply Hchild in Hv0. apply IH in Hv1. grow.
Qed.

Lemma validate_args_grows node paramTypes args :
  Forall (fun child => forall vr s o s',
            validate_child child vr s = Normal o s' -> grows s s') args ->
  forall i s result s',
    validate_args validate_child node paramTypes i args s = Normal result s' -> grows s s'.
Proof.
  induction 1 as [|arg args Harg _ IH]; intros i s result s' Hv;
    cbn [validate_args] in Hv.
  - normal Hv. apply grows_refl.
  - normal Hv. apply Harg in Hv0. apply IH in Hv1. grow.
Qed.
End Growth.

Lemma validate_grows_each node : forall ctx valueRequired s o s',
  validate ctx node valueRequired s = Normal o s' -> grows s s'.
Proof.
  induction node using Node_induction; intros ctx vr s o s' Hv; cbn [validate] in Hv.
  all: try (normal Hv; use_hypotheses; grow; fail).
  - (* Block *)
    assert (Hall : Forall (fun child => forall vr s o s',
                     validate (within BLOCK ctx) child vr s = Normal o s' -> grows s s')
                     children)
      by (eapply Forall_impl; [exact H|]; intros ? IH ? ? ? ? ?; by apply IH in H0).
    destruct children as [|child children]; normal Hv; [grow|].
    eapply validate_children_grows in Hv0; [|exact Hall]. grow.
  - (* Paren *)
    assert (Hall : Forall (fun child => forall vr s o s',
                     validate (within PAREN ctx) child vr s = Normal o s' -> grows s s')
                     children)
      by (eapply Forall_impl; [exact H|]; intros ? IH ? ? ? ? ?; by apply IH in H0).
    destruct children as [|child children]; normal Hv; [grow|].
    eapply validate_children_grows in Hv0; [|exact Hall]. grow.
  - (* Call *)
    assert (Hall : Forall (fun child => forall vr s o s',
                     validate (within ARG_LIST ctx) child vr s = Normal o s' -> grows s s')
                     args)
      by (eapply Forall_impl; [exact H|]; intros ? IH ? ? ? ? ?; by apply IH in H0).
    normal Hv. eapply validate_args_grows in Hv0; [|exact Hall]. grow.
  - (* MemoryAccess *)
    destruct offsetProvided as [offset|]; [pose proof (H offset eq_refl) as IHoffset|];
      clear H; normal Hv; use_hypotheses; grow.
  - (* Return *)
    destruct child as [child|]; [pose proof (H child eq_refl) as IHchild|];
      clear H; normal Hv; use_hypotheses; grow.
Qed.

(** X15.  Validation leaves the scope of the function as it is but for the
    temporaries it needs: the names that were there keep their
    definitions, the variables keep their places, and what is added behind
    them are locals named [tmp-] and their run type. *)
Theorem validate_grows (ctx : Context) (node : Node unit) (valueRequired : bool)
  (fnScope : FnScope) :
  match validate ctx node valueRequired fnScope with
  | Normal _ fnScope' =>
      names fnScope ⊆ names fnScope' /\
      exists temporaries,
        variables fnScope' = variables fnScope ++ temporaries /\
        Forall (fun definition =>
                  Def.name definition = "tmp-" +:+ RunType_text (Def.runType definition) /\
                  Def.isGlobal definition = false) temporaries
  | Throw _ => True
  end.
Proof.
  destruct (validate ctx node valueRequired fnScope) as [o fnScope'|e] eqn:Hv; [|done].
  by eapply validate_grows_each.
Qed.

(** X16.  A second temporary of the same run type is the first one: the scope
    gets one temporary for each run type at most. *)
Theorem anonymousLocalVariable_again (runType : RunType) (fnScope : FnScope) :
  exists definition fnScope',
    anonymousLocalVariable runType fnScope = Normal definition fnScope' /\
    anonymousLocalVariable runType fnScope' = Normal definition fnScope' /\
    names fnScope' !! ("tmp-" +:+ RunType_text runType) = Some definition.
Proof.
  unfold anonymousLocalVariable.
  destruct (names fnScope !! _) as [definition|] eqn:Hl.
  - exists definition, fnScope. by rewrite Hl.
  - eexists _, _. split; [done|]. cbn. by rewrite lookup_insert_eq.
Qed.

End Validated.

(** *** Validated trees are well typed *)

Section Typing.
Import AST Monad Monad.Notations Parser Validation OperatorTable Walks.

#[local] Instance OpInfo_eq_dec : EqDecision OpInfo.
Proof. solve_decision. Defined.

(** In a sequence of statements, none but the last always escapes, and
    each of them that leaves a value is marked to drop it. *)
Fixpoint statements (children : list (Node Ann)) : bool :=
  match children with
  | [] => true
  | child :: rest =>
      match rest with
      | [] => true
      | _ =>
          negb (alwaysEscapes (ann child)) &&
          (bool_decide (runType (ann child) = void) || dropValue (ann child)) &&
          statements rest
      end
  end.

(** [lastChild.alwaysEscapes] *)
Definition last_escapes (children : list (Node Ann)) : bool :=
  match last children with
  | Some child => alwaysEscapes (ann child)
  | None => false
  end.

(** [value > (negative ? 2147483648 : 4294967295)]: under a minus sign an
    [i32] literal is at most 2^31. *)
Definition negated (child : Node Ann) : bool :=
  match child with
  | Literal a I32_LITERAL _ =>
      match meta a with LiteralMeta (Int z) _ => z <=? 2147483648 | _ => true end
  | _ => true
  end.

(** What validation has checked of a tree, in terms of the fields it has
    set: the run types of operands fit their operators, the arguments of a
    call fit its parameters, both sides of an assignment have one run
    type, conditions have values (a run type other than [void], which the
    emitter compares with zero where it is not [i32]), the address of a
    memory access is an [i32], an integer literal that is a number is in
    range, returns have the return type of the function, and no code
    stands behind an expression that always escapes.  A literal whose
    text has no leading digit is [NaN], which the comparisons of the
    [i32] case let through. *)
Fixpoint typed (returnType : RunType) (node : Node Ann) : bool :=
  let rt (node : Node Ann) := runType (ann node) in
  let esc (node : Node Ann) := alwaysEscapes (ann node) in
  match node with
  | Binary a _ text lhs rhs =>
      typed returnType lhs && typed returnType rhs &&
      negb (esc lhs) && negb (esc rhs) &&
      match meta a with
      | OpMeta opInfo =>
          bool_decide (entry text (operands_key (rt lhs) (rt rhs)) = Some opInfo) &&
          bool_decide (runType a = OperatorTable.returnType opInfo)
      | _ => false
      end
  | UnaryMathOp a text child =>
      typed returnType child && negb (esc child) &&
      match meta a with
      | OpMeta opInfo =>
          bool_decide (entry text (RunType_text (rt child)) = Some opInfo) &&
          bool_decide (runType a = OperatorTable.returnType opInfo)
      | _ => false
      end
  | AllocatePages a child =>
      typed returnType child && negb (esc child) &&
      match meta a with
      | OpMeta opInfo =>
          bool_decide (entry "allocate_pages" (RunType_text (rt child)) = Some opInfo) &&
          bool_decide (runType a = OperatorTable.returnType opInfo)
      | _ => false
      end
  | And a lhs rhs =>
      typed returnType lhs && typed returnType rhs && negb (esc lhs) &&
      bool_decide (rt lhs = runType a) && bool_decide (rt rhs = runType a) &&
      bool_decide (runType a <> void)
  | Or a lhs rhs =>
      typed returnType lhs && typed returnType rhs && negb (esc lhs) &&
      bool_decide (rt lhs = runType a) && bool_decide (rt rhs = runType a) &&
      bool_decide (runType a <> void) &&
      match meta a with TempMeta _ => true | _ => false end
  | Assign a lhs rhs =>
      typed returnType rhs && negb (esc rhs) && bool_decide (rt rhs = runType a) &&
      match lhs with
      | MemoryAccess _ pointer _ _ =>
          typed returnType lhs && bool_decide (Def.returnType pointer = runType a)
      | _ =>
          match resolved lhs with
          | Some definition => bool_decide (Def.runType definition = runType a)
          | None => false
          end
      end
  | Block a children | Paren a children =>
      forallb (typed returnType) children && statements children &&
      bool_decide (alwaysEscapes a = last_escapes children)
  | Break a => alwaysEscapes a && bool_decide (runType a = void)
  | Yield a child =>
      typed returnType child && negb (esc child) && alwaysEscapes a &&
      bool_decide (runType a = rt child)
  | Call a fn args =>
      forallb (typed returnType) args &&
      forallb (fun arg => negb (esc arg)) args &&
      bool_decide (rt <$> args = Def.paramTypes fn) &&
      bool_decide (runType a = Def.returnType fn)
  | Continue a => alwaysEscapes a
  | Definition_ a definition _ | Variable_ a definition =>
      bool_decide (runType a = Def.runType definition)
  | Else a condition ifBody elseBody =>
      typed returnType condition && typed returnType ifBody && typed returnType elseBody &&
      negb (esc condition) && bool_decide (rt condition <> void) &&
      (if esc ifBody then
         if esc elseBody then alwaysEscapes a && bool_decide (runType a = rt ifBody)
         else negb (alwaysEscapes a) && bool_decide (runType a = rt elseBody)
       else
         negb (alwaysEscapes a) && bool_decide (rt ifBody = rt elseBody) &&
         bool_decide (runType a = rt ifBody))
  | Literal a type _ =>
      match type, meta a with
      | F32_LITERAL, LiteralMeta _ runType' =>
          bool_decide (runType a = f32) && bool_decide (runType' = f32)
      | F64_LITERAL, LiteralMeta _ runType' =>
          bool_decide (runType a = f64) && bool_decide (runType' = f64)
      | I32_LITERAL, LiteralMeta value runType' =>
          bool_decide (runType a = i32) && bool_decide (runType' = i32) &&
          match value with Int z => z <=? 4294967295 | NaN => true | Float _ _ => false end
      | I64_LITERAL, LiteralMeta value runType' =>
          bool_decide (runType a = i64) && bool_decide (runType' = i64) &&
          match value with
          | Int z => (- (2 ^ 53 - 1) <=? z) && (z <=? 2 ^ 53 - 1)
          | _ => false
          end
      | (F32_LITERAL | F64_LITERAL | I32_LITERAL | I64_LITERAL), _ => false
      | _, _ => true
      end
  | If a condition body =>
      typed returnType condition && typed returnType body &&
      negb (esc condition) && bool_decide (rt condition <> void) &&
      negb (alwaysEscapes a) && bool_decide (runType a = void)
  | Loop a body =>
      typed returnType body &&
      match meta a with
      | LoopMeta [] returnPoints _ =>
          alwaysEscapes a && bool_decide (runType a = returnType) &&
          bool_decide (returnPoints <> [])
      | LoopMeta yieldPoints _ _ =>
          negb (alwaysEscapes a) &&
          forallb (fun p => bool_decide (point_runType p = runType a)) yieldPoints
      | _ => false
      end
  | MemoryAccess a pointer address offsetProvided =>
      typed returnType address && negb (esc address) && bool_decide (rt address = i32) &&
      bool_decide (runType a = Def.returnType pointer) &&
      match offsetProvided with Some offset => typed returnType offset | None => true end
  | Neg a child =>
      typed returnType child && bool_decide (runType a = rt child) && negated child
  | PagesAllocated a => bool_decide (runType a = i32)
  | Return a child =>
      alwaysEscapes a && bool_decide (runType a = returnType) &&
      match child with
      | Some child =>
          typed returnType child && negb (esc child) && bool_decide (rt child = returnType)
      | None => true
      end
  | SuffixOp a _ child => typed returnType child && bool_decide (runType a = rt child)
  end.

Lemma typed_update returnType node :
  typed returnType (update set_dropValue node) = typed returnType node.
Proof. by destruct node. Qed.

Lemma escapes_update node :
  alwaysEscapes (ann (update set_dropValue node)) = alwaysEscapes (ann node).
Proof. by destruct node. Qed.

Lemma dropValue_update node : dropValue (ann (update set_dropValue node)) = true.
Proof. by destruct node. Qed.

(** Split a goal of [typed] into its conjuncts and close what follows
    from the hypotheses. *)
Ltac conjuncts :=
  repeat match goal with
    | |- _ && _ = true => apply andb_true_intro; split
    | |- negb _ = true => apply negb_true_iff
    | |- bool_decide _ = true => apply bool_decide_eq_true
    | |- (_ <=? _) = true => apply Z.leb_le
    end.

Lemma entry_lookup text key row opInfo :
  operatorTable !! text = Some row -> row !! key = Some opInfo ->
  entry text key = Some opInfo.
Proof. unfold entry. intros -> Hrow. exact Hrow. Qed.

Ltac typecheck :=
  unfold escapes, runType_of in *;
  cbn [typed out ann annotation runType alwaysEscapes meta dropValue] in *;
  repeat match goal with
    | H : _ && _ = true |- _ => apply andb_prop in H as [? ?]
    | H : negb _ = true |- _ => apply negb_true_iff in H
    | H : bool_decide _ = true |- _ => apply bool_decide_eq_true in H
    end;
  repeat match goal with H : alwaysEscapes _ = _ |- _ => rewrite H end;
  cbn [resolved];
  conjuncts; try done; try congruence;
  try (by apply dec_stable); try (symmetry; by apply dec_stable);
  try (by eapply entry_lookup).

Section Typed.
Variable returnType : RunType.
Variable validate_child : Node unit -> bool -> M FnScope Out.

Lemma validate_children_typed children :
  Forall (fun child => forall vr s o s',
            validate_child child vr s = Normal o s' -> typed returnType (out o) = true)
         children ->
  forall vr s children' lastEscapes lastChildType ys rs s',
    validate_children validate_child children vr s =
      Normal (children', lastEscapes, lastChildType, ys, rs) s' ->
    forallb (typed returnType) children' = true /\
    statements children' = true /\
    last_escapes children' = lastEscapes /\
    (children' = [] <-> children = []).
Proof.
  induction 1 as [|child children Hchild _ IH]; intros vr s cs e t ys rs s' Hv;
    cbn [validate_children] in Hv.
  - normal Hv. by simplify_eq.
  - destruct children as [|next rest].
    + normal Hv; simplify_eq; apply Hchild in Hv0; unfold escapes, runType_of in *;
        cbn [forallb statements last_escapes last];
        (destruct vr; [|destruct (decide _)]);
        rewrite ?typed_update, ?escapes_update, Hv0; split_and!; done.
    + normal Hv. simplify_eq. apply Hchild in Hv0.
      destruct (IH _ _ _ _ _ _ _ _ Hv1) as (Hall & Hst & Hlast & [Hnil _]).
      match type of Hnil with
      | ?l = [] -> _ => destruct l as [|next' rest']; [by specialize (Hnil eq_refl)|]
      end.
      unfold escapes, runType_of in *.
      split_and!; [| |exact Hlast|done].
      * apply andb_true_intro. split; [|exact Hall].
        destruct (decide _); rewrite ?typed_update, Hv0; done.
      * apply andb_true_intro. split; [|exact Hst].
        destruct (decide (runType (ann (out o)) <> void)) as [Hne|Heq].
        -- rewrite dropValue_update, escapes_update, Heqb. by rewrite orb_true_r.
        -- apply dec_stable in Heq. rewrite Heq, Heqb. by rewrite bool_decide_eq_true_2.
Qed.

Lemma validate_args_typed node paramTypes args :
  Forall (fun child => forall vr s o s',
            validate_child child vr s = Normal o s' -> typed returnType (out o) = true)
         args ->
  forall i s args' ys rs s',
    validate_args validate_child node paramTypes i args s = Normal (args', ys, rs) s' ->
    forallb (typed returnType) args' = true /\
    forallb (fun arg => negb (alwaysEscapes (ann arg))) args' = true /\
    (fun arg => runType (ann arg)) <$> args' = take (length args) (drop i paramTypes).
Proof.
  induction 1 as [|arg args Harg _ IH]; intros i s args' ys rs s' Hv;
    cbn [validate_args] in Hv.
  - normal Hv. by simplify_eq.
  - normal Hv. simplify_eq. apply Harg in Hv0.
    destruct (IH _ _ _ _ _ _ Hv1) as (Hall & Hesc & Htypes).
    unfold escapes, runType_of in *.
    cbn [forallb fmap list_fmap length]. rewrite Hall, Hesc, Hv0, Heqb.
    split_and!; [done|done|].
    rewrite (drop_S _ _ _ Heqo0). cbn [take]. f_equal; [|done].
    by apply dec_stable.
Qed.
End Typed.

Lemma validate_MemoryAccess_out ctx a pointer address offsetProvided vr s o s' :
  validate ctx (MemoryAccess a pointer address offsetProvided) vr s = Normal o s' ->
  exists a' address' offsetProvided',
    out o = MemoryAccess a' pointer address' offsetProvided' /\
    runType a' = Def.returnType pointer.
Proof. intros Hv. cbn [validate] in Hv. normal Hv; cbn [out]; eauto. Qed.

Lemma resolved_created (node : Node unit) :
  resolved (AST.map (fun _ => created) node) = resolved node.
Proof. by destruct node. Qed.

Lemma validate_negated child ctx valueRequired s c s' :
  parent ctx = NEG ->
  validate ctx child valueRequired s = Normal c s' ->
  negated (out c) = true.
Proof.
  intros Hparent Hv. pose proof (validate_erase _ _ _ _ _ _ Hv) as Hshape.
  destruct (out c) as [| | | | | | | | | | | | | |a type text| | | | | | | |] eqn:Hout;
    try reflexivity.
  cbn [AST.map] in Hshape. subst child. cbn [validate] in Hv. cbn zeta in Hv.
  destruct type; try reflexivity. normal Hv. cbn [out] in Hout. injection Hout as <-.
  cbn [negated annotation meta]. rewrite (bool_decide_eq_true_2 _ Hparent) in Heqb.
  destruct (parseInt _) as [z|]; [|done]. cbn [number greater] in *.
  apply Z.leb_le. apply Z.ltb_ge in Heqb. lia.
Qed.

Lemma validate_typed_each node : forall ctx valueRequired s o s',
  validate ctx node valueRequired s = Normal o s' ->
  typed (Def.returnType (fn ctx)) (out o) = true.
Proof.
  induction node using Node_induction; intros ctx vr s o s' Hv;
    pose proof (validate_points _ _ _ _ _ _ Hv) as Hpoints; cbn [validate] in Hv.
  all: try (normal Hv; use_hypotheses; simplify_eq; typecheck; fail).
  - (* Assign *)
    clear Hpoints.
    destruct node1; cbn [resolved ASType_of] in Hv; normal Hv; try discriminate; simplify_eq;
      try match goal with
        | H : validate _ (MemoryAccess _ _ _ _) _ _ = Normal _ _ |- _ =>
            destruct (validate_MemoryAccess_out _ _ _ _ _ _ _ _ _ H)
              as (a' & address' & offsetProvided' & Hout & Htype)
        end;
      use_hypotheses; typecheck;
      try (rewrite Hout in *; typecheck).
  - (* Block *)
    clear Hpoints.
    assert (Hall : Forall (fun child => forall vr s o s',
                     validate (within BLOCK ctx) child vr s = Normal o s' ->
                     typed (Def.returnType (fn ctx)) (out o) = true) children)
      by (eapply Forall_impl; [exact H|]; intros ? IH ? ? ? ? ?; by apply IH in H0).
    destruct children as [|child children]; normal Hv; [done|].
    eapply validate_children_typed in Hv0 as (? & ? & ? & ?); [|exact Hall]. typecheck.
  - (* Paren *)
    clear Hpoints.
    assert (Hall : Forall (fun child => forall vr s o s',
                     validate (within PAREN ctx) child vr s = Normal o s' ->
                     typed (Def.returnType (fn ctx)) (out o) = true) children)
      by (eapply Forall_impl; [exact H|]; intros ? IH ? ? ? ? ?; by apply IH in H0).
    destruct children as [|child children]; normal Hv; [done|].
    eapply validate_children_typed in Hv0 as (? & ? & ? & ?); [|exact Hall]. typecheck.
  - (* Call *)
    clear Hpoints.
    assert (Hall : Forall (fun child => forall vr s o s',
                     validate (within ARG_LIST ctx) child vr s = Normal o s' ->
                     typed (Def.returnType (fn ctx)) (out o) = true) args)
      by (eapply Forall_impl; [exact H|]; intros ? IH ? ? ? ? ?; by apply IH in H0).
    normal Hv. eapply validate_args_typed in Hv0 as (? & ? & Htypes); [|exact Hall].
    match goal with Hn : ¬ (length _ ≠ _) |- _ => pose proof (dec_stable Hn) as Hlen end.
    typecheck. rewrite Htypes, drop_0. apply take_ge. lia.
  - (* Literal *)
    clear Hpoints. cbn zeta in Hv. destruct type; normal Hv; typecheck.
    + destruct (parseInt _) as [z|]; [|done]. cbn [number greater] in *.
      apply Z.leb_le. apply Z.ltb_ge in Heqb. destruct (bool_decide _); lia.
    + apply negb_false_iff in Heqb.
      destruct (parseInt _) as [z|]; [|by destruct (bool_decide _)].
      cbn [number]. destruct (bool_decide _); cbn [fmap option_fmap option_map isSafeInteger] in Heqb;
        apply andb_prop in Heqb as [H1%Z.leb_le H2%Z.leb_le];
        apply andb_true_intro; split; apply Z.leb_le; lia.
  - (* Loop *)
    clear Hpoints.
    apply bind_Normal in Hv as (b & s1 & Hb & Hv).
    pose proof (validate_points _ _ _ _ _ _ Hb) as (_ & _ & Hreturns).
    apply IHnode in Hb. cbn [fn within] in Hb, Hreturns. cbn beta iota zeta in Hv.
    destruct (yields b) as [|first others] eqn:Ey.
    + destruct (returns b) as [|first others] eqn:Er; normal Hv.
      apply Forall_cons in Hreturns as [Hfirst _]. typecheck.
    + destruct (find _ others) eqn:Hfind; normal Hv.
      typecheck. cbn [forallb]. apply andb_true_intro. split; [by apply bool_decide_eq_true|].
      apply forallb_forall. intros p Hp. apply (find_none _ _ Hfind) in Hp.
      apply bool_decide_eq_true. apply bool_decide_eq_false in Hp. by apply dec_stable.
  - (* MemoryAccess *)
    clear Hpoints.
    destruct offsetProvided as [offset|]; [pose proof (H offset eq_refl) as IHoffset|];
      clear H; normal Hv; use_hypotheses; simplify_eq; typecheck.
  - (* Neg *)
    clear Hpoints. normal Hv.
    pose proof (validate_negated _ (within NEG ctx) _ _ _ _ eq_refl Hv0) as Hnegated.
    use_hypotheses. typecheck.
  - (* Return *)
    clear Hpoints.
    destruct child as [child|]; [pose proof (H child eq_refl) as IHchild|];
      clear H; normal Hv; use_hypotheses; simplify_eq; typecheck.
Qed.

(** X17.  A tree that validation accepts is well typed, in the sense of
    [typed], for the return type of the function it stands in.  The
    references of the tree are bound to definitions, which carry a run
    type; a name that is bound to a property of [Object.prototype]
    carries none and is not a tree of this model. *)
Theorem validate_typed (ctx : Context) (node : Node unit) (valueRequired : bool)
  (fnScope : FnScope) :
  match validate ctx node valueRequired fnScope with
  | Normal o _ => typed (Def.returnType (fn ctx)) (out o) = true
  | Throw _ => True
  end.
Proof.
  destruct (validate ctx node valueRequired fnScope) as [o fnScope'|e] eqn:Hv; [|done].
  by eapply validate_typed_each.
Qed.

(** The theorem on [if (1x64) { 5 }] in the body of [main]: the tree is
    accepted and well typed, with a condition of the run type [i64]. *)
Lemma validate_typed_witness :
  match validate Samples.in_main (If tt Samples.long_condition Samples.value_body) false
          Samples.fnScope with
  | Normal o _ =>
      typed void (out o) = true /\
      match out o with If _ condition _ => runType (ann condition) = i64 | _ => False end
  | Throw _ => False
  end.
Proof.
  pose proof (validate_typed Samples.in_main
                (If tt Samples.long_condition Samples.value_body) false Samples.fnScope) as H.
  destruct (validate _ _ _ _) as [o s|e] eqn:Hv.
  - split; [exact H|]. vm_compute in Hv. by injection Hv as <- <-.
  - vm_compute in Hv. discriminate Hv.
Defined.

End Typing.

(** ** Sections of the byte code container (byteCode.js, moduleCodeGen.js) *)

(** A sub-section is a [ByteCodeContainer] of its own that writes into
    the [parts] array of its parent: there is one array, and each
    container that is open has its [path], its [totalSize] and the record
    whose bytes are to hold its payload size.  The record is an object in
    the array; the model has its place there, which stays the same since
    the array only grows. *)
Module Sections.
Import AST Monad Monad.Notations ByteCode Container.

Record Frame : Type :=
  { path : string; totalSize : Z; reservedSizeRecord : option nat }.

(** The array of parts, the container that the chain of calls is at, and
    its parents, the nearest first. *)
Record t : Type := { parts : list Part; this : Frame; parents : list Frame }.

(** [new ByteCodeContainer (path)] *)
Definition create (path : string) : t :=
  {| parts := [];
     this := {| path := path; totalSize := 0; reservedSizeRecord := None |};
     parents := [] |}.

(** A method of the container that is written for [Container.t], called on
    the container that the chain is at. *)
Definition on_this {A} (m : M Container.t A) : M t A :=
  fun st =>
    match m {| Container.path := path (this st); Container.parts := parts st;
               Container.totalSize := totalSize (this st) |} with
    | Normal a c =>
        Normal a {| parts := Container.parts c;
                    this := {| path := Container.path c;
                               totalSize := Container.totalSize c;
                               reservedSizeRecord := reservedSizeRecord (this st) |};
                    parents := parents st |}
    | Throw e => Throw e
    end.

(** [section (name)]: the chain goes on at the new container. *)
Definition section (name : string) : M t unit :=
  fun st =>
    Normal tt {| parts := parts st;
                 this := {| path := path (this st) +:+ "|" +:+ name; totalSize := 0;
                            reservedSizeRecord := None |};
                 parents := this st :: parents st |}.

(** [reserveSize (field)] *)
Definition reserveSize (field : string) : M t unit :=
  fun st =>
    match on_this (bytes (Bytes []) field (Num (Int (totalSize (this st))))) st with
    | Normal _ st' =>
        Normal tt {| parts := parts st';
                     this := {| path := path (this st'); totalSize := totalSize (this st');
                                reservedSizeRecord := Some (length (parts st') - 1)%nat |};
                     parents := parents st' |}
    | Throw e => Throw e
    end.

(** [finishSection ()]: the chain goes on at the parent.  The top-level
    container has no parent, and to finish it is a [TypeError]. *)
Definition finishSection : M t unit :=
  fun st =>
    let finish (parts : list Part) (totalSize' : Z) : Completion t unit :=
      match parents st with
      | [] => Throw TypeError
      | parent :: parents =>
          Normal tt {| parts := parts;
                       this := {| path := path parent;
                                  totalSize := totalSize parent + totalSize';
                                  reservedSizeRecord := reservedSizeRecord parent |};
                       parents := parents |}
      end in
    match reservedSizeRecord (this st) with
    | None => finish (parts st) (totalSize (this st))
    | Some i =>
        match parts st !! i with
        | Some (Several _ field path (Num (Int value))) =>
            let size := totalSize (this st) - value in
            let encoded := uLEB size [] in
            finish (<[i := Several (Bytes encoded) field path (Num (Int size))]> (parts st))
                   (totalSize (this st) + Z.of_nat (length encoded))
        | _ => Throw Unmodelled
        end
    end.

(** [generateTypeSection (source, module)], for the list
    [source.functionSignatures]; a signature is [[returnType,
    ...paramTypes]], and [functionSignatureIndex] makes none that is
    empty.  First the loop over the parameter types of a signature, the
    code for one signature, and the loop over the signatures. *)
Fixpoint type_params (paramTypes : list string) : M t unit :=
  match paramTypes with
  | [] => ret tt
  | param :: paramTypes =>
      let* _ := on_this (byte param "param_types") in type_params paramTypes
  end.

Definition type_entry (index : nat) (signature : list string) : M t unit :=
  match signature with
  | [] => throw Unmodelled
  | returnType :: paramTypes =>
      let* _ := section ("type " +:+ NilZero.string_of_uint (Nat.to_uint index)) in
      let* _ := on_this (byte "func" "form") in
      let* _ := on_this (varuint (Z.of_nat (length paramTypes)) "param_count") in
      let* _ := type_params paramTypes in
      let* _ :=
        if String.eqb returnType "void" then on_this (varuint 0 "return_count")
        else
          let* _ := on_this (varuint 1 "return_count") in
          on_this (byte returnType "return_type") in
      finishSection
  end.

Fixpoint type_entries (index : nat) (signatures : list (list string)) : M t unit :=
  match signatures with
  | [] => ret tt
  | signature :: signatures =>
      let* _ := type_entry index signature in type_entries (S index) signatures
  end.

Definition generateTypeSection (functionSignatures : list (list string)) : M t unit :=
  let* _ := section "type section" in
  let count := length functionSignatures in
  let* _ :=
    if (0 <? count)%nat then
      let* _ := on_this (byte "section.type" "id") in
      let* _ := reserveSize "payload_len" in
      let* _ := on_this (varuint (Z.of_nat count) "count") in
      type_entries 0 functionSignatures
    else ret tt in
  finishSection.

(** [toByteArray ()], for parts that are no floats: a byte that the code
    table does not have is [undefined], which a [Uint8Array] takes as 0. *)
Fixpoint toByteArray (parts : list Part) : option (list Z) :=
  match parts with
  | [] => Some []
  | part :: parts =>
      match part, toByteArray parts with
      | Single byte _ _ _, Some rest => Some (default 0 byte :: rest)
      | Several (Bytes bytes) _ _ _, Some rest => Some (bytes ++ rest)
      | _, _ => None
      end
  end.

End Sections.

Section Payloads.
Import AST Monad Monad.Notations ByteCode Container Walks Sections.

(** A computation on the stack of containers is balanced when it ends at
    the container it began at, with the parts it has written behind the
    ones that were there and their size added to [totalSize]. *)
Definition balanced {A} (m : M Sections.t A) : Prop :=
  forall st a st',
    m st = Normal a st' ->
    parents st' = parents st /\
    path (this st') = path (this st) /\
    reservedSizeRecord (this st') = reservedSizeRecord (this st) /\
    exists more,
      parts st' = parts st ++ more /\
      totalSize (this st') = totalSize (this st) + parts_size more.

Lemma balanced_ret {A} (a : A) : balanced (ret a).
Proof.
  intros st b st' [= <- <-]. split_and!; try done. exists [].
  rewrite app_nil_r. cbn. split; [done|lia].
Qed.

Lemma balanced_bind {A B} (m : M Sections.t A) (k : A -> M Sections.t B) :
  balanced m -> (forall a, balanced (k a)) -> balanced (bind m k).
Proof.
  intros Hm Hk st b st' H. apply bind_Normal in H as (a & st1 & H1 & H2).
  apply Hm in H1 as (Hp1 & Hpath1 & Hr1 & more1 & Hparts1 & Hsize1).
  apply Hk in H2 as (Hp2 & Hpath2 & Hr2 & more2 & Hparts2 & Hsize2).
  split_and!; [congruence|congruence|congruence|].
  exists (more1 ++ more2). rewrite Hparts2, Hparts1, Hsize2, Hsize1, parts_size_app, app_assoc.
  split; [done|lia].
Qed.

Lemma balanced_on_this {A} (m : M Container.t A) : appends m -> balanced (on_this m).
Proof.
  intros Hm st a st' H. unfold on_this in H.
  destruct (m _) as [a' c|e] eqn:Hc; [|done]. injection H as <- <-.
  apply Hm in Hc as (more & Hpath & Hparts & Hsize). cbn in *.
  split_and!; try done. by exists more.
Qed.

(** What [finishSection] does to a container whose size record is in
    place. *)
Lemma finishSection_reserved st front payload field recordPath value parent rest :
  parts st = front ++ Several (Bytes []) field recordPath (Num (Int value)) :: payload ->
  reservedSizeRecord (this st) = Some (length front) ->
  parents st = parent :: rest ->
  let size := totalSize (this st) - value in
  finishSection st =
  Normal tt
    {| parts := front ++ Several (Bytes (uLEB size [])) field recordPath (Num (Int size))
                  :: payload;
       this := {| path := path parent;
                  totalSize := totalSize parent + (totalSize (this st) +
                                                   Z.of_nat (length (uLEB size [])));
                  reservedSizeRecord := reservedSizeRecord parent |};
       parents := rest |}.
Proof.
  intros Hparts Hrecord Hparents size. unfold finishSection.
  rewrite Hrecord, Hparts, Hparents. rewrite list_lookup_middle by done.
  fold size. f_equal. f_equal.
  change (Several (Bytes []) field recordPath (Num (Int value)) :: payload)
    with ([Several (Bytes []) field recordPath (Num (Int value))] ++ payload).
  rewrite app_assoc. rewrite insert_app_l by (rewrite length_app; cbn; lia).
  rewrite insert_app_r_alt by lia. rewrite Nat.sub_diag. cbn. by rewrite <- app_assoc.
Qed.

(** X18.  The size record of a section holds the size of what follows it.  A
    section that is opened, given some parts, a reserved size and then a
    payload, and finished, leaves behind the parts that were there its
    first parts, the record, and the payload; the bytes of the record are
    the [uLEB] of the size of the payload, and the size of everything the
    section has written, the record too, is added to the [totalSize] of
    the parent. *)
Theorem finishSection_payload_size (name field : string) (prefix body : M Sections.t unit)
  (st : Sections.t) :
  balanced prefix -> balanced body ->
  match (let* _ := section name in
         let* _ := prefix in
         let* _ := reserveSize field in
         let* _ := body in
         finishSection) st with
  | Normal _ st' =>
      parents st' = parents st /\
      path (this st') = path (this st) /\
      reservedSizeRecord (this st') = reservedSizeRecord (this st) /\
      exists first payload,
        let record :=
          Several (Bytes (uLEB (parts_size payload) [])) field
            ((path (this st) +:+ "|" +:+ name) +:+ "|" +:+ field)
            (Num (Int (parts_size payload))) in
        parts st' = parts st ++ first ++ record :: payload /\
        totalSize (this st') =
          totalSize (this st) + parts_size (first ++ record :: payload)
  | Throw _ => True
  end.
Proof.
  intros Hprefix Hbody.
  match goal with
  | |- match ?c with _ => _ end => destruct c as [[] st'|e] eqn:Hrun; [|exact I]
  end.
  apply bind_Normal in Hrun as ([] & st1 & H1 & Hrun).
  apply bind_Normal in Hrun as ([] & st2 & H2 & Hrun).
  apply bind_Normal in Hrun as ([] & st3 & H3 & Hrun).
  apply bind_Normal in Hrun as ([] & st4 & H4 & Hrun).
  injection H1 as <-.
  apply Hprefix in H2 as (Hp2 & Hpath2 & Hr2 & first & Hparts2 & Hsize2). cbn in *.
  unfold reserveSize, on_this, bytes, path_of, push, bind in H3. cbn in H3.
  injection H3 as <-.
  apply Hbody in H4 as (Hp4 & Hpath4 & Hr4 & payload & Hparts4 & Hsize4). cbn in *.
  rewrite Hparts2, <- app_assoc in Hparts4. rewrite <- app_assoc in Hparts4. cbn in Hparts4.
  rewrite app_assoc in Hparts4.
  rewrite (finishSection_reserved st4 (parts st ++ first) payload field _ _ (this st)
             (parents st) Hparts4) in Hrun.
  - injection Hrun as <-. cbn. rewrite Hpath2.
    assert (Hsize : totalSize (this st4) - totalSize (this st2) = parts_size payload)
      by lia.
    rewrite Hsize. split_and!; try done.
    exists first, payload. cbn zeta. rewrite <- app_assoc. split; [done|].
    rewrite parts_size_app. cbn [parts_size part_size Payload_length]. lia.
  - rewrite Hr4. f_equal. rewrite Hparts2, !length_app. cbn. lia.
  - by rewrite Hp4, Hp2.
Qed.

Lemma finishSection_payload_size_witness :
  balanced (on_this (byte "section.type" "id")) /\
  balanced (on_this (varuint 1 "count")) /\
  match (let* _ := section "type section" in
         let* _ := on_this (byte "section.type" "id") in
         let* _ := reserveSize "payload_len" in
         let* _ := on_this (varuint 1 "count") in
         finishSection) (create "module") with
  | Normal _ st' =>
      parents st' = parents (create "module") /\
      path (this st') = path (this (create "module")) /\
      reservedSizeRecord (this st') = reservedSizeRecord (this (create "module")) /\
      exists first payload,
        let record :=
          Several (Bytes (uLEB (parts_size payload) [])) "payload_len"
            ((path (this (create "module")) +:+ "|" +:+ "type section") +:+ "|" +:+
             "payload_len")
            (Num (Int (parts_size payload))) in
        parts st' = parts (create "module") ++ first ++ record :: payload /\
        totalSize (this st') =
          totalSize (this (create "module")) + parts_size (first ++ record :: payload)
  | Throw _ => True
  end.
Proof.
  assert (Hprefix : balanced (on_this (byte "section.type" "id")))
    by (apply balanced_on_this, appends_byte).
  assert (Hbody : balanced (on_this (varuint 1 "count")))
    by (apply balanced_on_this, appends_varuint).
  split; [exact Hprefix|]. split; [exact Hbody|].
  exact (finishSection_payload_size "type section" "payload_len" _ _ (create "module")
           Hprefix Hbody).
Defined.

(** *** The bytes of the type section *)

(** A computation emits [encoded] when, wherever it starts, it completes
    normally and is balanced, and [toByteArray] gives [encoded] for the
    parts it has written. *)
Definition emits (m : M Sections.t unit) (encoded : list Z) : Prop :=
  forall st,
    exists st',
      m st = Normal tt st' /\
      parents st' = parents st /\
      path (this st') = path (this st) /\
      reservedSizeRecord (this st') = reservedSizeRecord (this st) /\
      exists more,
        parts st' = parts st ++ more /\
        totalSize (this st') = totalSize (this st) + Z.of_nat (length encoded) /\
        toByteArray more = Some encoded.

Lemma toByteArray_app parts1 parts2 encoded1 encoded2 :
  toByteArray parts1 = Some encoded1 -> toByteArray parts2 = Some encoded2 ->
  toByteArray (parts1 ++ parts2) = Some (encoded1 ++ encoded2).
Proof.
  revert encoded1. induction parts1 as [|part parts1 IH]; intros encoded1 H1 H2; cbn in *.
  - by injection H1 as <-.
  - destruct part as [byte ? ? ?|[encoded| |] ? ? ?];
      destruct (toByteArray parts1) as [rest|] eqn:Hrest; try done;
      injection H1 as <-; rewrite (IH _ eq_refl H2); [done|]. by rewrite <- app_assoc.
Qed.

Lemma emits_ext m1 m2 encoded :
  (forall st, m1 st = m2 st) -> emits m1 encoded -> emits m2 encoded.
Proof. intros Heq H st. rewrite <- Heq. apply H. Qed.

Lemma bind_assoc {S A B C} (m : M S A) (f : A -> M S B) (g : B -> M S C) st :
  bind (bind m f) g st = bind m (fun a => bind (f a) g) st.
Proof. unfold bind. by destruct (m st). Qed.

Lemma bind_ext {S A B} (m : M S A) (f g : A -> M S B) st :
  (forall a st', f a st' = g a st') -> bind m f st = bind m g st.
Proof. intros Heq. unfold bind. by destruct (m st). Qed.

Ltac reassociate :=
  intros ?; repeat (rewrite ?bind_assoc; apply bind_ext; intros ? ?); reflexivity.

Lemma emits_ret : emits (ret tt) [].
Proof.
  intros st. exists st. split_and!; try done. exists []. rewrite app_nil_r. cbn.
  split_and!; [done|lia|done].
Qed.

Lemma emits_bind m1 m2 encoded1 encoded2 :
  emits m1 encoded1 -> emits m2 encoded2 ->
  emits (let* _ := m1 in m2) (encoded1 ++ encoded2).
Proof.
  intros H1 H2 st.
  destruct (H1 st) as (st1 & Hrun1 & Hp1 & Hpath1 & Hr1 & more1 & Hparts1 & Hsize1 & Hb1).
  destruct (H2 st1) as (st2 & Hrun2 & Hp2 & Hpath2 & Hr2 & more2 & Hparts2 & Hsize2 & Hb2).
  exists st2. rewrite (bind_eq _ _ _ _ _ Hrun1).
  split_and!; [done|congruence|congruence|congruence|].
  exists (more1 ++ more2). rewrite Hparts2, Hparts1, Hsize2, Hsize1, length_app, app_assoc.
  split_and!; [done|lia|by apply toByteArray_app].
Qed.

(** The byte of a code. *)
Definition code (text : string) : Z := default 0 (codeTable !! text).

Lemma emits_byte text field : emits (on_this (byte text field)) [code text].
Proof.
  intros st. eexists. split; [reflexivity|]. cbn. split_and!; try done.
  eexists [_]. split_and!; [done|lia|done].
Qed.

Lemma emits_varuint value field :
  0 <= value < 2 ^ 32 -> emits (on_this (varuint value field)) (uLEB value []).
Proof.
  intros Hvalue st. unfold on_this, varuint, varuint_bound.
  assert (Hrange : (value <? 0) || (2 ^ 32 - 1 <? value) = false).
  { apply orb_false_iff. split; [apply Z.ltb_ge|apply Z.ltb_ge]; lia. }
  rewrite Hrange. eexists. split; [reflexivity|]. cbn. split_and!; try done.
  eexists [_]. split_and!; [done|done|]. cbn. by rewrite app_nil_r.
Qed.

Lemma emits_section name body encoded :
  emits body encoded ->
  emits (let* _ := section name in let* _ := body in finishSection) encoded.
Proof.
  intros Hbody st.
  destruct (Hbody {| parts := parts st;
                     this := {| path := path (this st) +:+ "|" +:+ name; totalSize := 0;
                                reservedSizeRecord := None |};
                     parents := this st :: parents st |})
    as (st1 & Hrun & Hp & Hpath & Hr & more & Hparts & Hsize & Hbytes).
  cbn [parts this parents path totalSize reservedSizeRecord] in *.
  eexists. rewrite (bind_eq _ _ _ _ _ (eq_refl : section name st = Normal tt _)).
  rewrite (bind_eq _ _ _ _ _ Hrun). unfold finishSection. rewrite Hr, Hp.
  split; [reflexivity|]. cbn. split_and!; try done. exists more. split_and!; [done|lia|done].
Qed.

Lemma toByteArray_length parts encoded :
  toByteArray parts = Some encoded -> parts_size parts = Z.of_nat (length encoded).
Proof.
  revert encoded. induction parts as [|part parts IH]; intros encoded H; cbn in *.
  - by injection H as <-.
  - destruct part as [byte ? ? ?|[encoded'| |] ? ? ?];
      destruct (toByteArray parts) as [rest|] eqn:Hrest; try done;
      injection H as <-; rewrite (IH _ eq_refl); cbn; rewrite ?length_app; lia.
Qed.

Lemma emits_reserved name field prefix body encoded1 encoded2 :
  emits prefix encoded1 -> emits body encoded2 ->
  emits (let* _ := section name in
         let* _ := prefix in
         let* _ := reserveSize field in
         let* _ := body in
         finishSection)
        (encoded1 ++ uLEB (Z.of_nat (length encoded2)) [] ++ encoded2).
Proof.
  intros Hprefix Hbody st.
  destruct (Hprefix {| parts := parts st;
                       this := {| path := path (this st) +:+ "|" +:+ name; totalSize := 0;
                                  reservedSizeRecord := None |};
                       parents := this st :: parents st |})
    as (st2 & Hrun2 & Hp2 & Hpath2 & Hr2 & first & Hparts2 & Hsize2 & Hbytes2).
  cbn [parts this parents path totalSize reservedSizeRecord] in *.
  set (record := Several (Bytes []) field ((path (this st) +:+ "|" +:+ name) +:+ "|" +:+ field)
                   (Num (Int (totalSize (this st2))))).
  destruct (Hbody {| parts := parts st2 ++ [record];
                     this := {| path := path (this st2);
                                totalSize := totalSize (this st2) + 0;
                                reservedSizeRecord := Some (length (parts st2 ++ [record]) - 1)%nat |};
                     parents := parents st2 |})
    as (st4 & Hrun4 & Hp4 & Hpath4 & Hr4 & payload & Hparts4 & Hsize4 & Hbytes4).
  cbn [parts this parents path totalSize reservedSizeRecord] in *.
  assert (Hreserve : reserveSize field st2 =
            Normal tt {| parts := parts st2 ++ [record];
                         this := {| path := path (this st2);
                                    totalSize := totalSize (this st2) + 0;
                                    reservedSizeRecord :=
                                      Some (length (parts st2 ++ [record]) - 1)%nat |};
                         parents := parents st2 |}).
  { unfold reserveSize, on_this, bytes, path_of, push, bind. cbn. unfold record.
    by rewrite Hpath2. }
  eexists. rewrite (bind_eq _ _ _ _ _ (eq_refl : section name st = Normal tt _)).
  rewrite (bind_eq _ _ _ _ _ Hrun2), (bind_eq _ _ _ _ _ Hreserve), (bind_eq _ _ _ _ _ Hrun4).
  rewrite Hparts2, <- !app_assoc in Hparts4. cbn [app] in Hparts4.
  rewrite app_assoc in Hparts4.
  rewrite (finishSection_reserved st4 (parts st ++ first) payload field _ _ (this st)
             (parents st) Hparts4).
  - split; [reflexivity|]. cbn.
    assert (Hsize : totalSize (this st4) - totalSize (this st2) =
                    Z.of_nat (length encoded2)) by lia.
    rewrite Hsize. split_and!; try done.
    eexists (first ++ _ :: payload). rewrite <- app_assoc. split_and!; [done| |].
    + rewrite !length_app. lia.
    + apply toByteArray_app; [done|]. cbn. by rewrite Hbytes4.
  - rewrite Hr4. f_equal. rewrite Hparts2, !length_app. cbn. lia.
  - by rewrite Hp4, Hp2.
Qed.

(** The bytes of one signature and of the section. *)
Definition type_entry_bytes (signature : list string) : list Z :=
  match signature with
  | [] => []
  | returnType :: paramTypes =>
      [96] ++ uLEB (Z.of_nat (length paramTypes)) [] ++ (code <$> paramTypes) ++
      (if String.eqb returnType "void" then [0] else [1; code returnType])
  end.

Definition type_section_bytes (functionSignatures : list (list string)) : list Z :=
  match functionSignatures with
  | [] => []
  | _ =>
      let payload :=
        uLEB (Z.of_nat (length functionSignatures)) [] ++
        concat (type_entry_bytes <$> functionSignatures) in
      [1] ++ uLEB (Z.of_nat (length payload)) [] ++ payload
  end.

Lemma emits_type_params paramTypes : emits (type_params paramTypes) (code <$> paramTypes).
Proof.
  induction paramTypes as [|param paramTypes IH]; cbn [type_params fmap list_fmap].
  - apply emits_ret.
  - apply (emits_bind _ _ [_] _); [apply emits_byte|exact IH].
Qed.

Lemma emits_type_entry index signature :
  signature <> [] -> Z.of_nat (length signature) <= 2 ^ 32 ->
  emits (type_entry index signature) (type_entry_bytes signature).
Proof.
  destruct signature as [|returnType paramTypes]; [done|]. intros _ Hlength.
  cbn [length] in Hlength. unfold type_entry, type_entry_bytes.
  apply (emits_ext
           (let* _ := section ("type " +:+ NilZero.string_of_uint (Nat.to_uint index)) in
            let* _ :=
              (let* _ := on_this (byte "func" "form") in
               let* _ := on_this (varuint (Z.of_nat (length paramTypes)) "param_count") in
               let* _ := type_params paramTypes in
               if String.eqb returnType "void" then on_this (varuint 0 "return_count")
               else
                 let* _ := on_this (varuint 1 "return_count") in
                 on_this (byte returnType "return_type")) in
            finishSection)); [reassociate|].
  apply emits_section.
  apply (emits_bind _ _ [_] _); [apply emits_byte|].
  apply emits_bind; [apply emits_varuint; lia|].
  apply emits_bind; [apply emits_type_params|].
  destruct (String.eqb returnType "void").
  - apply (emits_varuint 0). lia.
  - apply (emits_bind _ _ [1] [_]); [apply (emits_varuint 1); lia|apply emits_byte].
Qed.

Lemma emits_type_entries index signatures :
  Forall (fun signature => signature <> [] /\ Z.of_nat (length signature) <= 2 ^ 32)
    signatures ->
  emits (type_entries index signatures) (concat (type_entry_bytes <$> signatures)).
Proof.
  intros Hall. revert index.
  induction Hall as [|signature signatures [Hsome Hlength] _ IH]; intros index;
    cbn [type_entries fmap list_fmap concat].
  - apply emits_ret.
  - apply emits_bind; [by apply emits_type_entry|apply IH].
Qed.

(** X19.  [generateTypeSection] writes the type section of the binary
    format: nothing at all when there is no signature, and otherwise the
    section id 1, the size of the rest as a varuint, the number of
    signatures, and for each signature the form 0x60, the number and the
    codes of its parameter types, and 0 for [void] or 1 and the code of
    the return type.  It needs each signature to have its return type and
    the counts to be below 2^32, where [varuint] would throw; the size
    it fills in is the number of bytes that follow it. *)
Theorem generateTypeSection_bytes (functionSignatures : list (list string)) :
  Forall (fun signature => signature <> [] /\ Z.of_nat (length signature) <= 2 ^ 32)
    functionSignatures ->
  Z.of_nat (length functionSignatures) < 2 ^ 32 ->
  emits (generateTypeSection functionSignatures) (type_section_bytes functionSignatures).
Proof.
  intros Hall Hcount. unfold generateTypeSection, type_section_bytes.
  destruct functionSignatures as [|signature signatures].
  - cbn [length Nat.ltb Nat.leb]. apply emits_section, emits_ret.
  - set (functionSignatures := signature :: signatures) in *.
    replace (0 <? length functionSignatures)%nat with true by done.
    apply (emits_ext
             (let* _ := section "type section" in
              let* _ := on_this (byte "section.type" "id") in
              let* _ := reserveSize "payload_len" in
              let* _ :=
                (let* _ :=
                   on_this (varuint (Z.of_nat (length functionSignatures)) "count") in
                 type_entries 0 functionSignatures) in
              finishSection)); [reassociate|].
    apply (emits_reserved _ _ _ _ [1]); [apply emits_byte|].
    apply emits_bind; [apply emits_varuint; lia|by apply emits_type_entries].
Qed.

Lemma generateTypeSection_bytes_witness :
  let functionSignatures := [["i32"; "i32"; "f64"]; ["void"]] in
  Forall (fun signature => signature <> [] /\ Z.of_nat (length signature) <= 2 ^ 32)
    functionSignatures /\
  Z.of_nat (length functionSignatures) < 2 ^ 32 /\
  type_section_bytes functionSignatures = [1; 10; 2; 96; 2; 127; 124; 1; 127; 96; 0; 0] /\
  emits (generateTypeSection functionSignatures) (type_section_bytes functionSignatures).
Proof.
  intros functionSignatures.
  assert (Hall : Forall (fun signature =>
                           signature <> [] /\ Z.of_nat (length signature) <= 2 ^ 32)
                   functionSignatures).
  { repeat (apply Forall_cons_2; [split; [discriminate|cbn; lia]|]). apply Forall_nil_2. }
  assert (Hcount : Z.of_nat (length functionSignatures) < 2 ^ 32) by (cbn; lia).
  split; [exact Hall|]. split; [exact Hcount|]. split; [vm_compute; reflexivity|].
  exact (generateTypeSection_bytes functionSignatures Hall Hcount).
Defined.

End Payloads.

(** ** The grammar (syntax.js) *)

Module Grammar.

(** [operands (leftOperands, rightOperands)], for the ASTypes that
    [recordProperties] gives operands to; by default there is none. *)
Definition operands (type : ASType) : nat * nat :=
  match type with
  | ALLOCATE_PAGES | CALL | EXPORT | IMMUTABLE | LOOP | MEMORY_ACCESS | NEG
  | UNARY_MATH_OP | PTR | RETURN | YIELD => (0, 1)%nat
  | DEFAULT_MEMORY | DEFAULT_TABLE | FN_PTR | FN_SIGNATURE | IF => (0, 2)%nat
  | FN | IMPORT => (0, 3)%nat
  | SUFFIX_OP => (1, 0)%nat
  | DEFINITION | DECLARATION | SCALE_OP | ADD | AS | MISC_INFIX | SUB | BITWISE_AND
  | BITWISE_OR | BITWISE_SHIFT | BITWISE_XOR | ORDER_COMPARISON | EQ_COMPARISON | AND
  | OR | ASSIGN | ELSE | INIT_EXPR => (1, 1)%nat
  | _ => (0, 0)%nat
  end.

Definition leftOperands (type : ASType) : nat := (operands type).1.
Definition rightOperands (type : ASType) : nat := (operands type).2.

(** [expectedChildCount]: the sum of the operands, and [Infinity], here
    [None], for the open expressions. *)
Definition expectedChildCount (type : ASType) : option nat :=
  match type with
  | ADDRESS | ARG_LIST | BLOCK | PARAM_LIST | PAREN | ROOT | TYPE_LIST => None
  | _ => Some (leftOperands type + rightOperands type)%nat
  end.

(** [ignoresTerminator], [requiresTerminator] ([None] is [null]) and
    [isTerminator]. *)
Definition ignoresTerminator (type : ASType) : option ASType :=
  match type with
  | ARG_LIST | PARAM_LIST | TYPE_LIST => Some COMMA
  | ADDRESS | BLOCK | PAREN | ROOT => Some SEMICOLON
  | _ => None
  end.

Definition requiresTerminator (type : ASType) : option ASType :=
  match type with
  | ADDRESS => Some ADDRESS_CLOSE
  | BLOCK => Some BLOCK_CLOSE
  | ROOT => Some END_OF_INPUT
  | ARG_LIST | PARAM_LIST | PAREN | TYPE_LIST => Some PAREN_CLOSE
  | _ => None
  end.

Definition isTerminator (type : ASType) : bool :=
  match type with
  | BLOCK_CLOSE | COMMA | END_OF_INPUT | ADDRESS_CLOSE | PAREN_CLOSE | SEMICOLON => true
  | _ => false
  end.

Definition createsName (type : ASType) : bool :=
  match type with DECLARATION | DEFINITION => true | _ => false end.

Definition createsNewScope (type : ASType) : bool :=
  match type with BLOCK | FN | LOOP | ROOT => true | _ => false end.

Definition isReference (type : ASType) : bool :=
  match type with CALL | MEMORY_ACCESS | VARIABLE => true | _ => false end.

Definition rightAssociative (type : ASType) : bool :=
  match type with ASSIGN | ELSE | INIT_EXPR => true | _ => false end.

(** *** Child type constraints

    The rule of an ASType: [CTCByPos (...positions)], [CTCForAll
    (...acceptableTypes)], the rule of [ADDRESS], or the default
    [() => null]. *)
Inductive ChildRule : Type :=
| CTCByPos (positions : list (list ASType))
| CTCForAll (acceptableTypes : list ASType)
| CTCAddress
| CTCDefault.

Definition CTC (type : ASType) : ChildRule :=
  match type with
  | ASSIGN => CTCByPos [[DEFINITION; VARIABLE; MEMORY_ACCESS]]
  | AS => CTCByPos [[EXPORT_TYPE; VARIABLE]; [STRING]]
  | DECLARATION => CTCByPos [[VARIABLE]; [FN_PTR; FN_SIGNATURE; IMMUTABLE; PTR; VALUE_TYPE]]
  | DEFAULT_MEMORY => CTCByPos [[I32_LITERAL]; [I32_LITERAL; VOID]]
  | DEFAULT_TABLE => CTCByPos [[I32_LITERAL]; [I32_LITERAL; VOID]]
  | DEFINITION => CTCByPos [[VARIABLE]; [FN; FN_PTR; IMMUTABLE; PTR; VALUE_TYPE]]
  | ELSE => CTCByPos [[IF]; [BLOCK; BREAK; CONTINUE; IF; ELSE]]
  | EXPORT => CTCByPos [[AS; VARIABLE]]
  | FN => CTCByPos [[PARAM_LIST]; [VALUE_TYPE; VOID]; [BLOCK]]
  | FN_PTR => CTCByPos [[TYPE_LIST]; [VALUE_TYPE; VOID]]
  | FN_SIGNATURE => CTCByPos [[TYPE_LIST]; [VALUE_TYPE; VOID]]
  | IF => CTCByPos [[PAREN]; [BLOCK; BREAK; CONTINUE]]
  | IMMUTABLE => CTCByPos [[FN_PTR; PTR; VALUE_TYPE]]
  | IMPORT => CTCByPos [[DECLARATION; DEFAULT_MEMORY; DEFAULT_TABLE]; [FROM]; [STRING]]
  | INIT_EXPR =>
      CTCByPos [[DEFINITION]; [F32_LITERAL; F64_LITERAL; I32_LITERAL; I64_LITERAL; VARIABLE]]
  | LOOP => CTCByPos [[BLOCK; ELSE; IF]]
  | NEG => CTCByPos [[F32_LITERAL; F64_LITERAL; I32_LITERAL; I64_LITERAL]]
  | PTR => CTCByPos [[STORAGE_TYPE; VALUE_TYPE]]
  | SUFFIX_OP => CTCByPos [[VARIABLE]]
  | PARAM_LIST => CTCForAll [DECLARATION]
  | ROOT => CTCForAll [DEFINITION; DEFAULT_MEMORY; DEFAULT_TABLE; EXPORT; IMPORT; INIT_EXPR]
  | TYPE_LIST => CTCForAll [VALUE_TYPE]
  | ADDRESS => CTCAddress
  | _ => CTCDefault
  end.

(** *** Parent type constraints

    [PTCByPos (...positions)] with its pairs of a parent type and a
    position, [None] for the position [null]; [None] for the default
    [() => false]. *)
Definition PTC (type : ASType) : option (list (ASType * option nat)) :=
  match type with
  | ADDRESS => Some [(MEMORY_ACCESS, Some 0%nat)]
  | AS => Some [(EXPORT, Some 0%nat)]
  | BREAK => Some [(BLOCK, None); (IF, Some 1%nat); (ELSE, Some 1%nat)]
  | CONTINUE => Some [(BLOCK, None); (IF, Some 1%nat); (ELSE, Some 1%nat)]
  | DEFAULT_MEMORY => Some [(ROOT, None); (IMPORT, Some 0%nat)]
  | DEFAULT_TABLE => Some [(ROOT, None); (IMPORT, Some 0%nat)]
  | EXPORT => Some [(ROOT, None)]
  | FN => Some [(DEFINITION, Some 1%nat)]
  | FN_PTR => Some [(DEFINITION, Some 1%nat); (DECLARATION, Some 1%nat)]
  | FROM => Some [(IMPORT, Some 1%nat)]
  | IMMUTABLE => Some [(DEFINITION, Some 1%nat)]
  | IMPORT => Some [(ROOT, None)]
  | PTR => Some [(DECLARATION, Some 1%nat); (DEFINITION, Some 1%nat); (IMMUTABLE, Some 0%nat)]
  | RETURN => Some [(BLOCK, None)]
  | STRING => Some [(IMPORT, Some 2%nat); (AS, Some 1%nat)]
  | STORAGE_TYPE => Some [(PTR, Some 0%nat)]
  | VALUE_TYPE =>
      Some [(DECLARATION, Some 1%nat); (DEFINITION, Some 1%nat); (FN, Some 1%nat);
            (FN_PTR, Some 1%nat); (FN_SIGNATURE, Some 1%nat); (IMMUTABLE, Some 0%nat);
            (PTR, Some 0%nat); (TYPE_LIST, None)]
  | VOID =>
      Some [(FN, Some 1%nat); (FN_PTR, Some 1%nat); (FN_SIGNATURE, Some 1%nat);
            (DEFAULT_MEMORY, Some 1%nat); (DEFAULT_TABLE, Some 1%nat)]
  | YIELD => Some [(BLOCK, None)]
  | _ => None
  end.

(** [PTCByPos (...positions)] on a parent with [length] children: [true]
    is a violation. *)
Definition PTCByPos (positions : list (ASType * option nat)) (parentType : ASType)
  (length : nat) : bool :=
  negb (existsb (fun position =>
                   bool_decide (parentType = position.1) &&
                   match position.2 with
                   | None => true
                   | Some pos => bool_decide (length = pos)
                   end) positions).

(** *** Precedence

    The tiers, from the highest precedence down. *)
Definition tiers : list (list ASType) :=
  [ [DEFINITION; DECLARATION; AS];
    [CALL; DEFAULT_MEMORY; DEFAULT_TABLE; FN; FN_PTR; FN_SIGNATURE; EXPORT; IF; IMMUTABLE;
     IMPORT; MEMORY_ACCESS; PTR];
    [ELSE];
    [SUFFIX_OP];
    [LOOP; NEG; UNARY_MATH_OP];
    [SCALE_OP];
    [ADD; SUB];
    [MISC_INFIX];
    [BITWISE_SHIFT];
    [ORDER_COMPARISON];
    [EQ_COMPARISON];
    [BITWISE_AND];
    [BITWISE_XOR];
    [BITWISE_OR];
    [AND];
    [OR];
    [ASSIGN; INIT_EXPR];
    [ALLOCATE_PAGES; RETURN; YIELD] ].

(** [tiers.forEach ((tier, precedence, tiers) => ...)], from the tier at
    index [precedence] on: a later tier overwrites what an earlier one
    has set.  [None] is the default, [-Infinity]. *)
Fixpoint assign_precedence (type : ASType) (precedence : nat) (rest : list (list ASType))
  (assigned : option nat) : option nat :=
  match rest with
  | [] => assigned
  | tier :: rest =>
      assign_precedence type (S precedence) rest
        (if bool_decide (type ∈ tier) then Some (length tiers - precedence)%nat
         else assigned)
  end.

Definition precedence (type : ASType) : option nat := assign_precedence type 0 tiers None.

(** [right > left] and [right >= left] on precedences. *)
Definition gt (right left : option nat) : bool :=
  match right, left with
  | Some r, Some l => (l <? r)%nat
  | Some _, None => true
  | None, _ => false
  end.

Definition ge (right left : option nat) : bool :=
  match right, left with
  | Some r, Some l => (l <=? r)%nat
  | _, None => true
  | None, Some _ => false
  end.

(** [getASType (ASType, parentType)] *)
Definition getASType (type parentType : ASType) : ASType :=
  if bool_decide (type = PAREN) then
    if bool_decide (parentType = FN) then PARAM_LIST
    else if bool_decide (parentType = CALL) then ARG_LIST
    else if bool_decide (parentType = FN_PTR) || bool_decide (parentType = FN_SIGNATURE)
    then TYPE_LIST
    else type
  else if bool_decide (parentType = IMPORT) || bool_decide (parentType = PARAM_LIST) then
    if bool_decide (type = DEFINITION) then DECLARATION else type
  else if bool_decide (parentType = DECLARATION) then
    if bool_decide (type = FN) then FN_SIGNATURE else type
  else if bool_decide (parentType = EXPORT) then
    if bool_decide (type = DEFAULT_MEMORY) || bool_decide (type = DEFAULT_TABLE)
    then EXPORT_TYPE else type
  else if bool_decide (type = ASSIGN) && bool_decide (parentType = ROOT) then INIT_EXPR
  else type.

End Grammar.

(** ** The parser (parser.js)

    [parse] builds the tree in a loop over the tokens and then calls
    [resolve] and [validate] on it.  The model is of the loop and of the
    check of the root that follows it: of the tree as [resolve] and
    [validate] get it.

    A node is the object that [createASTNode] makes, but for its
    [parent]: the parser holds one node at a time, and the model holds
    with it the chain of its parents, up to the root.  A node is in the
    [children] of its parent once [place] has put it there, and from
    then on nothing but [meta] fields changes in it.

    The scope objects, and what [define], [defineMemory] and
    [defineTable] write to them, are left open: the loop reads none of
    it.  [Scopes] has the types of a scope object, of a definition, of
    the contents of all scope objects and of an exception, and the
    functions that the model calls where the source works on scopes. *)

Module Parse.
Import Grammar.

#[local] Unset Elimination Schemes.
Inductive Node (Scope Meta : Type) : Type :=
  Node_ {
    alwaysEscapes : bool;
    ASType : Syntax.ASType;
    children : list (Node Scope Meta);
    complete : bool;
    dropValue : bool;
    meta : option Meta;
    runType : RunType;
    scope : option Scope;
    token : option Lexer.Token }.
#[local] Set Elimination Schemes.

Arguments Node_ {Scope Meta}.
Arguments alwaysEscapes {Scope Meta}. Arguments ASType {Scope Meta}.
Arguments children {Scope Meta}. Arguments complete {Scope Meta}.
Arguments dropValue {Scope Meta}. Arguments meta {Scope Meta}.
Arguments runType {Scope Meta}. Arguments scope {Scope Meta}.
Arguments token {Scope Meta}.

Class Scopes : Type := {
  Scope : Type;
  Meta : Type;
  Heap : Type;
  Failure : Type;
  (** [createScope (parent)] *)
  createScope : option Scope -> Heap -> Scope * Heap;
  (** what [define (node)] does once it has [mutable] and [spec] and has
      checked the placement: it makes the definition and records it *)
  definition : bool -> Node Scope Meta -> Node Scope Meta -> Node Scope Meta -> Heap ->
               Failure + Meta * Heap;
  (** [defineMemory (node)] and [defineTable (node)], up to
      [node.meta = definition] *)
  defineMemory : Node Scope Meta -> Heap -> Failure + Meta * Heap;
  defineTable : Node Scope Meta -> Heap -> Failure + Meta * Heap;
  (** [node.scope.references.push (node)] *)
  reference : Node Scope Meta -> Heap -> Heap }.

Section Parser.
Context `{Scopes}.

#[local] Notation "'Node'" := (Node Scope Meta) (only parsing).

Inductive Datum : Type :=
| DNode (node : Node)
| DToken (token : Lexer.Token)
| DPosition (position : nat).

(** [CompileError], the host's [TypeError], and the exceptions of the
    code that records definitions. *)
Inductive Exception : Type :=
| CompileError (type : string) (data : list (string * Datum))
| TypeError
| Recording (failure : Failure).

Definition set_complete (node : Node) : Node :=
  {| alwaysEscapes := alwaysEscapes node; ASType := ASType node; children := children node;
     complete := true; dropValue := dropValue node; meta := meta node;
     runType := runType node; scope := scope node; token := token node |}.

Definition set_meta (definition : Meta) (node : Node) : Node :=
  {| alwaysEscapes := alwaysEscapes node; ASType := ASType node; children := children node;
     complete := complete node; dropValue := dropValue node; meta := Some definition;
     runType := runType node; scope := scope node; token := token node |}.

Definition set_children (children : list Node) (node : Node) : Node :=
  {| alwaysEscapes := alwaysEscapes node; ASType := ASType node; children := children;
     complete := complete node; dropValue := dropValue node; meta := meta node;
     runType := runType node; scope := scope node; token := token node |}.

(** [createASTNode (token, parent, ASType)] *)
Definition createASTNode (token : option Lexer.Token) (parent : option Node)
  (type : Syntax.ASType) (heap : Heap) : Node * Heap :=
  let scope := parent ≫= scope in
  let '(scope, heap) :=
    if createsNewScope type
    then let '(scope, heap) := createScope scope heap in (Some scope, heap)
    else (scope, heap) in
  ({| alwaysEscapes := false; ASType := type; children := [];
      complete := bool_decide (expectedChildCount type = Some 0%nat);
      dropValue := false; meta := None; runType := void; scope := scope;
      token := token |}, heap).

(** [shouldReparent (leftType, rightType)] *)
Definition shouldReparent (leftType rightType : Syntax.ASType) : bool :=
  if bool_decide (leftOperands rightType = 0%nat) then false
  else if rightAssociative rightType then ge (precedence rightType) (precedence leftType)
  else gt (precedence rightType) (precedence leftType).

(** The rule made by [CTCByPos (...positions)], from position [i] on:
    the violation it returns, [None] for [null]; reading the ASType of a
    child that is not there is a [TypeError]. *)
Fixpoint check_positions (i : nat) (positions : list (list Syntax.ASType)) (node : Node)
  : Exception + option (list (string * Datum)) :=
  match positions with
  | [] => inr None
  | acceptable :: positions =>
      match children node !! i with
      | None => inl TypeError
      | Some child =>
          if bool_decide (ASType child ∈ acceptable)
          then check_positions (S i) positions node
          else inr (Some [("position", DPosition i); ("child", DNode child)])
      end
  end.

(** The rule made by [CTCForAll (...acceptableTypes)]. *)
Fixpoint check_all (acceptableTypes : list Syntax.ASType) (children : list Node)
  : option (list (string * Datum)) :=
  match children with
  | [] => None
  | child :: children =>
      if bool_decide (ASType child ∈ acceptableTypes)
      then check_all acceptableTypes children
      else Some [("child", DNode child)]
  end.

(** [ASType.CTC (node)] *)
Definition check_children (type : Syntax.ASType) (node : Node)
  : Exception + option (list (string * Datum)) :=
  match CTC type with
  | CTCByPos positions => check_positions 0 positions node
  | CTCForAll acceptableTypes => inr (check_all acceptableTypes (children node))
  | CTCAddress =>
      match children node with
      | [_] => inr None
      | [_; offset] => inr (if bool_decide (ASType offset = I32_LITERAL) then None else Some [])
      | _ => inr (Some [])
      end
  | CTCDefault => inr None
  end.

(** [ASType.PTC (node)], for a node with the parent [parent]. *)
Definition check_parent (type : Syntax.ASType) (parent : Node) : bool :=
  match PTC type with
  | Some positions => PTCByPos positions (ASType parent) (length (children parent))
  | None => false
  end.

(** [define (node)], for a node with the parent [parent]; it gives the
    node back with the [meta] fields it has set. *)
Definition define (node parent : Node) (heap : Heap) : Exception + Node * Heap :=
  match children node with
  | name :: spec :: rest =>
      let mutable := bool_decide (ASType parent <> IMPORT) in
      let immutable := bool_decide (ASType spec = IMMUTABLE) in
      let mutable := if immutable then false else mutable in
      match (if immutable then head (children spec) else Some spec) with
      | None => inl TypeError
      | Some type =>
          if bool_decide (ASType type = FN) && bool_decide (ASType parent <> ROOT) then
            inl (CompileError "Bad Placement for Function Definition" [("node", DNode node)])
          else
            match definition mutable node type parent heap with
            | inl failure => inl (Recording failure)
            | inr (made, heap) =>
                let spec :=
                  if immutable
                  then set_children (set_meta made type :: tail (children spec)) spec
                  else set_meta made spec in
                inr (set_meta made (set_children (name :: spec :: rest) node), heap)
            end
      end
  | _ => inl TypeError
  end.

(** [place (node)], for a node with the parent [parent]; it gives back
    the parent, with the node at the end of its children. *)
Definition place (node parent : Node) (heap : Heap) : Exception + Node * Heap :=
  match check_children (ASType node) node with
  | inl e => inl e
  | inr (Some violation) =>
      inl (CompileError "Unintelligible Syntax (Child Type Constraint Violation)"
             (("node", DNode node) :: violation))
  | inr None =>
      if check_parent (ASType node) parent then
        inl (CompileError "Unintelligible Syntax (Parent Type Constraint Violation)"
               [("node", DNode node)])
      else
        let recorded :=
          if bool_decide (ASType node = DEFINITION) || bool_decide (ASType node = DECLARATION)
          then define node parent heap
          else if bool_decide (ASType node = DEFAULT_MEMORY) then
            match defineMemory node heap with
            | inl failure => inl (Recording failure)
            | inr (made, heap) => inr (set_meta made node, heap)
            end
          else if bool_decide (ASType node = DEFAULT_TABLE) then
            match defineTable node heap with
            | inl failure => inl (Recording failure)
            | inr (made, heap) => inr (set_meta made node, heap)
            end
          else if isReference (ASType node) && negb (createsName (ASType parent))
          then inr (node, reference node heap)
          else inr (node, heap) in
        match recorded with
        | inl e => inl e
        | inr (node, heap) => inr (set_children (children parent ++ [node]) parent, heap)
        end
  end.

(** [if (node.children.length === node.ASType.expectedChildCount)
    node.complete = true] *)
Definition completed (node : Node) : Node :=
  if bool_decide (Some (length (children node)) = expectedChildCount (ASType node))
  then set_complete node else node.

(** *** The loop

    An iteration works on a token, on the node and on the chain of the
    parents of the node, and it either takes the token or places the
    node and leaves the token to the next iteration, which then works
    on the parent.  [examine] is the iterations that one token sees. *)
Section Iterations.
Variable token : Lexer.Token.
Variable next : Node -> list Node -> Heap -> Exception + Node * list Node * Heap.

(** The branch of [node.complete]; a root that is complete has no
    parent to read the ASType of. *)
Definition ascend (node : Node) (parents : list Node) (heap : Heap)
  : Exception + Node * list Node * Heap :=
  match parents with
  | [] => inl TypeError
  | parent :: parents =>
      if shouldReparent (ASType parent) (Lexer.ASType_of token) then
        let '(adopter, heap) :=
          createASTNode (Some token) (Some parent)
            (getASType (Lexer.ASType_of token) (ASType parent)) heap in
        match place node adopter heap with
        | inl e => inl e
        | inr (adopter, heap) => inr (completed adopter, parent :: parents, heap)
        end
      else
        match place node parent heap with
        | inl e => inl e
        | inr (parent, heap) => next (completed parent) parents heap
        end
  end.

End Iterations.

Fixpoint examine (token : Lexer.Token) (node : Node) (parents : list Node) (heap : Heap)
  {struct parents} : Exception + Node * list Node * Heap :=
  if complete node then ascend token (examine token) node parents heap
  else if isTerminator (Lexer.ASType_of token) then
    if bool_decide (requiresTerminator (ASType node) = Some (Lexer.ASType_of token))
    then inr (set_complete node, parents, heap)
    else if bool_decide (ASType node = RETURN)
    then ascend token (examine token) (set_complete node) parents heap
    else if bool_decide (ignoresTerminator (ASType node) <> Some (Lexer.ASType_of token))
    then inl (CompileError "Misplaced Terminator or Unfinished Expression"
                [("node", DNode node); ("token", DToken token)])
    else inr (node, parents, heap)
  else if bool_decide (leftOperands (Lexer.ASType_of token) <> 0%nat) then
    if bool_decide (Lexer.ASType_of token = SUB) then
      let '(child, heap) := createASTNode (Some token) (Some node) NEG heap in
      inr (child, node :: parents, heap)
    else inl (CompileError "Unfinished Expression" [("token", DToken token)])
  else
    let '(child, heap) :=
      createASTNode (Some token) (Some node)
        (getASType (Lexer.ASType_of token) (ASType node)) heap in
    inr (child, node :: parents, heap).

(** What the loop does with a token, from the iteration that comes to it
    first to the one that takes it. *)
Definition iterations (token : Lexer.Token) (node : Node) (parents : list Node)
  (heap : Heap) : Exception + Node * list Node * Heap :=
  if skip (Lexer.ASType_of token) then inr (node, parents, heap)
  else if bool_decide (Lexer.ASType_of token = BAD_TOKEN)
  then inl (CompileError "Mysterious Symbol" [("token", DToken token)])
  else examine token node parents heap.

Fixpoint loop (tokens : list Lexer.Token) (node : Node) (parents : list Node) (heap : Heap)
  : Exception + Node * list Node * Heap :=
  match tokens with
  | [] => inr (node, parents, heap)
  | token :: tokens =>
      match iterations token node parents heap with
      | inl e => inl e
      | inr (node, parents, heap) => loop tokens node parents heap
      end
  end.

(** The root is the end of the chain of parents. *)
Definition root_of (node : Node) (parents : list Node) : Node := List.last parents node.

(** [parse (tokens)], up to the calls of [resolve] and [validate]. *)
Definition parse (tokens : list Lexer.Token) (heap : Heap) : Exception + Node * Heap :=
  let '(root, heap) := createASTNode None None ROOT heap in
  match loop tokens root [] heap with
  | inl e => inl e
  | inr (node, parents, heap) =>
      let root := root_of node parents in
      match check_children ROOT root with
      | inl e => inl e
      | inr (Some violation) =>
          inl (CompileError "Unintelligible Syntax (Child Type Constraint Violation)"
                 (("node", DNode root) :: violation))
      | inr None => inr (root, heap)
      end
  end.

End Parser.

Arguments Datum {_}. Arguments Exception {_}.

End Parse.

(** *** The iterations of the loop *)

Section Iterating.
Import Grammar Parse.
Context `{Scopes}.

#[local] Notation "'Node'" := (Parse.Node Scope Meta) (only parsing).

(** The body of the loop of [parse], for the token at [index]: it throws,
    or it gives the node and the chain of its parents to the next
    iteration; [true] stands for [index--], which leaves the token to
    that iteration. *)
Definition iteration (token : Lexer.Token) (node : Node) (parents : list Node)
  (heap : Heap) : Exception + bool * Node * list Node * Heap :=
  if skip (Lexer.ASType_of token) then inr (false, node, parents, heap)
  else if bool_decide (Lexer.ASType_of token = BAD_TOKEN)
  then inl (CompileError "Mysterious Symbol" [("token", DToken token)])
  else if complete node then
    match parents with
    | [] => inl TypeError
    | parent :: parents =>
        if shouldReparent (ASType parent) (Lexer.ASType_of token) then
          let '(adopter, heap) :=
            createASTNode (Some token) (Some parent)
              (getASType (Lexer.ASType_of token) (ASType parent)) heap in
          match place node adopter heap with
          | inl e => inl e
          | inr (adopter, heap) => inr (false, completed adopter, parent :: parents, heap)
          end
        else
          match place node parent heap with
          | inl e => inl e
          | inr (parent, heap) => inr (true, completed parent, parents, heap)
          end
    end
  else if isTerminator (Lexer.ASType_of token) then
    if bool_decide (requiresTerminator (ASType node) = Some (Lexer.ASType_of token))
    then inr (false, set_complete node, parents, heap)
    else if bool_decide (ASType node = RETURN)
    then inr (true, set_complete node, parents, heap)
    else if bool_decide (ignoresTerminator (ASType node) <> Some (Lexer.ASType_of token))
    then inl (CompileError "Misplaced Terminator or Unfinished Expression"
                [("node", DNode node); ("token", DToken token)])
    else inr (false, node, parents, heap)
  else if bool_decide (leftOperands (Lexer.ASType_of token) <> 0%nat) then
    if bool_decide (Lexer.ASType_of token = SUB) then
      let '(child, heap) := createASTNode (Some token) (Some node) NEG heap in
      inr (false, child, node :: parents, heap)
    else inl (CompileError "Unfinished Expression" [("token", DToken token)])
  else
    let '(child, heap) :=
      createASTNode (Some token) (Some node)
        (getASType (Lexer.ASType_of token) (ASType node)) heap in
    inr (false, child, node :: parents, heap).

(** [examine] is the iterations on a token up to the one that takes
    it. *)
Lemma examine_iteration token node parents heap :
  skip (Lexer.ASType_of token) = false -> Lexer.ASType_of token <> BAD_TOKEN ->
  examine token node parents heap =
  match iteration token node parents heap with
  | inl e => inl e
  | inr (true, node, parents, heap) => examine token node parents heap
  | inr (false, node, parents, heap) => inr (node, parents, heap)
  end.
Proof.
  intros Hskip Hbad. unfold iteration. rewrite Hskip, (bool_decide_eq_false_2 _ Hbad).
  assert (Hascend : forall node,
    ascend token (examine token) node parents heap =
    match
      match parents with
      | [] => inl TypeError
      | parent :: parents =>
          if shouldReparent (ASType parent) (Lexer.ASType_of token) then
            let '(adopter, heap) :=
              createASTNode (Some token) (Some parent)
                (getASType (Lexer.ASType_of token) (ASType parent)) heap in
            match place node adopter heap with
            | inl e => inl e
            | inr (adopter, heap) => inr (false, completed adopter, parent :: parents, heap)
            end
          else
            match place node parent heap with
            | inl e => inl e
            | inr (parent, heap) => inr (true, completed parent, parents, heap)
            end
      end
    with
    | inl e => inl e
    | inr (true, node, parents, heap) => examine token node parents heap
    | inr (false, node, parents, heap) => inr (node, parents, heap)
    end).
  { intros node'. unfold ascend. destruct parents as [|parent parents']; [done|].
    destruct (shouldReparent _ _).
    - destruct (createASTNode _ _ _ _) as [adopter heap1].
      by destruct (place node' adopter heap1) as [e|[adopter' heap2]].
    - by destruct (place node' parent heap) as [e|[parent' heap2]]. }
  assert (Hunfold : examine token node parents heap =
    if complete node then ascend token (examine token) node parents heap
    else if isTerminator (Lexer.ASType_of token) then
      if bool_decide (requiresTerminator (ASType node) = Some (Lexer.ASType_of token))
      then inr (set_complete node, parents, heap)
      else if bool_decide (ASType node = RETURN)
      then ascend token (examine token) (set_complete node) parents heap
      else if bool_decide (ignoresTerminator (ASType node) <> Some (Lexer.ASType_of token))
      then inl (CompileError "Misplaced Terminator or Unfinished Expression"
                  [("node", DNode node); ("token", DToken token)])
      else inr (node, parents, heap)
    else if bool_decide (leftOperands (Lexer.ASType_of token) <> 0%nat) then
      if bool_decide (Lexer.ASType_of token = SUB) then
        let '(child, heap) := createASTNode (Some token) (Some node) NEG heap in
        inr (child, node :: parents, heap)
      else inl (CompileError "Unfinished Expression" [("token", DToken token)])
    else
      let '(child, heap) :=
        createASTNode (Some token) (Some node)
          (getASType (Lexer.ASType_of token) (ASType node)) heap in
      inr (child, node :: parents, heap)) by (by destruct parents).
  rewrite Hunfold. clear Hunfold.
  destruct (complete node) eqn:Hcomplete; [apply Hascend|].
  destruct (isTerminator _).
  - destruct (bool_decide (requiresTerminator _ = _)); [done|].
    destruct (bool_decide (ASType node = RETURN)).
    + rewrite Hascend.
      assert (Hset : examine token (set_complete node) parents heap =
                     ascend token (examine token) (set_complete node) parents heap)
        by (by destruct parents).
      by rewrite Hset, Hascend.
    + by destruct (bool_decide (ignoresTerminator _ <> _)).
  - destruct (bool_decide (leftOperands _ <> _)).
    + destruct (bool_decide (_ = SUB)); [|done]. by destruct (createASTNode _ _ _ _).
    + by destruct (createASTNode _ _ _ _).
Qed.

(** [loop] is the loop of the iterations. *)
Lemma loop_iteration token tokens node parents heap :
  loop (token :: tokens) node parents heap =
  match iteration token node parents heap with
  | inl e => inl e
  | inr (again, node, parents, heap) =>
      loop (if again then token :: tokens else tokens) node parents heap
  end.
Proof.
  cbn [loop]. unfold iterations.
  destruct (skip (Lexer.ASType_of token)) eqn:Hskip.
  { unfold iteration. by rewrite Hskip. }
  destruct (bool_decide (Lexer.ASType_of token = BAD_TOKEN)) eqn:Hbad.
  { unfold iteration. by rewrite Hskip, Hbad. }
  apply bool_decide_eq_false in Hbad.
  rewrite (examine_iteration _ _ _ _ Hskip Hbad).
  destruct (iteration token node parents heap) as [e|[[[[] node'] parents'] heap']]; try done.
  cbn [loop]. unfold iterations. by rewrite Hskip, (bool_decide_eq_false_2 _ Hbad).
Qed.

(** An iteration that leaves the token places the node, or completes a
    [return]: the weight of the chain goes down. *)
Definition weight (node : Node) (parents : list Node) : nat :=
  2 * length parents + (if complete node then 0 else 1).

Lemma iteration_weight token node parents heap node' parents' heap' :
  iteration token node parents heap = inr (true, node', parents', heap') ->
  (weight node' parents' < weight node parents)%nat.
Proof.
  unfold iteration, weight. intros Hrun.
  repeat match type of Hrun with
         | (if ?c then _ else _) = _ => destruct c eqn:?
         | match ?c with _ => _ end = _ => destruct c eqn:?
         | (let '(_, _) := ?c in _) = _ => destruct c eqn:?
         end; try discriminate; injection Hrun as <- <- <-; cbn [length complete set_complete];
    try destruct (complete (completed _)); lia.
Qed.

(** What holds before the loop and is kept by every iteration holds when
    the loop has ended, and where an iteration throws. *)
Lemma loop_invariant (I : list Lexer.Token -> Node -> list Node -> Prop) :
  (forall token tokens node parents heap again node' parents' heap',
     I (token :: tokens) node parents ->
     iteration token node parents heap = inr (again, node', parents', heap') ->
     I (if again then token :: tokens else tokens) node' parents') ->
  forall tokens node parents heap,
    I tokens node parents ->
    match loop tokens node parents heap with
    | inr (node', parents', _) => I [] node' parents'
    | inl e =>
        exists token tokens' node' parents' heap',
          I (token :: tokens') node' parents' /\
          iteration token node' parents' heap' = inl e
    end.
Proof.
  intros Hkeeps tokens. induction tokens as [|token tokens IH]; intros node parents heap HI.
  { exact HI. }
  remember (weight node parents) as w eqn:Hw.
  revert node parents heap HI Hw.
  induction w as [w IHw] using lt_wf_ind. intros node parents heap HI ->.
  rewrite loop_iteration.
  destruct (iteration token node parents heap)
    as [e|[[[again node'] parents'] heap']] eqn:Hrun.
  - by exists token, tokens, node, parents, heap.
  - pose proof (Hkeeps _ _ _ _ _ _ _ _ _ HI Hrun) as HI'. destruct again.
    + exact (IHw _ (iteration_weight _ _ _ _ _ _ _ Hrun) _ _ _ HI' eq_refl).
    + by apply IH.
Qed.

End Iterating.

(** *** The shape of the tree *)

Section Shapes.
Import Grammar Parse.
Context `{Scopes}.

#[local] Notation "'Node'" := (Parse.Node Scope Meta) (only parsing).

Section Induction.
Variable P : Node -> Prop.
Hypothesis IH : forall node, Forall P (children node) -> P node.

Fixpoint Node_induction (node : Node) : P node :=
  match node with
  | Node_ a type children complete d meta r scope token =>
      IH (Node_ a type children complete d meta r scope token)
        ((fix each (nodes : list Node) : Forall P nodes :=
            match nodes with
            | [] => Forall_nil_2 P
            | node :: nodes => Forall_cons_2 P node nodes (Node_induction node) (each nodes)
            end) children)
  end.
End Induction.

(** The ASTypes are finitely many, and what holds for each of them can
    be computed. *)
Definition types : list Syntax.ASType :=
  [ ADD; ADDRESS; ADDRESS_CLOSE; ALLOCATE_PAGES; AND; ARG_LIST; AS; ASSIGN; BAD_TOKEN;
    BITWISE_AND; BITWISE_OR; BITWISE_SHIFT; BITWISE_XOR; BLOCK; BLOCK_CLOSE; BREAK; CALL;
    COMMA; COMMENT; CONTINUE; DECLARATION; DEFAULT_MEMORY; DEFAULT_TABLE; DEFINITION;
    ELSE; END_OF_INPUT; EQ_COMPARISON; EXPORT; EXPORT_TYPE; F32_LITERAL; F64_LITERAL; FN;
    FN_PTR; FN_SIGNATURE; FROM; I32_LITERAL; I64_LITERAL; IF; IMMUTABLE; IMPORT;
    INIT_EXPR; LOOP; MEMORY_ACCESS; MISC_INFIX; NEG; OR; ORDER_COMPARISON;
    PAGES_ALLOCATED; PARAM_LIST; PAREN; PAREN_CLOSE; PASS; PTR; RETURN; ROOT; SCALE_OP;
    SEMICOLON; STRING; STORAGE_TYPE; SUB; SUFFIX_OP; TYPE_LIST; UNARY_MATH_OP;
    VALUE_TYPE; VARIABLE; VOID; WS; YIELD ].

Lemma types_all (type : Syntax.ASType) : type ∈ types.
Proof. apply (bool_decide_unpack _). by destruct type; vm_compute. Qed.

#[local] Instance each_type_dec (P : Syntax.ASType -> Prop) `{!forall type, Decision (P type)} :
  Decision (forall type, P type).
Proof.
  refine (cast_if (decide (Forall P types))).
  - intros type. eapply Forall_forall; [eassumption|apply types_all].
  - intros Hall. apply n, Forall_forall. intros type _. apply Hall.
Defined.

Ltac tabulate := apply (bool_decide_unpack _); vm_compute; reflexivity.

(** The node without its [meta] fields. *)
Fixpoint erase (node : Node) : Node :=
  match node with
  | Node_ a type children complete d _ r scope token =>
      Node_ a type (erase <$> children) complete d None r scope token
  end.

(** The number of children is the one that the ASType expects; a
    [return] may have none. *)
Definition counted (node : Node) : bool :=
  match expectedChildCount (ASType node) with
  | None => true
  | Some count =>
      bool_decide (length (children node) = count) ||
      bool_decide (ASType node = RETURN) && bool_decide (length (children node) = 0%nat)
  end.

(** The rule [CTC] of its ASType finds nothing wrong with the node. *)
Definition constrained (node : Node) : bool :=
  match check_children (ASType node) node with inr None => true | _ => false end.

(** The definition of a function is a child of the root. *)
Definition function_placement (parentType : Syntax.ASType) (node : Node) : bool :=
  match children node with
  | _ :: spec :: _ =>
      implb (createsName (ASType node) && bool_decide (ASType spec = FN))
        (bool_decide (parentType = ROOT))
  | _ => true
  end.

(** The rule [PTC] of its ASType lets the node be the child at
    [position] of a parent of the type [parentType]. *)
Definition placement (parentType : Syntax.ASType) (position : nat) (node : Node) : bool :=
  negb (match PTC (ASType node) with
        | Some positions => PTCByPos positions parentType position
        | None => false
        end) &&
  function_placement parentType node.

Fixpoint placements (parentType : Syntax.ASType) (position : nat) (children : list Node)
  : bool :=
  match children with
  | [] => true
  | child :: children =>
      placement parentType position child && placements parentType (S position) children
  end.

(** Below the node, every node is complete, has the children that its
    ASType expects and its rule [CTC] accepts, and is where its rule
    [PTC] lets it be. *)
Fixpoint sound (node : Node) : bool :=
  match node with
  | Node_ _ type children _ _ _ _ _ _ =>
      forallb (fun child => complete child && counted child && constrained child &&
                            sound child) children &&
      placements type 0 children
  end.

Definition well_formed (node : Node) : bool :=
  complete node && counted node && constrained node && sound node.

Lemma sound_unfold node :
  sound node = forallb well_formed (children node) &&
               placements (ASType node) 0 (children node).
Proof. by destruct node. Qed.

(** **** Without the [meta] fields *)

Lemma erase_fields node :
  ASType (erase node) = ASType node /\ complete (erase node) = complete node /\
  token (erase node) = token node /\ children (erase node) = erase <$> children node.
Proof. by destruct node. Qed.

Lemma erase_set_meta made node : erase (set_meta made node) = erase node.
Proof. by destruct node. Qed.

Lemma erase_set_children children node :
  erase (set_children children node) = set_children (erase <$> children) (erase node).
Proof. by destruct node. Qed.

Lemma erase_types (nodes nodes' : list Node) :
  erase <$> nodes = erase <$> nodes' -> ASType <$> nodes = ASType <$> nodes'.
Proof.
  revert nodes'. induction nodes as [|node nodes IH]; intros [|node' nodes']; try done.
  cbn. intros [= Hnode Hnodes]. f_equal; [|by apply IH].
  destruct (erase_fields node) as [<- _], (erase_fields node') as [<- _]. by rewrite Hnode.
Qed.

Lemma adopter_operands (type parentType : Syntax.ASType) :
  leftOperands type <> 0%nat ->
  leftOperands (getASType type parentType) <> 0%nat /\
  expectedChildCount (getASType type parentType) <> None /\
  expectedChildCount (getASType type parentType) <> Some 0%nat.
Proof. revert type parentType. tabulate. Qed.

(** What a rule [CTC] says depends on the ASTypes of the children. *)
Fixpoint accepts_positions (i : nat) (positions : list (list Syntax.ASType))
  (childTypes : list Syntax.ASType) : bool :=
  match positions with
  | [] => true
  | acceptable :: positions =>
      match childTypes !! i with
      | None => false
      | Some type =>
          bool_decide (type ∈ acceptable) && accepts_positions (S i) positions childTypes
      end
  end.

Definition accepts (type : Syntax.ASType) (childTypes : list Syntax.ASType) : bool :=
  match CTC type with
  | CTCByPos positions => accepts_positions 0 positions childTypes
  | CTCForAll acceptableTypes =>
      forallb (fun type => bool_decide (type ∈ acceptableTypes)) childTypes
  | CTCAddress =>
      match childTypes with
      | [_] => true
      | [_; offset] => bool_decide (offset = I32_LITERAL)
      | _ => false
      end
  | CTCDefault => true
  end.

Lemma check_positions_accepts i positions (node : Node) :
  match check_positions i positions node with inr None => true | _ => false end =
  accepts_positions i positions (ASType <$> children node).
Proof.
  revert i. induction positions as [|acceptable positions IH]; intros i; [done|].
  cbn [check_positions accepts_positions]. rewrite list_lookup_fmap.
  destruct (children node !! i) as [child|]; [|done]. cbn [fmap option_fmap option_map].
  destruct (bool_decide (ASType child ∈ acceptable)); [apply IH|done].
Qed.

Lemma check_all_accepts acceptableTypes (nodes : list Node) :
  match check_all acceptableTypes nodes with None => true | _ => false end =
  forallb (fun type => bool_decide (type ∈ acceptableTypes)) (ASType <$> nodes).
Proof.
  induction nodes as [|node nodes IH]; [done|]. cbn.
  destruct (bool_decide (ASType node ∈ acceptableTypes)); [apply IH|done].
Qed.

Lemma check_children_accepts type (node : Node) :
  match check_children type node with inr None => true | _ => false end =
  accepts type (ASType <$> children node).
Proof.
  unfold check_children, accepts. destruct (CTC type) as [positions|acceptable| |].
  - apply check_positions_accepts.
  - apply check_all_accepts.
  - destruct (children node) as [|first [|offset [|? ?]]]; try done.
    cbn. by destruct (bool_decide _).
  - done.
Qed.

Lemma constrained_accepts (node : Node) :
  constrained node = accepts (ASType node) (ASType <$> children node).
Proof. apply check_children_accepts. Qed.

Lemma alike (node node' : Node) :
  erase node = erase node' ->
  ASType node = ASType node' /\ complete node = complete node' /\
  token node = token node' /\ erase <$> children node = erase <$> children node'.
Proof.
  intros Heq.
  destruct (erase_fields node) as (<- & <- & <- & <-).
  destruct (erase_fields node') as (<- & <- & <- & <-). by rewrite Heq.
Qed.

Lemma alike_length (nodes nodes' : list Node) :
  erase <$> nodes = erase <$> nodes' -> length nodes = length nodes'.
Proof. intros Heq. apply (f_equal length) in Heq. by rewrite !length_fmap in Heq. Qed.

Lemma counted_alike (node node' : Node) :
  erase node = erase node' -> counted node = counted node'.
Proof.
  intros (Htype & _ & _ & Hchildren)%alike. unfold counted.
  by rewrite Htype, (alike_length _ _ Hchildren).
Qed.

Lemma constrained_alike (node node' : Node) :
  erase node = erase node' -> constrained node = constrained node'.
Proof.
  intros (Htype & _ & _ & Hchildren)%alike.
  by rewrite !constrained_accepts, Htype, (erase_types _ _ Hchildren).
Qed.

Lemma function_placement_alike parentType (node node' : Node) :
  erase node = erase node' ->
  function_placement parentType node = function_placement parentType node'.
Proof.
  intros (Htype & _ & _ & Hchildren)%alike. unfold function_placement.
  destruct (children node) as [|name [|spec rest]], (children node') as [|name' [|spec' rest']];
    try done.
  injection Hchildren as _ (Hspec & _)%alike _. by rewrite Htype, Hspec.
Qed.

Lemma placement_alike parentType position (node node' : Node) :
  erase node = erase node' ->
  placement parentType position node = placement parentType position node'.
Proof.
  intros Heq. unfold placement. rewrite (function_placement_alike _ _ _ Heq).
  by destruct (alike _ _ Heq) as [-> _].
Qed.

Lemma placements_alike parentType position (nodes nodes' : list Node) :
  erase <$> nodes = erase <$> nodes' ->
  placements parentType position nodes = placements parentType position nodes'.
Proof.
  revert position nodes'. induction nodes as [|node nodes IH]; intros position [|node' nodes'];
    try done.
  intros [= Hnode Hnodes]. cbn [placements].
  by rewrite (placement_alike _ _ _ _ Hnode), (IH _ _ Hnodes).
Qed.

Lemma erase_erase (node : Node) : erase (erase node) = erase node.
Proof.
  induction node as [node IH] using Node_induction.
  destruct node as [a type children complete d meta r scope token]. cbn in *. f_equal.
  induction IH as [|node nodes Hnode _ IHnodes]; [done|]. cbn. by rewrite Hnode, IHnodes.
Qed.

Lemma well_formed_erase (node : Node) : well_formed (erase node) = well_formed node.
Proof.
  induction node as [node IH] using Node_induction. unfold well_formed.
  rewrite (counted_alike _ _ (erase_erase node)), (constrained_alike _ _ (erase_erase node)).
  destruct (erase_fields node) as (_ & -> & _ & _). f_equal.
  rewrite !sound_unfold. destruct (erase_fields node) as (-> & _ & _ & ->). f_equal.
  - induction IH as [|child nodes Hchild _ IHnodes]; [done|].
    cbn [fmap list_fmap forallb]. by rewrite IHnodes, Hchild.
  - apply placements_alike. clear.
    induction (children node) as [|child nodes IHnodes]; [done|]. cbn.
    by rewrite erase_erase, IHnodes.
Qed.

Lemma well_formed_alike (node node' : Node) :
  erase node = erase node' -> well_formed node = well_formed node'.
Proof. intros Heq. by rewrite <- (well_formed_erase node), Heq, well_formed_erase. Qed.

(** **** What [place] checks *)

Lemma define_spec (node parent : Node) heap node' heap' :
  define node parent heap = inr (node', heap') ->
  erase node' = erase node /\
  (2 <= length (children node))%nat /\
  function_placement (ASType parent) node = true.
Proof.
  unfold define, function_placement.
  destruct node as [a type [|name [|spec rest]] complete d meta r scope token];
    cbn [children]; try done.
  destruct (bool_decide (ASType spec = IMMUTABLE)) eqn:Himmutable.
  - apply bool_decide_eq_true in Himmutable.
    destruct (head (children spec)) as [inner|] eqn:Hinner; [|done].
    destruct (_ && _); [done|].
    destruct (definition _ _ _ _ _) as [failure|[made heap1]]; [done|].
    intros [= <- <-]. split_and!; [|cbn; lia|].
    + rewrite erase_set_meta, erase_set_children. cbn [fmap list_fmap].
      rewrite erase_set_children. cbn [fmap list_fmap]. rewrite erase_set_meta.
      destruct spec as [a' type' [|first others] complete' d' meta' r' scope' token'];
        [done|].
      by injection Hinner as ->.
    + rewrite Himmutable. cbn. by rewrite andb_false_r.
  - destruct (bool_decide (ASType spec = FN) && _) eqn:Hfunction; [done|].
    destruct (definition _ _ _ _ _) as [failure|[made heap1]]; [done|].
    intros [= <- <-]. split_and!; [|cbn; lia|].
    + rewrite erase_set_meta, erase_set_children. cbn [fmap list_fmap].
      by rewrite erase_set_meta.
    + destruct (bool_decide (ASType spec = FN)); [|by rewrite andb_false_r].
      cbn in Hfunction. apply bool_decide_eq_false in Hfunction.
      rewrite andb_true_r, bool_decide_eq_true_2; [by destruct (createsName _)|].
      by destruct (decide (ASType parent = ROOT)).
Qed.

Lemma place_spec (node parent : Node) heap parent' heap' :
  place node parent heap = inr (parent', heap') ->
  exists node',
    parent' = set_children (children parent ++ [node']) parent /\
    erase node' = erase node /\
    constrained node = true /\
    placement (ASType parent) (length (children parent)) node = true.
Proof.
  unfold place, constrained, placement.
  destruct (check_children (ASType node) node) as [e|[violation|]]; try done.
  unfold check_parent. destruct (match PTC _ with Some _ => _ | None => _ end); [done|].
  cbn [negb andb].
  destruct (bool_decide (ASType node = DEFINITION) || bool_decide (ASType node = DECLARATION))
    eqn:Hnames.
  { destruct (define node parent heap) as [e|[node' heap1]] eqn:Hdefine; [done|].
    intros [= <- <-]. exists node'.
    by destruct (define_spec _ _ _ _ _ Hdefine) as (? & _ & ?). }
  assert (Hplacement : function_placement (ASType parent) node = true).
  { unfold function_placement. destruct (children node) as [|? [|? ?]]; try done.
    destruct (ASType node); try done; by vm_compute in Hnames. }
  destruct (bool_decide (ASType node = DEFAULT_MEMORY)).
  { destruct (defineMemory node heap) as [e|[made heap1]]; [done|].
    intros [= <- <-]. eexists. by rewrite erase_set_meta. }
  destruct (bool_decide (ASType node = DEFAULT_TABLE)).
  { destruct (defineTable node heap) as [e|[made heap1]]; [done|].
    intros [= <- <-]. eexists. by rewrite erase_set_meta. }
  destruct (_ && _); intros [= <- <-]; by eexists.
Qed.

(** **** The chain of the open nodes

    An open node counts its children: a complete one has the children
    it expects, another one has fewer. *)
Definition counting (node : Node) : bool :=
  if complete node then counted node
  else match expectedChildCount (ASType node) with
       | None => true
       | Some count => (length (children node) <? count)%nat
       end.

(** A node with an operand on its left has got it. *)
Definition left_first (node : Node) : bool :=
  bool_decide (leftOperands (ASType node) = 0%nat) ||
  negb (bool_decide (length (children node) = 0%nat)).

Definition frame (node : Node) : bool := sound node && counting node && left_first node.

Definition chain (node : Node) (parents : list Node) : Prop :=
  frame node = true /\
  Forall (fun parent => frame parent = true /\ complete parent = false) parents /\
  ASType (root_of node parents) = ROOT /\ token (root_of node parents) = None.

Lemma placements_app parentType position (nodes : list Node) (node : Node) :
  placements parentType position (nodes ++ [node]) =
  placements parentType position nodes &&
  placement parentType (position + length nodes) node.
Proof.
  revert position. induction nodes as [|first nodes IH]; intros position; cbn.
  - by rewrite Nat.add_0_r, andb_true_r.
  - rewrite IH, andb_assoc. by replace (position + S (length nodes))%nat
      with (S position + length nodes)%nat by lia.
Qed.

Lemma completed_fields (node : Node) :
  ASType (completed node) = ASType node /\ token (completed node) = token node /\
  children (completed node) = children node /\
  complete (completed node) =
    complete node ||
    bool_decide (Some (length (children node)) = expectedChildCount (ASType node)).
Proof.
  unfold completed. destruct (bool_decide _); cbn; [by rewrite orb_true_r|].
  by rewrite orb_false_r.
Qed.

Lemma set_children_fields nodes (node : Node) :
  ASType (set_children nodes node) = ASType node /\
  token (set_children nodes node) = token node /\
  children (set_children nodes node) = nodes /\
  complete (set_children nodes node) = complete node.
Proof. done. Qed.

Lemma frame_fields (node node' : Node) :
  ASType node' = ASType node -> children node' = children node ->
  complete node' = complete node -> frame node' = frame node.
Proof.
  intros Htype Hchildren Hcomplete.
  unfold frame, counting, counted, left_first.
  by rewrite !sound_unfold, Htype, Hchildren, Hcomplete.
Qed.

(** A complete frame that is placed makes its parent a frame again. *)
Lemma frame_placed (node parent : Node) heap parent' heap' :
  frame node = true -> complete node = true ->
  sound parent && counting parent = true -> complete parent = false ->
  place node parent heap = inr (parent', heap') ->
  frame (completed parent') = true /\
  ASType (completed parent') = ASType parent /\
  token (completed parent') = token parent /\
  children (completed parent') <> [].
Proof.
  intros Hnode Hcomplete Hparent Hopen
    (node' & -> & Halike & Hconstrained & Hplacement)%place_spec.
  destruct (completed_fields (set_children (children parent ++ [node']) parent))
    as (Htype & Htoken & Hchildren & Hcompleted).
  destruct (set_children_fields (children parent ++ [node']) parent)
    as (Htype' & Htoken' & Hchildren' & Hcomplete').
  rewrite Htype', Hchildren', Hcomplete', Hopen, length_app in Hcompleted.
  cbn [orb length] in Hcompleted.
  rewrite Htype', Htoken' in *. rewrite Hchildren' in Hchildren.
  split_and!; [|done|done|rewrite Hchildren; by destruct (children parent)].
  unfold frame in *.
  apply andb_prop in Hnode as [[Hsound Hcounting]%andb_prop Hleft].
  apply andb_prop in Hparent as [Hsound' Hcounting'].
  apply andb_true_intro; split; [apply andb_true_intro; split|].
  - rewrite sound_unfold in Hsound' |- *. rewrite Htype, Hchildren.
    apply andb_prop in Hsound' as [Hall Hplaces].
    rewrite forallb_app, Hall, placements_app, Hplaces. cbn [forallb andb Nat.add].
    rewrite (well_formed_alike _ _ Halike), (placement_alike _ _ _ _ Halike), Hplacement.
    unfold well_formed. unfold counting in Hcounting. rewrite Hcomplete in Hcounting |- *.
    by rewrite Hcounting, Hconstrained, Hsound.
  - unfold counting, counted in *. rewrite Hopen in Hcounting'.
    rewrite Hcompleted, Htype, Hchildren, length_app. cbn [length].
    destruct (expectedChildCount (ASType parent)) as [count|] eqn:Hcount.
    + apply Nat.ltb_lt in Hcounting'.
      destruct (bool_decide (Some _ = Some count)) eqn:Hfull.
      * apply bool_decide_eq_true in Hfull. injection Hfull as <-.
        by rewrite bool_decide_eq_true_2.
      * apply bool_decide_eq_false in Hfull. apply Nat.ltb_lt.
        destruct (decide (length (children parent) + 1 = count)%nat); [by subst|lia].
    + by rewrite bool_decide_eq_false_2.
  - unfold left_first. rewrite Hchildren, length_app. cbn [length].
    rewrite (bool_decide_eq_false_2 (_ + 1 = 0)%nat) by lia. apply orb_true_r.
Qed.

(** A node that [createASTNode] has made is a frame, if it has no left
    operand to wait for. *)
Lemma frame_created token parent type heap (node : Node) heap' :
  createASTNode token parent type heap = (node, heap') ->
  ASType node = type /\ Parse.token node = token /\ children node = [] /\
  complete node = bool_decide (expectedChildCount type = Some 0%nat) /\
  (leftOperands type = 0%nat -> frame node = true).
Proof.
  unfold createASTNode.
  destruct (createsNewScope type); [destruct (createScope _ _)|];
    intros [= <- <-]; (split_and!; [done..|]); intros Hleft;
    unfold frame, counting, counted, left_first; cbn;
    rewrite Hleft; cbn;
    (destruct (expectedChildCount type) as [[|count]|]; by cbn).
Qed.

Lemma root_of_cons (node parent : Node) parents :
  root_of node (parent :: parents) = root_of parent parents.
Proof.
  unfold root_of. revert node parent.
  induction parents as [|next parents IH]; intros node parent; [done|].
  change (List.last (parent :: next :: parents) node) with (List.last (next :: parents) node).
  by rewrite IH.
Qed.

Lemma root_of_fields (node node' : Node) parents :
  ASType node' = ASType node -> token node' = token node ->
  ASType (root_of node' parents) = ASType (root_of node parents) /\
  token (root_of node' parents) = token (root_of node parents).
Proof.
  intros Htype Htoken. destruct parents as [|parent parents]; [done|].
  by rewrite !root_of_cons.
Qed.

Lemma set_complete_frame (node : Node) :
  frame node = true -> complete node = false ->
  expectedChildCount (ASType node) = None \/ ASType node = RETURN ->
  frame (set_complete node) = true.
Proof.
  unfold frame, counting, counted, left_first. rewrite !sound_unfold.
  intros [[Hsound Hcounting]%andb_prop Hleft]%andb_prop Hopen Htype.
  rewrite Hopen in Hcounting. cbn [ASType children complete set_complete].
  rewrite Hsound, Hleft. cbn [andb]. rewrite andb_true_r.
  destruct Htype as [->|Hreturn]; [done|]. rewrite Hreturn in *.
  change (expectedChildCount RETURN) with (Some 1%nat) in *.
  apply Nat.ltb_lt in Hcounting. cbn [andb].
  rewrite (bool_decide_eq_true_2 (_ = 0)%nat) by lia. apply orb_true_r.
Qed.

Lemma closes_open (type terminator : Syntax.ASType) :
  requiresTerminator type = Some terminator -> expectedChildCount type = None.
Proof. revert type terminator. tabulate. Qed.

Lemma child_operands (type parentType : Syntax.ASType) :
  leftOperands type = 0%nat -> leftOperands (getASType type parentType) = 0%nat.
Proof. revert type parentType. tabulate. Qed.

Lemma frame_sound (node : Node) :
  frame node = true -> sound node && counting node = true.
Proof. unfold frame. by intros [? _]%andb_prop. Qed.

(** Every iteration keeps the chain. *)
Lemma iteration_chain token (node : Node) parents heap again node' parents' heap' :
  chain node parents ->
  iteration token node parents heap = inr (again, node', parents', heap') ->
  chain node' parents'.
Proof.
  intros (Hnode & Hparents & Hroot & Htoken). unfold iteration.
  destruct (skip _); [by intros [= <- <- <- <-]|].
  destruct (bool_decide (_ = BAD_TOKEN)); [done|].
  destruct (complete node) eqn:Hcomplete.
  { destruct parents as [|parent parents]; [done|].
    pose proof Hparents as [[Hparent Hopen] Hrest]%Forall_cons.
    rewrite root_of_cons in Hroot, Htoken.
    destruct (shouldReparent _ _) eqn:Hreparent.
    - destruct (createASTNode _ _ _ _) as [adopter heap1] eqn:Hcreate.
      destruct (place node adopter heap1) as [e|[adopter' heap2]] eqn:Hplace; [done|].
      intros [= <- <- <- <-].
      destruct (frame_created _ _ _ _ _ _ Hcreate) as (Htype & _ & Hnone & Hdone & _).
      assert (Hleft : leftOperands (Lexer.ASType_of token) <> 0%nat).
      { unfold shouldReparent in Hreparent.
        destruct (bool_decide (leftOperands _ = _)) eqn:Hzero; [done|].
        by apply bool_decide_eq_false in Hzero. }
      destruct (adopter_operands _ (ASType parent) Hleft) as (Hleft' & Hsome & Hpositive).
      rewrite bool_decide_eq_false_2 in Hdone by done.
      assert (Hadopter : sound adopter && counting adopter = true).
      { unfold counting. rewrite sound_unfold, Hnone, Hdone, Htype. cbn.
        by destruct (expectedChildCount _) as [[|count]|]. }
      destruct (frame_placed _ _ _ _ _ Hnode Hcomplete Hadopter Hdone Hplace)
        as (Hframe & _ & _ & _).
      split_and!; [done|done|by rewrite root_of_cons..].
    - destruct (place node parent heap) as [e|[parent' heap1]] eqn:Hplace; [done|].
      intros [= <- <- <- <-].
      destruct (frame_placed _ _ _ _ _ Hnode Hcomplete (frame_sound _ Hparent) Hopen Hplace)
        as (Hframe & Htype' & Htoken' & _).
      destruct (root_of_fields _ _ parents Htype' Htoken') as [Hroot' Hnone'].
      unfold chain. rewrite Hroot', Hnone'. by split_and!. }
  assert (Hset : forall node' : Node,
            ASType node' = ASType node -> Parse.token node' = Parse.token node ->
            frame node' = true -> chain node' parents).
  { intros n Htype' Htoken' Hframe.
    destruct (root_of_fields _ _ parents Htype' Htoken') as [Hroot' Hnone'].
    unfold chain. rewrite Hroot', Hnone'. by split_and!. }
  assert (Hpush : forall (child : Node) type heap1 heap2,
            createASTNode (Some token) (Some node) type heap1 = (child, heap2) ->
            leftOperands type = 0%nat -> chain child (node :: parents)).
  { intros child type heap1 heap2 Hcreate Hleft.
    destruct (frame_created _ _ _ _ _ _ Hcreate) as (_ & _ & _ & _ & Hframe).
    split_and!; [by apply Hframe|by constructor|by rewrite root_of_cons..]. }
  destruct (isTerminator _).
  - destruct (bool_decide (requiresTerminator _ = _)) eqn:Hcloses.
    { intros [= <- <- <- <-]. apply bool_decide_eq_true in Hcloses.
      apply Hset; [done..|]. apply set_complete_frame; [done..|].
      left. by eapply closes_open. }
    destruct (bool_decide (ASType node = RETURN)) eqn:Hreturn.
    { intros [= <- <- <- <-]. apply bool_decide_eq_true in Hreturn.
      apply Hset; [done..|]. apply set_complete_frame; [done..|]. by right. }
    destruct (bool_decide (ignoresTerminator _ <> _)); [done|].
    intros [= <- <- <- <-]. by apply Hset.
  - destruct (bool_decide (leftOperands _ <> _)) eqn:Hleft.
    + destruct (bool_decide (_ = SUB)); [|done].
      destruct (createASTNode _ _ _ _) as [child heap1] eqn:Hcreate.
      intros [= <- <- <- <-]. by eapply Hpush.
    + destruct (createASTNode _ _ _ _) as [child heap1] eqn:Hcreate.
      intros [= <- <- <- <-]. eapply Hpush; [done|].
      apply bool_decide_eq_false in Hleft. apply child_operands.
      by destruct (decide (leftOperands (Lexer.ASType_of token) = 0%nat)).
Qed.

(** X20.  When the loop of [parse] and the check of the root let a tree
    through, every node below the root is complete and has the number of
    children that its ASType expects (a [return] may have none), the
    rule [CTC] of each node, the root too, accepts its children, every
    node is where its rule [PTC] lets it be, and the definition of a
    function is a child of the root. *)
Theorem parse_well_formed (tokens : list Lexer.Token) (heap : Heap) (root : Node)
  (heap' : Heap) :
  parse tokens heap = inr (root, heap') ->
  ASType root = ROOT /\ token root = None /\
  constrained root = true /\ sound root = true.
Proof.
  unfold parse. destruct (createASTNode None None ROOT heap) as [first heap1] eqn:Hcreate.
  destruct (frame_created _ _ _ _ _ _ Hcreate) as (Htype & Htoken & _ & _ & Hframe).
  assert (Hchain : chain first []) by (split_and!; [by apply Hframe|done..]).
  pose proof (loop_invariant (fun _ => chain)
                (fun token tokens node parents heap again node' parents' heap' =>
                   iteration_chain token node parents heap again node' parents' heap')
                tokens first [] heap1 Hchain) as Hloop.
  destruct (loop tokens first [] heap1) as [e|[[node parents] heap2]]; [done|].
  destruct Hloop as (Hnode & Hparents & Hroot & Hnone).
  destruct (check_children ROOT (root_of node parents)) as [e|[violation|]] eqn:Hcheck;
    try done.
  intros [= <- <-]. split_and!; [done|done| |].
  - unfold constrained. by rewrite Hroot, Hcheck.
  - assert (Hframes : Forall (fun frame' => frame frame' = true) (node :: parents)).
    { constructor; [done|]. eapply Forall_impl; [exact Hparents|]. by intros ? [? _]. }
    assert (Hin : root_of node parents ∈ node :: parents).
    { clear. revert node.
      induction parents as [|parent parents IH]; intros node; [by left|].
      rewrite root_of_cons. right. apply IH. }
    rewrite Forall_forall in Hframes. apply Hframes in Hin.
    unfold frame in Hin. by apply andb_prop in Hin as [[? _]%andb_prop _].
Qed.

(** *** The tokens of the tree

    The tokens of the nodes, read from left to right: the left operand
    of a node comes before the token of the node. *)
Fixpoint tokens_of (node : Node) : list Lexer.Token :=
  match node with
  | Node_ _ type children _ _ _ _ _ token =>
      let own := match token with Some token => [token] | None => [] end in
      if bool_decide (leftOperands type = 0%nat)
      then own ++ concat (tokens_of <$> children)
      else match children with
           | [] => own
           | operand :: children => tokens_of operand ++ own ++ concat (tokens_of <$> children)
           end
  end.

(** The tokens that make nodes: all but white space, comments and
    terminators. *)
Definition significant (token : Lexer.Token) : bool :=
  negb (skip (Lexer.ASType_of token)) && negb (isTerminator (Lexer.ASType_of token)).

Definition own (node : Node) : list Lexer.Token :=
  match token node with Some token => [token] | None => [] end.

Lemma tokens_of_unfold (node : Node) :
  tokens_of node =
  if bool_decide (leftOperands (ASType node) = 0%nat)
  then own node ++ concat (tokens_of <$> children node)
  else match children node with
       | [] => own node
       | operand :: children => tokens_of operand ++ own node ++ concat (tokens_of <$> children)
       end.
Proof. by destruct node. Qed.

Lemma tokens_of_erase (node : Node) : tokens_of (erase node) = tokens_of node.
Proof.
  induction node as [node IH] using Node_induction.
  rewrite !tokens_of_unfold. unfold own.
  destruct (erase_fields node) as (-> & _ & -> & ->).
  assert (Heach : tokens_of <$> (erase <$> children node) = tokens_of <$> children node).
  { induction IH as [|child nodes Hchild _ IHnodes]; [done|]. cbn. by rewrite Hchild, IHnodes. }
  destruct (bool_decide _); [by rewrite Heach|].
  destruct (children node) as [|operand rest]; [done|].
  cbn in Heach |- *. injection Heach as -> ->. done.
Qed.

Lemma tokens_of_alike (node node' : Node) :
  erase node = erase node' -> tokens_of node = tokens_of node'.
Proof. intros Heq. by rewrite <- (tokens_of_erase node), Heq, tokens_of_erase. Qed.

Lemma tokens_of_fields (node node' : Node) :
  ASType node' = ASType node -> children node' = children node -> token node' = token node ->
  tokens_of node' = tokens_of node.
Proof.
  intros Htype Hchildren Htoken. rewrite !tokens_of_unfold. unfold own.
  by rewrite Htype, Hchildren, Htoken.
Qed.

Lemma tokens_of_push (parent child : Node) :
  left_first parent = true ->
  tokens_of (set_children (children parent ++ [child]) parent) =
  tokens_of parent ++ tokens_of child.
Proof.
  intros Hleft. rewrite (tokens_of_unfold (set_children _ _)), (tokens_of_unfold parent).
  unfold own, left_first in *. cbn [ASType children token set_children].
  destruct (bool_decide (leftOperands _ = _)).
  - rewrite fmap_app, concat_app. cbn [fmap list_fmap concat].
    by rewrite app_nil_r, app_assoc.
  - destruct (children parent) as [|operand rest]; [done|].
    cbn [app]. rewrite fmap_app, concat_app. cbn [fmap list_fmap concat].
    by rewrite app_nil_r, <- !app_assoc.
Qed.

Lemma tokens_of_adopt (adopter child : Node) token :
  children adopter = [] -> leftOperands (ASType adopter) <> 0%nat ->
  Parse.token adopter = Some token ->
  tokens_of (set_children (children adopter ++ [child]) adopter) = tokens_of child ++ [token].
Proof.
  intros Hnone Hleft Htoken. rewrite tokens_of_unfold. unfold own.
  cbn [ASType children Parse.token set_children].
  by rewrite Hnone, Htoken, bool_decide_eq_false_2.
Qed.

Lemma tokens_of_created (node : Node) token :
  children node = [] -> Parse.token node = Some token -> tokens_of node = [token].
Proof.
  intros Hnone Htoken. rewrite tokens_of_unfold. unfold own. rewrite Hnone, Htoken.
  by destruct (bool_decide _).
Qed.

(** The tokens of the chain, from the root to the node. *)
Definition spine (node : Node) (parents : list Node) : list Lexer.Token :=
  concat (tokens_of <$> reverse parents) ++ tokens_of node.

Lemma spine_cons (child node : Node) parents :
  spine child (node :: parents) = spine node parents ++ tokens_of child.
Proof.
  unfold spine. rewrite reverse_cons, fmap_app, concat_app. cbn. by rewrite app_nil_r.
Qed.

Lemma spine_set_complete (node : Node) parents :
  spine (set_complete node) parents = spine node parents.
Proof. unfold spine. f_equal. by apply tokens_of_fields. Qed.

Lemma filter_significant consumed token :
  List.filter significant (consumed ++ [token]) =
  List.filter significant consumed ++ (if significant token then [token] else []).
Proof. rewrite List.filter_app. cbn. by destruct (significant token). Qed.

(** **** What an iteration does

    The cases of an iteration that does not throw, with what [place] and
    [createASTNode] are known to do. *)
Inductive step (token : Lexer.Token) (node : Node) (parents : list Node)
  : bool -> Node -> list Node -> Prop :=
| step_skip :
    skip (Lexer.ASType_of token) = true ->
    step token node parents false node parents
| step_adopt parent rest adopter child :
    skip (Lexer.ASType_of token) = false ->
    complete node = true -> parents = parent :: rest ->
    shouldReparent (ASType parent) (Lexer.ASType_of token) = true ->
    ASType adopter = getASType (Lexer.ASType_of token) (ASType parent) ->
    Parse.token adopter = Some token ->
    children adopter = [child] -> erase child = erase node ->
    constrained node = true -> placement (ASType adopter) 0 node = true ->
    complete adopter =
      bool_decide (Some 1%nat = expectedChildCount (ASType adopter)) ->
    step token node parents false adopter (parent :: rest)
| step_place parent rest parent' child :
    skip (Lexer.ASType_of token) = false ->
    complete node = true -> parents = parent :: rest ->
    shouldReparent (ASType parent) (Lexer.ASType_of token) = false ->
    ASType parent' = ASType parent -> Parse.token parent' = Parse.token parent ->
    children parent' = children parent ++ [child] -> erase child = erase node ->
    constrained node = true ->
    placement (ASType parent) (length (children parent)) node = true ->
    complete parent' =
      complete parent ||
      bool_decide (Some (length (children parent')) = expectedChildCount (ASType parent)) ->
    step token node parents true parent' rest
| step_close :
    skip (Lexer.ASType_of token) = false ->
    complete node = false -> isTerminator (Lexer.ASType_of token) = true ->
    requiresTerminator (ASType node) = Some (Lexer.ASType_of token) ->
    step token node parents false (set_complete node) parents
| step_return :
    skip (Lexer.ASType_of token) = false ->
    complete node = false -> isTerminator (Lexer.ASType_of token) = true ->
    ASType node = RETURN ->
    step token node parents true (set_complete node) parents
| step_ignore :
    skip (Lexer.ASType_of token) = false ->
    complete node = false -> isTerminator (Lexer.ASType_of token) = true ->
    ignoresTerminator (ASType node) = Some (Lexer.ASType_of token) ->
    step token node parents false node parents
| step_child child :
    skip (Lexer.ASType_of token) = false ->
    complete node = false -> isTerminator (Lexer.ASType_of token) = false ->
    (Lexer.ASType_of token = SUB /\ ASType child = NEG \/
     leftOperands (Lexer.ASType_of token) = 0%nat /\
     ASType child = getASType (Lexer.ASType_of token) (ASType node)) ->
    Parse.token child = Some token -> children child = [] ->
    complete child = bool_decide (expectedChildCount (ASType child) = Some 0%nat) ->
    step token node parents false child (node :: parents).

Lemma iteration_step token (node : Node) parents heap again node' parents' heap' :
  iteration token node parents heap = inr (again, node', parents', heap') ->
  step token node parents again node' parents'.
Proof.
  unfold iteration.
  destruct (skip _) eqn:Hskip; [intros [= <- <- <- <-]; by constructor|].
  destruct (bool_decide (_ = BAD_TOKEN)); [done|].
  destruct (complete node) eqn:Hcomplete.
  { destruct parents as [|parent parents]; [done|].
    destruct (shouldReparent _ _) eqn:Hreparent.
    - destruct (createASTNode _ _ _ _) as [adopter heap1] eqn:Hcreate.
      destruct (place node adopter heap1) as [e|[adopter' heap2]] eqn:Hplace; [done|].
      intros [= <- <- <- <-].
      destruct (frame_created _ _ _ _ _ _ Hcreate) as (Htype & Htoken & Hnone & Hdone & _).
      apply place_spec in Hplace as (child & -> & Halike & Hconstrained & Hplacement).
      rewrite Hnone in Hplacement.
      destruct (completed_fields (set_children (children adopter ++ [child]) adopter))
        as (Htype' & Htoken' & Hchildren' & Hcomplete').
      assert (Hleft : leftOperands (Lexer.ASType_of token) <> 0%nat).
      { unfold shouldReparent in Hreparent.
        destruct (bool_decide (leftOperands _ = _)) eqn:Hzero; [done|].
        by apply bool_decide_eq_false in Hzero. }
      destruct (adopter_operands _ (ASType parent) Hleft) as (_ & _ & Hpositive).
      eapply step_adopt; try done.
      + rewrite Htype'. exact Htype.
      + rewrite Htoken'. exact Htoken.
      + rewrite Hchildren'. cbn [children set_children]. by rewrite Hnone.
      + rewrite Htype'. exact Hplacement.
      + rewrite Hcomplete', Htype'. cbn [ASType children complete set_children].
        by rewrite Hdone, Hnone, Htype, bool_decide_eq_false_2.
    - destruct (place node parent heap) as [e|[parent' heap1]] eqn:Hplace; [done|].
      intros [= <- <- <- <-].
      apply place_spec in Hplace as (child & -> & Halike & Hconstrained & Hplacement).
      destruct (completed_fields (set_children (children parent ++ [child]) parent))
        as (Htype' & Htoken' & Hchildren' & Hcomplete').
      eapply step_place; try done.
      + by rewrite Hchildren'.
      + by rewrite Hcomplete', Hchildren'. }
  destruct (isTerminator _) eqn:Hterminator.
  - destruct (bool_decide (requiresTerminator _ = _)) eqn:Hcloses.
    { intros [= <- <- <- <-]. apply bool_decide_eq_true in Hcloses. by constructor. }
    destruct (bool_decide (ASType node = RETURN)) eqn:Hreturn.
    { intros [= <- <- <- <-]. apply bool_decide_eq_true in Hreturn. by constructor. }
    destruct (bool_decide (ignoresTerminator _ <> _)) eqn:Hignores; [done|].
    intros [= <- <- <- <-]. apply bool_decide_eq_false in Hignores.
    apply step_ignore; try done.
    by destruct (decide (ignoresTerminator (ASType node) = Some (Lexer.ASType_of token))).
  - destruct (bool_decide (leftOperands _ <> _)) eqn:Hleft.
    + destruct (bool_decide (_ = SUB)) eqn:Hsub; [|done].
      destruct (createASTNode _ _ _ _) as [child heap1] eqn:Hcreate.
      intros [= <- <- <- <-]. apply bool_decide_eq_true in Hsub.
      destruct (frame_created _ _ _ _ _ _ Hcreate) as (Htype & Htoken & Hnone & Hdone & _).
      apply step_child; try done; [by left|by rewrite Htype].
    + destruct (createASTNode _ _ _ _) as [child heap1] eqn:Hcreate.
      intros [= <- <- <- <-]. apply bool_decide_eq_false in Hleft.
      destruct (frame_created _ _ _ _ _ _ Hcreate) as (Htype & Htoken & Hnone & Hdone & _).
      apply step_child; try done; [|by rewrite Htype].
      right. split; [|done].
      by destruct (decide (leftOperands (Lexer.ASType_of token) = 0%nat)).
Qed.

(** **** Reading a list of tokens that ends with the end of the input *)

(** Only the root has the type of the root. *)
Fixpoint only_root (node : Node) (parents : list Node) : Prop :=
  (ASType node = ROOT -> parents = []) /\
  match parents with
  | [] => True
  | parent :: parents => only_root parent parents
  end.

(** The tokens that are left end with the one [END_OF_INPUT]; when none
    is left the root is complete. *)
Definition ending (tokens : list Lexer.Token) (node : Node) (parents : list Node) : Prop :=
  (exists front last,
     tokens = front ++ [last] /\ Lexer.ASType_of last = END_OF_INPUT /\
     Forall (fun token => Lexer.ASType_of token <> END_OF_INPUT /\
                          Lexer.ASType_of token <> ROOT) front /\
     (parents = [] -> complete node = false)) \/
  (tokens = [] /\ parents = [] /\ complete node = true).

Definition reading (all tokens : list Lexer.Token) (node : Node) (parents : list Node)
  : Prop :=
  chain node parents /\ only_root node parents /\ ending tokens node parents /\
  exists consumed,
    all = consumed ++ tokens /\ spine node parents = List.filter significant consumed.

Lemma operand_not_terminator (type : Syntax.ASType) :
  leftOperands type <> 0%nat -> isTerminator type = false.
Proof. revert type. tabulate. Qed.

Lemma getASType_ROOT (type parentType : Syntax.ASType) :
  type <> ROOT -> getASType type parentType <> ROOT.
Proof. revert type parentType. tabulate. Qed.

Lemma closes_END (type : Syntax.ASType) :
  requiresTerminator type = Some END_OF_INPUT -> type = ROOT.
Proof. revert type. tabulate. Qed.

Lemma ignores_END (type : Syntax.ASType) : ignoresTerminator type <> Some END_OF_INPUT.
Proof. revert type. tabulate. Qed.

Lemma chain_root (node : Node) : chain node [] -> ASType node = ROOT.
Proof. by intros (_ & _ & ? & _). Qed.

Lemma chain_left (node : Node) parents : chain node parents -> left_first node = true.
Proof. unfold chain, frame. by intros ([_ ?]%andb_prop & _). Qed.

Lemma only_root_fields (node node' : Node) parents :
  ASType node' = ASType node -> only_root node parents -> only_root node' parents.
Proof. intros Htype. destruct parents; cbn; by rewrite Htype. Qed.

(** The token that an iteration takes is the next one that is left, and
    it is the last one only when it closes the root. *)
Lemma iteration_reading all token tokens (node : Node) parents heap again node' parents'
  heap' :
  reading all (token :: tokens) node parents ->
  iteration token node parents heap = inr (again, node', parents', heap') ->
  reading all (if again then token :: tokens else tokens) node' parents'.
Proof.
  intros (Hchain & Honly & Hending & consumed & Hall & Hspine) Hrun.
  pose proof (iteration_chain _ _ _ _ _ _ _ _ Hchain Hrun) as Hchain'.
  apply iteration_step in Hrun.
  destruct Hending as [(front & last & Htokens & Hlast & Hfront & Hopen)|[? _]]; [|done].
  assert (Hnext : (front = [] /\ token = last /\ tokens = []) \/
                  (exists front', front = token :: front' /\ tokens = front' ++ [last])).
  { destruct front as [|first front']; [left|right].
    - by injection Htokens as -> ->.
    - injection Htokens as -> ->. by eexists. }
  assert (Htaken : forall node' parents',
            chain node' parents' -> only_root node' parents' ->
            spine node' parents' =
              spine node parents ++ (if significant token then [token] else []) ->
            Lexer.ASType_of token <> END_OF_INPUT ->
            (parents' = [] -> complete node' = false) ->
            reading all tokens node' parents').
  { intros n ps Hn Hroot Hread Hmore Hopen'. split_and!; [done|done| |].
    - left. destruct Hnext as [(_ & -> & _)|(front' & -> & ->)]; [done|].
      apply Forall_cons in Hfront as [_ Hfront]. by exists front', last.
    - exists (consumed ++ [token]). rewrite <- app_assoc, filter_significant.
      split; [done|]. by rewrite Hread, Hspine. }
  assert (Hkept : forall node' parents',
            chain node' parents' -> only_root node' parents' ->
            spine node' parents' = spine node parents ->
            (parents' = [] -> complete node' = false) ->
            reading all (token :: tokens) node' parents').
  { intros n ps Hn Hroot Hread Hopen'. split_and!; [done|done| |].
    - left. by exists front, last.
    - exists consumed. by rewrite Hread. }
  assert (Hinner : Lexer.ASType_of token <> END_OF_INPUT ->
                   Lexer.ASType_of token <> ROOT).
  { intros Hmore. destruct Hnext as [(_ & -> & _)|(front' & -> & _)]; [done|].
    by apply Forall_cons in Hfront as [[_ ?] _]. }
  inversion Hrun as
    [Hskip
    |parent rest adopter child Hskip Hcomplete -> Hreparent Htype Htoken Hchildren Halike _ _
       _
    |parent rest parent' child Hskip Hcomplete -> Hreparent Htype Htoken Hchildren Halike _ _
       Hdone
    |Hskip Hcomplete Hterminator Hcloses
    |Hskip Hcomplete Hterminator Hreturn
    |Hskip Hcomplete Hterminator Hignores
    |child Hskip Hcomplete Hterminator Hmade Htoken Hchildren Hdone]; subst.
  - (* white space and comments *)
    apply Htaken; try done.
    + unfold significant. rewrite Hskip. cbn. by rewrite app_nil_r.
    + intros Hend. by rewrite Hend in Hskip.
  - (* the token takes the node as its left operand *)
    assert (Hleft : leftOperands (Lexer.ASType_of token) <> 0%nat).
    { unfold shouldReparent in Hreparent.
      destruct (bool_decide (leftOperands _ = _)) eqn:Hzero; [done|].
      by apply bool_decide_eq_false in Hzero. }
    assert (Hmore : Lexer.ASType_of token <> END_OF_INPUT).
    { intros Hend. by rewrite Hend in Hleft. }
    apply Htaken; try done.
    + destruct Honly as [_ Honly]. split; [|done].
      intros Hroot. rewrite Htype in Hroot. by apply getASType_ROOT in Hroot; [|apply Hinner].
    + unfold spine. rewrite <- app_assoc. f_equal.
      unfold significant. rewrite Hskip, (operand_not_terminator _ Hleft). cbn.
      rewrite tokens_of_unfold. unfold own. rewrite Htype, Htoken, Hchildren.
      rewrite bool_decide_eq_false_2 by by apply adopter_operands.
      cbn [fmap list_fmap concat]. by rewrite app_nil_r, (tokens_of_alike _ _ Halike).
  - (* the node is placed *)
    destruct Hchain as (_ & [[Hparent Hincomplete] _]%Forall_cons & Hroot & _).
    apply Hkept; try done.
    + destruct Honly as [_ Honly]. by apply (only_root_fields parent).
    + unfold spine. rewrite reverse_cons, fmap_app, concat_app, <- app_assoc. f_equal.
      cbn [fmap list_fmap concat]. rewrite app_nil_r.
      rewrite <- (tokens_of_alike _ _ Halike).
      rewrite <- tokens_of_push by (unfold frame in Hparent; by apply andb_prop in Hparent as [_ ?]).
      by apply tokens_of_fields.
    + intros ->. rewrite Hdone, Hincomplete. rewrite root_of_cons in Hroot.
      unfold root_of in Hroot. cbn in Hroot. by rewrite Hroot.
  - (* the terminator closes the node *)
    destruct (decide (Lexer.ASType_of token = END_OF_INPUT)) as [Hend|Hmore].
    + rewrite Hend in Hcloses. apply closes_END in Hcloses.
      destruct parents' as [|parent rest]; [|by destruct Honly as [Honly _]; apply Honly in Hcloses].
      destruct Hnext as [(_ & -> & ->)|(front' & -> & _)];
        [|by apply Forall_cons in Hfront as [[? _] _]].
      split_and!; [done|by apply (only_root_fields node)|by right|].
      exists (consumed ++ [last]). rewrite app_nil_r.
      split; [done|]. rewrite filter_significant, <- Hspine. unfold significant.
      by rewrite Hterminator, andb_false_r, app_nil_r, spine_set_complete.
    + apply Htaken; try done.
      * by apply (only_root_fields node).
      * unfold significant.
        by rewrite Hterminator, andb_false_r, app_nil_r, spine_set_complete.
      * intros ->. apply chain_root in Hchain. rewrite Hchain in Hcloses.
        by injection Hcloses as Hcloses.
  - (* a [return] without a value *)
    apply Hkept; try done.
    + by apply (only_root_fields node).
    + apply spine_set_complete.
    + intros ->. apply chain_root in Hchain. by rewrite Hchain in Hreturn.
  - (* the terminator separates *)
    apply Htaken; try done.
    + unfold significant. by rewrite Hterminator, andb_false_r, app_nil_r.
    + intros Hend. rewrite Hend in Hignores. by apply ignores_END in Hignores.
  - (* the token makes a child *)
    assert (Hmore : Lexer.ASType_of token <> END_OF_INPUT).
    { intros Hend. by rewrite Hend in Hterminator. }
    apply Htaken; try done.
    + split; [|done]. intros Hroot.
      destruct Hmade as [[_ Hneg]|[_ Hmade]]; [by rewrite Hneg in Hroot|].
      rewrite Hmade in Hroot. by apply getASType_ROOT in Hroot; [|apply Hinner].
    + rewrite spine_cons. unfold significant. rewrite Hskip, Hterminator. cbn.
      f_equal. by apply tokens_of_created.
Qed.


(** **** The tokens of the lexer *)

Lemma lexify_tokens input tokens :
  Lexer.lexify input = Some tokens ->
  exists front,
    tokens = front ++ [Lexer.sentinel (length input)] /\
    Forall (token_ok input) front /\
    contiguous 0 tokens = true.
Proof.
  unfold Lexer.lexify.
  destruct (lexify_loop_tokens input 0 [] (Nat.le_0_l _)) as (more & -> & Hall & Hcont).
  intros [= <-]. by exists more.
Qed.

Lemma lexerData_types (type : Syntax.ASType) :
  type ∈ Lexer.lexerData.*1 -> type <> END_OF_INPUT /\ type <> ROOT.
Proof. revert type. tabulate. Qed.

Lemma lexify_reading input tokens (root : Node) heap heap' :
  Lexer.lexify input = Some tokens ->
  createASTNode None None ROOT heap = (root, heap') ->
  reading tokens tokens root [].
Proof.
  intros (front & -> & Hall & _)%lexify_tokens Hcreate.
  destruct (frame_created _ _ _ _ _ _ Hcreate) as (Htype & Htoken & Hnone & Hdone & Hframe).
  split_and!.
  - split_and!; [by apply Hframe|done..].
  - done.
  - left. exists front, (Lexer.sentinel (length input)). split_and!; [done|done| |].
    + eapply Forall_impl; [exact Hall|]. intros token (_ & _ & _ & Htypes & _).
      by apply lexerData_types.
    + intros _. by rewrite Hdone.
  - exists []. split; [done|]. unfold spine.
    change (reverse []) with (@nil Node). cbn [fmap list_fmap concat app List.filter].
    rewrite tokens_of_unfold. unfold own. by rewrite Hnone, Htoken, Htype.
Qed.

(** X21.  The tree has the tokens of the input: when the loop of [parse]
    and the check of the root let through the tree of the tokens that
    [lexify] makes of a text, the tokens of the nodes, read from left to
    right, are the tokens of the text in their order, without the white
    space, the comments and the terminators.  No token is lost, none is
    taken twice, and the tree ends with the text. *)
Theorem parse_tokens (input : list N) (tokens : list Lexer.Token) (heap : Heap)
  (root : Node) (heap' : Heap) :
  Lexer.lexify input = Some tokens ->
  parse tokens heap = inr (root, heap') ->
  tokens_of root = List.filter significant tokens.
Proof.
  intros Hlexify. unfold parse.
  destruct (createASTNode None None ROOT heap) as [first heap1] eqn:Hcreate.
  pose proof (loop_invariant (reading tokens)
                (fun token tokens' node parents heap again node' parents' heap' =>
                   iteration_reading tokens token tokens' node parents heap again node'
                     parents' heap')
                tokens first [] heap1 (lexify_reading _ _ _ _ _ Hlexify Hcreate)) as Hloop.
  destruct (loop tokens first [] heap1) as [e|[[node parents] heap2]]; [done|].
  destruct Hloop as (_ & _ & Hending & consumed & Hall & Hspine).
  destruct Hending as [(front & last & Hnil & _)|(_ & -> & _)]; [by destruct front|].
  destruct (check_children ROOT (root_of node [])) as [e|[violation|]]; try done.
  intros [= <- <-]. rewrite app_nil_r in Hall. by subst.
Qed.

(** **** No error of the host *)

Lemma check_positions_total i positions (node : Node) :
  (i + length positions <= length (children node))%nat ->
  exists result, check_positions i positions node = inr result.
Proof.
  revert i. induction positions as [|acceptable positions IH]; intros i Hlength.
  { by eexists. }
  cbn [check_positions length] in *.
  destruct (lookup_lt_is_Some_2 (children node) i ltac:(lia)) as [child ->].
  destruct (bool_decide _); [apply IH; lia|by eexists].
Qed.

Lemma positions_counted (type : Syntax.ASType) :
  match CTC type with
  | CTCByPos positions =>
      type <> RETURN /\
      exists count,
        expectedChildCount type = Some count /\ (length positions <= count)%nat
  | _ => True
  end.
Proof. destruct type; cbn; try done; (split; [done|eexists; split; [done|cbn; lia]]). Qed.

Lemma check_children_total (node : Node) :
  counted node = true ->
  exists result, check_children (ASType node) node = inr result.
Proof.
  intros Hcounted. unfold check_children.
  pose proof (positions_counted (ASType node)) as Hpositions.
  destruct (CTC (ASType node)) as [positions|acceptable| |]; try by eexists.
  - destruct Hpositions as (Hreturn & count & Hcount & Hlength).
    apply check_positions_total. unfold counted in Hcounted. rewrite Hcount in Hcounted.
    rewrite (bool_decide_eq_false_2 _ Hreturn), orb_false_r in Hcounted.
    apply bool_decide_eq_true in Hcounted. cbn. lia.
  - destruct (children node) as [|? [|? [|? ?]]]; by eexists.
Qed.

Lemma define_total (node parent : Node) heap :
  createsName (ASType node) = true -> counted node = true -> sound node = true ->
  define node parent heap <> inl TypeError.
Proof.
  intros Hnames Hcounted Hsound. unfold define.
  assert (Hlength : length (children node) = 2%nat).
  { unfold counted in Hcounted. destruct (ASType node); try done;
      cbn in Hcounted; rewrite orb_false_r in Hcounted;
      by apply bool_decide_eq_true in Hcounted. }
  rewrite sound_unfold in Hsound. apply andb_prop in Hsound as [Hall _].
  destruct (children node) as [|name [|spec [|? ?]]]; try done.
  cbn in Hall. rewrite andb_true_r in Hall.
  apply andb_prop in Hall as [_ Hspec].
  destruct (bool_decide (ASType spec = IMMUTABLE)) eqn:Himmutable.
  - apply bool_decide_eq_true in Himmutable.
    unfold well_formed, counted in Hspec. rewrite Himmutable in Hspec.
    apply andb_prop in Hspec as [[[_ Hone]%andb_prop _]%andb_prop _].
    cbn in Hone. rewrite orb_false_r in Hone. apply bool_decide_eq_true in Hone.
    destruct (children spec) as [|inner ?]; [done|]. cbn [head].
    destruct (_ && _); [done|]. by destruct (definition _ _ _ _ _) as [?|[? ?]].
  - destruct (_ && _); [done|]. by destruct (definition _ _ _ _ _) as [?|[? ?]].
Qed.

Lemma place_total (node parent : Node) heap :
  frame node = true -> complete node = true -> place node parent heap <> inl TypeError.
Proof.
  unfold frame, counting. intros [[Hsound Hcounted]%andb_prop _]%andb_prop Hcomplete.
  rewrite Hcomplete in Hcounted. unfold place.
  destruct (check_children_total node Hcounted) as [[violation|] ->]; [done|].
  destruct (check_parent _ _); [done|].
  destruct (bool_decide (ASType node = DEFINITION) || bool_decide (ASType node = DECLARATION))
    eqn:Hnames.
  { assert (Hcreates : createsName (ASType node) = true).
    { apply orb_prop in Hnames as [Hname|Hname]; apply bool_decide_eq_true in Hname;
        by rewrite Hname. }
    pose proof (define_total node parent heap Hcreates Hcounted Hsound).
    by destruct (define node parent heap) as [[]|[? ?]]. }
  destruct (bool_decide (ASType node = DEFAULT_MEMORY)).
  { by destruct (defineMemory node heap) as [?|[? ?]]. }
  destruct (bool_decide (ASType node = DEFAULT_TABLE)).
  { by destruct (defineTable node heap) as [?|[? ?]]. }
  by destruct (_ && _).
Qed.

Lemma iteration_total all token tokens (node : Node) parents heap :
  reading all (token :: tokens) node parents ->
  iteration token node parents heap <> inl TypeError.
Proof.
  intros ((Hnode & Hparents & _) & _ & Hending & _). unfold iteration.
  destruct (skip _); [done|]. destruct (bool_decide (_ = BAD_TOKEN)); [done|].
  destruct (complete node) eqn:Hcomplete.
  { destruct parents as [|parent parents].
    { destruct Hending as [(_ & _ & _ & _ & _ & Hopen)|[? _]]; [|done].
      by rewrite Hopen in Hcomplete. }
    destruct (shouldReparent _ _).
    - destruct (createASTNode _ _ _ _) as [adopter heap1].
      pose proof (place_total node adopter heap1 Hnode Hcomplete).
      by destruct (place node adopter heap1) as [[]|[? ?]].
    - pose proof (place_total node parent heap Hnode Hcomplete).
      by destruct (place node parent heap) as [[]|[? ?]]. }
  destruct (isTerminator _).
  - destruct (bool_decide (requiresTerminator _ = _)); [done|].
    destruct (bool_decide (ASType node = RETURN)); [done|].
    by destruct (bool_decide (ignoresTerminator _ <> _)).
  - destruct (bool_decide (leftOperands _ <> _)).
    + destruct (bool_decide (_ = SUB)); [|done]. by destruct (createASTNode _ _ _ _).
    + by destruct (createASTNode _ _ _ _).
Qed.

(** X22.  On the tokens that [lexify] makes of a text, the loop of
    [parse] and the check of the root never stop with an error of the
    host: [shouldReparent] is not asked for the parent of the root, no
    rule [CTC] reads a child that is not there, and [define] finds the
    two children it takes apart.  What is thrown is a [CompileError], or
    comes from the code that records the definitions. *)
Theorem parse_no_TypeError (input : list N) (tokens : list Lexer.Token) (heap : Heap) :
  Lexer.lexify input = Some tokens ->
  parse tokens heap <> inl TypeError.
Proof.
  intros Hlexify. unfold parse.
  destruct (createASTNode None None ROOT heap) as [first heap1] eqn:Hcreate.
  pose proof (loop_invariant (reading tokens)
                (fun token tokens' node parents heap again node' parents' heap' =>
                   iteration_reading tokens token tokens' node parents heap again node'
                     parents' heap')
                tokens first [] heap1 (lexify_reading _ _ _ _ _ Hlexify Hcreate)) as Hloop.
  destruct (loop tokens first [] heap1) as [e|[[node parents] heap2]].
  - destruct Hloop as (token & tokens' & node & parents & heap2 & Hreading & Hrun).
    intros [= ->]. by apply (iteration_total _ _ _ _ _ heap2 Hreading).
  - unfold check_children. cbn [CTC].
    by destruct (check_all _ (children (root_of node parents))).
Qed.


(** *** Calls and memory accesses

    The rules [CALL.CTC = CTCByPos ([ARG_LIST])] and [MEMORY_ACCESS.CTC =
    CTCByPos ([ADDRESS])] are left out of syntax.js, for the lexer and the
    parser to keep.  [call] has, for the two ASTypes, the ASType of the
    token that the lexer looks ahead for and the ASType of the child. *)
Definition call (type : Syntax.ASType) : option (Syntax.ASType * Syntax.ASType) :=
  match type with
  | CALL => Some (PAREN, ARG_LIST)
  | MEMORY_ACCESS => Some (ADDRESS, ADDRESS)
  | _ => None
  end.

Definition own_call (node : Node) : bool :=
  match call (ASType node) with
  | Some (_, argument) =>
      match children node with
      | [child] => bool_decide (ASType child = argument)
      | _ => false
      end
  | None => true
  end.

(** Every call in the tree has one child, an [ARG_LIST], and every
    memory access has one child, an [ADDRESS]. *)
Fixpoint calls (node : Node) : bool :=
  match node with
  | Node_ _ type children _ _ _ _ _ _ =>
      match call type with
      | Some (_, argument) =>
          match children with
          | [child] => bool_decide (ASType child = argument)
          | _ => false
          end
      | None => true
      end && forallb calls children
  end.

(** In the list of tokens, the token of a call is followed by a
    parenthesis and the token of a memory access by a bracket. *)
Fixpoint followed (tokens : list Lexer.Token) : bool :=
  match tokens with
  | [] => true
  | token :: tokens =>
      match call (Lexer.ASType_of token), tokens with
      | Some (opener, _), next :: _ => bool_decide (Lexer.ASType_of next = opener)
      | _, _ => true
      end && followed tokens
  end.

Lemma calls_unfold (node : Node) :
  calls node = own_call node && forallb calls (children node).
Proof. by destruct node. Qed.

Lemma calls_erase (node : Node) : calls (erase node) = calls node.
Proof.
  induction node as [node IH] using Node_induction.
  rewrite !calls_unfold. unfold own_call.
  destruct (erase_fields node) as (-> & _ & _ & ->). f_equal.
  - destruct (call _) as [[opener argument]|]; [|done].
    destruct (children node) as [|child [|? ?]]; try done.
    cbn. by destruct (erase_fields child) as (-> & _).
  - induction IH as [|child nodes Hchild _ IHnodes]; [done|]. cbn. by rewrite Hchild, IHnodes.
Qed.

Lemma calls_alike (node node' : Node) : erase node = erase node' -> calls node = calls node'.
Proof. intros Heq. by rewrite <- (calls_erase node), Heq, calls_erase. Qed.

(** A node whose first child its rule [CTC] will not accept. *)
Definition rejects_first (type first : Syntax.ASType) : bool :=
  match CTC type with
  | CTCByPos (acceptable :: _) => negb (bool_decide (first ∈ acceptable))
  | _ => false
  end.

Definition doomed (node : Node) : bool :=
  match children node with
  | first :: _ => rejects_first (ASType node) (ASType first)
  | [] => false
  end.

Lemma doomed_constrained (node : Node) : doomed node = true -> constrained node = false.
Proof.
  unfold doomed, rejects_first, constrained, check_children.
  destruct (children node) as [|first rest] eqn:Hchildren; [done|].
  destruct (CTC (ASType node)) as [[|acceptable positions]| | |]; try done.
  cbn [check_positions]. rewrite Hchildren. cbn [lookup list_lookup].
  by destruct (bool_decide (ASType first ∈ acceptable)).
Qed.

(** The parents of the node: a call that waits for its child has below
    it the child that it waits for, or a node that will not be placed. *)
Fixpoint awaited (below : Node) (parents : list Node) : Prop :=
  match parents with
  | [] => True
  | parent :: parents =>
      forallb calls (children parent) = true /\
      (forall opener argument,
         call (ASType parent) = Some (opener, argument) ->
         children parent = [] /\ (ASType below = argument \/ doomed below = true)) /\
      awaited parent parents
  end.

Definition calling (tokens : list Lexer.Token) (node : Node) (parents : list Node) : Prop :=
  chain node parents /\
  forallb calls (children node) = true /\
  (complete node = true -> own_call node = true) /\
  (complete node = false ->
   forall opener argument,
     call (ASType node) = Some (opener, argument) ->
     match tokens with
     | token :: _ => Lexer.ASType_of token = opener
     | [] => True
     end) /\
  awaited node parents /\
  followed tokens = true.

Lemma call_operands (type : Syntax.ASType) opener argument :
  call type = Some (opener, argument) ->
  expectedChildCount type = Some 1%nat /\ requiresTerminator type = None /\
  ignoresTerminator type = None /\ type <> RETURN /\
  skip opener = false /\ opener <> SUB /\ getASType opener type = argument.
Proof. destruct type; try done; by intros [= <- <-]. Qed.

Lemma adopter_call (type parentType : Syntax.ASType) :
  leftOperands type <> 0%nat -> call (getASType type parentType) = None.
Proof. revert type parentType. tabulate. Qed.

Lemma child_call (type parentType : Syntax.ASType) :
  call (getASType type parentType) <> None -> getASType type parentType = type.
Proof. revert type parentType. tabulate. Qed.

Lemma adopter_rejects (type parentType : Syntax.ASType) opener argument :
  call parentType = Some (opener, argument) ->
  shouldReparent parentType type = true ->
  rejects_first (getASType type parentType) argument = true.
Proof.
  destruct parentType; try done; intros [= <- <-]; revert type; tabulate.
Qed.

Lemma awaited_fields (below below' : Node) parents :
  ASType below' = ASType below -> (doomed below = true -> doomed below' = true) ->
  awaited below parents -> awaited below' parents.
Proof.
  intros Htype Hdoomed. destruct parents as [|parent parents]; [done|].
  intros (Hkids & Hwaits & Hrest). split_and!; [done| |done].
  intros opener argument Hcall. destruct (Hwaits _ _ Hcall) as [Hnone [Hbelow|Hbelow]].
  - split; [done|]. left. by rewrite Htype.
  - split; [done|]. right. by apply Hdoomed.
Qed.

Lemma iteration_calling token tokens (node : Node) parents heap again node' parents' heap' :
  calling (token :: tokens) node parents ->
  iteration token node parents heap = inr (again, node', parents', heap') ->
  calling (if again then token :: tokens else tokens) node' parents'.
Proof.
  intros (Hchain & Hkids & Hown & Hwait & Hup & Hfollowed) Hrun.
  pose proof (iteration_chain _ _ _ _ _ _ _ _ Hchain Hrun) as Hchain'.
  apply iteration_step in Hrun.
  assert (Hrest : followed tokens = true).
  { cbn [followed] in Hfollowed. by apply andb_prop in Hfollowed as [_ ?]. }
  assert (Hcalls : complete node = true -> forall child : Node,
            erase child = erase node -> calls child = true).
  { intros Hcomplete child Halike. rewrite (calls_alike _ _ Halike), calls_unfold.
    by rewrite (Hown Hcomplete), Hkids. }
  inversion Hrun as
    [Hskip
    |parent rest adopter child Hskip Hcomplete -> Hreparent Htype Htoken Hchildren Halike
       Hconstrained _ _
    |parent rest parent' child Hskip Hcomplete -> Hreparent Htype Htoken Hchildren Halike
       Hconstrained _ Hdone
    |Hskip Hcomplete Hterminator Hcloses
    |Hskip Hcomplete Hterminator Hreturn
    |Hskip Hcomplete Hterminator Hignores
    |child Hskip Hcomplete Hterminator Hmade Htoken Hchildren Hdone]; subst.
  - (* white space and comments *)
    split_and!; try done. intros Hopen opener argument Hcall.
    pose proof (Hwait Hopen _ _ Hcall) as Hnext. cbn in Hnext.
    apply call_operands in Hcall as (_ & _ & _ & _ & Hnot & _). by rewrite Hnext, Hnot in Hskip.
  - (* the token takes the node as its left operand *)
    assert (Hleft : leftOperands (Lexer.ASType_of token) <> 0%nat).
    { unfold shouldReparent in Hreparent.
      destruct (bool_decide (leftOperands _ = _)) eqn:Hzero; [done|].
      by apply bool_decide_eq_false in Hzero. }
    pose proof (adopter_call _ (ASType parent) Hleft) as Hnocall. rewrite <- Htype in Hnocall.
    destruct Hup as (Hkids' & Hwaits & Hup).
    split_and!; try done.
    + rewrite Hchildren. cbn. by rewrite (Hcalls Hcomplete _ Halike).
    + intros _. unfold own_call. by rewrite Hnocall.
    + intros _ opener argument Hcall. by rewrite Hnocall in Hcall.
    + split_and!; [done| |done]. intros opener argument Hcall.
      destruct (Hwaits _ _ Hcall) as [Hnone [Hbelow|Hbelow]];
        [|by rewrite (doomed_constrained _ Hbelow) in Hconstrained].
      split; [done|]. right. unfold doomed. rewrite Hchildren, Htype.
      destruct (alike _ _ Halike) as (-> & _). rewrite Hbelow.
      by apply (adopter_rejects _ _ _ _ Hcall).
  - (* the node is placed *)
    destruct Hup as (Hkids' & Hwaits & Hup).
    split_and!; try done.
    + rewrite Hchildren, forallb_app, Hkids'. cbn. by rewrite (Hcalls Hcomplete _ Halike).
    + intros _. unfold own_call. rewrite Htype.
      destruct (call (ASType parent)) as [[opener argument]|] eqn:Hcall; [|done].
      destruct (Hwaits _ _ eq_refl) as [Hnone [Hbelow|Hbelow]];
        [|by rewrite (doomed_constrained _ Hbelow) in Hconstrained].
      rewrite Hchildren, Hnone. cbn. destruct (alike _ _ Halike) as (-> & _).
      by apply bool_decide_eq_true_2.
    + intros Hopen opener argument Hcall. rewrite Htype in Hcall.
      destruct (Hwaits _ _ Hcall) as [Hnone _].
      apply call_operands in Hcall as (Hcount & _).
      rewrite Hdone, Hchildren, Hnone, Hcount in Hopen. cbn in Hopen.
      by rewrite orb_true_r in Hopen.
    + apply (awaited_fields parent); [done| |done].
      unfold doomed. rewrite Hchildren, Htype. by destruct (children parent).
  - (* the terminator closes the node *)
    assert (Hnocall : call (ASType node) = None).
    { destruct (call (ASType node)) as [[opener argument]|] eqn:Hcall; [|done].
      apply call_operands in Hcall as (_ & Hnone & _). by rewrite Hnone in Hcloses. }
    split_and!; try done.
    + intros _. unfold own_call. cbn [ASType set_complete]. by rewrite Hnocall.
    + by apply (awaited_fields node).
  - (* a [return] without a value *)
    split_and!; try done.
    + intros _. unfold own_call. cbn [ASType set_complete]. by rewrite Hreturn.
    + by apply (awaited_fields node).
  - (* the terminator separates *)
    split_and!; try done. intros _ opener argument Hcall.
    apply call_operands in Hcall as (_ & _ & Hnone & _). by rewrite Hnone in Hignores.
  - (* the token makes a child *)
    split_and!; try done.
    + by rewrite Hchildren.
    + intros Hfull. unfold own_call.
      destruct (call (ASType node')) as [[opener argument]|] eqn:Hcall; [|done].
      apply call_operands in Hcall as (Hcount & _). by rewrite Hdone, Hcount in Hfull.
    + intros _ opener argument Hcall.
      assert (Hsame : ASType node' = Lexer.ASType_of token).
      { destruct Hmade as [[_ Hneg]|[_ Hmade]]; [by rewrite Hneg in Hcall|].
        rewrite Hmade in Hcall |- *. apply child_call. by rewrite Hcall. }
      cbn [followed] in Hfollowed. rewrite <- Hsame, Hcall in Hfollowed.
      destruct tokens as [|next tokens]; [done|].
      apply andb_prop in Hfollowed as [Hnext _]. by apply bool_decide_eq_true in Hnext.
    + split_and!; [done| |done]. intros opener argument Hcall.
      pose proof (Hwait Hcomplete _ _ Hcall) as Hnext. cbn in Hnext.
      pose proof (call_operands _ _ _ Hcall) as (Hcount & _ & _ & _ & _ & Hsub & Hargument).
      split.
      * destruct Hchain as (Hframe & _). unfold frame, counting in Hframe.
        rewrite Hcomplete, Hcount in Hframe.
        apply andb_prop in Hframe as [[_ Hlength]%andb_prop _].
        apply Nat.ltb_lt in Hlength. destruct (children node); [done|cbn in Hlength; lia].
      * left. destruct Hmade as [[Hneg _]|[_ Hmade]]; [by rewrite Hnext in Hneg|].
        by rewrite Hmade, Hnext.
Qed.

(** **** What the lexer looks ahead for *)

Lemma first_match_exec input token :
  first_match input token ->
  Lexer.exec_alternatives Lexer.lexerData (drop (Lexer.pos token) input) =
  Some (Lexer.ASType_of token, drop (Lexer.pos token + Lexer.length_of token) input).
Proof.
  intros (before & r & after & -> & Hmatch & Hnone).
  induction Hnone as [|[type r'] before Hfails _ IH]; cbn [app Lexer.exec_alternatives].
  - by rewrite Hmatch.
  - cbn in Hfails. by rewrite Hfails.
Qed.

Lemma lexerData_NoDup : NoDup (Lexer.lexerData.*1).
Proof. apply (bool_decide_unpack _). vm_compute. reflexivity. Qed.

Lemma lexerData_entry before type r after k r' :
  Lexer.lexerData = before ++ (type, r) :: after ->
  Lexer.lexerData !! k = Some (type, r') -> r = r'.
Proof.
  intros Hdata Hk.
  assert (Hmiddle : Lexer.lexerData !! length before = Some (type, r))
    by (rewrite Hdata; apply list_lookup_middle; done).
  assert (Hsame : k = length before).
  { apply (NoDup_lookup _ _ _ type lexerData_NoDup); rewrite list_lookup_fmap.
    - by rewrite Hk.
    - by rewrite Hmiddle. }
  subst k. rewrite Hmiddle in Hk. by injection Hk.
Qed.

Lemma ahead_next r (p : N -> bool) input rest :
  Lexer.rmatch (Lexer.Cat r (Lexer.Ahead (Lexer.Class p))) input Some = Some rest ->
  exists c tail, rest = c :: tail /\ p c = true.
Proof.
  cbn [Lexer.rmatch]. intros (s' & _ & Hahead)%Lexer.rmatch_suffix.
  destruct s' as [|c tail]; [done|]. destruct (p c) eqn:Hc; [|done].
  injection Hahead as <-. by exists c, tail.
Qed.

Lemma exec_paren tail :
  Lexer.exec_alternatives Lexer.lexerData (40%N :: tail) = Some (PAREN, tail).
Proof. vm_compute. reflexivity. Qed.

Lemma exec_bracket tail :
  Lexer.exec_alternatives Lexer.lexerData (91%N :: tail) = Some (ADDRESS, tail).
Proof. vm_compute. reflexivity. Qed.

Lemma opener_next input token opener argument :
  token_ok input token -> call (Lexer.ASType_of token) = Some (opener, argument) ->
  exists tail,
    Lexer.exec_alternatives Lexer.lexerData
      (drop (Lexer.pos token + Lexer.length_of token) input) = Some (opener, tail) /\
    drop (Lexer.pos token + Lexer.length_of token) input <> [].
Proof.
  intros (_ & _ & _ & _ & before & r & after & Hdata & Hmatch & _) Hcall.
  destruct (Lexer.ASType_of token) eqn:Htype; try done; injection Hcall as <- <-.
  - pose proof (lexerData_entry _ _ _ _ 53 _ Hdata eq_refl) as ->.
    apply ahead_next in Hmatch as (c & tail & -> & Hc%N.eqb_eq). subst c.
    exists tail. split; [apply exec_paren|done].
  - pose proof (lexerData_entry _ _ _ _ 54 _ Hdata eq_refl) as ->.
    apply ahead_next in Hmatch as (c & tail & -> & Hc%N.eqb_eq). subst c.
    exists tail. split; [apply exec_bracket|done].
Qed.

Lemma followed_tokens input lastIndex front :
  Forall (token_ok input) front ->
  contiguous lastIndex (front ++ [Lexer.sentinel (length input)]) = true ->
  followed (front ++ [Lexer.sentinel (length input)]) = true.
Proof.
  intros Hall. revert lastIndex.
  induction Hall as [|token front Htoken Hfront IH]; intros lastIndex Hcont; [done|].
  cbn [app contiguous] in Hcont.
  apply andb_prop in Hcont as [Hpos%Nat.eqb_eq Hcont].
  cbn [app followed]. rewrite (IH _ Hcont), andb_true_r.
  destruct (call (Lexer.ASType_of token)) as [[opener argument]|] eqn:Hcall; [|done].
  destruct (opener_next _ _ _ _ Htoken Hcall) as (tail & Hexec & Hmore).
  rewrite Hpos in Hexec, Hmore.
  destruct front as [|next front]; cbn [app contiguous] in Hcont |- *;
    apply andb_prop in Hcont as [Hnext%Nat.eqb_eq _].
  - cbn in Hnext. rewrite <- Hnext in Hmore. by rewrite drop_all in Hmore.
  - apply Forall_cons in Hfront as [(_ & _ & _ & _ & Hfirst) _].
    apply first_match_exec in Hfirst. rewrite Hnext, Hexec in Hfirst.
    injection Hfirst as <- _. by apply bool_decide_eq_true_2.
Qed.

Lemma lexify_followed input tokens :
  Lexer.lexify input = Some tokens -> followed tokens = true.
Proof. intros (front & -> & Hall & Hcont)%lexify_tokens. by eapply followed_tokens. Qed.

Lemma awaited_root (below : Node) parents :
  awaited below parents -> forallb calls (children below) = true ->
  forallb calls (children (root_of below parents)) = true.
Proof.
  revert below. induction parents as [|parent parents IH]; intros below; [done|].
  intros (Hkids & _ & Hrest) _. rewrite root_of_cons. by apply IH.
Qed.

(** X23.  The rules that syntax.js leaves out hold: in the tree of the
    tokens that [lexify] makes of a text, when the loop of [parse] and
    the check of the root let it through, every [CALL] has one child, an
    [ARG_LIST], and every [MEMORY_ACCESS] has one child, an [ADDRESS]. *)
Theorem parse_calls (input : list N) (tokens : list Lexer.Token) (heap : Heap)
  (root : Node) (heap' : Heap) :
  Lexer.lexify input = Some tokens ->
  parse tokens heap = inr (root, heap') ->
  calls root = true.
Proof.
  intros Hlexify. unfold parse.
  destruct (createASTNode None None ROOT heap) as [first heap1] eqn:Hcreate.
  destruct (frame_created _ _ _ _ _ _ Hcreate) as (Htype & Htoken & Hnone & Hdone & Hframe).
  assert (Hcalling : calling tokens first []).
  { split_and!; [split_and!; [by apply Hframe|done..]|by rewrite Hnone| | |done|].
    - intros _. unfold own_call. by rewrite Htype.
    - intros _ opener argument Hcall. by rewrite Htype in Hcall.
    - by apply (lexify_followed input). }
  pose proof (loop_invariant calling
                (fun token tokens' node parents heap again node' parents' heap' =>
                   iteration_calling token tokens' node parents heap again node' parents'
                     heap')
                tokens first [] heap1 Hcalling) as Hloop.
  destruct (loop tokens first [] heap1) as [e|[[node parents] heap2]]; [done|].
  destruct Hloop as ((_ & _ & Hroot & _) & Hkids & _ & _ & Hup & _).
  destruct (check_children ROOT (root_of node parents)) as [e|[violation|]]; try done.
  intros [= <- <-]. rewrite calls_unfold, (awaited_root _ _ Hup Hkids), andb_true_r.
  unfold own_call. by rewrite Hroot.
Qed.


(** *** Precedence

    A node with a left operand is in the tree because the token of the
    node took the operand from the parent that waited for it: [parse]
    asked [shouldReparent] about the ASType of that parent and the
    ASType of the token.  And a node that has all its operands was
    placed, and not taken by the next token as its left operand for a
    while longer, because [shouldReparent] said no. *)
Definition binds (parentType : Syntax.ASType) (parentToken : option Lexer.Token)
  (position : nat) (child : Node) : bool :=
  if (position <? leftOperands parentType)%nat then
    bool_decide (rightOperands (ASType child) = 0%nat) ||
    match parentToken with
    | Some token => negb (shouldReparent (ASType child) (Lexer.ASType_of token))
    | None => false
    end
  else
    bool_decide (leftOperands (ASType child) = 0%nat) ||
    match token child with
    | Some token => shouldReparent parentType (Lexer.ASType_of token)
    | None => false
    end.

Fixpoint binding (parentType : Syntax.ASType) (parentToken : option Lexer.Token)
  (position : nat) (children : list Node) : bool :=
  match children with
  | [] => true
  | child :: children =>
      binds parentType parentToken position child &&
      binding parentType parentToken (S position) children
  end.

(** In the tree, an operator that is the right operand of a node binds
    tighter than the node, and the node does not bind tighter than an
    operator that is its left operand. *)
Fixpoint climbing (node : Node) : bool :=
  match node with
  | Node_ _ type children _ _ _ _ _ token =>
      binding type token 0 children && forallb climbing children
  end.

Lemma climbing_unfold (node : Node) :
  climbing node =
  binding (ASType node) (token node) 0 (children node) && forallb climbing (children node).
Proof. by destruct node. Qed.

Lemma binds_alike parentType parentToken position (child child' : Node) :
  erase child = erase child' ->
  binds parentType parentToken position child = binds parentType parentToken position child'.
Proof. intros (Htype & _ & Htoken & _)%alike. unfold binds. by rewrite Htype, Htoken. Qed.

Lemma binding_alike parentType parentToken position (nodes nodes' : list Node) :
  erase <$> nodes = erase <$> nodes' ->
  binding parentType parentToken position nodes =
  binding parentType parentToken position nodes'.
Proof.
  revert position nodes'. induction nodes as [|node nodes IH]; intros position [|node' nodes'];
    try done.
  intros [= Hnode Hnodes]. cbn [binding].
  by rewrite (binds_alike _ _ _ _ _ Hnode), (IH _ _ Hnodes).
Qed.

Lemma binding_app parentType parentToken position (nodes : list Node) (node : Node) :
  binding parentType parentToken position (nodes ++ [node]) =
  binding parentType parentToken position nodes &&
  binds parentType parentToken (position + length nodes) node.
Proof.
  revert position. induction nodes as [|first nodes IH]; intros position; cbn.
  - by rewrite Nat.add_0_r, andb_true_r.
  - rewrite IH, andb_assoc. by replace (position + S (length nodes))%nat
      with (S position + length nodes)%nat by lia.
Qed.

Lemma climbing_erase (node : Node) : climbing (erase node) = climbing node.
Proof.
  induction node as [node IH] using Node_induction.
  rewrite !climbing_unfold. destruct (erase_fields node) as (-> & _ & -> & ->). f_equal.
  - apply binding_alike. clear.
    induction (children node) as [|child nodes IHnodes]; [done|]. cbn.
    by rewrite erase_erase, IHnodes.
  - induction IH as [|child nodes Hchild _ IHnodes]; [done|]. cbn. by rewrite Hchild, IHnodes.
Qed.

Lemma climbing_alike (node node' : Node) :
  erase node = erase node' -> climbing node = climbing node'.
Proof. intros Heq. by rewrite <- (climbing_erase node), Heq, climbing_erase. Qed.

Lemma climbing_fields (node node' : Node) :
  ASType node' = ASType node -> children node' = children node -> token node' = token node ->
  climbing node' = climbing node.
Proof.
  intros Htype Hchildren Htoken. by rewrite !climbing_unfold, Htype, Hchildren, Htoken.
Qed.

(** The parents of the node: a node with a left operand has taken it
    from its parent. *)
Fixpoint adopted (below : Node) (parents : list Node) : Prop :=
  match parents with
  | [] => True
  | parent :: parents =>
      (leftOperands (ASType below) <> 0%nat ->
       exists token,
         Parse.token below = Some token /\
         shouldReparent (ASType parent) (Lexer.ASType_of token) = true) /\
      climbing parent = true /\
      adopted parent parents
  end.

Definition climb (tokens : list Lexer.Token) (node : Node) (parents : list Node) : Prop :=
  chain node parents /\ climbing node = true /\ adopted node parents /\
  (complete node = true -> rightOperands (ASType node) <> 0%nat ->
   exists token rest,
     tokens = token :: rest /\ skip (Lexer.ASType_of token) = false /\
     shouldReparent (ASType node) (Lexer.ASType_of token) = false).

Lemma adopted_fields (below below' : Node) parents :
  ASType below' = ASType below -> token below' = token below ->
  adopted below parents -> adopted below' parents.
Proof.
  intros Htype Htoken. destruct parents as [|parent parents]; [done|].
  cbn [adopted]. by rewrite Htype, Htoken.
Qed.

Lemma adopted_root (below : Node) parents :
  climbing below = true -> adopted below parents ->
  climbing (root_of below parents) = true.
Proof.
  revert below. induction parents as [|parent parents IH]; intros below; [done|].
  intros _ (_ & Hparent & Hrest). rewrite root_of_cons. by apply IH.
Qed.

Lemma suffix_operands (type : Syntax.ASType) :
  leftOperands type <> 0%nat -> expectedChildCount type = Some 1%nat ->
  rightOperands type = 0%nat.
Proof. revert type. tabulate. Qed.

Lemma leaf_operands (type : Syntax.ASType) :
  expectedChildCount type = Some 0%nat -> rightOperands type = 0%nat.
Proof. revert type. tabulate. Qed.

Lemma open_operands (type terminator : Syntax.ASType) :
  requiresTerminator type = Some terminator -> rightOperands type = 0%nat.
Proof. revert type terminator. tabulate. Qed.

Lemma terminator_operands (type : Syntax.ASType) :
  isTerminator type = true -> leftOperands type = 0%nat.
Proof. revert type. tabulate. Qed.

Lemma iteration_climb token tokens (node : Node) parents heap again node' parents' heap' :
  climb (token :: tokens) node parents ->
  iteration token node parents heap = inr (again, node', parents', heap') ->
  climb (if again then token :: tokens else tokens) node' parents'.
Proof.
  intros (Hchain & Hclimbing & Hadopted & Hsettled) Hrun.
  pose proof (iteration_chain _ _ _ _ _ _ _ _ Hchain Hrun) as Hchain'.
  apply iteration_step in Hrun.
  inversion Hrun as
    [Hskip
    |parent rest adopter child Hskip Hcomplete -> Hreparent Htype Htoken Hchildren Halike
       _ _ Hdone
    |parent rest parent' child Hskip Hcomplete -> Hreparent Htype Htoken Hchildren Halike
       _ _ Hdone
    |Hskip Hcomplete Hterminator Hcloses
    |Hskip Hcomplete Hterminator Hreturn
    |Hskip Hcomplete Hterminator Hignores
    |child Hskip Hcomplete Hterminator Hmade Htoken Hchildren Hdone]; subst.
  - (* white space and comments *)
    split_and!; try done. intros Hcomplete Hright.
    destruct (Hsettled Hcomplete Hright) as (first & rest & [= <- <-] & Hnot & _).
    by rewrite Hnot in Hskip.
  - (* the token takes the node as its left operand *)
    assert (Hleft : leftOperands (Lexer.ASType_of token) <> 0%nat).
    { unfold shouldReparent in Hreparent.
      destruct (bool_decide (leftOperands _ = _)) eqn:Hzero; [done|].
      by apply bool_decide_eq_false in Hzero. }
    destruct (adopter_operands _ (ASType parent) Hleft) as (Hleft' & _ & _).
    rewrite <- Htype in Hleft'.
    destruct (alike _ _ Halike) as (Hsame & _).
    split_and!; try done.
    + rewrite climbing_unfold, Hchildren, Htoken. cbn [binding forallb].
      rewrite (climbing_alike _ _ Halike), Hclimbing, !andb_true_r.
      unfold binds. destruct (0 <? leftOperands (ASType node'))%nat eqn:Hfirst;
        [|apply Nat.ltb_ge in Hfirst; lia].
      rewrite Hsame.
      destruct (decide (rightOperands (ASType node) = 0%nat)) as [Hnone|Hright];
        [by rewrite bool_decide_eq_true_2|].
      destruct (Hsettled Hcomplete Hright) as (first & others & [= <- <-] & _ & ->).
      apply orb_true_r.
    + destruct Hadopted as (_ & Hparent & Hrest). split_and!; [|done|done].
      intros _. by exists token.
    + intros Hfull Hright. rewrite Hdone in Hfull. apply bool_decide_eq_true in Hfull.
      by rewrite (suffix_operands _ Hleft') in Hright.
  - (* the node is placed *)
    destruct Hadopted as (Htaken & Hparent & Hrest).
    destruct Hchain as (_ & [[Hframe _] _]%Forall_cons & _).
    destruct (alike _ _ Halike) as (Hsame & _ & Hsametoken & _).
    split_and!; try done.
    + rewrite climbing_unfold in Hparent |- *. rewrite Htype, Htoken, Hchildren.
      apply andb_prop in Hparent as [Hbinding Hkids].
      rewrite binding_app, forallb_app, Hbinding, Hkids. cbn [forallb Nat.add andb].
      rewrite (climbing_alike _ _ Halike), Hclimbing, !andb_true_r.
      unfold binds, frame, left_first in *.
      apply andb_prop in Hframe as [_ Hleft].
      destruct (length (children parent) <? leftOperands (ASType parent))%nat eqn:Hfirst.
      { apply Nat.ltb_lt in Hfirst. apply orb_prop in Hleft as [Hleft|Hleft].
        - apply bool_decide_eq_true in Hleft. lia.
        - apply negb_true_iff, bool_decide_eq_false in Hleft.
          assert (leftOperands (ASType parent) <= 1)%nat; [|lia].
          clear. generalize (ASType parent). tabulate. }
      rewrite Hsame, Hsametoken.
      destruct (decide (leftOperands (ASType node) = 0%nat)) as [Hnone|Hsome];
        [by rewrite bool_decide_eq_true_2|].
      destruct (Htaken Hsome) as (own & -> & ->). apply orb_true_r.
    + by apply (adopted_fields parent).
    + intros _ Hright. exists token, tokens. split_and!; [done|done|by rewrite Htype].
  - (* the terminator closes the node *)
    split_and!; try done.
    + by rewrite (climbing_fields node).
    + by apply (adopted_fields node).
    + intros _ Hright. cbn [ASType set_complete] in Hright.
      by rewrite (open_operands _ _ Hcloses) in Hright.
  - (* a [return] without a value *)
    split_and!; try done.
    + by rewrite (climbing_fields node).
    + by apply (adopted_fields node).
    + intros _ _. exists token, tokens. split_and!; [done|done|].
      unfold shouldReparent. by rewrite (terminator_operands _ Hterminator).
  - (* the terminator separates *)
    split_and!; try done. intros Hfull. by rewrite Hfull in Hcomplete.
  - (* the token makes a child *)
    assert (Hleft : leftOperands (ASType node') = 0%nat).
    { destruct Hmade as [[_ ->]|[Hzero ->]]; [done|by apply child_operands]. }
    split_and!; try done.
    + rewrite climbing_unfold. by rewrite Hchildren.
    + intros Hfull Hright. rewrite Hdone in Hfull. apply bool_decide_eq_true in Hfull.
      by rewrite (leaf_operands _ Hfull) in Hright.
Qed.

(** X24.  The tree keeps precedence and associativity as
    [shouldReparent] decides them: when the loop of [parse] and the
    check of the root let a tree through, then for every node in it, a
    child that has a left operand and is not itself the left operand of
    the node was worth reparenting to, for the ASType of the node and
    the ASType of the token of the child; and a left operand of the
    node that has operands on its right was not, for its own ASType and
    the ASType of the token of the node. *)
Theorem parse_precedence (tokens : list Lexer.Token) (heap : Heap) (root : Node)
  (heap' : Heap) :
  parse tokens heap = inr (root, heap') -> climbing root = true.
Proof.
  unfold parse. destruct (createASTNode None None ROOT heap) as [first heap1] eqn:Hcreate.
  destruct (frame_created _ _ _ _ _ _ Hcreate) as (Htype & Htoken & Hnone & Hdone & Hframe).
  assert (Hclimb : climb tokens first []).
  { split_and!; [split_and!; [by apply Hframe|done..]| |done|].
    - by rewrite climbing_unfold, Hnone.
    - intros _. by rewrite Htype. }
  pose proof (loop_invariant climb
                (fun token tokens' node parents heap again node' parents' heap' =>
                   iteration_climb token tokens' node parents heap again node' parents' heap')
                tokens first [] heap1 Hclimb) as Hloop.
  destruct (loop tokens first [] heap1) as [e|[[node parents] heap2]]; [done|].
  destruct Hloop as (_ & Hclimbing & Hadopted & _).
  destruct (check_children ROOT (root_of node parents)) as [e|[violation|]]; try done.
  intros [= <- <-]. by apply adopted_root.
Qed.


End Shapes.

(** A text and its tree, with scope objects that are numbered and
    definitions that record nothing. *)
Module ParserSamples.
Import Parse.

Definition numbered : Scopes :=
  {| Scope := nat; Meta := unit; Heap := nat; Failure := Empty_set;
     createScope := fun _ heap => (heap, S heap);
     definition := fun _ _ _ _ heap => inr (tt, heap);
     defineMemory := fun _ heap => inr (tt, heap);
     defineTable := fun _ heap => inr (tt, heap);
     reference := fun _ heap => heap |}.

Definition text : string :=
  "main: fn (a: i32) void { a = a = f(1 - 2 - 3 * p[4]); return }".

Definition input : list N := Lexer.codes text.

Definition tokens : list Lexer.Token :=
  Eval vm_compute in default [] (Lexer.lexify input).

Definition root : Node nat unit :=
  Eval vm_compute in
    match parse (H := numbered) tokens 0%nat with
    | inr (root, _) => root
    | inl _ => (createASTNode (H := numbered) None None ROOT 0%nat).1
    end.

End ParserSamples.

Lemma parse_well_formed_witness :
  Parse.parse (H := ParserSamples.numbered) ParserSamples.tokens 0%nat =
    inr (ParserSamples.root, 3%nat) /\
  Parse.ASType ParserSamples.root = ROOT /\ Parse.token ParserSamples.root = None /\
  constrained (H := ParserSamples.numbered) ParserSamples.root = true /\
  sound (H := ParserSamples.numbered) ParserSamples.root = true.
Proof.
  assert (Hparse : Parse.parse (H := ParserSamples.numbered) ParserSamples.tokens 0%nat =
                   inr (ParserSamples.root, 3%nat)) by (vm_compute; reflexivity).
  split; [exact Hparse|].
  exact (parse_well_formed (H := ParserSamples.numbered) _ _ _ _ Hparse).
Defined.

Lemma parse_tokens_witness :
  Lexer.lexify ParserSamples.input = Some ParserSamples.tokens /\
  Parse.parse (H := ParserSamples.numbered) ParserSamples.tokens 0%nat =
    inr (ParserSamples.root, 3%nat) /\
  tokens_of (H := ParserSamples.numbered) ParserSamples.root =
    List.filter significant ParserSamples.tokens.
Proof.
  assert (Hlexify : Lexer.lexify ParserSamples.input = Some ParserSamples.tokens)
    by (vm_compute; reflexivity).
  assert (Hparse : Parse.parse (H := ParserSamples.numbered) ParserSamples.tokens 0%nat =
                   inr (ParserSamples.root, 3%nat)) by (vm_compute; reflexivity).
  split; [exact Hlexify|]. split; [exact Hparse|].
  exact (parse_tokens (H := ParserSamples.numbered) _ _ _ _ _ Hlexify Hparse).
Defined.

Lemma parse_no_TypeError_witness :
  Lexer.lexify ParserSamples.input = Some ParserSamples.tokens /\
  Parse.parse (H := ParserSamples.numbered) ParserSamples.tokens 0%nat <>
    inl Parse.TypeError.
Proof.
  assert (Hlexify : Lexer.lexify ParserSamples.input = Some ParserSamples.tokens)
    by (vm_compute; reflexivity).
  split; [exact Hlexify|].
  exact (parse_no_TypeError (H := ParserSamples.numbered) _ _ 0%nat Hlexify).
Defined.

Lemma parse_calls_witness :
  Lexer.lexify ParserSamples.input = Some ParserSamples.tokens /\
  Parse.parse (H := ParserSamples.numbered) ParserSamples.tokens 0%nat =
    inr (ParserSamples.root, 3%nat) /\
  calls (H := ParserSamples.numbered) ParserSamples.root = true.
Proof.
  assert (Hlexify : Lexer.lexify ParserSamples.input = Some ParserSamples.tokens)
    by (vm_compute; reflexivity).
  assert (Hparse : Parse.parse (H := ParserSamples.numbered) ParserSamples.tokens 0%nat =
                   inr (ParserSamples.root, 3%nat)) by (vm_compute; reflexivity).
  split; [exact Hlexify|]. split; [exact Hparse|].
  exact (parse_calls (H := ParserSamples.numbered) _ _ _ _ _ Hlexify Hparse).
Defined.

Lemma parse_precedence_witness :
  Parse.parse (H := ParserSamples.numbered) ParserSamples.tokens 0%nat =
    inr (ParserSamples.root, 3%nat) /\
  climbing (H := ParserSamples.numbered) ParserSamples.root = true.
Proof.
  assert (Hparse : Parse.parse (H := ParserSamples.numbered) ParserSamples.tokens 0%nat =
                   inr (ParserSamples.root, 3%nat)) by (vm_compute; reflexivity).
  split; [exact Hparse|].
  exact (parse_precedence (H := ParserSamples.numbered) _ _ _ _ Hparse).
Defined.


(** ** The storage types that the lexer passes *)

Section StorageTypes.
Import Lexer.

Lemma rmatch_Cat_eq r1 r2 A s (k : list N -> option A) :
  rmatch (Cat r1 r2) s k = rmatch r1 s (fun s' => rmatch r2 s' k).
Proof. done. Qed.

Lemma rmatch_Or_inv r1 r2 A s (k : list N -> option A) x :
  rmatch (Or r1 r2) s k = Some x -> rmatch r1 s k = Some x \/ rmatch r2 s k = Some x.
Proof.
  cbn [rmatch]. destruct (rmatch r1 s k) as [y|]; [intros [= ->]; by left|by right].
Qed.

Lemma rmatch_NotAhead_inv r A s (k : list N -> option A) x :
  rmatch (NotAhead r) s k = Some x -> k s = Some x.
Proof. cbn [rmatch]. by destruct (rmatch r s _). Qed.

Lemma rmatch_lit_codes cs A s (k : list N -> option A) x :
  rmatch (lit_codes cs) s k = Some x -> exists s', s = cs ++ s' /\ k s' = Some x.
Proof.
  revert s k. induction cs as [|c [|c' cs] IH]; intros s k.
  - intros Hk. by exists s.
  - cbn. destruct s as [|c' s']; [done|]. destruct (c =? c')%N eqn:Hc; [|done].
    apply N.eqb_eq in Hc as ->. intros Hk. by exists s'.
  - change (lit_codes (c :: c' :: cs)) with (Cat (chr c) (lit_codes (c' :: cs))).
    rewrite rmatch_Cat_eq. cbn [rmatch chr].
    destruct s as [|first s']; [done|]. destruct (c =? first)%N eqn:Hc; [|done].
    apply N.eqb_eq in Hc as ->. intros (s'' & -> & Hk)%IH. by exists s''.
Qed.

Lemma rmatch_lit text A s (k : list N -> option A) x :
  rmatch (lit text) s k = Some x -> exists s', s = codes text ++ s' /\ k s' = Some x.
Proof. apply rmatch_lit_codes. Qed.

(** The text of a token is what its pattern has matched. *)
Lemma token_text input token matched :
  token_ok input token ->
  drop (pos token) input = matched ++ drop (pos token + length_of token) input ->
  text token = matched.
Proof.
  intros (Hslice & Hlength & _) Hdrop. unfold slice in Hslice.
  assert (Hsize : length matched = length_of token).
  { apply (f_equal length) in Hdrop, Hslice.
    rewrite length_app, !length_drop in Hdrop. rewrite length_take, length_drop in Hslice.
    lia. }
  by rewrite <- Hslice, Hdrop, <- Hsize, take_app_length.
Qed.

Ltac language H :=
  repeat first
    [ rewrite rmatch_Cat_eq in H
    | apply rmatch_Or_inv in H as [H|H]
    | apply rmatch_lit in H as (? & -> & H)
    | apply rmatch_NotAhead_inv in H ].

Ltac storage_type text Htoken Hs :=
  exists text; split;
  [apply (bool_decide_unpack _); vm_compute; reflexivity
  |apply (token_text _ _ _ Htoken); rewrite <- Hs; reflexivity].

(** X25.  What [lexify] passes as a [STORAGE_TYPE] or a [VALUE_TYPE] is
    one of the fourteen storage types, and [define] can take each of
    them apart: the pointer branch finds the return type and the size it
    looks for. *)
Theorem lexify_storage_types (input : list N) (tokens : list Token) (token : Token)
  (definition : Def.t) :
  lexify input = Some tokens -> token ∈ tokens ->
  ASType_of token = STORAGE_TYPE \/ ASType_of token = VALUE_TYPE ->
  exists storageType,
    storageType ∈ Parser.storageTypes /\ text token = codes storageType /\
    is_Some (Parser.define_PTR definition storageType).
Proof.
  intros (front & -> & Hall & _)%lexify_tokens Hin Htype.
  apply elem_of_app in Hin as [Hin|Hin%list_elem_of_singleton];
    [|subst token; by destruct Htype].
  rewrite Forall_forall in Hall. pose proof (Hall _ Hin) as Htoken.
  assert (Hstorage : exists storageType,
            storageType ∈ Parser.storageTypes /\ text token = codes storageType).
  { pose proof Htoken as (_ & _ & _ & _ & before & r & after & Hdata & Hmatch & _).
    remember (drop (pos token) input) as s eqn:Hs.
    destruct Htype as [Htype|Htype]; rewrite Htype in Hdata.
    - pose proof (lexerData_entry _ _ _ _ 8 _ Hdata eq_refl) as ->.
      cbn [alts] in Hmatch. language Hmatch; injection Hmatch as Hrest; subst;
        first [ storage_type "i32_s8"%string Htoken Hs | storage_type "i32_s16"%string Htoken Hs
              | storage_type "i32_u8"%string Htoken Hs | storage_type "i32_u16"%string Htoken Hs
              | storage_type "i64_s8"%string Htoken Hs | storage_type "i64_s16"%string Htoken Hs
              | storage_type "i64_u8"%string Htoken Hs | storage_type "i64_u16"%string Htoken Hs
              | storage_type "i64_s32"%string Htoken Hs | storage_type "i64_u32"%string Htoken Hs ].
    - pose proof (lexerData_entry _ _ _ _ 9 _ Hdata eq_refl) as ->.
      cbn [alts] in Hmatch. language Hmatch; injection Hmatch as Hrest; subst;
        first [ storage_type "i32"%string Htoken Hs | storage_type "i64"%string Htoken Hs
              | storage_type "f32"%string Htoken Hs | storage_type "f64"%string Htoken Hs ]. }
  destruct Hstorage as (storageType & Hlisted & Htext).
  exists storageType. split_and!; [done|done|].
  unfold Parser.storageTypes in Hlisted.
  repeat (apply elem_of_cons in Hlisted as [->|Hlisted]); [..|by apply elem_of_nil in Hlisted];
    by eexists.
Qed.

End StorageTypes.

Module StorageSamples.

Definition input : list N := Lexer.codes "p: ptr i64_u16".

Definition tokens : list Lexer.Token :=
  Eval vm_compute in default [] (Lexer.lexify input).

Definition token : Lexer.Token :=
  {| Lexer.ASType_of := STORAGE_TYPE; Lexer.text := Lexer.codes "i64_u16";
     Lexer.length_of := 7; Lexer.pos := 7 |}.

End StorageSamples.

Lemma lexify_storage_types_witness :
  Lexer.lexify StorageSamples.input = Some StorageSamples.tokens /\
  StorageSamples.token ∈ StorageSamples.tokens /\
  (Lexer.ASType_of StorageSamples.token = STORAGE_TYPE \/
   Lexer.ASType_of StorageSamples.token = VALUE_TYPE) /\
  exists storageType,
    storageType ∈ Parser.storageTypes /\
    Lexer.text StorageSamples.token = Lexer.codes storageType /\
    is_Some (Parser.define_PTR Samples.pointer storageType).
Proof.
  assert (Hlexify : Lexer.lexify StorageSamples.input = Some StorageSamples.tokens)
    by (vm_compute; reflexivity).
  assert (Hin : StorageSamples.token ∈ StorageSamples.tokens)
    by (apply (list_elem_of_lookup_2 _ 5); reflexivity).
  assert (Htype : Lexer.ASType_of StorageSamples.token = STORAGE_TYPE \/
                  Lexer.ASType_of StorageSamples.token = VALUE_TYPE) by (left; reflexivity).
  split; [exact Hlexify|]. split; [exact Hin|]. split; [exact Htype|].
  exact (lexify_storage_types _ _ _ Samples.pointer Hlexify Hin Htype).
Defined.
